(** * GlazeWM IPC client ([src/client.ts], class [WmClient])

    A shallow embedding of the client: the callback registries, the
    connection manager, the request correlator ([sendAndWaitReply]) and the
    subscription multiplexer ([subscribeMany]), run on an explicit model of
    the JavaScript event loop (promises, a FIFO microtask queue, and the
    socket's events as macrotasks). *)

From Stdlib Require Import List Arith Lia Bool String Ascii ZArith.
From Stdlib Require Import DecimalString.
Import ListNotations.
Local Open Scope string_scope.
Local Open Scope list_scope.

Set Implicit Arguments.
Set Warnings "-register-all".

(* ================================================================== *)
(** * Decoded payloads *)
(* ================================================================== *)

(** The value [JSON.parse] returns.  Numbers are the integer-valued ones. *)
Inductive Json : Type :=
| JNull
| JBool (b : bool)
| JNum (n : Z)
| JStr (s : string)
| JArr (items : list Json)
| JObj (fields : list (string * Json)).

(** A JavaScript value read from a decoded payload: [None] is [undefined]. *)
Definition JsValue := option Json.

Fixpoint assoc (key : string) (fields : list (string * Json)) : JsValue :=
  match fields with
  | [] => None
  | (k, v) :: rest => if String.eqb k key then Some v else assoc key rest
  end.

(** [v.key] for a [v] that is neither [null] nor [undefined], for the keys
    the client reads ([messageType], [clientMessage], [error], [data],
    [type], [subscriptionId]): only objects carry them. *)
Definition prop (v : Json) (key : string) : JsValue :=
  match v with
  | JObj fields => assoc key fields
  | _ => None
  end.

(** [v?.key]. *)
Definition opt_prop (v : JsValue) (key : string) : JsValue :=
  match v with
  | None | Some JNull => None
  | Some o => prop o key
  end.

(** [v === text] for a string [text]. *)
Definition strict_eq_string (v : JsValue) (text : string) : bool :=
  match v with
  | Some (JStr s) => String.eqb s text
  | _ => false
  end.

(** JavaScript truthiness, as tested by [if (... && serverMessage.error)]. *)
Definition truthy (v : JsValue) : bool :=
  match v with
  | None | Some JNull => false
  | Some (JBool b) => b
  | Some (JNum n) => negb (Z.eqb n 0)
  | Some (JStr s) => negb (String.eqb s EmptyString)
  | Some (JArr _) | Some (JObj _) => true
  end.

(** [events.includes(v)] for an array of event-type strings. *)
Definition includes (events : list string) (v : JsValue) : bool :=
  match v with
  | Some (JStr t) => existsb (String.eqb t) events
  | _ => false
  end.

Fixpoint join (sep : string) (parts : list string) : string :=
  match parts with
  | [] => EmptyString
  | [p] => p
  | p :: rest => (p ++ sep ++ join sep rest)%string
  end.

Definition string_of_Z (n : Z) : string :=
  NilZero.string_of_int (Z.to_int n).

(** String conversion inside a template literal. *)
Fixpoint to_string (v : Json) : string :=
  match v with
  | JNull => "null"
  | JBool true => "true"
  | JBool false => "false"
  | JNum n => string_of_Z n
  | JStr s => s
  | JArr items =>
      join "," (map (fun x => match x with JNull => EmptyString | _ => to_string x end) items)
  | JObj _ => "[object Object]"
  end.

Definition template (v : JsValue) : string :=
  match v with
  | None => "undefined"
  | Some j => to_string j
  end.

(* ================================================================== *)
(** * Callback registry ([_registerCallback]) *)
(* ================================================================== *)

Module Registry.
Section Registry.

(** [T] is the callback type of one channel; [same] is [===] on it
    (reference identity). *)
Variable T : Type.
Variable same : T -> T -> bool.
Hypothesis same_spec : forall a b, same a b = true <-> a = b.

(** [callbacks.splice(index, 1)]. *)
Definition splice (index : nat) (callbacks : list T) : list T :=
  firstn index callbacks ++ skipn (S index) callbacks.

(** [callbacks.push(newCallback)]. *)
Definition push (callbacks : list T) (newCallback : T) : list T :=
  callbacks ++ [newCallback].

(** The body of the returned closure,
    [for (const [index, callback] of callbacks.entries())
       if (callback === newCallback) callbacks.splice(index, 1)]:
    the array iterator reads the live array, it stops when [index] has
    reached the current length, and it advances by one after every
    entry, also after a [splice].  [fuel] bounds the iterations. *)
Fixpoint unlisten_loop (newCallback : T) (fuel index : nat)
         (callbacks : list T) : list T :=
  match fuel with
  | O => callbacks
  | S fuel' =>
      match nth_error callbacks index with
      | None => callbacks
      | Some callback =>
          unlisten_loop newCallback fuel' (S index)
            (if same callback newCallback
             then splice index callbacks
             else callbacks)
      end
  end.

(** The closure returned by [_registerCallback]. *)
Definition unlisten (newCallback : T) (callbacks : list T) : list T :=
  unlisten_loop newCallback (List.length callbacks) 0 callbacks.

(** What the loop does to the entries from the current index on. *)
Fixpoint sweep (newCallback : T) (rest : list T) : list T :=
  match rest with
  | [] => []
  | x :: xs =>
      if same x newCallback
      then match xs with
           | [] => []
           | y :: ys => y :: sweep newCallback ys
           end
      else x :: sweep newCallback xs
  end.

(** Removal of the first entry identical to [c]. *)
Fixpoint remove_first (c : T) (l : list T) : list T :=
  match l with
  | [] => []
  | x :: xs => if same x c then xs else x :: remove_first c xs
  end.

Fixpoint occurrences (c : T) (l : list T) : nat :=
  match l with
  | [] => 0
  | x :: xs => (if same x c then 1 else 0) + occurrences c xs
  end.

Definition others (c : T) (l : list T) : list T :=
  filter (fun x => negb (same x c)) l.

End Registry.
End Registry.

(* ================================================================== *)
(** * The client and the event loop it runs on *)
(* ================================================================== *)

(** ** The socket ([WebSocket]) *)

Inductive ReadyState : Type := CONNECTING | OPEN | CLOSING | CLOSED.

Record WebSocket : Type := mkWebSocket {
  ws_port : N;                (* [ws://localhost:<port>] *)
  readyState : ReadyState;
  sent : list string          (* texts handed to [send], oldest first *)
}.

Definition ReadyState_eqb (a b : ReadyState) : bool :=
  match a, b with
  | CONNECTING, CONNECTING | OPEN, OPEN | CLOSING, CLOSING | CLOSED, CLOSED => true
  | _, _ => false
  end.

(** ** Promises *)

Inductive Value : Type :=
| VUndefined
| VSocket (socket : option nat)
| VData (data : JsValue)
(** the async closure [subscribeMany] returns; it captures [unlisten]
    (hence the listener, which captures [events] and [callback]) and
    [response] *)
| VUnlistenFn (events : list string) (callback : nat) (response : JsValue).

Inductive Reason : Type :=
| RejectText (text : string)       (* [reject(`...`)] *)
| ThrownError (message : string)   (* [throw new Error(...)] *)
| ThrownTypeError                  (* a property read on [null]/[undefined] *)
| ThrownSyntaxError                (* [JSON.parse] on text that is not JSON *)
| ThrownInvalidState.              (* [send] on a socket still connecting *)

Inductive Outcome : Type :=
| Fulfilled (v : Value)
| Rejected (r : Reason).

Inductive Status : Type :=
| Pending
| Settled (o : Outcome).

(** ** Callbacks.  Every closure the client creates is created once per
    call, so the call's number is its identity; a callback the caller
    passes in is identified by the caller's function ([f]). *)

Inductive MessageCallback : Type :=
| ReplyListener (call : nat) (message : string)          (* lines 76-95 *)
| SubscriptionListener (call : nat) (events : list string) (callback : nat)
                                                        (* lines 273-286 *)
| UserMessageCallback (f : nat).

Inductive ConnectCallback : Type :=
| ConnectWaiter (call : nat)                             (* line 402 *)
| UserConnectCallback (f : nat).

Fixpoint strings_eqb (a b : list string) : bool :=
  match a, b with
  | [], [] => true
  | x :: a', y :: b' => String.eqb x y && strings_eqb a' b'
  | _, _ => false
  end.

Definition MessageCallback_same (a b : MessageCallback) : bool :=
  match a, b with
  | ReplyListener n m, ReplyListener n' m' => Nat.eqb n n' && String.eqb m m'
  | SubscriptionListener n ev cb, SubscriptionListener n' ev' cb' =>
      Nat.eqb n n' && strings_eqb ev ev' && Nat.eqb cb cb'
  | UserMessageCallback f, UserMessageCallback f' => Nat.eqb f f'
  | _, _ => false
  end.

Definition ConnectCallback_same (a b : ConnectCallback) : bool :=
  match a, b with
  | ConnectWaiter n, ConnectWaiter n' => Nat.eqb n n'
  | UserConnectCallback f, UserConnectCallback f' => Nat.eqb f f'
  | _, _ => false
  end.

(** ** Continuations: the rest of an async function after an [await]. *)

Inductive Cont : Type :=
| KConnectGotSocket (call : nat)      (* [connect] after [await socketPromise] *)
| KConnectOpened (call : nat)         (* [connect] after [await this._waitForConnection()] *)
| KSendConnected (call : nat) (message : string)
                                      (* the executor of [sendAndWaitReply] after [await this.connect()] *)
| KSubscribeReplied (call : nat) (events : list string) (callback : nat)
                                      (* [subscribeMany] after its [await] *)
| KUnlistenReplied (call : nat)       (* the unlisten closure after its [await] *)
| KCommandReplied (call : nat).       (* [runCommand] after its [await] *)

(** Microtasks. *)
Inductive Job : Type :=
| JAwaited (k : Cont) (o : Outcome)
| JCreateSocket (call : nat) (api : bool)
                                      (* [_createSocket] after [await WebSocketApi];
                                         [api = false]: the [import('ws')] failed *)
| JSendFinally (call : nat) (message : string) (o : Outcome)
                                      (* [.finally(() => unlisten())], line 96 *)
| JWaitFinally (call : nat) (o : Outcome).
                                      (* [.finally(() => unlisten())], line 403 *)

(** The async functions of the client (and the closure [subscribeMany]
    returns); a promise is named by the function that made it and the
    number of the call among the calls of that function. *)
Inductive Method : Type :=
| CreateSocketM     (* [_createSocket] *)
| ConnectM          (* [connect] *)
| WaitM             (* [_waitForConnection] *)
| ReplyM            (* [sendAndWaitReply] *)
| SubscribeM        (* [subscribeMany] *)
| UnlistenM         (* the closure of lines 288-294 *)
| CommandM.         (* [runCommand] *)

Definition Method_eqb (a b : Method) : bool :=
  match a, b with
  | CreateSocketM, CreateSocketM | ConnectM, ConnectM | WaitM, WaitM
  | ReplyM, ReplyM | SubscribeM, SubscribeM | UnlistenM, UnlistenM
  | CommandM, CommandM => true
  | _, _ => false
  end.

Definition methods : list Method :=
  [CreateSocketM; ConnectM; WaitM; ReplyM; SubscribeM; UnlistenM; CommandM].

(** The promises of one call: [result] is the promise the call returns
    (for [sendAndWaitReply] and [_waitForConnection], the one [.finally]
    derives); [inner] is the [new Promise] those two build, whose only
    reaction is that [.finally]; [awaiters] are the continuations
    suspended on [result]. *)
Record Cell : Type := mkCell {
  inner : Status;
  result : Status;
  awaiters : list Cont
}.

Definition fresh_cell : Cell := mkCell Pending Pending [].

(** What the caller and the console can observe. *)
Inductive Obs : Type :=
| ObsSocketCreated (port : N)
| ObsSubscribeCallback (subscription callback : nat) (data : JsValue)
| ObsMessageCallback (f : nat) (e : option Json)
| ObsConnectCallback (f : nat)
| ObsDisconnectCallback (f : nat)
| ObsErrorCallback (f : nat)
| ObsConsoleLog (v : JsValue)
| ObsUncaught (r : Reason)             (* exception out of a socket event handler *)
| ObsUnhandledRejection (r : Reason).  (* rejection of a promise nobody holds *)

(** ** The state: the fields of [WmClient], and the run-time around it. *)

Record Client : Type := mkClient {
  port : option N;                                 (* [_options?.port] *)
  hasGlobalWebSocket : bool;                       (* [globalThis.WebSocket] is defined *)
  _socket : option nat;
  _createSocketPromise : option nat;
  _onMessageCallbacks : list MessageCallback;
  _onConnectCallbacks : list ConnectCallback;
  _onDisconnectCallbacks : list nat;
  _onErrorCallbacks : list nat;
  sockets : list WebSocket;                        (* every socket constructed *)
  importing : list nat;                            (* [import('ws')] in progress *)
  heap : Method -> list Cell;                      (* promises, by function and call number *)
  microtasks : list Job;                           (* FIFO *)
  log : list Obs
}.

Definition DEFAULT_PORT : N := 6123%N.

(** [new WmClient(options)]. *)
Definition new_client (options : option N) (global_api : bool) : Client :=
  mkClient options global_api None None [] [] [] [] [] [] (fun _ => []) [] [].

Definition set_socket (v : option nat) (s : Client) : Client :=
  mkClient (port s) (hasGlobalWebSocket s) v (_createSocketPromise s)
    (_onMessageCallbacks s) (_onConnectCallbacks s) (_onDisconnectCallbacks s)
    (_onErrorCallbacks s) (sockets s) (importing s) (heap s) (microtasks s) (log s).

Definition set_createSocketPromise (v : option nat) (s : Client) : Client :=
  mkClient (port s) (hasGlobalWebSocket s) (_socket s) v
    (_onMessageCallbacks s) (_onConnectCallbacks s) (_onDisconnectCallbacks s)
    (_onErrorCallbacks s) (sockets s) (importing s) (heap s) (microtasks s) (log s).

Definition set_onMessageCallbacks (v : list MessageCallback) (s : Client) : Client :=
  mkClient (port s) (hasGlobalWebSocket s) (_socket s) (_createSocketPromise s)
    v (_onConnectCallbacks s) (_onDisconnectCallbacks s)
    (_onErrorCallbacks s) (sockets s) (importing s) (heap s) (microtasks s) (log s).

Definition set_onConnectCallbacks (v : list ConnectCallback) (s : Client) : Client :=
  mkClient (port s) (hasGlobalWebSocket s) (_socket s) (_createSocketPromise s)
    (_onMessageCallbacks s) v (_onDisconnectCallbacks s)
    (_onErrorCallbacks s) (sockets s) (importing s) (heap s) (microtasks s) (log s).

Definition set_onDisconnectCallbacks (v : list nat) (s : Client) : Client :=
  mkClient (port s) (hasGlobalWebSocket s) (_socket s) (_createSocketPromise s)
    (_onMessageCallbacks s) (_onConnectCallbacks s) v
    (_onErrorCallbacks s) (sockets s) (importing s) (heap s) (microtasks s) (log s).

Definition set_onErrorCallbacks (v : list nat) (s : Client) : Client :=
  mkClient (port s) (hasGlobalWebSocket s) (_socket s) (_createSocketPromise s)
    (_onMessageCallbacks s) (_onConnectCallbacks s) (_onDisconnectCallbacks s)
    v (sockets s) (importing s) (heap s) (microtasks s) (log s).

Definition set_sockets (v : list WebSocket) (s : Client) : Client :=
  mkClient (port s) (hasGlobalWebSocket s) (_socket s) (_createSocketPromise s)
    (_onMessageCallbacks s) (_onConnectCallbacks s) (_onDisconnectCallbacks s)
    (_onErrorCallbacks s) v (importing s) (heap s) (microtasks s) (log s).

Definition set_importing (v : list nat) (s : Client) : Client :=
  mkClient (port s) (hasGlobalWebSocket s) (_socket s) (_createSocketPromise s)
    (_onMessageCallbacks s) (_onConnectCallbacks s) (_onDisconnectCallbacks s)
    (_onErrorCallbacks s) (sockets s) v (heap s) (microtasks s) (log s).

Definition set_heap (m : Method) (v : list Cell) (s : Client) : Client :=
  mkClient (port s) (hasGlobalWebSocket s) (_socket s) (_createSocketPromise s)
    (_onMessageCallbacks s) (_onConnectCallbacks s) (_onDisconnectCallbacks s)
    (_onErrorCallbacks s) (sockets s) (importing s)
    (fun m' => if Method_eqb m m' then v else heap s m') (microtasks s) (log s).

Definition set_microtasks (v : list Job) (s : Client) : Client :=
  mkClient (port s) (hasGlobalWebSocket s) (_socket s) (_createSocketPromise s)
    (_onMessageCallbacks s) (_onConnectCallbacks s) (_onDisconnectCallbacks s)
    (_onErrorCallbacks s) (sockets s) (importing s) (heap s) v (log s).

Definition set_log (v : list Obs) (s : Client) : Client :=
  mkClient (port s) (hasGlobalWebSocket s) (_socket s) (_createSocketPromise s)
    (_onMessageCallbacks s) (_onConnectCallbacks s) (_onDisconnectCallbacks s)
    (_onErrorCallbacks s) (sockets s) (importing s) (heap s) (microtasks s) v.

(** ** Promise primitives *)

Fixpoint update_nth (A : Type) (n : nat) (f : A -> A) (l : list A) : list A :=
  match l, n with
  | [], _ => []
  | x :: xs, O => f x :: xs
  | x :: xs, S n' => x :: update_nth n' f xs
  end.

Definition update_cell (m : Method) (n : nat) (f : Cell -> Cell) (s : Client) : Client :=
  set_heap m (update_nth n f (heap s m)) s.

(** The state of the promise that call [n] of [m] returned, if the call
    was made. *)
Definition promise (s : Client) (m : Method) (n : nat) : option Status :=
  option_map result (nth_error (heap s m) n).

Definition inner_promise (s : Client) (m : Method) (n : nat) : option Status :=
  option_map inner (nth_error (heap s m) n).

(** The number the next call of [m] gets. *)
Definition next_call (m : Method) (s : Client) : nat := List.length (heap s m).

(** A call of [m] starts: its promises are created. *)
Definition alloc (m : Method) (s : Client) : Client :=
  set_heap m (heap s m ++ [fresh_cell]) s.

Definition enqueue (j : Job) (s : Client) : Client :=
  set_microtasks (microtasks s ++ [j]) s.

Definition emit (o : Obs) (s : Client) : Client := set_log (log s ++ [o]) s.

(** Settle the promise call [n] of [m] returned: the first settlement wins
    and schedules the continuations suspended on it; later ones do
    nothing. *)
Definition settle (m : Method) (n : nat) (o : Outcome) (s : Client) : Client :=
  match nth_error (heap s m) n with
  | Some (mkCell i Pending ks) =>
      set_microtasks (microtasks s ++ map (fun k => JAwaited k o) ks)
        (update_cell m n (fun _ => mkCell i (Settled o) []) s)
  | _ => s
  end.

(** [await] on the promise call [n] of [m] returned. *)
Definition await (m : Method) (n : nat) (k : Cont) (s : Client) : Client :=
  match nth_error (heap s m) n with
  | Some (mkCell i Pending ks) =>
      update_cell m n (fun _ => mkCell i Pending (ks ++ [k])) s
  | Some (mkCell _ (Settled o) _) => enqueue (JAwaited k o) s
  | None => s
  end.

(** [resolve]/[reject] of the promise built in [sendAndWaitReply]; its one
    reaction is the [.finally] of line 96. *)
Definition settle_reply (n : nat) (message : string) (o : Outcome) (s : Client) : Client :=
  match nth_error (heap s ReplyM) n with
  | Some (mkCell Pending r ks) =>
      enqueue (JSendFinally n message o)
        (update_cell ReplyM n (fun _ => mkCell (Settled o) r ks) s)
  | _ => s
  end.

(** [resolve] of the promise built in [_waitForConnection]; its one reaction
    is the [.finally] of line 403. *)
Definition settle_wait (n : nat) (o : Outcome) (s : Client) : Client :=
  match nth_error (heap s WaitM) n with
  | Some (mkCell Pending r ks) =>
      enqueue (JWaitFinally n o)
        (update_cell WaitM n (fun _ => mkCell (Settled o) r ks) s)
  | _ => s
  end.

(** ** The four registries *)

Definition register_message (cb : MessageCallback) (s : Client) : Client :=
  set_onMessageCallbacks (Registry.push (_onMessageCallbacks s) cb) s.

Definition unlisten_message (cb : MessageCallback) (s : Client) : Client :=
  set_onMessageCallbacks
    (Registry.unlisten MessageCallback_same cb (_onMessageCallbacks s)) s.

Definition register_connect (cb : ConnectCallback) (s : Client) : Client :=
  set_onConnectCallbacks (Registry.push (_onConnectCallbacks s) cb) s.

Definition unlisten_connect (cb : ConnectCallback) (s : Client) : Client :=
  set_onConnectCallbacks
    (Registry.unlisten ConnectCallback_same cb (_onConnectCallbacks s)) s.

Definition register_disconnect (f : nat) (s : Client) : Client :=
  set_onDisconnectCallbacks (Registry.push (_onDisconnectCallbacks s) f) s.

Definition unlisten_disconnect (f : nat) (s : Client) : Client :=
  set_onDisconnectCallbacks (Registry.unlisten Nat.eqb f (_onDisconnectCallbacks s)) s.

Definition register_error (f : nat) (s : Client) : Client :=
  set_onErrorCallbacks (Registry.push (_onErrorCallbacks s) f) s.

Definition unlisten_error (f : nat) (s : Client) : Client :=
  set_onErrorCallbacks (Registry.unlisten Nat.eqb f (_onErrorCallbacks s)) s.

(** ** Connection manager *)

Definition ws_missing : string :=
  "The dependency 'ws' is required for environments without a built-in WebSocket API. 
Run `npm i ws` to resolve this error.".

(** [_createSocket], up to its [await]: with [globalThis.WebSocket] the
    awaited value is no promise and the function resumes in a microtask;
    without it the function resumes when [import('ws')] has settled.
    The promise it returns is call [next_call CreateSocketM s]. *)
Definition _createSocket (s : Client) : Client :=
  let k := next_call CreateSocketM s in
  let s1 := alloc CreateSocketM s in
  if hasGlobalWebSocket s1
  then enqueue (JCreateSocket k true) s1
  else set_importing (importing s1 ++ [k]) s1.

(** [_createSocket] after its [await]: [new WebSocketApi(url)], the four
    handlers, [return socket]; or the [throw] of line 369. *)
Definition _createSocket_resume (k : nat) (api : bool) (s : Client) : Client :=
  if api
  then
    let p := match port s with Some p => p | None => DEFAULT_PORT end in
    let i := List.length (sockets s) in
    settle CreateSocketM k (Fulfilled (VSocket (Some i)))
      (emit (ObsSocketCreated p)
         (set_sockets (sockets s ++ [mkWebSocket p CONNECTING []]) s))
  else settle CreateSocketM k (Rejected (ThrownError ws_missing)) s.

(** [this._socket && this._socket.readyState === this._socket.OPEN]. *)
Definition socket_is_open (s : Client) : bool :=
  match _socket s with
  | None => false
  | Some i =>
      match nth_error (sockets s) i with
      | Some ws => ReadyState_eqb (readyState ws) OPEN
      | None => false
      end
  end.

(** [_waitForConnection()]; the promise it returns is call
    [next_call WaitM s]. *)
Definition _waitForConnection (s : Client) : Client :=
  let w := next_call WaitM s in
  let s1 := alloc WaitM s in
  if socket_is_open s1
  then settle WaitM w (Fulfilled (VSocket (_socket s1))) s1
  else register_connect (ConnectWaiter w) s1.

(** [connect()], up to its first [await]; the promise it returns is call
    [next_call ConnectM s]. *)
Definition connect (s : Client) : Client :=
  let c := next_call ConnectM s in
  let s1 := alloc ConnectM s in
  match _socket s1 with
  | None =>
      match _createSocketPromise s1 with
      | Some p => await CreateSocketM p (KConnectGotSocket c) s1
      | None =>
          let k := next_call CreateSocketM s1 in
          await CreateSocketM k (KConnectGotSocket c)
            (set_createSocketPromise (Some k) (_createSocket s1))
      end
  | Some _ =>
      let w := next_call WaitM s1 in
      await WaitM w (KConnectOpened c) (_waitForConnection s1)
  end.

(** [socket.close()]. *)
Definition ws_close (ws : WebSocket) : WebSocket :=
  match readyState ws with
  | CONNECTING | OPEN => mkWebSocket (ws_port ws) CLOSING (sent ws)
  | CLOSING | CLOSED => ws
  end.

(** [closeConnection()]: [this._socket?.close()]. *)
Definition closeConnection (s : Client) : Client :=
  match _socket s with
  | None => s
  | Some i => set_sockets (update_nth i ws_close (sockets s)) s
  end.

(** ** Request correlator *)

(** [sendAndWaitReply(message)], up to the executor's [await this.connect()];
    the promise it returns is call [next_call ReplyM s].  The executor is
    an async function: nothing observes the promise it returns. *)
Definition sendAndWaitReply (message : string) (s : Client) : Client :=
  let n := next_call ReplyM s in
  let s1 := alloc ReplyM s in
  let c := next_call ConnectM s1 in
  await ConnectM c (KSendConnected n message) (connect s1).

(** [socket.send(message)]: refused while connecting, transmitted when
    open, discarded once closing or closed. *)
Definition ws_send (message : string) (ws : WebSocket) : option WebSocket :=
  match readyState ws with
  | CONNECTING => None
  | OPEN => Some (mkWebSocket (ws_port ws) OPEN (sent ws ++ [message]))
  | CLOSING | CLOSED => Some ws
  end.

(** The executor after [await this.connect()]: [this._socket!.send(message)]
    and [unlisten = this.onMessage(...)]. *)
Definition sendAndWaitReply_connected (n : nat) (message : string) (s : Client) : Client :=
  match _socket s with
  | None => emit (ObsUnhandledRejection ThrownTypeError) s
  | Some i =>
      match nth_error (sockets s) i with
      | None => emit (ObsUnhandledRejection ThrownTypeError) s
      | Some ws =>
          match ws_send message ws with
          | None => emit (ObsUnhandledRejection ThrownInvalidState) s
          | Some ws' =>
              register_message (ReplyListener n message)
                (set_sockets (update_nth i (fun _ => ws') (sockets s)) s)
          end
      end
  end.

(** What a callback does to the state: it returns or it throws. *)
Inductive Completion : Type :=
| Normal (s : Client)
| Throw (r : Reason) (s : Client).

(** What [JSON.parse(e.data)] gives: [None] when it throws. *)
Definition MessageEvent := option Json.

Definition error_text (message : string) (error : JsValue) : string :=
  ("Server reply to message '" ++ message ++ "' has error: " ++ template error)%string.

(** The listener of lines 76-95. *)
Definition reply_listener (n : nat) (message : string) (e : MessageEvent)
           (s : Client) : Completion :=
  match e with
  | None => Throw ThrownSyntaxError s
  | Some JNull => Throw ThrownTypeError s
  | Some serverMessage =>
      let isReplyMessage :=
        strict_eq_string (prop serverMessage "messageType") "client_response"
        && strict_eq_string (prop serverMessage "clientMessage") message in
      let s1 :=
        if isReplyMessage && truthy (prop serverMessage "error")
        then settle_reply n message
               (Rejected (RejectText (error_text message (prop serverMessage "error")))) s
        else s in
      Normal (if isReplyMessage
              then settle_reply n message (Fulfilled (VData (prop serverMessage "data"))) s1
              else s1)
  end.

(** [query ${query}]. *)
Definition sendQuery (query : string) (s : Client) : Client :=
  sendAndWaitReply ("query " ++ query) s.

(** [contextContainer]: a container (by its [id]) or an id. *)
Inductive ContextContainer : Type :=
| CtxContainer (id : string)
| CtxId (id : string).

(** The double-quote character. *)
Definition dquote : string := String (ascii_of_nat 34) EmptyString.

Definition command_text (command : string) (contextContainer : option ContextContainer) : string :=
  match contextContainer with
  | None | Some (CtxId EmptyString) => ("command " ++ command)%string
  | Some (CtxContainer id) | Some (CtxId id) =>
      ("command " ++ dquote ++ command ++ dquote ++ " -c " ++ id)%string
  end.

(** [runCommand(command, contextContainer)], up to its [await]; the promise
    it returns is call [next_call CommandM s]. *)
Definition runCommand (command : string) (contextContainer : option ContextContainer)
           (s : Client) : Client :=
  let n := next_call CommandM s in
  let s1 := alloc CommandM s in
  let r := next_call ReplyM s1 in
  await ReplyM r (KCommandReplied n)
    (sendAndWaitReply (command_text command contextContainer) s1).

(** ** Subscription multiplexer *)

Definition subscribe_text (events : list string) : string :=
  ("subscribe -e " ++ join "," events)%string.

(** [subscribeMany(events, callback)], up to its [await]; the promise it
    returns is call [next_call SubscribeM s]. *)
Definition subscribeMany (events : list string) (callback : nat) (s : Client) : Client :=
  let n := next_call SubscribeM s in
  let s1 := alloc SubscribeM s in
  let r := next_call ReplyM s1 in
  await ReplyM r (KSubscribeReplied n events callback)
    (sendAndWaitReply (subscribe_text events) s1).

(** The listener of lines 273-286. *)
Definition subscription_listener (n : nat) (events : list string) (callback : nat)
           (e : MessageEvent) (s : Client) : Completion :=
  match e with
  | None => Throw ThrownSyntaxError s
  | Some serverMessage =>
      let s1 := emit (ObsConsoleLog (Some serverMessage)) s in
      match serverMessage with
      | JNull => Throw ThrownTypeError s1
      | _ =>
          let isSubscribedEvent :=
            strict_eq_string (prop serverMessage "messageType") "event_subscription"
            && includes events (opt_prop (prop serverMessage "data") "type") in
          Normal (if isSubscribedEvent
                  then emit (ObsSubscribeCallback n callback (prop serverMessage "data")) s1
                  else s1)
      end
  end.

(** [subscribeMany] after its [await]. *)
Definition subscribeMany_replied (n : nat) (events : list string) (callback : nat)
           (o : Outcome) (s : Client) : Client :=
  match o with
  | Fulfilled v =>
      let response := match v with VData d => d | _ => None end in
      settle SubscribeM n (Fulfilled (VUnlistenFn events callback response))
        (register_message (SubscriptionListener n events callback)
           (emit (ObsConsoleLog response) s))
  | Rejected r => settle SubscribeM n (Rejected r) s
  end.

(** The closure of lines 288-294 that [subscribeMany] call [n] returned,
    up to its [await]; the promise it returns is call
    [next_call UnlistenM s]. *)
Definition unlistenFn (n : nat) (events : list string) (callback : nat)
           (response : JsValue) (s : Client) : Client :=
  let u := next_call UnlistenM s in
  let s1 := alloc UnlistenM s in
  let s2 := unlisten_message (SubscriptionListener n events callback) s1 in
  match response with
  | None | Some JNull => settle UnlistenM u (Rejected ThrownTypeError) s2
  | Some o =>
      let r := next_call ReplyM s2 in
      await ReplyM r (KUnlistenReplied u)
        (sendAndWaitReply ("unsubscribe " ++ template (prop o "subscriptionId")) s2)
  end.

(** ** Socket events: the handlers installed in [_createSocket] *)

Definition invoke_message (e : MessageEvent) (cb : MessageCallback) (s : Client) : Completion :=
  match cb with
  | ReplyListener n message => reply_listener n message e s
  | SubscriptionListener n events callback => subscription_listener n events callback e s
  | UserMessageCallback f => Normal (emit (ObsMessageCallback f e) s)
  end.

(** [() => resolve(this._socket!)], line 402. *)
Definition invoke_connect (cb : ConnectCallback) (s : Client) : Completion :=
  match cb with
  | ConnectWaiter w => Normal (settle_wait w (Fulfilled (VSocket (_socket s))) s)
  | UserConnectCallback f => Normal (emit (ObsConnectCallback f) s)
  end.

Definition invoke_error (f : nat) (s : Client) : Completion :=
  Normal (emit (ObsErrorCallback f) s).

Definition invoke_disconnect (f : nat) (s : Client) : Completion :=
  Normal (emit (ObsDisconnectCallback f) s).

(** [callbacks.forEach(callback => callback(e))].  No callback adds to or
    removes from the array while it runs (the client's own listeners only
    settle promises), so the entries visited are those of the array as
    it is when the event arrives; an exception ends the pass. *)
Fixpoint forEach (A : Type) (invoke : A -> Client -> Completion)
         (callbacks : list A) (s : Client) : Completion :=
  match callbacks with
  | [] => Normal s
  | cb :: rest =>
      match invoke cb s with
      | Normal s1 => forEach invoke rest s1
      | Throw r s1 => Throw r s1
      end
  end.

(** The end of an event handler: an exception that leaves it is reported
    (as the browser does for an event handler), and the loop goes on. *)
Definition handled (c : Completion) : Client :=
  match c with
  | Normal s => s
  | Throw r s => emit (ObsUncaught r) s
  end.

Definition onmessage (e : MessageEvent) (s : Client) : Client :=
  handled (forEach (invoke_message e) (_onMessageCallbacks s) s).

Definition onopen (s : Client) : Client :=
  handled (forEach invoke_connect (_onConnectCallbacks s) s).

Definition onerror (s : Client) : Client :=
  handled (forEach invoke_error (_onErrorCallbacks s) s).

Definition onclose (s : Client) : Client :=
  handled (forEach invoke_disconnect (_onDisconnectCallbacks s) s).

(** ** Microtasks *)

(** The end of an async function that returns nothing after its [await]. *)
Definition pass (m : Method) (n : nat) (o : Outcome) (s : Client) : Client :=
  match o with
  | Fulfilled _ => settle m n (Fulfilled VUndefined) s
  | Rejected r => settle m n (Rejected r) s
  end.

Definition resume (k : Cont) (o : Outcome) (s : Client) : Client :=
  match k with
  | KConnectGotSocket c =>
      match o with
      | Fulfilled v =>
          (* [this._socket = await socketPromise; await this._waitForConnection()] *)
          let s1 := set_socket (match v with VSocket i => i | _ => None end) s in
          let w := next_call WaitM s1 in
          await WaitM w (KConnectOpened c) (_waitForConnection s1)
      | Rejected r => settle ConnectM c (Rejected r) s
      end
  | KConnectOpened c => pass ConnectM c o s
  | KSendConnected n message =>
      match o with
      | Fulfilled _ => sendAndWaitReply_connected n message s
      | Rejected r => emit (ObsUnhandledRejection r) s
      end
  | KSubscribeReplied n events callback => subscribeMany_replied n events callback o s
  | KUnlistenReplied u => pass UnlistenM u o s
  | KCommandReplied n => pass CommandM n o s
  end.

Definition run_job (j : Job) (s : Client) : Client :=
  match j with
  | JAwaited k o => resume k o s
  | JCreateSocket k api => _createSocket_resume k api s
  | JSendFinally n message o =>
      settle ReplyM n o (unlisten_message (ReplyListener n message) s)
  | JWaitFinally w o =>
      settle WaitM w o (unlisten_connect (ConnectWaiter w) s)
  end.

(** One microtask: the head of the queue. *)
Definition tick (s : Client) : option Client :=
  match microtasks s with
  | [] => None
  | j :: queue => Some (run_job j (set_microtasks queue s))
  end.

(** ** Steps of the event loop *)

(** What the caller can do. *)
Inductive Op : Type :=
| Connect
| CloseConnection
| WaitForConnection
| SendAndWaitReply (message : string)
| SendQuery (query : string)
| RunCommand (command : string) (contextContainer : option ContextContainer)
| Subscribe (event : string) (callback : nat)
| SubscribeMany (events : list string) (callback : nat)
| InvokeUnlistenFn (subscription : nat)
    (* call the closure that [subscribeMany] call [subscription] resolved with *)
| OnMessage (f : nat)
| OnConnect (f : nat)
| OnDisconnect (f : nat)
| OnError (f : nat)
| UnlistenMessage (f : nat)      (* call what [onMessage(f)] returned *)
| UnlistenConnect (f : nat)
| UnlistenDisconnect (f : nat)
| UnlistenError (f : nat).

Definition call (op : Op) (s : Client) : option Client :=
  match op with
  | Connect => Some (connect s)
  | CloseConnection => Some (closeConnection s)
  | WaitForConnection => Some (_waitForConnection s)
  | SendAndWaitReply message => Some (sendAndWaitReply message s)
  | SendQuery query => Some (sendQuery query s)
  | RunCommand command ctx => Some (runCommand command ctx s)
  | Subscribe event callback => Some (subscribeMany [event] callback s)
  | SubscribeMany events callback => Some (subscribeMany events callback s)
  | InvokeUnlistenFn n =>
      match promise s SubscribeM n with
      | Some (Settled (Fulfilled (VUnlistenFn events callback response))) =>
          Some (unlistenFn n events callback response s)
      | _ => None
      end
  | OnMessage f => Some (register_message (UserMessageCallback f) s)
  | OnConnect f => Some (register_connect (UserConnectCallback f) s)
  | OnDisconnect f => Some (register_disconnect f s)
  | OnError f => Some (register_error f s)
  | UnlistenMessage f => Some (unlisten_message (UserMessageCallback f) s)
  | UnlistenConnect f => Some (unlisten_connect (UserConnectCallback f) s)
  | UnlistenDisconnect f => Some (unlisten_disconnect f s)
  | UnlistenError f => Some (unlisten_error f s)
  end.

(** What the environment can do, between two tasks. *)
Inductive Event : Type :=
| ImportSettled (call : nat) (ok : bool)
| SocketOpen (i : nat)
| SocketMessage (i : nat) (e : MessageEvent)
| SocketError (i : nat)
| SocketClose (i : nat).

Definition set_readyState (i : nat) (r : ReadyState) (s : Client) : Client :=
  set_sockets (update_nth i (fun ws => mkWebSocket (ws_port ws) r (sent ws)) (sockets s)) s.

Definition ready (s : Client) (i : nat) : option ReadyState :=
  option_map readyState (nth_error (sockets s) i).

Definition deliver (ev : Event) (s : Client) : option Client :=
  match ev with
  | ImportSettled k ok =>
      if existsb (Nat.eqb k) (importing s)
      then Some (enqueue (JCreateSocket k ok)
                   (set_importing (filter (fun k' => negb (Nat.eqb k k')) (importing s)) s))
      else None
  | SocketOpen i =>
      match ready s i with
      | Some CONNECTING => Some (onopen (set_readyState i OPEN s))
      | _ => None
      end
  | SocketMessage i e =>
      match ready s i with
      | Some OPEN | Some CLOSING => Some (onmessage e s)
      | _ => None
      end
  | SocketError i =>
      match ready s i with
      | Some CONNECTING | Some OPEN => Some (onerror (set_readyState i CLOSING s))
      | Some CLOSING => Some (onerror s)
      | _ => None
      end
  | SocketClose i =>
      match ready s i with
      | Some CONNECTING | Some OPEN | Some CLOSING =>
          Some (onclose (set_readyState i CLOSED s))
      | _ => None
      end
  end.

Inductive Label : Type :=
| Call (op : Op)       (* the caller runs, at any point between two microtasks *)
| Tick                 (* the next microtask runs *)
| Env (ev : Event).    (* a task of the environment, once the microtask queue is empty *)

Definition step (s : Client) (l : Label) : option Client :=
  match l with
  | Call op => call op s
  | Tick => tick s
  | Env ev =>
      match microtasks s with
      | [] => deliver ev s
      | _ :: _ => None
      end
  end.

Fixpoint run (s : Client) (ls : list Label) : option Client :=
  match ls with
  | [] => Some s
  | l :: rest =>
      match step s l with
      | Some s1 => run s1 rest
      | None => None
      end
  end.

(** ** Running the microtask queue until it is empty *)

Definition cont_weight (k : Cont) : nat :=
  match k with
  | KConnectGotSocket _ => 2
  | _ => 1
  end.

Definition job_weight (j : Job) : nat :=
  match j with
  | JAwaited k _ => cont_weight k
  | _ => 1
  end.

Definition total (l : list nat) : nat := fold_right Nat.add 0 l.

(** Sum of [f] over the continuations suspended on promises, and of [g]
    over the microtask queue. *)
Definition cell_measure (f : Cont -> nat) (c : Cell) : nat :=
  total (map f (awaiters c)).

Definition cells_measure (f : Cont -> nat) (cells : list Cell) : nat :=
  total (map (cell_measure f) cells).

Definition measure (f : Method -> Cont -> nat) (g : Job -> nat) (s : Client) : nat :=
  total (map (fun m => cells_measure (f m) (heap s m)) methods)
  + total (map g (microtasks s)).

(** A bound on the microtasks that can still run before the queue is empty. *)
Definition weight (s : Client) : nat :=
  measure (fun _ => cont_weight) job_weight s.

Fixpoint ticks (fuel : nat) (s : Client) : Client :=
  match fuel with
  | O => s
  | S fuel' =>
      match tick s with
      | None => s
      | Some s1 => ticks fuel' s1
      end
  end.

Definition drain (s : Client) : Client := ticks (weight s) s.

(** A task of the environment, with the microtasks it causes. *)
Definition task (ev : Event) (s : Client) : option Client :=
  option_map drain (step s (Env ev)).

(** A task of the caller: some calls in a row, then the microtasks. *)
Definition calls (ops : list Op) (s : Client) : option Client :=
  option_map drain (run s (map Call ops)).

(** The event loop: tasks one after the other, each followed by all the
    microtasks it causes. *)
Inductive Task : Type :=
| Caller (ops : list Op)
| Environment (ev : Event).

Definition perform (t : Task) (s : Client) : option Client :=
  match t with
  | Caller ops => calls ops s
  | Environment ev => task ev s
  end.

Fixpoint play (s : Client) (ts : list Task) : option Client :=
  match ts with
  | [] => Some s
  | t :: rest =>
      match perform t s with
      | Some s1 => play s1 rest
      | None => None
      end
  end.


(* ================================================================== *)
(** * The methods built on [sendQuery], [runCommand] and the registries *)
(* ================================================================== *)

(** ** Queries (lines 108-141) *)

Definition getMonitors (s : Client) : Client := sendQuery "monitors" s.
Definition getWorkspaces (s : Client) : Client := sendQuery "workspaces" s.
Definition getWindows (s : Client) : Client := sendQuery "windows" s.
Definition getFocusedContainer (s : Client) : Client := sendQuery "focused" s.
Definition getBindingModes (s : Client) : Client := sendQuery "binding-modes" s.

(** ** Commands (lines 145-180) *)

Module Borders.

(** The argument of [adjustBorders]: each side is a string or is absent. *)
Record Options : Type := mkOptions {
  top : option string;
  right : option string;
  bottom : option string;
  left : option string
}.

End Borders.

(** [if (options.<side>) command += ` --<side> ${options.<side>}`]: the
    empty string is falsy, like an absent side. *)
Definition add_param (side : string) (value : option string) (command : string) : string :=
  match value with
  | None | Some EmptyString => command
  | Some v => (command ++ " --" ++ side ++ " " ++ v)%string
  end.

Definition makeParamsIfAny (options : Borders.Options) : string :=
  let command := EmptyString in
  let command := add_param "top" (Borders.top options) command in
  let command := add_param "right" (Borders.right options) command in
  let command := add_param "bottom" (Borders.bottom options) command in
  let command := add_param "left" (Borders.left options) command in
  command.

Definition adjustBorders (options : Borders.Options) (s : Client) : Client :=
  runCommand ("adjust-borders " ++ makeParamsIfAny options) None s.

Definition closeCommand (s : Client) : Client := runCommand "close" None s.

Definition focusDirection (direction : string) (s : Client) : Client :=
  runCommand ("focus --direction " ++ direction) None s.

Definition focusWorkspace (workspace : string) (s : Client) : Client :=
  runCommand ("focus --workspace " ++ workspace) None s.

Definition nextWorkspace (s : Client) : Client := runCommand "focus --next-workspace" None s.
Definition prevWorkspace (s : Client) : Client := runCommand "focus --prev-workspace" None s.
Definition recentWorkspace (s : Client) : Client := runCommand "focus --recent-workspace" None s.

(** ** Subscriptions and registries (lines 245-250, 305-344) *)

Definition subscribe (event : string) (callback : nat) (s : Client) : Client :=
  subscribeMany [event] callback s.

Definition onMessage (f : nat) (s : Client) : Client :=
  register_message (UserMessageCallback f) s.

Definition onConnect (f : nat) (s : Client) : Client :=
  register_connect (UserConnectCallback f) s.

Definition onDisconnect (f : nat) (s : Client) : Client := register_disconnect f s.

Definition onError (f : nat) (s : Client) : Client := register_error f s.

(** The sides of [options] that are given and not empty, in the order the
    function looks at them. *)
Definition given_sides (options : Borders.Options) : list (string * string) :=
  flat_map (fun p => match snd p with
                     | None | Some EmptyString => []
                     | Some v => [(fst p, v)]
                     end)
           [("top", Borders.top options); ("right", Borders.right options);
            ("bottom", Borders.bottom options); ("left", Borders.left options)].

(** The caller's callbacks in a registry of [onConnect], in order. *)
Definition user_connect_callbacks (l : list ConnectCallback) : list nat :=
  flat_map (fun cb => match cb with
                      | UserConnectCallback f => [f]
                      | ConnectWaiter _ => []
                      end) l.

(** The caller's callbacks in a registry of [onMessage], in order. *)
Definition user_message_callbacks (l : list MessageCallback) : list nat :=
  flat_map (fun cb => match cb with
                      | UserMessageCallback f => [f]
                      | _ => []
                      end) l.

(** The calls of the caller's callbacks that an event of the socket other
    than a message makes. *)
Definition callbacks_called (ev : Event) (s : Client) : list Obs :=
  match ev with
  | SocketOpen _ => map ObsConnectCallback (user_connect_callbacks (_onConnectCallbacks s))
  | SocketError _ => map ObsErrorCallback (_onErrorCallbacks s)
  | SocketClose _ => map ObsDisconnectCallback (_onDisconnectCallbacks s)
  | _ => []
  end.

(** What [console.log] printed, in order. *)
Definition console_logged (l : list Obs) : list JsValue :=
  flat_map (fun o => match o with
                     | ObsConsoleLog v => [v]
                     | _ => []
                     end) l.

Definition is_subscription_listener (cb : MessageCallback) : bool :=
  match cb with
  | SubscriptionListener _ _ _ => true
  | _ => false
  end.

(* ================================================================== *)
(** * Notions the properties are stated with *)
(* ================================================================== *)

(** ** Inbound payloads *)

(** The payload is no envelope: [JSON.parse] throws, or it gives [null]
    and the first property read throws. *)
Definition undecodable (e : MessageEvent) : bool :=
  match e with
  | None | Some JNull => true
  | Some _ => false
  end.

(** [serverMessage.data]. *)
Definition event_data (e : MessageEvent) : JsValue :=
  match e with
  | Some v => prop v "data"
  | None => None
  end.

(** The envelope is an event of one of the types [events]. *)
Definition is_subscribed_event (events : list string) (e : MessageEvent) : bool :=
  match e with
  | Some v =>
      strict_eq_string (prop v "messageType") "event_subscription"
      && includes events (opt_prop (prop v "data") "type")
  | None => false
  end.

(** The envelope is the reply to the request [message]. *)
Definition is_reply (message : string) (e : MessageEvent) : bool :=
  match e with
  | Some v =>
      strict_eq_string (prop v "messageType") "client_response"
      && strict_eq_string (prop v "clientMessage") message
  | None => false
  end.

(** [serverMessage.error]. *)
Definition event_error (e : MessageEvent) : JsValue :=
  match e with
  | Some v => prop v "error"
  | None => None
  end.

(** How a reply settles the call it answers. *)
Definition reply_outcome (message : string) (e : MessageEvent) : Outcome :=
  if truthy (event_error e)
  then Rejected (RejectText (error_text message (event_error e)))
  else Fulfilled (VData (event_data e)).

(** ** What a log shows *)

(** The calls of the callback of subscription [n], in order: the callback
    and the payload it was called with. *)
Definition delivered (n : nat) (l : list Obs) : list (nat * JsValue) :=
  flat_map (fun o => match o with
                     | ObsSubscribeCallback n' callback d =>
                         if Nat.eqb n' n then [(callback, d)] else []
                     | _ => []
                     end) l.

(** The calls of the caller's message callbacks, in order. *)
Definition message_callbacks_run (l : list Obs) : list (nat * MessageEvent) :=
  flat_map (fun o => match o with
                     | ObsMessageCallback f e => [(f, e)]
                     | _ => []
                     end) l.

(** The caller's callbacks at the head of the message registry, before the
    first listener of the client. *)
Fixpoint leading_user_callbacks (l : list MessageCallback) : list nat :=
  match l with
  | UserMessageCallback f :: rest => f :: leading_user_callbacks rest
  | _ => []
  end.

(** The payloads of the messages in a run, in arrival order. *)
Definition messages (ls : list Label) : list MessageEvent :=
  flat_map (fun l => match l with
                     | Env (SocketMessage _ e) => [e]
                     | _ => []
                     end) ls.

(** ** Substrings *)

Definition includes_text (text part : string) : Prop :=
  exists before after, text = (before ++ part ++ after)%string.

(** What the dispatch of an undecodable payload adds to the log: the
    caller's callbacks run until the first listener of the client, which
    throws. *)
Fixpoint undecodable_log (e : MessageEvent) (l : list MessageCallback) : list Obs :=
  match l with
  | [] => []
  | UserMessageCallback f :: rest => ObsMessageCallback f e :: undecodable_log e rest
  | ReplyListener _ _ :: _ =>
      [ObsUncaught (match e with None => ThrownSyntaxError | Some _ => ThrownTypeError end)]
  | SubscriptionListener _ _ _ :: _ =>
      match e with
      | None => [ObsUncaught ThrownSyntaxError]
      | Some v => [ObsConsoleLog (Some v); ObsUncaught ThrownTypeError]
      end
  end.

(** ** Subscriptions *)

Definition is_subscription (n : nat) (cb : MessageCallback) : bool :=
  match cb with
  | SubscriptionListener n' _ _ => Nat.eqb n' n
  | _ => false
  end.

(** The listeners of [subscribeMany] call [n] in a registry. *)
Definition subscription_listeners (n : nat) (l : list MessageCallback) : list MessageCallback :=
  filter (is_subscription n) l.

Definition resubscribes (n : nat) (k : Cont) : nat :=
  match k with
  | KSubscribeReplied n' _ _ => if Nat.eqb n' n then 1 else 0
  | _ => 0
  end.

(** The value of [f] on the continuation a microtask resumes. *)
Definition awaited (f : Cont -> nat) (j : Job) : nat :=
  match j with
  | JAwaited k _ => f k
  | _ => 0
  end.

(** The sum of [h] over the continuations that are suspended on a promise
    or scheduled in the microtask queue. *)
Definition pending (h : Cont -> nat) (s : Client) : nat :=
  measure (fun _ => h) (awaited h) s.

(** How many suspended or scheduled continuations would still install a
    listener for [subscribeMany] call [n]. *)
Definition resubscribing (n : nat) (s : Client) : nat :=
  pending (resubscribes n) s.

(** What resuming [j] can suspend anew. *)
Definition respawn (h : Cont -> nat) (j : Job) : nat :=
  match j with
  | JAwaited (KConnectGotSocket c) (Fulfilled _) => h (KConnectOpened c)
  | _ => 0
  end.

(** [subscribeMany] call [n] was made and is past its [await]; its
    listeners in the message registry are [l] (one while the subscription
    stands, none once it is cancelled or if the request failed). *)
Definition subscription (n : nat) (l : list MessageCallback) (s : Client) : Prop :=
  subscription_listeners n (_onMessageCallbacks s) = l
  /\ resubscribing n s = 0
  /\ n < next_call SubscribeM s.

(** What a listener passes to its subscription's callback for a payload. *)
Definition delivery (e : MessageEvent) (cb : MessageCallback) : list (nat * JsValue) :=
  match cb with
  | SubscriptionListener _ events callback =>
      if is_subscribed_event events e then [(callback, event_data e)] else []
  | _ => []
  end.

Definition deliveries (l : list MessageCallback) (e : MessageEvent)
  : list (nat * JsValue) :=
  flat_map (delivery e) l.

(** The labels that are a call of the closure subscription [n] returned. *)
Definition is_unlisten (n : nat) (l : Label) : bool :=
  match l with
  | Call (InvokeUnlistenFn n') => Nat.eqb n' n
  | _ => false
  end.

(** The state a callback leaves, whether it returns or throws. *)
Definition state_of (c : Completion) : Client :=
  match c with
  | Normal s => s
  | Throw _ s => s
  end.

(** [s'] differs from [s] at most in the promises' states, the microtask
    queue and the log. *)
Definition same_fields (s s' : Client) : Prop :=
  port s' = port s
  /\ hasGlobalWebSocket s' = hasGlobalWebSocket s
  /\ _socket s' = _socket s
  /\ _createSocketPromise s' = _createSocketPromise s
  /\ _onMessageCallbacks s' = _onMessageCallbacks s
  /\ _onConnectCallbacks s' = _onConnectCallbacks s
  /\ _onDisconnectCallbacks s' = _onDisconnectCallbacks s
  /\ _onErrorCallbacks s' = _onErrorCallbacks s
  /\ sockets s' = sockets s
  /\ importing s' = importing s
  /\ forall m, next_call m s' = next_call m s.

(** ** What a step does to the message registry *)

(** The socket [send] of the executor goes through (it raises nothing). *)
Definition sendable (message : string) (s : Client) : bool :=
  match _socket s with
  | None => false
  | Some i =>
      match nth_error (sockets s) i with
      | None => false
      | Some ws => match ws_send message ws with Some _ => true | None => false end
      end
  end.

Inductive RegistryChange : Type :=
| Unchanged
| Pushed (cb : MessageCallback)
| Unlistened (cb : MessageCallback).

Definition change_registry (c : RegistryChange) (l : list MessageCallback)
  : list MessageCallback :=
  match c with
  | Unchanged => l
  | Pushed cb => Registry.push l cb
  | Unlistened cb => Registry.unlisten MessageCallback_same cb l
  end.

Definition call_change (op : Op) (s : Client) : RegistryChange :=
  match op with
  | OnMessage f => Pushed (UserMessageCallback f)
  | UnlistenMessage f => Unlistened (UserMessageCallback f)
  | InvokeUnlistenFn n =>
      match promise s SubscribeM n with
      | Some (Settled (Fulfilled (VUnlistenFn events callback _))) =>
          Unlistened (SubscriptionListener n events callback)
      | _ => Unchanged
      end
  | _ => Unchanged
  end.

Definition job_change (j : Job) (s : Client) : RegistryChange :=
  match j with
  | JAwaited (KSendConnected n message) (Fulfilled _) =>
      if sendable message s then Pushed (ReplyListener n message) else Unchanged
  | JAwaited (KSubscribeReplied n events callback) (Fulfilled _) =>
      Pushed (SubscriptionListener n events callback)
  | JSendFinally n message _ => Unlistened (ReplyListener n message)
  | _ => Unchanged
  end.

Definition step_change (l : Label) (s : Client) : RegistryChange :=
  match l with
  | Call op => call_change op s
  | Tick => match microtasks s with
            | j :: _ => job_change j s
            | [] => Unchanged
            end
  | Env _ => Unchanged
  end.

(** The continuations a call of the caller suspends, at most. *)
Definition connect_conts (s : Client) : list Cont :=
  [KConnectGotSocket (next_call ConnectM s); KConnectOpened (next_call ConnectM s)].

Definition send_conts (message : string) (s : Client) : list Cont :=
  KSendConnected (next_call ReplyM s) message :: connect_conts s.

Definition call_conts (op : Op) (s : Client) : list Cont :=
  match op with
  | Connect => connect_conts s
  | SendAndWaitReply message => send_conts message s
  | SendQuery query => send_conts ("query " ++ query) s
  | RunCommand command ctx =>
      KCommandReplied (next_call CommandM s) :: send_conts (command_text command ctx) s
  | Subscribe event callback =>
      KSubscribeReplied (next_call SubscribeM s) [event] callback
      :: send_conts (subscribe_text [event]) s
  | SubscribeMany events callback =>
      KSubscribeReplied (next_call SubscribeM s) events callback
      :: send_conts (subscribe_text events) s
  | InvokeUnlistenFn n =>
      match promise s SubscribeM n with
      | Some (Settled (Fulfilled (VUnlistenFn _ _ response))) =>
          KUnlistenReplied (next_call UnlistenM s)
          :: send_conts ("unsubscribe " ++ template (opt_prop response "subscriptionId")) s
      | _ => []
      end
  | _ => []
  end.

(** What a step passes to the callback of a subscription whose listeners
    are [l]. *)
Definition label_deliveries (l : list MessageCallback) (lab : Label)
  : list (nat * JsValue) :=
  match lab with
  | Env (SocketMessage _ e) => deliveries l e
  | _ => []
  end.

(** The calls of [callback] for the payloads among [es], in order, that are
    events of a type in [events]. *)
Definition subscribed_data (events : list string) (callback : nat)
           (es : list MessageEvent) : list (nat * JsValue) :=
  flat_map (fun e => if is_subscribed_event events e
                     then [(callback, event_data e)] else []) es.

(** The promise a microtask settles, and how. *)
Definition job_settles (j : Job) : option (Method * nat * Outcome) :=
  match j with
  | JAwaited (KConnectGotSocket c) (Rejected r) => Some (ConnectM, c, Rejected r)
  | JAwaited (KConnectGotSocket c) (Fulfilled _) => None
  | JAwaited (KConnectOpened c) (Fulfilled _) => Some (ConnectM, c, Fulfilled VUndefined)
  | JAwaited (KConnectOpened c) (Rejected r) => Some (ConnectM, c, Rejected r)
  | JAwaited (KSendConnected _ _) _ => None
  | JAwaited (KSubscribeReplied n events callback) (Fulfilled v) =>
      Some (SubscribeM, n,
            Fulfilled (VUnlistenFn events callback
                         (match v with VData d => d | _ => None end)))
  | JAwaited (KSubscribeReplied n _ _) (Rejected r) => Some (SubscribeM, n, Rejected r)
  | JAwaited (KUnlistenReplied u) (Fulfilled _) => Some (UnlistenM, u, Fulfilled VUndefined)
  | JAwaited (KUnlistenReplied u) (Rejected r) => Some (UnlistenM, u, Rejected r)
  | JAwaited (KCommandReplied n) (Fulfilled _) => Some (CommandM, n, Fulfilled VUndefined)
  | JAwaited (KCommandReplied n) (Rejected r) => Some (CommandM, n, Rejected r)
  | JCreateSocket k true => None   (* see [_createSocket_resume] *)
  | JCreateSocket k false => Some (CreateSocketM, k, Rejected (ThrownError ws_missing))
  | JSendFinally n _ o => Some (ReplyM, n, o)
  | JWaitFinally w o => Some (WaitM, w, o)
  end.

(** Whether a microtask settles the promise of call [n] of [m]. *)
Definition job_targets (j : Job) (m : Method) (n : nat) : bool :=
  match j with
  | JCreateSocket k true => Method_eqb CreateSocketM m && Nat.eqb k n
  | _ =>
      match job_settles j with
      | Some (m', n', _) => Method_eqb m' m && Nat.eqb n' n
      | None => false
      end
  end.

(** ** Example runs *)

Definition reply_envelope (message : string) (data : Json) : MessageEvent :=
  Some (JObj [("messageType", JStr "client_response");
              ("clientMessage", JStr message);
              ("data", data)]).

Definition error_envelope (message : string) (error : Json) : MessageEvent :=
  Some (JObj [("messageType", JStr "client_response");
              ("clientMessage", JStr message);
              ("error", error)]).

Definition event_envelope (type : string) : MessageEvent :=
  Some (JObj [("messageType", JStr "event_subscription");
              ("data", JObj [("type", JStr type)])]).

(** The state after the tasks [ts], from a new client in an environment
    with [globalThis.WebSocket]. *)
Definition after (ts : list Task) : Client :=
  match play (new_client None true) ts with
  | Some s => s
  | None => new_client None true
  end.

Definition and_then (s : Client) (ls : list Label) : Client :=
  match run s ls with
  | Some s' => s'
  | None => s
  end.

(** A client with a standing subscription to the events [a] and [b]. *)
Definition subscribed_client : Client :=
  after [Caller [SubscribeMany ["a"; "b"] 7];
         Environment (SocketOpen 0);
         Environment (SocketMessage 0
           (reply_envelope "subscribe -e a,b" (JObj [("subscriptionId", JStr "s1")])))].

(** ** The microtask queue *)

Definition is_awaited (j : Job) : bool :=
  match j with
  | JAwaited _ _ => true
  | _ => false
  end.

Definition is_awaited_or_create (j : Job) : bool :=
  match j with
  | JAwaited _ _ | JCreateSocket _ _ => true
  | _ => false
  end.

(** [s'] has the queue of [s] and, after it, microtasks that satisfy [ok]. *)
Definition queue_grows (ok : Job -> bool) (s s' : Client) : Prop :=
  exists added, microtasks s' = microtasks s ++ added /\ forallb ok added = true.

(** ** Pending requests *)

Definition is_reply_listener (n : nat) (cb : MessageCallback) : bool :=
  match cb with
  | ReplyListener n' _ => Nat.eqb n' n
  | _ => false
  end.

(** The listeners of [sendAndWaitReply] call [n] in a registry. *)
Definition reply_listeners (n : nat) (l : list MessageCallback) : list MessageCallback :=
  filter (is_reply_listener n) l.

Definition is_finally (n : nat) (j : Job) : bool :=
  match j with
  | JSendFinally n' _ _ => Nat.eqb n' n
  | _ => false
  end.

(** The scheduled [.finally] reactions of [sendAndWaitReply] call [n]. *)
Definition finally_jobs (n : nat) (q : list Job) : list Job :=
  filter (is_finally n) q.

Definition resends (n : nat) (k : Cont) : nat :=
  match k with
  | KSendConnected n' _ => if Nat.eqb n' n then 1 else 0
  | _ => 0
  end.

(** [sendAndWaitReply] call [n] has sent [message] and installed its
    listener, and no reply has arrived: the promise it built and the one it
    returned are pending. *)
Definition outstanding (n : nat) (message : string) (s : Client) : Prop :=
  reply_listeners n (_onMessageCallbacks s) = [ReplyListener n message]
  /\ inner_promise s ReplyM n = Some Pending
  /\ promise s ReplyM n = Some Pending
  /\ pending (resends n) s = 0
  /\ finally_jobs n (microtasks s) = [].

(** A reply has settled the promise call [n] built with [o]; the
    [.finally] reaction is scheduled and has not run. *)
Definition scheduled (n : nat) (message : string) (o : Outcome) (s : Client) : Prop :=
  reply_listeners n (_onMessageCallbacks s) = [ReplyListener n message]
  /\ inner_promise s ReplyM n = Some (Settled o)
  /\ promise s ReplyM n = Some Pending
  /\ pending (resends n) s = 0
  /\ finally_jobs n (microtasks s) = [JSendFinally n message o].

(** The promise call [n] returned is settled with [o], and its listener is
    unregistered. *)
Definition replied (n : nat) (o : Outcome) (s : Client) : Prop :=
  reply_listeners n (_onMessageCallbacks s) = []
  /\ inner_promise s ReplyM n = Some (Settled o)
  /\ promise s ReplyM n = Some (Settled o)
  /\ pending (resends n) s = 0
  /\ finally_jobs n (microtasks s) = [].

(** The step is the arrival of a reply to the request [message]. *)
Definition answers (message : string) (lab : Label) : bool :=
  match lab with
  | Env (SocketMessage _ e) => is_reply message e
  | _ => false
  end.

(** ** Suspended continuations *)

(** The continuations suspended on the promise call [n] of [m] returned,
    oldest first. *)
Definition waiting (s : Client) (m : Method) (n : nat) : list Cont :=
  match nth_error (heap s m) n with
  | Some c => awaiters c
  | None => []
  end.

(** A client with two requests sent and not answered: [getMonitors()] and
    [getWindows()] (calls 0 and 1 of [sendAndWaitReply]). *)
Definition two_queries_client : Client :=
  after [Caller [SendQuery "monitors"; SendQuery "windows"];
         Environment (SocketOpen 0)].

(** A client with the same request sent twice and not answered. *)
Definition same_query_twice_client : Client :=
  after [Caller [SendQuery "monitors"; SendQuery "monitors"];
         Environment (SocketOpen 0)].

(** ** The creation of the socket *)

Definition is_create (j : Job) : bool :=
  match j with
  | JCreateSocket _ _ => true
  | _ => false
  end.

(** The calls of [_createSocket] that have not yet constructed their
    socket or failed: those scheduled, and those waiting for [import('ws')]. *)
Definition creating (s : Client) : nat :=
  List.length (filter is_create (microtasks s)) + List.length (importing s).

(** How many times [_createSocket] can have been called: its promise is
    kept in [_createSocketPromise] and the field is never reset. *)
Definition createSocket_calls (s : Client) : nat :=
  match _createSocketPromise s with
  | Some _ => 1
  | None => 0
  end.

(** Whether [connect()] calls [_createSocket] (lines 216-219). *)
Definition creates (s : Client) : nat :=
  match _socket s, _createSocketPromise s with
  | None, None => 1
  | _, _ => 0
  end.

(** [this._options?.port ?? this.DEFAULT_PORT]. *)
Definition configured_port (s : Client) : N :=
  match port s with
  | Some p => p
  | None => DEFAULT_PORT
  end.

Definition single_socket (s : Client) : Prop :=
  List.length (sockets s) + creating s <= createSocket_calls s
  /\ Forall (fun ws => ws_port ws = configured_port s) (sockets s).

(** The state after the tasks [ts], from a new client in an environment
    without [globalThis.WebSocket]. *)
Definition after_without_api (ts : list Task) : Client :=
  match play (new_client None false) ts with
  | Some s => s
  | None => new_client None false
  end.

(** Nothing in the client mentions a request before [sendAndWaitReply] is
    called for it: no listener, no suspended continuation, no scheduled
    [.finally]. *)
Definition fresh_requests (s : Client) : Prop :=
  forall n, next_call ReplyM s <= n ->
            reply_listeners n (_onMessageCallbacks s) = []
            /\ pending (resends n) s = 0
            /\ finally_jobs n (microtasks s) = [].

(** ** The send operations *)

(** The text a send operation transmits. *)
Definition request_text (op : Op) : option string :=
  match op with
  | SendAndWaitReply message => Some message
  | SendQuery query => Some ("query " ++ query)%string
  | RunCommand command contextContainer => Some (command_text command contextContainer)
  | Subscribe event _ => Some (subscribe_text [event])
  | SubscribeMany events _ => Some (subscribe_text events)
  | _ => None
  end.

(** [socket.send(message)] on an open socket. *)
Definition transmit (message : string) (ws : WebSocket) : WebSocket :=
  mkWebSocket (ws_port ws) OPEN (sent ws ++ [message]).

(** A client whose connection is open, with nothing sent. *)
Definition connected_client : Client :=
  and_then (new_client None true)
           [Call Connect; Tick; Tick; Env (SocketOpen 0); Tick; Tick].

(** ** The call a continuation belongs to *)

Definition owner (k : Cont) : Method * nat :=
  match k with
  | KConnectGotSocket c | KConnectOpened c => (ConnectM, c)
  | KSendConnected n _ => (ReplyM, n)
  | KSubscribeReplied n _ _ => (SubscribeM, n)
  | KUnlistenReplied u => (UnlistenM, u)
  | KCommandReplied c => (CommandM, c)
  end.

(** Whether [k] is a continuation of call [n] of [m] (as a number, to be
    summed by [pending]). *)
Definition owned (m : Method) (n : nat) (k : Cont) : nat :=
  if Method_eqb (fst (owner k)) m && Nat.eqb (snd (owner k)) n then 1 else 0.

(** The promise of the call [k] belongs to. *)
Definition result_of (k : Cont) (s : Client) : option Status :=
  promise s (fst (owner k)) (snd (owner k)).

(** The async functions whose promise is settled by their own
    continuations only. *)
Definition settles_itself (m : Method) : bool :=
  match m with
  | ConnectM | SubscribeM | UnlistenM | CommandM => true
  | _ => false
  end.

(** [k] is suspended on the promise of call [n0] of [m0], which is
    pending; the call [k] belongs to has no other continuation, and its
    promise is pending. *)
Definition suspended (k : Cont) (m0 : Method) (n0 : nat) (s : Client) : Prop :=
  In k (waiting s m0 n0)
  /\ promise s m0 n0 = Some Pending
  /\ pending (owned (fst (owner k)) (snd (owner k))) s <= 1
  /\ result_of k s = Some Pending.

(** [k] is scheduled, to resume with [o]. *)
Definition resuming (k : Cont) (o : Outcome) (s : Client) : Prop :=
  In (JAwaited k o) (microtasks s)
  /\ pending (owned (fst (owner k)) (snd (owner k))) s <= 1
  /\ result_of k s = Some Pending.

(** The call [k] belongs to is over, with [o]. *)
Definition resumed (k : Cont) (o : Outcome) (s : Client) : Prop :=
  result_of k s = Some (Settled o)
  /\ pending (owned (fst (owner k)) (snd (owner k))) s = 0.


(** No continuation belongs to a call that has not been made. *)
Definition fresh_conts (s : Client) : Prop :=
  forall m n, settles_itself m = true -> next_call m s <= n ->
              pending (owned m n) s = 0.

(** [k] waits for the reply to request [r], which is outstanding. *)
Definition awaiting (k : Cont) (r : nat) (message : string) (s : Client) : Prop :=
  outstanding r message s /\ suspended k ReplyM r s.

(** What an async function that awaits a request makes of its outcome. *)
Definition command_outcome (o : Outcome) : Outcome :=
  match o with
  | Fulfilled _ => Fulfilled VUndefined
  | Rejected r => Rejected r
  end.

(** No listener belongs to a [subscribeMany] call that has not been made. *)
Definition fresh_subscriptions (s : Client) : Prop :=
  forall n, next_call SubscribeM s <= n ->
            subscription_listeners n (_onMessageCallbacks s) = [].

(** The event types and the callback of a subscribing call. *)
Definition subscribe_request (op : Op) : option (list string * nat) :=
  match op with
  | Subscribe event callback => Some ([event], callback)
  | SubscribeMany events callback => Some (events, callback)
  | _ => None
  end.

(** Where a function that awaits request [r] is, from the reply to the
    end of the task: the request is settled first, then the function is
    resumed with the outcome [o], and settles its own promise with [o'].
    [Q] holds of the client until the function is resumed, [Q'] after. *)
Definition reply_phase (K : Cont) (r : nat) (message : string) (o o' : Outcome)
           (Q Q' : Client -> Prop) (s : Client) : Prop :=
  (scheduled r message o s /\ suspended K ReplyM r s /\ Q s)
  \/ (replied r o s /\ resuming K o s /\ Q s)
  \/ (replied r o s /\ resumed K o' s /\ Q' s).

(** ** Waiting for the connection *)

(** Whether every microtask of [q] that settles the promise of call [n0]
    of [m0] settles it with an outcome that satisfies [P]. *)
Definition settles_with (P : Outcome -> Prop) (m0 : Method) (n0 : nat) (q : list Job) : Prop :=
  forall j, In j q -> job_targets j m0 n0 = true ->
            exists o, job_settles j = Some (m0, n0, o) /\ P o.

(** Where a function suspended on the promise of call [n0] of [m0] is,
    from the moment a microtask that settles that promise is scheduled to
    the end of the task: the promise is settled first, with an outcome
    that satisfies [P]; then the function is resumed, and settles its own
    promise with [o'].  [Q] holds of the client until the function is
    resumed, [Q'] after. *)
Definition settle_phase (K : Cont) (m0 : Method) (n0 : nat) (P : Outcome -> Prop)
           (o' : Outcome) (Q Q' : Client -> Prop) (s : Client) : Prop :=
  (suspended K m0 n0 s
   /\ (exists j, In j (microtasks s) /\ job_targets j m0 n0 = true)
   /\ settles_with P m0 n0 (microtasks s)
   /\ Q s)
  \/ (exists o, P o /\ resuming K o s /\ Q s)
  \/ (resumed K o' s /\ Q' s).

Definition is_fulfilled (o : Outcome) : Prop :=
  match o with
  | Fulfilled _ => True
  | Rejected _ => False
  end.

(** The promise [_waitForConnection] call [w] returned waits for the open
    event: its listener is registered and nothing has resolved it. *)
Definition wait_outstanding (w : nat) (s : Client) : Prop :=
  In (ConnectWaiter w) (_onConnectCallbacks s)
  /\ inner_promise s WaitM w = Some Pending
  /\ promise s WaitM w = Some Pending
  /\ forall j, In j (microtasks s) -> job_targets j WaitM w = false.

(** [connect] call [c] waits for the open event, on the promise of
    [_waitForConnection] call [w]. *)
Definition connecting (c w : nat) (s : Client) : Prop :=
  wait_outstanding w s /\ suspended (KConnectOpened c) WaitM w s.

Definition opens (lab : Label) : bool :=
  match lab with
  | Env (SocketOpen _) => true
  | _ => false
  end.

(** The client has a socket and none of its sockets is still connecting:
    no open event can come. *)
Definition never_opens (s : Client) : Prop :=
  sockets s <> []
  /\ Forall (fun ws => readyState ws <> CONNECTING) (sockets s).

Definition gets_socket (k : Cont) : nat :=
  match k with
  | KConnectGotSocket _ => 1
  | _ => 0
  end.

(** While [_createSocket] has not been called, the client has no socket
    and no call of [connect] waits for one. *)
Definition no_creation (s : Client) : Prop :=
  _createSocketPromise s = None ->
  _socket s = None /\ pending gets_socket s = 0.

(** ** The import of [ws] *)

Definition imports (lab : Label) : bool :=
  match lab with
  | Env (ImportSettled _ _) => true
  | _ => false
  end.

(** [connect] call [c] waits for the socket that [_createSocket] call [k]
    will return; it is the last call of [connect] so far. *)
Definition joined (c k : nat) (s : Client) : Prop :=
  _socket s = None
  /\ _createSocketPromise s = Some k
  /\ In k (importing s)
  /\ next_call ConnectM s = S c
  /\ suspended (KConnectGotSocket c) CreateSocketM k s.

(** The client has no socket yet: either [connect] was never called, or
    [_createSocket] waits for the import of [ws] and every call of
    [connect] waits for the socket. *)
Definition importing_ws (s : Client) : Prop :=
  _socket s = None
  /\ match _createSocketPromise s with
     | None => next_call ConnectM s = 0
     | Some k =>
         In k (importing s)
         /\ promise s CreateSocketM k = Some Pending
         /\ forall c, c < next_call ConnectM s ->
                      suspended (KConnectGotSocket c) CreateSocketM k s
     end.

(** The operations that call [connect]. *)
Definition connects (op : Op) (s : Client) : bool :=
  match op with
  | Connect | SendAndWaitReply _ | SendQuery _ | RunCommand _ _
  | Subscribe _ _ | SubscribeMany _ _ => true
  | InvokeUnlistenFn n =>
      match promise s SubscribeM n with
      | Some (Settled (Fulfilled (VUnlistenFn _ _ (Some JNull)))) => false
      | Some (Settled (Fulfilled (VUnlistenFn _ _ (Some _)))) => true
      | _ => false
      end
  | _ => false
  end.

(** ** Requests made before the connection is open *)

(** [sendAndWaitReply] call [n] has built its promise and sent nothing:
    it has no listener, and nothing has settled its promise. *)
Definition unsent (n : nat) (s : Client) : Prop :=
  reply_listeners n (_onMessageCallbacks s) = []
  /\ inner_promise s ReplyM n = Some Pending
  /\ promise s ReplyM n = Some Pending
  /\ finally_jobs n (microtasks s) = [].

(** Request [n] waits for call [c] of [connect], to send [message]. *)
Definition queued (c n : nat) (message : string) (s : Client) : Prop :=
  unsent n s /\ suspended (KSendConnected n message) ConnectM c s.

(** The executor of request [n] is over and has sent nothing: the request
    has no listener and no continuation, and its promise is pending. *)
Definition abandoned (n : nat) (s : Client) : Prop :=
  unsent n s /\ pending (resends n) s = 0.

(** Where request [n] is while call [c] of [connect] settles with [o]:
    first its executor is suspended, then it is scheduled to resume with
    [o]; [F] holds of the client until it has resumed, [R] after. *)
Definition send_waits (c n : nat) (message : string) (F : Client -> Prop)
           (s : Client) : Prop :=
  queued c n message s /\ F s.

Definition send_phase (n : nat) (message : string) (o : Outcome)
           (F R : Client -> Prop) (s : Client) : Prop :=
  (unsent n s /\ resuming (KSendConnected n message) o s /\ F s) \/ R s.

(** The client has its socket, and no call of [connect] waits for one. *)
Definition has_socket (i : nat) (s : Client) : Prop :=
  _socket s = Some i /\ pending gets_socket s = 0.

(** Socket [i] is open, and has been handed the texts [l] and then
    others. *)
Definition sent_from (i : nat) (l : list string) (s : Client) : Prop :=
  exists ws more,
    nth_error (sockets s) i = Some ws /\ readyState ws = OPEN
    /\ sent ws = l ++ more.

(** Socket [i] is open, and has been handed [message] after the texts
    [l]. *)
Definition sent_after (i : nat) (l : list string) (message : string)
           (s : Client) : Prop :=
  exists ws before after,
    nth_error (sockets s) i = Some ws /\ readyState ws = OPEN
    /\ sent ws = l ++ before ++ message :: after.

(** The continuation of the operation that awaits the request it makes. *)
Definition request_cont (op : Op) (s : Client) : option Cont :=
  match op with
  | RunCommand _ _ => Some (KCommandReplied (next_call CommandM s))
  | Subscribe event callback =>
      Some (KSubscribeReplied (next_call SubscribeM s) [event] callback)
  | SubscribeMany events callback =>
      Some (KSubscribeReplied (next_call SubscribeM s) events callback)
  | _ => None
  end.

(** [k], if any, is suspended on the promise of request [n]. *)
Definition caller_waits (k : option Cont) (n : nat) (s : Client) : Prop :=
  match k with
  | Some K => suspended K ReplyM n s
  | None => True
  end.

(** The first call of [connect], number [c], where [globalThis.WebSocket]
    exists, up to the end of the call: [_createSocket], call [k], is
    scheduled to resume, [connect] waits for the socket, and the client
    has none. *)
Definition starting (c k : nat) (s : Client) : Prop :=
  microtasks s = [JCreateSocket k true]
  /\ waiting s CreateSocketM k = [KConnectGotSocket c]
  /\ promise s CreateSocketM k = Some Pending
  /\ promise s ConnectM c = Some Pending
  /\ pending (owned ConnectM c) s <= 1
  /\ pending gets_socket s <= 1
  /\ sockets s = [].
(* ================================================================== *)
(** * Properties of the callback registry *)
(* ================================================================== *)

Module RegistryFacts.
Import Registry.
Section RegistryFacts.

Variable T : Type.
Variable same : T -> T -> bool.
Hypothesis same_spec : forall a b, same a b = true <-> a = b.

Lemma same_refl (c : T) : same c c = true.
Proof. now apply same_spec. Qed.

Lemma same_false (a b : T) : a <> b -> same a b = false.
Proof.
  intros Hne. destruct (same a b) eqn:E; [|reflexivity].
  apply same_spec in E. contradiction.
Qed.

Lemma splice_app (pre : list T) (x : T) (xs : list T) :
  splice (List.length pre) (pre ++ x :: xs) = pre ++ xs.
Proof.
  unfold splice.
  rewrite firstn_app, Nat.sub_diag, firstn_all. cbn [firstn]. rewrite app_nil_r.
  replace (S (List.length pre)) with (List.length (pre ++ [x]))
    by (rewrite length_app; cbn; lia).
  replace (pre ++ x :: xs) with ((pre ++ [x]) ++ xs)
    by (rewrite <- app_assoc; reflexivity).
  rewrite skipn_app, Nat.sub_diag, skipn_all. reflexivity.
Qed.

Lemma nth_error_middle (pre : list T) (x : T) (xs : list T) :
  nth_error (pre ++ x :: xs) (List.length pre) = Some x.
Proof. rewrite nth_error_app2, Nat.sub_diag by lia. reflexivity. Qed.

(** The loop, started at index [length pre], sweeps the rest. *)
Lemma unlisten_loop_sweep (c : T) :
  forall fuel pre rest,
    List.length rest <= fuel ->
    unlisten_loop same c fuel (List.length pre) (pre ++ rest) = pre ++ sweep same c rest.
Proof.
  induction fuel as [|fuel IH]; intros pre rest Hlen.
  - destruct rest; [reflexivity | cbn in Hlen; lia].
  - destruct rest as [|x xs].
    + cbn [unlisten_loop sweep].
      rewrite (proj2 (nth_error_None (pre ++ []) (List.length pre)))
        by (rewrite length_app; cbn; lia).
      reflexivity.
    + cbn [unlisten_loop sweep]. rewrite nth_error_middle.
      destruct (same x c) eqn:E.
      * rewrite splice_app.
        destruct xs as [|y ys].
        -- destruct fuel; cbn [unlisten_loop]; [reflexivity|].
           rewrite (proj2 (nth_error_None (pre ++ []) (S (List.length pre))))
             by (rewrite length_app; cbn; lia).
           reflexivity.
        -- replace (S (List.length pre)) with (List.length (pre ++ [y]))
             by (rewrite length_app; cbn; lia).
           replace (pre ++ y :: ys) with ((pre ++ [y]) ++ ys)
             by (rewrite <- app_assoc; reflexivity).
           rewrite IH by (cbn in Hlen; lia).
           rewrite <- app_assoc. reflexivity.
      * replace (S (List.length pre)) with (List.length (pre ++ [x]))
          by (rewrite length_app; cbn; lia).
        replace (pre ++ x :: xs) with ((pre ++ [x]) ++ xs)
          by (rewrite <- app_assoc; reflexivity).
        rewrite IH by (cbn in Hlen; lia).
        rewrite <- app_assoc. reflexivity.
Qed.

(** The fuel [unlisten] gives the loop is enough. *)
Lemma unlisten_sweep (c : T) (l : list T) : unlisten same c l = sweep same c l.
Proof. unfold unlisten. apply unlisten_loop_sweep with (pre := []). lia. Qed.

Lemma sweep_absent (c : T) (l : list T) :
  occurrences same c l = 0 -> sweep same c l = l.
Proof.
  induction l as [|x xs IH]; cbn; [reflexivity|].
  destruct (same x c); [discriminate|]. intros H. now rewrite IH.
Qed.

Lemma remove_first_absent (c : T) (l : list T) :
  occurrences same c l = 0 -> remove_first same c l = l.
Proof.
  induction l as [|x xs IH]; cbn; [reflexivity|].
  destruct (same x c); [discriminate|]. intros H. now rewrite IH.
Qed.

Lemma sweep_once (c : T) (l : list T) :
  occurrences same c l <= 1 -> sweep same c l = remove_first same c l.
Proof.
  induction l as [|x xs IH]; cbn [occurrences sweep remove_first]; [reflexivity|].
  destruct (same x c); intros H.
  - assert (H0 : occurrences same c xs = 0) by lia.
    destruct xs as [|y ys]; [reflexivity|].
    cbn in H0. destruct (same y c) eqn:E; [discriminate|].
    now rewrite sweep_absent.
  - now rewrite IH.
Qed.

Lemma occurrences_remove_first (c : T) (l : list T) :
  occurrences same c (remove_first same c l) = pred (occurrences same c l).
Proof.
  induction l as [|x xs IH]; cbn; [reflexivity|].
  destruct (same x c) eqn:E; cbn; [reflexivity|]. now rewrite E.
Qed.

Lemma occurrences_app (c : T) (l m : list T) :
  occurrences same c (l ++ m) = occurrences same c l + occurrences same c m.
Proof. induction l as [|x xs IH]; cbn; [reflexivity|]. rewrite IH. lia. Qed.

Lemma occurrences_absent (c : T) (l : list T) :
  ~ In c l <-> occurrences same c l = 0.
Proof.
  induction l as [|x xs IH]; cbn; [tauto|].
  destruct (same x c) eqn:E.
  - apply same_spec in E. split; [intros H; exfalso; auto | discriminate].
  - assert (x <> c) by (intros ->; rewrite same_refl in E; discriminate).
    cbn. tauto.
Qed.

(** Entries other than [c] all stay, in their order. *)
Lemma others_sweep (c : T) :
  forall n l, List.length l <= n -> others same c (sweep same c l) = others same c l.
Proof.
  induction n as [|n IH]; intros l Hlen.
  - destruct l; [reflexivity | cbn in Hlen; lia].
  - destruct l as [|x xs]; [reflexivity|].
    cbn [sweep]. destruct (same x c) eqn:E.
    + destruct xs as [|y ys]; cbn [others filter]; rewrite E; cbn [negb]; [reflexivity|].
      fold (others same c ys). fold (others same c (sweep same c ys)).
      rewrite IH by (cbn in Hlen; lia). reflexivity.
    + cbn [others filter]. rewrite E. cbn [negb].
      fold (others same c xs). fold (others same c (sweep same c xs)).
      rewrite IH by (cbn in Hlen; lia). reflexivity.
Qed.

(** What a filter keeps, when it does not keep [c], stays, in order. *)
Lemma filter_sweep (P : T -> bool) (c : T) :
  P c = false ->
  forall n l, List.length l <= n -> filter P (sweep same c l) = filter P l.
Proof.
  intros Hc. induction n as [|n IH]; intros l Hlen.
  - destruct l; [reflexivity | cbn in Hlen; lia].
  - destruct l as [|x xs]; [reflexivity|].
    cbn [sweep]. destruct (same x c) eqn:E.
    + apply same_spec in E. subst x.
      cbn [filter]. rewrite Hc.
      destruct xs as [|y ys]; [reflexivity|].
      cbn [filter]. rewrite IH by (cbn in Hlen; lia). reflexivity.
    + cbn [filter]. rewrite IH by (cbn in Hlen; lia). reflexivity.
Qed.

Lemma filter_unlisten (P : T -> bool) (c : T) (l : list T) :
  P c = false -> filter P (unlisten same c l) = filter P l.
Proof.
  intros Hc. rewrite unlisten_sweep.
  apply filter_sweep with (n := List.length l); [assumption | lia].
Qed.

Lemma filter_push (P : T -> bool) (c : T) (l : list T) :
  filter P (push l c) = filter P l ++ (if P c then [c] else []).
Proof. unfold push. rewrite filter_app. reflexivity. Qed.

Lemma others_unlisten (c : T) (l : list T) :
  others same c (unlisten same c l) = others same c l.
Proof. rewrite unlisten_sweep. apply others_sweep with (n := List.length l). lia. Qed.

(** The first entry identical to [c] goes. *)
Lemma sweep_first (c : T) (pre post : list T) :
  ~ In c pre ->
  sweep same c (pre ++ c :: post)
  = pre ++ match post with [] => [] | y :: ys => y :: sweep same c ys end.
Proof.
  induction pre as [|x xs IH]; intros Hnot.
  - cbn. now rewrite same_refl.
  - cbn [app sweep]. rewrite same_false by (intros ->; apply Hnot; now left).
    rewrite IH by (intros H; apply Hnot; now right). reflexivity.
Qed.

(** [callback] stays registered when another callback unregisters. *)
Lemma occurrences_sweep_other (c d : T) :
  c <> d ->
  forall n l, List.length l <= n ->
    occurrences same d (sweep same c l) = occurrences same d l.
Proof.
  intros Hne. induction n as [|n IH]; intros l Hlen.
  - destruct l; [reflexivity | cbn in Hlen; lia].
  - destruct l as [|x xs]; [reflexivity|].
    cbn [sweep]. destruct (same x c) eqn:E.
    + apply same_spec in E. subst x.
      cbn [occurrences]. rewrite (same_false Hne).
      destruct xs as [|y ys]; [reflexivity|].
      cbn [occurrences]. rewrite IH by (cbn in Hlen; lia). reflexivity.
    + cbn [occurrences]. rewrite IH by (cbn in Hlen; lia). reflexivity.
Qed.

Lemma occurrences_unlisten_other (c d : T) (l : list T) :
  c <> d -> occurrences same d (unlisten same c l) = occurrences same d l.
Proof.
  intros Hne. rewrite unlisten_sweep.
  apply occurrences_sweep_other with (n := List.length l); [assumption | lia].
Qed.

Lemma unlisten_once (c : T) (l : list T) :
  occurrences same c l <= 1 ->
  unlisten same c l = remove_first same c l
  /\ occurrences same c (unlisten same c l) = 0.
Proof.
  intros H. rewrite unlisten_sweep, sweep_once by assumption.
  split; [reflexivity|]. rewrite occurrences_remove_first. lia.
Qed.

Lemma unlisten_absent (c : T) (l : list T) :
  occurrences same c l = 0 -> unlisten same c l = l.
Proof. intros H. rewrite unlisten_sweep. now apply sweep_absent. Qed.

Lemma unlisten_push_fresh (c : T) (l : list T) :
  occurrences same c l = 0 -> unlisten same c (push l c) = l.
Proof.
  intros H. unfold push. rewrite unlisten_sweep.
  rewrite sweep_first by (now apply occurrences_absent).
  apply app_nil_r.
Qed.

End RegistryFacts.
End RegistryFacts.

(* ================================================================== *)
(** * Identity of callbacks *)
(* ================================================================== *)

Lemma strings_eqb_spec (a b : list string) : strings_eqb a b = true <-> a = b.
Proof.
  revert b. induction a as [|x a IH]; intros [|y b]; cbn; try (split; congruence).
  rewrite andb_true_iff, String.eqb_eq, IH. split.
  - intros [-> ->]. reflexivity.
  - intros H. injection H as -> ->. auto.
Qed.

Lemma MessageCallback_same_spec (a b : MessageCallback) :
  MessageCallback_same a b = true <-> a = b.
Proof.
  destruct a, b; cbn; try (split; congruence);
    rewrite ?andb_true_iff, ?Nat.eqb_eq, ?String.eqb_eq, ?strings_eqb_spec;
    (split; [intros H; decompose [and] H; congruence | intros H; injection H; auto]).
Qed.

Lemma ConnectCallback_same_spec (a b : ConnectCallback) :
  ConnectCallback_same a b = true <-> a = b.
Proof.
  destruct a, b; cbn; try (split; congruence);
    rewrite Nat.eqb_eq; split; intros H; try (injection H as ->); subst; auto.
Qed.


(* ================================================================== *)
(** * Reading a log *)
(* ================================================================== *)

Lemma message_callbacks_run_app (a b : list Obs) :
  message_callbacks_run (a ++ b) = message_callbacks_run a ++ message_callbacks_run b.
Proof. unfold message_callbacks_run. now rewrite flat_map_app. Qed.

Lemma delivered_app (n : nat) (a b : list Obs) :
  delivered n (a ++ b) = delivered n a ++ delivered n b.
Proof. unfold delivered. now rewrite flat_map_app. Qed.


(* ================================================================== *)
(** * What the promise primitives leave alone *)
(* ================================================================== *)

Create Rewrite HintDb frame.

Ltac frame_by_cases l n :=
  destruct (nth_error l n) as [[[|?] [|?] ?]|]; reflexivity.

Lemma port_settle (m : Method) (n : nat) (o : Outcome) (s : Client) :
  port (settle m n o s) = port s.
Proof. unfold settle. frame_by_cases (heap s m) n. Qed.

Lemma api_settle (m : Method) (n : nat) (o : Outcome) (s : Client) :
  hasGlobalWebSocket (settle m n o s) = hasGlobalWebSocket s.
Proof. unfold settle. frame_by_cases (heap s m) n. Qed.

Lemma socket_settle (m : Method) (n : nat) (o : Outcome) (s : Client) :
  _socket (settle m n o s) = _socket s.
Proof. unfold settle. frame_by_cases (heap s m) n. Qed.

Lemma socket_promise_settle (m : Method) (n : nat) (o : Outcome) (s : Client) :
  _createSocketPromise (settle m n o s) = _createSocketPromise s.
Proof. unfold settle. frame_by_cases (heap s m) n. Qed.

Lemma messages_settle (m : Method) (n : nat) (o : Outcome) (s : Client) :
  _onMessageCallbacks (settle m n o s) = _onMessageCallbacks s.
Proof. unfold settle. frame_by_cases (heap s m) n. Qed.

Lemma connects_settle (m : Method) (n : nat) (o : Outcome) (s : Client) :
  _onConnectCallbacks (settle m n o s) = _onConnectCallbacks s.
Proof. unfold settle. frame_by_cases (heap s m) n. Qed.

Lemma disconnects_settle (m : Method) (n : nat) (o : Outcome) (s : Client) :
  _onDisconnectCallbacks (settle m n o s) = _onDisconnectCallbacks s.
Proof. unfold settle. frame_by_cases (heap s m) n. Qed.

Lemma errors_settle (m : Method) (n : nat) (o : Outcome) (s : Client) :
  _onErrorCallbacks (settle m n o s) = _onErrorCallbacks s.
Proof. unfold settle. frame_by_cases (heap s m) n. Qed.

Lemma sockets_settle (m : Method) (n : nat) (o : Outcome) (s : Client) :
  sockets (settle m n o s) = sockets s.
Proof. unfold settle. frame_by_cases (heap s m) n. Qed.

Lemma importing_settle (m : Method) (n : nat) (o : Outcome) (s : Client) :
  importing (settle m n o s) = importing s.
Proof. unfold settle. frame_by_cases (heap s m) n. Qed.

Lemma log_settle (m : Method) (n : nat) (o : Outcome) (s : Client) :
  log (settle m n o s) = log s.
Proof. unfold settle. frame_by_cases (heap s m) n. Qed.

Lemma port_await (m : Method) (n : nat) (k : Cont) (s : Client) :
  port (await m n k s) = port s.
Proof. unfold await. frame_by_cases (heap s m) n. Qed.

Lemma api_await (m : Method) (n : nat) (k : Cont) (s : Client) :
  hasGlobalWebSocket (await m n k s) = hasGlobalWebSocket s.
Proof. unfold await. frame_by_cases (heap s m) n. Qed.

Lemma socket_await (m : Method) (n : nat) (k : Cont) (s : Client) :
  _socket (await m n k s) = _socket s.
Proof. unfold await. frame_by_cases (heap s m) n. Qed.

Lemma socket_promise_await (m : Method) (n : nat) (k : Cont) (s : Client) :
  _createSocketPromise (await m n k s) = _createSocketPromise s.
Proof. unfold await. frame_by_cases (heap s m) n. Qed.

Lemma messages_await (m : Method) (n : nat) (k : Cont) (s : Client) :
  _onMessageCallbacks (await m n k s) = _onMessageCallbacks s.
Proof. unfold await. frame_by_cases (heap s m) n. Qed.

Lemma connects_await (m : Method) (n : nat) (k : Cont) (s : Client) :
  _onConnectCallbacks (await m n k s) = _onConnectCallbacks s.
Proof. unfold await. frame_by_cases (heap s m) n. Qed.

Lemma disconnects_await (m : Method) (n : nat) (k : Cont) (s : Client) :
  _onDisconnectCallbacks (await m n k s) = _onDisconnectCallbacks s.
Proof. unfold await. frame_by_cases (heap s m) n. Qed.

Lemma errors_await (m : Method) (n : nat) (k : Cont) (s : Client) :
  _onErrorCallbacks (await m n k s) = _onErrorCallbacks s.
Proof. unfold await. frame_by_cases (heap s m) n. Qed.

Lemma sockets_await (m : Method) (n : nat) (k : Cont) (s : Client) :
  sockets (await m n k s) = sockets s.
Proof. unfold await. frame_by_cases (heap s m) n. Qed.

Lemma importing_await (m : Method) (n : nat) (k : Cont) (s : Client) :
  importing (await m n k s) = importing s.
Proof. unfold await. frame_by_cases (heap s m) n. Qed.

Lemma log_await (m : Method) (n : nat) (k : Cont) (s : Client) :
  log (await m n k s) = log s.
Proof. unfold await. frame_by_cases (heap s m) n. Qed.

Lemma port_settle_reply (n : nat) (message : string) (o : Outcome) (s : Client) :
  port (settle_reply n message o s) = port s.
Proof. unfold settle_reply. frame_by_cases (heap s ReplyM) n. Qed.

Lemma api_settle_reply (n : nat) (message : string) (o : Outcome) (s : Client) :
  hasGlobalWebSocket (settle_reply n message o s) = hasGlobalWebSocket s.
Proof. unfold settle_reply. frame_by_cases (heap s ReplyM) n. Qed.

Lemma socket_settle_reply (n : nat) (message : string) (o : Outcome) (s : Client) :
  _socket (settle_reply n message o s) = _socket s.
Proof. unfold settle_reply. frame_by_cases (heap s ReplyM) n. Qed.

Lemma socket_promise_settle_reply (n : nat) (message : string) (o : Outcome) (s : Client) :
  _createSocketPromise (settle_reply n message o s) = _createSocketPromise s.
Proof. unfold settle_reply. frame_by_cases (heap s ReplyM) n. Qed.

Lemma messages_settle_reply (n : nat) (message : string) (o : Outcome) (s : Client) :
  _onMessageCallbacks (settle_reply n message o s) = _onMessageCallbacks s.
Proof. unfold settle_reply. frame_by_cases (heap s ReplyM) n. Qed.

Lemma connects_settle_reply (n : nat) (message : string) (o : Outcome) (s : Client) :
  _onConnectCallbacks (settle_reply n message o s) = _onConnectCallbacks s.
Proof. unfold settle_reply. frame_by_cases (heap s ReplyM) n. Qed.

Lemma disconnects_settle_reply (n : nat) (message : string) (o : Outcome) (s : Client) :
  _onDisconnectCallbacks (settle_reply n message o s) = _onDisconnectCallbacks s.
Proof. unfold settle_reply. frame_by_cases (heap s ReplyM) n. Qed.

Lemma errors_settle_reply (n : nat) (message : string) (o : Outcome) (s : Client) :
  _onErrorCallbacks (settle_reply n message o s) = _onErrorCallbacks s.
Proof. unfold settle_reply. frame_by_cases (heap s ReplyM) n. Qed.

Lemma sockets_settle_reply (n : nat) (message : string) (o : Outcome) (s : Client) :
  sockets (settle_reply n message o s) = sockets s.
Proof. unfold settle_reply. frame_by_cases (heap s ReplyM) n. Qed.

Lemma importing_settle_reply (n : nat) (message : string) (o : Outcome) (s : Client) :
  importing (settle_reply n message o s) = importing s.
Proof. unfold settle_reply. frame_by_cases (heap s ReplyM) n. Qed.

Lemma log_settle_reply (n : nat) (message : string) (o : Outcome) (s : Client) :
  log (settle_reply n message o s) = log s.
Proof. unfold settle_reply. frame_by_cases (heap s ReplyM) n. Qed.

Lemma port_settle_wait (n : nat) (o : Outcome) (s : Client) :
  port (settle_wait n o s) = port s.
Proof. unfold settle_wait. frame_by_cases (heap s WaitM) n. Qed.

Lemma api_settle_wait (n : nat) (o : Outcome) (s : Client) :
  hasGlobalWebSocket (settle_wait n o s) = hasGlobalWebSocket s.
Proof. unfold settle_wait. frame_by_cases (heap s WaitM) n. Qed.

Lemma socket_settle_wait (n : nat) (o : Outcome) (s : Client) :
  _socket (settle_wait n o s) = _socket s.
Proof. unfold settle_wait. frame_by_cases (heap s WaitM) n. Qed.

Lemma socket_promise_settle_wait (n : nat) (o : Outcome) (s : Client) :
  _createSocketPromise (settle_wait n o s) = _createSocketPromise s.
Proof. unfold settle_wait. frame_by_cases (heap s WaitM) n. Qed.

Lemma messages_settle_wait (n : nat) (o : Outcome) (s : Client) :
  _onMessageCallbacks (settle_wait n o s) = _onMessageCallbacks s.
Proof. unfold settle_wait. frame_by_cases (heap s WaitM) n. Qed.

Lemma connects_settle_wait (n : nat) (o : Outcome) (s : Client) :
  _onConnectCallbacks (settle_wait n o s) = _onConnectCallbacks s.
Proof. unfold settle_wait. frame_by_cases (heap s WaitM) n. Qed.

Lemma disconnects_settle_wait (n : nat) (o : Outcome) (s : Client) :
  _onDisconnectCallbacks (settle_wait n o s) = _onDisconnectCallbacks s.
Proof. unfold settle_wait. frame_by_cases (heap s WaitM) n. Qed.

Lemma errors_settle_wait (n : nat) (o : Outcome) (s : Client) :
  _onErrorCallbacks (settle_wait n o s) = _onErrorCallbacks s.
Proof. unfold settle_wait. frame_by_cases (heap s WaitM) n. Qed.

Lemma sockets_settle_wait (n : nat) (o : Outcome) (s : Client) :
  sockets (settle_wait n o s) = sockets s.
Proof. unfold settle_wait. frame_by_cases (heap s WaitM) n. Qed.

Lemma importing_settle_wait (n : nat) (o : Outcome) (s : Client) :
  importing (settle_wait n o s) = importing s.
Proof. unfold settle_wait. frame_by_cases (heap s WaitM) n. Qed.

Lemma log_settle_wait (n : nat) (o : Outcome) (s : Client) :
  log (settle_wait n o s) = log s.
Proof. unfold settle_wait. frame_by_cases (heap s WaitM) n. Qed.

#[export] Hint Rewrite
  port_settle
  api_settle
  socket_settle
  socket_promise_settle
  messages_settle
  connects_settle
  disconnects_settle
  errors_settle
  sockets_settle
  importing_settle
  log_settle
  port_await
  api_await
  socket_await
  socket_promise_await
  messages_await
  connects_await
  disconnects_await
  errors_await
  sockets_await
  importing_await
  log_await
  port_settle_reply
  api_settle_reply
  socket_settle_reply
  socket_promise_settle_reply
  messages_settle_reply
  connects_settle_reply
  disconnects_settle_reply
  errors_settle_reply
  sockets_settle_reply
  importing_settle_reply
  log_settle_reply
  port_settle_wait
  api_settle_wait
  socket_settle_wait
  socket_promise_settle_wait
  messages_settle_wait
  connects_settle_wait
  disconnects_settle_wait
  errors_settle_wait
  sockets_settle_wait
  importing_settle_wait
  log_settle_wait
  : frame.

(* ================================================================== *)
(** * Lists updated at an index *)
(* ================================================================== *)

Lemma length_update_nth (A : Type) (f : A -> A) (l : list A) :
  forall n, List.length (update_nth n f l) = List.length l.
Proof. induction l as [|x xs IH]; intros [|n]; cbn; auto. Qed.

Lemma nth_error_update_nth_eq (A : Type) (f : A -> A) (l : list A) :
  forall n, nth_error (update_nth n f l) n = option_map f (nth_error l n).
Proof. induction l as [|x xs IH]; intros [|n]; cbn; auto. Qed.

Lemma nth_error_update_nth_neq (A : Type) (f : A -> A) (l : list A) :
  forall n m, n <> m -> nth_error (update_nth n f l) m = nth_error l m.
Proof.
  induction l as [|x xs IH]; intros [|n] [|m] Hne; cbn; auto; try congruence.
Qed.

Lemma update_nth_beyond (A : Type) (f : A -> A) (l : list A) :
  forall n, nth_error l n = None -> update_nth n f l = l.
Proof.
  induction l as [|x xs IH]; intros [|n] H; cbn in *; try congruence.
  now rewrite IH.
Qed.

(* ================================================================== *)
(** * Measures of the pending work *)
(* ================================================================== *)

Arguments total : simpl never.
Arguments cell_measure : simpl never.
Arguments cells_measure : simpl never.
Arguments measure : simpl never.

Lemma total_app (a b : list nat) : total (a ++ b) = total a + total b.
Proof. unfold total. induction a as [|x a IH]; cbn; [reflexivity|]. rewrite IH. lia. Qed.

Lemma total_cons (x : nat) (l : list nat) : total (x :: l) = x + total l.
Proof. reflexivity. Qed.

Lemma cells_measure_cons (f : Cont -> nat) (c : Cell) (l : list Cell) :
  cells_measure f (c :: l) = cell_measure f c + cells_measure f l.
Proof. reflexivity. Qed.

Lemma cells_measure_app (f : Cont -> nat) (a b : list Cell) :
  cells_measure f (a ++ b) = cells_measure f a + cells_measure f b.
Proof. unfold cells_measure. now rewrite map_app, total_app. Qed.

Lemma cells_measure_update (f : Cont -> nat) (c' : Cell) :
  forall l n c,
    nth_error l n = Some c ->
    cells_measure f (update_nth n (fun _ => c') l) + cell_measure f c
    = cells_measure f l + cell_measure f c'.
Proof.
  induction l as [|x xs IH]; intros [|n] c H; cbn in H; try discriminate.
  - injection H as ->. cbn [update_nth]. rewrite !cells_measure_cons. lia.
  - specialize (IH n c H). cbn [update_nth]. rewrite !cells_measure_cons. lia.
Qed.

Lemma heap_measure_set (F : Method -> list Cell -> nat) (m : Method)
      (v : list Cell) (s : Client) :
  total (map (fun m' => F m' (heap (set_heap m v s) m')) methods) + F m (heap s m)
  = total (map (fun m' => F m' (heap s m')) methods) + F m v.
Proof. destruct m; unfold total; cbn; lia. Qed.

Section Measure.

Variable f : Method -> Cont -> nat.
Variable g : Job -> nat.

Lemma measure_set_heap (m : Method) (v : list Cell) (s : Client) :
  measure f g (set_heap m v s) + cells_measure (f m) (heap s m)
  = measure f g s + cells_measure (f m) v.
Proof.
  unfold measure.
  pose proof (heap_measure_set (fun m' => cells_measure (f m')) m v s) as H.
  cbn [microtasks set_heap] in *.
  set (A := total (map (fun m' => cells_measure (f m') (heap (set_heap m v s) m')) methods)) in *.
  set (B := total (map (fun m' => cells_measure (f m') (heap s m')) methods)) in *.
  lia.
Qed.

Lemma measure_set_microtasks (q : list Job) (s : Client) :
  measure f g (set_microtasks q s) + total (map g (microtasks s))
  = measure f g s + total (map g q).
Proof. unfold measure. cbn [microtasks set_microtasks heap]. lia. Qed.

Lemma measure_alloc (m : Method) (s : Client) :
  measure f g (alloc m s) = measure f g s.
Proof.
  unfold alloc. pose proof (measure_set_heap m (heap s m ++ [fresh_cell]) s) as H.
  rewrite cells_measure_app in H.
  change (cells_measure (f m) [fresh_cell]) with 0 in H. lia.
Qed.

Lemma measure_enqueue (j : Job) (s : Client) :
  measure f g (enqueue j s) = measure f g s + g j.
Proof.
  unfold enqueue. pose proof (measure_set_microtasks (microtasks s ++ [j]) s) as H.
  rewrite map_app, total_app in H.
  change (total (map g [j])) with (g j + 0) in H. lia.
Qed.

Lemma measure_pop (j : Job) (q : list Job) (s : Client) :
  microtasks s = j :: q ->
  measure f g s = g j + measure f g (set_microtasks q s).
Proof.
  intros Hq. pose proof (measure_set_microtasks q s) as H.
  rewrite Hq, map_cons, total_cons in H. lia.
Qed.

Lemma total_map_awaited (o : Outcome) (ks : list Cont) (m : Method) :
  (forall k, g (JAwaited k o) <= f m k) ->
  total (map g (map (fun k => JAwaited k o) ks)) <= total (map (f m) ks).
Proof.
  intros H. induction ks as [|k ks IH]; [apply Nat.le_refl|].
  cbn [map]. rewrite !total_cons. specialize (H k). lia.
Qed.

(** Settling moves the suspended continuations to the queue. *)
Lemma measure_settle (m : Method) (n : nat) (o : Outcome) (s : Client) :
  (forall k, g (JAwaited k o) <= f m k) ->
  measure f g (settle m n o s) <= measure f g s.
Proof.
  intros Hg. unfold settle.
  destruct (nth_error (heap s m) n) as [[i [|o'] ks]|] eqn:E; try apply Nat.le_refl.
  unfold update_cell.
  pose proof (measure_set_microtasks
                (microtasks s ++ map (fun k => JAwaited k o) ks)
                (set_heap m (update_nth n (fun _ => mkCell i (Settled o) []) (heap s m)) s)) as Hq.
  pose proof (measure_set_heap m (update_nth n (fun _ => mkCell i (Settled o) []) (heap s m)) s) as Hh.
  pose proof (cells_measure_update (f m) (mkCell i (Settled o) []) (heap s m) n E) as Hc.
  pose proof (total_map_awaited ks Hg) as Hk.
  cbn [microtasks set_heap] in Hq. rewrite map_app, total_app in Hq.
  unfold cell_measure in Hc. cbn [awaiters] in Hc.
  change (total (map (f m) [])) with 0 in Hc.
  lia.
Qed.

(** Awaiting suspends the continuation, or schedules it at once. *)
Lemma measure_await (m : Method) (n : nat) (k : Cont) (b : nat) (s : Client) :
  f m k <= b ->
  (forall o, g (JAwaited k o) <= b) ->
  measure f g (await m n k s) <= measure f g s + b.
Proof.
  intros Hf Hg. unfold await.
  destruct (nth_error (heap s m) n) as [[i [|o'] ks]|] eqn:E; try lia.
  - unfold update_cell.
    pose proof (measure_set_heap m (update_nth n (fun _ => mkCell i Pending (ks ++ [k])) (heap s m)) s) as Hh.
    pose proof (cells_measure_update (f m) (mkCell i Pending (ks ++ [k])) (heap s m) n E) as Hc.
    unfold cell_measure in Hc. cbn [awaiters] in Hc. rewrite map_app, total_app in Hc.
    change (total (map (f m) [k])) with (f m k + 0) in Hc. lia.
  - rewrite measure_enqueue. specialize (Hg o'). lia.
Qed.

Lemma measure_settle_reply (n : nat) (message : string) (o : Outcome) (s : Client) :
  measure f g (settle_reply n message o s) <= measure f g s + g (JSendFinally n message o).
Proof.
  unfold settle_reply.
  destruct (nth_error (heap s ReplyM) n) as [[[|o'] r ks]|] eqn:E; try lia.
  rewrite measure_enqueue. unfold update_cell.
  pose proof (measure_set_heap ReplyM (update_nth n (fun _ => mkCell (Settled o) r ks) (heap s ReplyM)) s) as Hh.
  pose proof (cells_measure_update (f ReplyM) (mkCell (Settled o) r ks) (heap s ReplyM) n E) as Hc.
  unfold cell_measure in Hc. cbn [awaiters] in Hc. lia.
Qed.

Lemma measure_settle_wait (n : nat) (o : Outcome) (s : Client) :
  measure f g (settle_wait n o s) <= measure f g s + g (JWaitFinally n o).
Proof.
  unfold settle_wait.
  destruct (nth_error (heap s WaitM) n) as [[[|o'] r ks]|] eqn:E; try lia.
  rewrite measure_enqueue. unfold update_cell.
  pose proof (measure_set_heap WaitM (update_nth n (fun _ => mkCell (Settled o) r ks) (heap s WaitM)) s) as Hh.
  pose proof (cells_measure_update (f WaitM) (mkCell (Settled o) r ks) (heap s WaitM) n E) as Hc.
  unfold cell_measure in Hc. cbn [awaiters] in Hc. lia.
Qed.

End Measure.

(* ================================================================== *)
(** * The microtask queue runs empty *)
(* ================================================================== *)

Section MeasureSteps.

Variable f : Method -> Cont -> nat.
Variable g : Job -> nat.

Lemma measure_settle_le (m : Method) (n : nat) (o : Outcome) (s : Client) (a b : nat) :
  (forall k, g (JAwaited k o) <= f m k) ->
  measure f g s + a <= b ->
  measure f g (settle m n o s) + a <= b.
Proof. intros H1 H2. pose proof (measure_settle f g m n o s H1). lia. Qed.

Lemma measure_await_le (m : Method) (n : nat) (k : Cont) (s : Client) (a b c : nat) :
  f m k <= c ->
  (forall o, g (JAwaited k o) <= c) ->
  measure f g s + (c + a) <= b ->
  measure f g (await m n k s) + a <= b.
Proof. intros H1 H2 H3. pose proof (measure_await f g m n k s H1 H2). lia. Qed.

Lemma measure_settle_reply_le (n : nat) (message : string) (o : Outcome) (s : Client) (a b : nat) :
  measure f g s + (g (JSendFinally n message o) + a) <= b ->
  measure f g (settle_reply n message o s) + a <= b.
Proof. intros H. pose proof (measure_settle_reply f g n message o s). lia. Qed.

Lemma measure_settle_wait_le (n : nat) (o : Outcome) (s : Client) (a b : nat) :
  measure f g s + (g (JWaitFinally n o) + a) <= b ->
  measure f g (settle_wait n o s) + a <= b.
Proof. intros H. pose proof (measure_settle_wait f g n o s). lia. Qed.

Lemma measure_alloc_le (m : Method) (s : Client) (a b : nat) :
  measure f g s + a <= b -> measure f g (alloc m s) + a <= b.
Proof. now rewrite measure_alloc. Qed.

Lemma measure_enqueue_le (j : Job) (s : Client) (a b : nat) :
  measure f g s + (g j + a) <= b -> measure f g (enqueue j s) + a <= b.
Proof. rewrite measure_enqueue. lia. Qed.

End MeasureSteps.

(** Peel the operations off a state, outermost first. *)
Ltac measure_peel1 :=
  lazymatch goal with
  | |- measure _ _ (settle _ _ _ _) + _ <= _ =>
      apply measure_settle_le;
      [first [intros ?; apply Nat.le_refl | intros []; cbn; lia]|]
  | |- measure _ _ (await _ _ _ _) + _ <= _ =>
      eapply measure_await_le;
      [apply Nat.le_refl | first [intros ?; apply Nat.le_refl | intros; cbn; lia] |]
  | |- measure _ _ (settle_reply _ _ _ _) + _ <= _ => apply measure_settle_reply_le
  | |- measure _ _ (settle_wait _ _ _) + _ <= _ => apply measure_settle_wait_le
  | |- measure _ _ (alloc _ _) + _ <= _ => apply measure_alloc_le
  | |- measure _ _ (enqueue _ _) + _ <= _ => apply measure_enqueue_le
  | |- measure ?f ?g (emit _ ?s) + _ <= _ =>
      change (measure f g (emit _ s)) with (measure f g s)
  | |- measure ?f ?g (register_message _ ?s) + _ <= _ =>
      change (measure f g (register_message _ s)) with (measure f g s)
  | |- measure ?f ?g (unlisten_message _ ?s) + _ <= _ =>
      change (measure f g (unlisten_message _ s)) with (measure f g s)
  | |- measure ?f ?g (register_connect _ ?s) + _ <= _ =>
      change (measure f g (register_connect _ s)) with (measure f g s)
  | |- measure ?f ?g (unlisten_connect _ ?s) + _ <= _ =>
      change (measure f g (unlisten_connect _ s)) with (measure f g s)
  | |- measure ?f ?g (register_disconnect _ ?s) + _ <= _ =>
      change (measure f g (register_disconnect _ s)) with (measure f g s)
  | |- measure ?f ?g (unlisten_disconnect _ ?s) + _ <= _ =>
      change (measure f g (unlisten_disconnect _ s)) with (measure f g s)
  | |- measure ?f ?g (register_error _ ?s) + _ <= _ =>
      change (measure f g (register_error _ s)) with (measure f g s)
  | |- measure ?f ?g (unlisten_error _ ?s) + _ <= _ =>
      change (measure f g (unlisten_error _ s)) with (measure f g s)
  | |- measure ?f ?g (set_socket _ ?s) + _ <= _ =>
      change (measure f g (set_socket _ s)) with (measure f g s)
  | |- measure ?f ?g (set_sockets _ ?s) + _ <= _ =>
      change (measure f g (set_sockets _ s)) with (measure f g s)
  | |- measure ?f ?g (set_readyState _ _ ?s) + _ <= _ =>
      change (measure f g (set_readyState _ _ s)) with (measure f g s)
  | |- measure ?f ?g (set_createSocketPromise _ ?s) + _ <= _ =>
      change (measure f g (set_createSocketPromise _ s)) with (measure f g s)
  | |- measure ?f ?g (set_importing _ ?s) + _ <= _ =>
      change (measure f g (set_importing _ s)) with (measure f g s)
  end.

Ltac measure_peel := repeat measure_peel1.

Lemma run_job_weight (j : Job) (s : Client) :
  weight (run_job j s) + 1 <= job_weight j + weight s.
Proof.
  unfold weight.
  destruct j as [[c|c|n message|n events callback|u|n] o|k api|n message o|w o];
    cbn [run_job resume job_weight cont_weight].
  - destruct o as [v|r]; [|measure_peel; lia].
    unfold _waitForConnection.
    match goal with |- context [if ?b then _ else _] => destruct b end;
      measure_peel; cbn; lia.
  - unfold pass. destruct o; measure_peel; lia.
  - destruct o; [|measure_peel; lia].
    unfold sendAndWaitReply_connected.
    repeat match goal with
           | |- context [match ?x with _ => _ end] => destruct x
           end; measure_peel; lia.
  - unfold subscribeMany_replied. destruct o; measure_peel; lia.
  - unfold pass. destruct o; measure_peel; lia.
  - unfold pass. destruct o; measure_peel; lia.
  - unfold _createSocket_resume. destruct api; measure_peel; lia.
  - measure_peel; lia.
  - measure_peel; lia.
Qed.

Lemma tick_weight (s s' : Client) : tick s = Some s' -> weight s' < weight s.
Proof.
  unfold tick. destruct (microtasks s) as [|j q] eqn:Hq; [discriminate|].
  intros H. injection H as <-.
  pose proof (run_job_weight j (set_microtasks q s)) as Hj.
  unfold weight in *. rewrite (measure_pop _ _ s Hq). lia.
Qed.

Lemma tick_None (s : Client) : tick s = None <-> microtasks s = [].
Proof. unfold tick. destruct (microtasks s); split; congruence. Qed.

Lemma ticks_quiescent (fuel : nat) :
  forall s, weight s <= fuel -> microtasks (ticks fuel s) = [].
Proof.
  induction fuel as [|fuel IH]; intros s Hw; cbn [ticks].
  - destruct (tick s) as [s'|] eqn:E; [|now apply tick_None].
    apply tick_weight in E. lia.
  - destruct (tick s) as [s'|] eqn:E; [|now apply tick_None].
    apply IH. apply tick_weight in E. lia.
Qed.

(** [drain] runs the queue empty. *)
Lemma drain_quiescent (s : Client) : microtasks (drain s) = [].
Proof. apply ticks_quiescent. apply Nat.le_refl. Qed.

(** What every microtask preserves holds when the queue has run empty. *)
Lemma ticks_invariant (P : Client -> Prop) :
  (forall s s', P s -> tick s = Some s' -> P s') ->
  forall fuel s, P s -> P (ticks fuel s).
Proof.
  intros Hstep. induction fuel as [|fuel IH]; intros s Hs; cbn [ticks]; [exact Hs|].
  destruct (tick s) as [s'|] eqn:E; [|exact Hs].
  apply IH. now apply (Hstep s).
Qed.

Lemma drain_invariant (P : Client -> Prop) :
  (forall s s', P s -> tick s = Some s' -> P s') ->
  forall s, P s -> P (drain s).
Proof. intros Hstep s. now apply ticks_invariant. Qed.

(** [drain] is a run of microtasks. *)
Lemma ticks_run (fuel : nat) :
  forall s, exists n, run s (repeat Tick n) = Some (ticks fuel s).
Proof.
  induction fuel as [|fuel IH]; intros s; cbn [ticks].
  - now exists 0.
  - destruct (tick s) as [s'|] eqn:E.
    + destruct (IH s') as [n Hn]. exists (S n). cbn. now rewrite E.
    + now exists 0.
Qed.

(* ================================================================== *)
(** * What the calls leave alone *)
(* ================================================================== *)

Lemma Method_eqb_spec (a b : Method) : Method_eqb a b = true <-> a = b.
Proof. destruct a, b; cbn; split; congruence. Qed.

Lemma Method_eqb_refl (a : Method) : Method_eqb a a = true.
Proof. now destruct a. Qed.

Lemma heap_set_heap_same (m : Method) (v : list Cell) (s : Client) :
  heap (set_heap m v s) m = v.
Proof. cbn. now rewrite Method_eqb_refl. Qed.

Lemma heap_set_heap_other (m m' : Method) (v : list Cell) (s : Client) :
  m <> m' -> heap (set_heap m v s) m' = heap s m'.
Proof.
  intros Hne. cbn. destruct (Method_eqb m m') eqn:E; [|reflexivity].
  apply Method_eqb_spec in E. contradiction.
Qed.

Lemma next_call_set_heap (m m' : Method) (v : list Cell) (s : Client) :
  List.length v = List.length (heap s m) ->
  next_call m' (set_heap m v s) = next_call m' s.
Proof.
  intros Hlen. unfold next_call. cbn.
  destruct (Method_eqb m m') eqn:E; [|reflexivity].
  apply Method_eqb_spec in E. now subst.
Qed.

Lemma next_call_settle (m' m : Method) (n : nat) (o : Outcome) (s : Client) :
  next_call m' (settle m n o s) = next_call m' s.
Proof.
  unfold settle. destruct (nth_error (heap s m) n) as [[i [|?] ks]|]; try reflexivity.
  unfold update_cell. change (next_call m' (set_microtasks ?q ?s0)) with (next_call m' s0).
  apply next_call_set_heap, length_update_nth.
Qed.

Lemma next_call_await (m' m : Method) (n : nat) (k : Cont) (s : Client) :
  next_call m' (await m n k s) = next_call m' s.
Proof.
  unfold await. destruct (nth_error (heap s m) n) as [[i [|?] ks]|]; try reflexivity.
  unfold update_cell. apply next_call_set_heap, length_update_nth.
Qed.

Lemma next_call_settle_reply (m' : Method) (n : nat) (message : string) (o : Outcome) (s : Client) :
  next_call m' (settle_reply n message o s) = next_call m' s.
Proof.
  unfold settle_reply. destruct (nth_error (heap s ReplyM) n) as [[[|?] r ks]|]; try reflexivity.
  unfold update_cell, enqueue. change (next_call m' (set_microtasks ?q ?s0)) with (next_call m' s0).
  apply next_call_set_heap, length_update_nth.
Qed.

Lemma next_call_settle_wait (m' : Method) (n : nat) (o : Outcome) (s : Client) :
  next_call m' (settle_wait n o s) = next_call m' s.
Proof.
  unfold settle_wait. destruct (nth_error (heap s WaitM) n) as [[[|?] r ks]|]; try reflexivity.
  unfold update_cell, enqueue. change (next_call m' (set_microtasks ?q ?s0)) with (next_call m' s0).
  apply next_call_set_heap, length_update_nth.
Qed.

Lemma next_call_alloc_same (m : Method) (s : Client) :
  next_call m (alloc m s) = S (next_call m s).
Proof.
  unfold next_call, alloc. rewrite heap_set_heap_same, length_app. cbn. lia.
Qed.

Lemma next_call_alloc_other (m m' : Method) (s : Client) :
  m <> m' -> next_call m' (alloc m s) = next_call m' s.
Proof. intros Hne. unfold next_call, alloc. now rewrite heap_set_heap_other. Qed.

Lemma next_call_alloc_le (m m' : Method) (s : Client) :
  next_call m' s <= next_call m' (alloc m s).
Proof.
  unfold next_call, alloc. cbn. destruct (Method_eqb m m') eqn:E; [|lia].
  apply Method_eqb_spec in E. subst. rewrite length_app. lia.
Qed.

#[export] Hint Rewrite next_call_settle next_call_await next_call_settle_reply
  next_call_settle_wait next_call_alloc_same : frame.

(** Projections of the fields through the operations that only set fields. *)
Ltac fields :=
  cbn [port hasGlobalWebSocket _socket _createSocketPromise _onMessageCallbacks
       _onConnectCallbacks _onDisconnectCallbacks _onErrorCallbacks sockets
       importing microtasks log
       alloc enqueue emit register_message unlisten_message register_connect
       unlisten_connect register_disconnect unlisten_disconnect register_error
       unlisten_error set_socket set_createSocketPromise set_onMessageCallbacks
       set_onConnectCallbacks set_onDisconnectCallbacks set_onErrorCallbacks
       set_sockets set_importing set_heap set_microtasks set_log set_readyState].

Ltac frame := repeat (progress (autorewrite with frame; fields)).

Ltac split_matches :=
  repeat (fields;
          match goal with
          | |- context [match ?x with _ => _ end] => destruct x eqn:?
          end).

Lemma port__createSocket  (s : Client) :
  port (_createSocket s) = port s.
Proof. unfold _createSocket; frame; split_matches; frame; congruence. Qed.
#[export] Hint Rewrite port__createSocket : frame.

Lemma api__createSocket  (s : Client) :
  hasGlobalWebSocket (_createSocket s) = hasGlobalWebSocket s.
Proof. unfold _createSocket; frame; split_matches; frame; congruence. Qed.
#[export] Hint Rewrite api__createSocket : frame.

Lemma socket__createSocket  (s : Client) :
  _socket (_createSocket s) = _socket s.
Proof. unfold _createSocket; frame; split_matches; frame; congruence. Qed.
#[export] Hint Rewrite socket__createSocket : frame.

Lemma socket_promise__createSocket  (s : Client) :
  _createSocketPromise (_createSocket s) = _createSocketPromise s.
Proof. unfold _createSocket; frame; split_matches; frame; congruence. Qed.
#[export] Hint Rewrite socket_promise__createSocket : frame.

Lemma messages__createSocket  (s : Client) :
  _onMessageCallbacks (_createSocket s) = _onMessageCallbacks s.
Proof. unfold _createSocket; frame; split_matches; frame; congruence. Qed.
#[export] Hint Rewrite messages__createSocket : frame.

Lemma connects__createSocket  (s : Client) :
  _onConnectCallbacks (_createSocket s) = _onConnectCallbacks s.
Proof. unfold _createSocket; frame; split_matches; frame; congruence. Qed.
#[export] Hint Rewrite connects__createSocket : frame.

Lemma disconnects__createSocket  (s : Client) :
  _onDisconnectCallbacks (_createSocket s) = _onDisconnectCallbacks s.
Proof. unfold _createSocket; frame; split_matches; frame; congruence. Qed.
#[export] Hint Rewrite disconnects__createSocket : frame.

Lemma errors__createSocket  (s : Client) :
  _onErrorCallbacks (_createSocket s) = _onErrorCallbacks s.
Proof. unfold _createSocket; frame; split_matches; frame; congruence. Qed.
#[export] Hint Rewrite errors__createSocket : frame.

Lemma sockets__createSocket  (s : Client) :
  sockets (_createSocket s) = sockets s.
Proof. unfold _createSocket; frame; split_matches; frame; congruence. Qed.
#[export] Hint Rewrite sockets__createSocket : frame.

Lemma log__createSocket  (s : Client) :
  log (_createSocket s) = log s.
Proof. unfold _createSocket; frame; split_matches; frame; congruence. Qed.
#[export] Hint Rewrite log__createSocket : frame.

Lemma port__waitForConnection  (s : Client) :
  port (_waitForConnection s) = port s.
Proof. unfold _waitForConnection; frame; split_matches; frame; congruence. Qed.
#[export] Hint Rewrite port__waitForConnection : frame.

Lemma api__waitForConnection  (s : Client) :
  hasGlobalWebSocket (_waitForConnection s) = hasGlobalWebSocket s.
Proof. unfold _waitForConnection; frame; split_matches; frame; congruence. Qed.
#[export] Hint Rewrite api__waitForConnection : frame.

Lemma socket__waitForConnection  (s : Client) :
  _socket (_waitForConnection s) = _socket s.
Proof. unfold _waitForConnection; frame; split_matches; frame; congruence. Qed.
#[export] Hint Rewrite socket__waitForConnection : frame.

Lemma socket_promise__waitForConnection  (s : Client) :
  _createSocketPromise (_waitForConnection s) = _createSocketPromise s.
Proof. unfold _waitForConnection; frame; split_matches; frame; congruence. Qed.
#[export] Hint Rewrite socket_promise__waitForConnection : frame.

Lemma messages__waitForConnection  (s : Client) :
  _onMessageCallbacks (_waitForConnection s) = _onMessageCallbacks s.
Proof. unfold _waitForConnection; frame; split_matches; frame; congruence. Qed.
#[export] Hint Rewrite messages__waitForConnection : frame.

Lemma disconnects__waitForConnection  (s : Client) :
  _onDisconnectCallbacks (_waitForConnection s) = _onDisconnectCallbacks s.
Proof. unfold _waitForConnection; frame; split_matches; frame; congruence. Qed.
#[export] Hint Rewrite disconnects__waitForConnection : frame.

Lemma errors__waitForConnection  (s : Client) :
  _onErrorCallbacks (_waitForConnection s) = _onErrorCallbacks s.
Proof. unfold _waitForConnection; frame; split_matches; frame; congruence. Qed.
#[export] Hint Rewrite errors__waitForConnection : frame.

Lemma sockets__waitForConnection  (s : Client) :
  sockets (_waitForConnection s) = sockets s.
Proof. unfold _waitForConnection; frame; split_matches; frame; congruence. Qed.
#[export] Hint Rewrite sockets__waitForConnection : frame.

Lemma importing__waitForConnection  (s : Client) :
  importing (_waitForConnection s) = importing s.
Proof. unfold _waitForConnection; frame; split_matches; frame; congruence. Qed.
#[export] Hint Rewrite importing__waitForConnection : frame.

Lemma log__waitForConnection  (s : Client) :
  log (_waitForConnection s) = log s.
Proof. unfold _waitForConnection; frame; split_matches; frame; congruence. Qed.
#[export] Hint Rewrite log__waitForConnection : frame.

Lemma port_connect  (s : Client) :
  port (connect s) = port s.
Proof. unfold connect; frame; split_matches; frame; congruence. Qed.
#[export] Hint Rewrite port_connect : frame.

Lemma api_connect  (s : Client) :
  hasGlobalWebSocket (connect s) = hasGlobalWebSocket s.
Proof. unfold connect; frame; split_matches; frame; congruence. Qed.
#[export] Hint Rewrite api_connect : frame.

Lemma socket_connect  (s : Client) :
  _socket (connect s) = _socket s.
Proof. unfold connect; frame; split_matches; frame; congruence. Qed.
#[export] Hint Rewrite socket_connect : frame.

Lemma messages_connect  (s : Client) :
  _onMessageCallbacks (connect s) = _onMessageCallbacks s.
Proof. unfold connect; frame; split_matches; frame; congruence. Qed.
#[export] Hint Rewrite messages_connect : frame.

Lemma disconnects_connect  (s : Client) :
  _onDisconnectCallbacks (connect s) = _onDisconnectCallbacks s.
Proof. unfold connect; frame; split_matches; frame; congruence. Qed.
#[export] Hint Rewrite disconnects_connect : frame.

Lemma errors_connect  (s : Client) :
  _onErrorCallbacks (connect s) = _onErrorCallbacks s.
Proof. unfold connect; frame; split_matches; frame; congruence. Qed.
#[export] Hint Rewrite errors_connect : frame.

Lemma sockets_connect  (s : Client) :
  sockets (connect s) = sockets s.
Proof. unfold connect; frame; split_matches; frame; congruence. Qed.
#[export] Hint Rewrite sockets_connect : frame.

Lemma log_connect  (s : Client) :
  log (connect s) = log s.
Proof. unfold connect; frame; split_matches; frame; congruence. Qed.
#[export] Hint Rewrite log_connect : frame.

Lemma port_sendAndWaitReply (message : string) (s : Client) :
  port (sendAndWaitReply message s) = port s.
Proof. unfold sendAndWaitReply; frame; split_matches; frame; congruence. Qed.
#[export] Hint Rewrite port_sendAndWaitReply : frame.

Lemma api_sendAndWaitReply (message : string) (s : Client) :
  hasGlobalWebSocket (sendAndWaitReply message s) = hasGlobalWebSocket s.
Proof. unfold sendAndWaitReply; frame; split_matches; frame; congruence. Qed.
#[export] Hint Rewrite api_sendAndWaitReply : frame.

Lemma socket_sendAndWaitReply (message : string) (s : Client) :
  _socket (sendAndWaitReply message s) = _socket s.
Proof. unfold sendAndWaitReply; frame; split_matches; frame; congruence. Qed.
#[export] Hint Rewrite socket_sendAndWaitReply : frame.

Lemma messages_sendAndWaitReply (message : string) (s : Client) :
  _onMessageCallbacks (sendAndWaitReply message s) = _onMessageCallbacks s.
Proof. unfold sendAndWaitReply; frame; split_matches; frame; congruence. Qed.
#[export] Hint Rewrite messages_sendAndWaitReply : frame.

Lemma disconnects_sendAndWaitReply (message : string) (s : Client) :
  _onDisconnectCallbacks (sendAndWaitReply message s) = _onDisconnectCallbacks s.
Proof. unfold sendAndWaitReply; frame; split_matches; frame; congruence. Qed.
#[export] Hint Rewrite disconnects_sendAndWaitReply : frame.

Lemma errors_sendAndWaitReply (message : string) (s : Client) :
  _onErrorCallbacks (sendAndWaitReply message s) = _onErrorCallbacks s.
Proof. unfold sendAndWaitReply; frame; split_matches; frame; congruence. Qed.
#[export] Hint Rewrite errors_sendAndWaitReply : frame.

Lemma sockets_sendAndWaitReply (message : string) (s : Client) :
  sockets (sendAndWaitReply message s) = sockets s.
Proof. unfold sendAndWaitReply; frame; split_matches; frame; congruence. Qed.
#[export] Hint Rewrite sockets_sendAndWaitReply : frame.

Lemma log_sendAndWaitReply (message : string) (s : Client) :
  log (sendAndWaitReply message s) = log s.
Proof. unfold sendAndWaitReply; frame; split_matches; frame; congruence. Qed.
#[export] Hint Rewrite log_sendAndWaitReply : frame.

Lemma port_sendQuery (query : string) (s : Client) :
  port (sendQuery query s) = port s.
Proof. unfold sendQuery; frame; split_matches; frame; congruence. Qed.
#[export] Hint Rewrite port_sendQuery : frame.

Lemma api_sendQuery (query : string) (s : Client) :
  hasGlobalWebSocket (sendQuery query s) = hasGlobalWebSocket s.
Proof. unfold sendQuery; frame; split_matches; frame; congruence. Qed.
#[export] Hint Rewrite api_sendQuery : frame.

Lemma socket_sendQuery (query : string) (s : Client) :
  _socket (sendQuery query s) = _socket s.
Proof. unfold sendQuery; frame; split_matches; frame; congruence. Qed.
#[export] Hint Rewrite socket_sendQuery : frame.

Lemma messages_sendQuery (query : string) (s : Client) :
  _onMessageCallbacks (sendQuery query s) = _onMessageCallbacks s.
Proof. unfold sendQuery; frame; split_matches; frame; congruence. Qed.
#[export] Hint Rewrite messages_sendQuery : frame.

Lemma disconnects_sendQuery (query : string) (s : Client) :
  _onDisconnectCallbacks (sendQuery query s) = _onDisconnectCallbacks s.
Proof. unfold sendQuery; frame; split_matches; frame; congruence. Qed.
#[export] Hint Rewrite disconnects_sendQuery : frame.

Lemma errors_sendQuery (query : string) (s : Client) :
  _onErrorCallbacks (sendQuery query s) = _onErrorCallbacks s.
Proof. unfold sendQuery; frame; split_matches; frame; congruence. Qed.
#[export] Hint Rewrite errors_sendQuery : frame.

Lemma sockets_sendQuery (query : string) (s : Client) :
  sockets (sendQuery query s) = sockets s.
Proof. unfold sendQuery; frame; split_matches; frame; congruence. Qed.
#[export] Hint Rewrite sockets_sendQuery : frame.

Lemma log_sendQuery (query : string) (s : Client) :
  log (sendQuery query s) = log s.
Proof. unfold sendQuery; frame; split_matches; frame; congruence. Qed.
#[export] Hint Rewrite log_sendQuery : frame.

Lemma port_runCommand (command : string) (ctx : option ContextContainer) (s : Client) :
  port (runCommand command ctx s) = port s.
Proof. unfold runCommand; frame; split_matches; frame; congruence. Qed.
#[export] Hint Rewrite port_runCommand : frame.

Lemma api_runCommand (command : string) (ctx : option ContextContainer) (s : Client) :
  hasGlobalWebSocket (runCommand command ctx s) = hasGlobalWebSocket s.
Proof. unfold runCommand; frame; split_matches; frame; congruence. Qed.
#[export] Hint Rewrite api_runCommand : frame.

Lemma socket_runCommand (command : string) (ctx : option ContextContainer) (s : Client) :
  _socket (runCommand command ctx s) = _socket s.
Proof. unfold runCommand; frame; split_matches; frame; congruence. Qed.
#[export] Hint Rewrite socket_runCommand : frame.

Lemma messages_runCommand (command : string) (ctx : option ContextContainer) (s : Client) :
  _onMessageCallbacks (runCommand command ctx s) = _onMessageCallbacks s.
Proof. unfold runCommand; frame; split_matches; frame; congruence. Qed.
#[export] Hint Rewrite messages_runCommand : frame.

Lemma disconnects_runCommand (command : string) (ctx : option ContextContainer) (s : Client) :
  _onDisconnectCallbacks (runCommand command ctx s) = _onDisconnectCallbacks s.
Proof. unfold runCommand; frame; split_matches; frame; congruence. Qed.
#[export] Hint Rewrite disconnects_runCommand : frame.

Lemma errors_runCommand (command : string) (ctx : option ContextContainer) (s : Client) :
  _onErrorCallbacks (runCommand command ctx s) = _onErrorCallbacks s.
Proof. unfold runCommand; frame; split_matches; frame; congruence. Qed.
#[export] Hint Rewrite errors_runCommand : frame.

Lemma sockets_runCommand (command : string) (ctx : option ContextContainer) (s : Client) :
  sockets (runCommand command ctx s) = sockets s.
Proof. unfold runCommand; frame; split_matches; frame; congruence. Qed.
#[export] Hint Rewrite sockets_runCommand : frame.

Lemma log_runCommand (command : string) (ctx : option ContextContainer) (s : Client) :
  log (runCommand command ctx s) = log s.
Proof. unfold runCommand; frame; split_matches; frame; congruence. Qed.
#[export] Hint Rewrite log_runCommand : frame.

Lemma port_subscribeMany (events : list string) (callback : nat) (s : Client) :
  port (subscribeMany events callback s) = port s.
Proof. unfold subscribeMany; frame; split_matches; frame; congruence. Qed.
#[export] Hint Rewrite port_subscribeMany : frame.

Lemma api_subscribeMany (events : list string) (callback : nat) (s : Client) :
  hasGlobalWebSocket (subscribeMany events callback s) = hasGlobalWebSocket s.
Proof. unfold subscribeMany; frame; split_matches; frame; congruence. Qed.
#[export] Hint Rewrite api_subscribeMany : frame.

Lemma socket_subscribeMany (events : list string) (callback : nat) (s : Client) :
  _socket (subscribeMany events callback s) = _socket s.
Proof. unfold subscribeMany; frame; split_matches; frame; congruence. Qed.
#[export] Hint Rewrite socket_subscribeMany : frame.

Lemma messages_subscribeMany (events : list string) (callback : nat) (s : Client) :
  _onMessageCallbacks (subscribeMany events callback s) = _onMessageCallbacks s.
Proof. unfold subscribeMany; frame; split_matches; frame; congruence. Qed.
#[export] Hint Rewrite messages_subscribeMany : frame.

Lemma disconnects_subscribeMany (events : list string) (callback : nat) (s : Client) :
  _onDisconnectCallbacks (subscribeMany events callback s) = _onDisconnectCallbacks s.
Proof. unfold subscribeMany; frame; split_matches; frame; congruence. Qed.
#[export] Hint Rewrite disconnects_subscribeMany : frame.

Lemma errors_subscribeMany (events : list string) (callback : nat) (s : Client) :
  _onErrorCallbacks (subscribeMany events callback s) = _onErrorCallbacks s.
Proof. unfold subscribeMany; frame; split_matches; frame; congruence. Qed.
#[export] Hint Rewrite errors_subscribeMany : frame.

Lemma sockets_subscribeMany (events : list string) (callback : nat) (s : Client) :
  sockets (subscribeMany events callback s) = sockets s.
Proof. unfold subscribeMany; frame; split_matches; frame; congruence. Qed.
#[export] Hint Rewrite sockets_subscribeMany : frame.

Lemma log_subscribeMany (events : list string) (callback : nat) (s : Client) :
  log (subscribeMany events callback s) = log s.
Proof. unfold subscribeMany; frame; split_matches; frame; congruence. Qed.
#[export] Hint Rewrite log_subscribeMany : frame.

Lemma port_pass (m : Method) (n : nat) (o : Outcome) (s : Client) :
  port (pass m n o s) = port s.
Proof. unfold pass; frame; split_matches; frame; congruence. Qed.
#[export] Hint Rewrite port_pass : frame.

Lemma api_pass (m : Method) (n : nat) (o : Outcome) (s : Client) :
  hasGlobalWebSocket (pass m n o s) = hasGlobalWebSocket s.
Proof. unfold pass; frame; split_matches; frame; congruence. Qed.
#[export] Hint Rewrite api_pass : frame.

Lemma socket_pass (m : Method) (n : nat) (o : Outcome) (s : Client) :
  _socket (pass m n o s) = _socket s.
Proof. unfold pass; frame; split_matches; frame; congruence. Qed.
#[export] Hint Rewrite socket_pass : frame.

Lemma socket_promise_pass (m : Method) (n : nat) (o : Outcome) (s : Client) :
  _createSocketPromise (pass m n o s) = _createSocketPromise s.
Proof. unfold pass; frame; split_matches; frame; congruence. Qed.
#[export] Hint Rewrite socket_promise_pass : frame.

Lemma messages_pass (m : Method) (n : nat) (o : Outcome) (s : Client) :
  _onMessageCallbacks (pass m n o s) = _onMessageCallbacks s.
Proof. unfold pass; frame; split_matches; frame; congruence. Qed.
#[export] Hint Rewrite messages_pass : frame.

Lemma connects_pass (m : Method) (n : nat) (o : Outcome) (s : Client) :
  _onConnectCallbacks (pass m n o s) = _onConnectCallbacks s.
Proof. unfold pass; frame; split_matches; frame; congruence. Qed.
#[export] Hint Rewrite connects_pass : frame.

Lemma disconnects_pass (m : Method) (n : nat) (o : Outcome) (s : Client) :
  _onDisconnectCallbacks (pass m n o s) = _onDisconnectCallbacks s.
Proof. unfold pass; frame; split_matches; frame; congruence. Qed.
#[export] Hint Rewrite disconnects_pass : frame.

Lemma errors_pass (m : Method) (n : nat) (o : Outcome) (s : Client) :
  _onErrorCallbacks (pass m n o s) = _onErrorCallbacks s.
Proof. unfold pass; frame; split_matches; frame; congruence. Qed.
#[export] Hint Rewrite errors_pass : frame.

Lemma sockets_pass (m : Method) (n : nat) (o : Outcome) (s : Client) :
  sockets (pass m n o s) = sockets s.
Proof. unfold pass; frame; split_matches; frame; congruence. Qed.
#[export] Hint Rewrite sockets_pass : frame.

Lemma importing_pass (m : Method) (n : nat) (o : Outcome) (s : Client) :
  importing (pass m n o s) = importing s.
Proof. unfold pass; frame; split_matches; frame; congruence. Qed.
#[export] Hint Rewrite importing_pass : frame.

Lemma log_pass (m : Method) (n : nat) (o : Outcome) (s : Client) :
  log (pass m n o s) = log s.
Proof. unfold pass; frame; split_matches; frame; congruence. Qed.
#[export] Hint Rewrite log_pass : frame.

Lemma port_closeConnection  (s : Client) :
  port (closeConnection s) = port s.
Proof. unfold closeConnection; frame; split_matches; frame; congruence. Qed.
#[export] Hint Rewrite port_closeConnection : frame.

Lemma api_closeConnection  (s : Client) :
  hasGlobalWebSocket (closeConnection s) = hasGlobalWebSocket s.
Proof. unfold closeConnection; frame; split_matches; frame; congruence. Qed.
#[export] Hint Rewrite api_closeConnection : frame.

Lemma socket_closeConnection  (s : Client) :
  _socket (closeConnection s) = _socket s.
Proof. unfold closeConnection; frame; split_matches; frame; congruence. Qed.
#[export] Hint Rewrite socket_closeConnection : frame.

Lemma socket_promise_closeConnection  (s : Client) :
  _createSocketPromise (closeConnection s) = _createSocketPromise s.
Proof. unfold closeConnection; frame; split_matches; frame; congruence. Qed.
#[export] Hint Rewrite socket_promise_closeConnection : frame.

Lemma messages_closeConnection  (s : Client) :
  _onMessageCallbacks (closeConnection s) = _onMessageCallbacks s.
Proof. unfold closeConnection; frame; split_matches; frame; congruence. Qed.
#[export] Hint Rewrite messages_closeConnection : frame.

Lemma connects_closeConnection  (s : Client) :
  _onConnectCallbacks (closeConnection s) = _onConnectCallbacks s.
Proof. unfold closeConnection; frame; split_matches; frame; congruence. Qed.
#[export] Hint Rewrite connects_closeConnection : frame.

Lemma disconnects_closeConnection  (s : Client) :
  _onDisconnectCallbacks (closeConnection s) = _onDisconnectCallbacks s.
Proof. unfold closeConnection; frame; split_matches; frame; congruence. Qed.
#[export] Hint Rewrite disconnects_closeConnection : frame.

Lemma errors_closeConnection  (s : Client) :
  _onErrorCallbacks (closeConnection s) = _onErrorCallbacks s.
Proof. unfold closeConnection; frame; split_matches; frame; congruence. Qed.
#[export] Hint Rewrite errors_closeConnection : frame.

Lemma importing_closeConnection  (s : Client) :
  importing (closeConnection s) = importing s.
Proof. unfold closeConnection; frame; split_matches; frame; congruence. Qed.
#[export] Hint Rewrite importing_closeConnection : frame.

Lemma log_closeConnection  (s : Client) :
  log (closeConnection s) = log s.
Proof. unfold closeConnection; frame; split_matches; frame; congruence. Qed.
#[export] Hint Rewrite log_closeConnection : frame.

Lemma port_unlistenFn (n : nat) (events : list string) (callback : nat) (response : JsValue) (s : Client) :
  port (unlistenFn n events callback response s) = port s.
Proof. unfold unlistenFn; frame; split_matches; frame; congruence. Qed.
#[export] Hint Rewrite port_unlistenFn : frame.

Lemma api_unlistenFn (n : nat) (events : list string) (callback : nat) (response : JsValue) (s : Client) :
  hasGlobalWebSocket (unlistenFn n events callback response s) = hasGlobalWebSocket s.
Proof. unfold unlistenFn; frame; split_matches; frame; congruence. Qed.
#[export] Hint Rewrite api_unlistenFn : frame.

Lemma socket_unlistenFn (n : nat) (events : list string) (callback : nat) (response : JsValue) (s : Client) :
  _socket (unlistenFn n events callback response s) = _socket s.
Proof. unfold unlistenFn; frame; split_matches; frame; congruence. Qed.
#[export] Hint Rewrite socket_unlistenFn : frame.

Lemma disconnects_unlistenFn (n : nat) (events : list string) (callback : nat) (response : JsValue) (s : Client) :
  _onDisconnectCallbacks (unlistenFn n events callback response s) = _onDisconnectCallbacks s.
Proof. unfold unlistenFn; frame; split_matches; frame; congruence. Qed.
#[export] Hint Rewrite disconnects_unlistenFn : frame.

Lemma errors_unlistenFn (n : nat) (events : list string) (callback : nat) (response : JsValue) (s : Client) :
  _onErrorCallbacks (unlistenFn n events callback response s) = _onErrorCallbacks s.
Proof. unfold unlistenFn; frame; split_matches; frame; congruence. Qed.
#[export] Hint Rewrite errors_unlistenFn : frame.

Lemma sockets_unlistenFn (n : nat) (events : list string) (callback : nat) (response : JsValue) (s : Client) :
  sockets (unlistenFn n events callback response s) = sockets s.
Proof. unfold unlistenFn; frame; split_matches; frame; congruence. Qed.
#[export] Hint Rewrite sockets_unlistenFn : frame.

Lemma log_unlistenFn (n : nat) (events : list string) (callback : nat) (response : JsValue) (s : Client) :
  log (unlistenFn n events callback response s) = log s.
Proof. unfold unlistenFn; frame; split_matches; frame; congruence. Qed.
#[export] Hint Rewrite log_unlistenFn : frame.

Lemma port_sendAndWaitReply_connected (n : nat) (message : string) (s : Client) :
  port (sendAndWaitReply_connected n message s) = port s.
Proof. unfold sendAndWaitReply_connected; frame; split_matches; frame; congruence. Qed.
#[export] Hint Rewrite port_sendAndWaitReply_connected : frame.

Lemma api_sendAndWaitReply_connected (n : nat) (message : string) (s : Client) :
  hasGlobalWebSocket (sendAndWaitReply_connected n message s) = hasGlobalWebSocket s.
Proof. unfold sendAndWaitReply_connected; frame; split_matches; frame; congruence. Qed.
#[export] Hint Rewrite api_sendAndWaitReply_connected : frame.

Lemma socket_sendAndWaitReply_connected (n : nat) (message : string) (s : Client) :
  _socket (sendAndWaitReply_connected n message s) = _socket s.
Proof. unfold sendAndWaitReply_connected; frame; split_matches; frame; congruence. Qed.
#[export] Hint Rewrite socket_sendAndWaitReply_connected : frame.

Lemma socket_promise_sendAndWaitReply_connected (n : nat) (message : string) (s : Client) :
  _createSocketPromise (sendAndWaitReply_connected n message s) = _createSocketPromise s.
Proof. unfold sendAndWaitReply_connected; frame; split_matches; frame; congruence. Qed.
#[export] Hint Rewrite socket_promise_sendAndWaitReply_connected : frame.

Lemma connects_sendAndWaitReply_connected (n : nat) (message : string) (s : Client) :
  _onConnectCallbacks (sendAndWaitReply_connected n message s) = _onConnectCallbacks s.
Proof. unfold sendAndWaitReply_connected; frame; split_matches; frame; congruence. Qed.
#[export] Hint Rewrite connects_sendAndWaitReply_connected : frame.

Lemma disconnects_sendAndWaitReply_connected (n : nat) (message : string) (s : Client) :
  _onDisconnectCallbacks (sendAndWaitReply_connected n message s) = _onDisconnectCallbacks s.
Proof. unfold sendAndWaitReply_connected; frame; split_matches; frame; congruence. Qed.
#[export] Hint Rewrite disconnects_sendAndWaitReply_connected : frame.

Lemma errors_sendAndWaitReply_connected (n : nat) (message : string) (s : Client) :
  _onErrorCallbacks (sendAndWaitReply_connected n message s) = _onErrorCallbacks s.
Proof. unfold sendAndWaitReply_connected; frame; split_matches; frame; congruence. Qed.
#[export] Hint Rewrite errors_sendAndWaitReply_connected : frame.

Lemma importing_sendAndWaitReply_connected (n : nat) (message : string) (s : Client) :
  importing (sendAndWaitReply_connected n message s) = importing s.
Proof. unfold sendAndWaitReply_connected; frame; split_matches; frame; congruence. Qed.
#[export] Hint Rewrite importing_sendAndWaitReply_connected : frame.

Lemma port_subscribeMany_replied (n : nat) (events : list string) (callback : nat) (o : Outcome) (s : Client) :
  port (subscribeMany_replied n events callback o s) = port s.
Proof. unfold subscribeMany_replied; frame; split_matches; frame; congruence. Qed.
#[export] Hint Rewrite port_subscribeMany_replied : frame.

Lemma api_subscribeMany_replied (n : nat) (events : list string) (callback : nat) (o : Outcome) (s : Client) :
  hasGlobalWebSocket (subscribeMany_replied n events callback o s) = hasGlobalWebSocket s.
Proof. unfold subscribeMany_replied; frame; split_matches; frame; congruence. Qed.
#[export] Hint Rewrite api_subscribeMany_replied : frame.

Lemma socket_subscribeMany_replied (n : nat) (events : list string) (callback : nat) (o : Outcome) (s : Client) :
  _socket (subscribeMany_replied n events callback o s) = _socket s.
Proof. unfold subscribeMany_replied; frame; split_matches; frame; congruence. Qed.
#[export] Hint Rewrite socket_subscribeMany_replied : frame.

Lemma socket_promise_subscribeMany_replied (n : nat) (events : list string) (callback : nat) (o : Outcome) (s : Client) :
  _createSocketPromise (subscribeMany_replied n events callback o s) = _createSocketPromise s.
Proof. unfold subscribeMany_replied; frame; split_matches; frame; congruence. Qed.
#[export] Hint Rewrite socket_promise_subscribeMany_replied : frame.

Lemma connects_subscribeMany_replied (n : nat) (events : list string) (callback : nat) (o : Outcome) (s : Client) :
  _onConnectCallbacks (subscribeMany_replied n events callback o s) = _onConnectCallbacks s.
Proof. unfold subscribeMany_replied; frame; split_matches; frame; congruence. Qed.
#[export] Hint Rewrite connects_subscribeMany_replied : frame.

Lemma disconnects_subscribeMany_replied (n : nat) (events : list string) (callback : nat) (o : Outcome) (s : Client) :
  _onDisconnectCallbacks (subscribeMany_replied n events callback o s) = _onDisconnectCallbacks s.
Proof. unfold subscribeMany_replied; frame; split_matches; frame; congruence. Qed.
#[export] Hint Rewrite disconnects_subscribeMany_replied : frame.

Lemma errors_subscribeMany_replied (n : nat) (events : list string) (callback : nat) (o : Outcome) (s : Client) :
  _onErrorCallbacks (subscribeMany_replied n events callback o s) = _onErrorCallbacks s.
Proof. unfold subscribeMany_replied; frame; split_matches; frame; congruence. Qed.
#[export] Hint Rewrite errors_subscribeMany_replied : frame.

Lemma sockets_subscribeMany_replied (n : nat) (events : list string) (callback : nat) (o : Outcome) (s : Client) :
  sockets (subscribeMany_replied n events callback o s) = sockets s.
Proof. unfold subscribeMany_replied; frame; split_matches; frame; congruence. Qed.
#[export] Hint Rewrite sockets_subscribeMany_replied : frame.

Lemma importing_subscribeMany_replied (n : nat) (events : list string) (callback : nat) (o : Outcome) (s : Client) :
  importing (subscribeMany_replied n events callback o s) = importing s.
Proof. unfold subscribeMany_replied; frame; split_matches; frame; congruence. Qed.
#[export] Hint Rewrite importing_subscribeMany_replied : frame.

Lemma port__createSocket_resume (k : nat) (api : bool) (s : Client) :
  port (_createSocket_resume k api s) = port s.
Proof. unfold _createSocket_resume; frame; split_matches; frame; congruence. Qed.
#[export] Hint Rewrite port__createSocket_resume : frame.

Lemma api__createSocket_resume (k : nat) (api : bool) (s : Client) :
  hasGlobalWebSocket (_createSocket_resume k api s) = hasGlobalWebSocket s.
Proof. unfold _createSocket_resume; frame; split_matches; frame; congruence. Qed.
#[export] Hint Rewrite api__createSocket_resume : frame.

Lemma socket__createSocket_resume (k : nat) (api : bool) (s : Client) :
  _socket (_createSocket_resume k api s) = _socket s.
Proof. unfold _createSocket_resume; frame; split_matches; frame; congruence. Qed.
#[export] Hint Rewrite socket__createSocket_resume : frame.

Lemma socket_promise__createSocket_resume (k : nat) (api : bool) (s : Client) :
  _createSocketPromise (_createSocket_resume k api s) = _createSocketPromise s.
Proof. unfold _createSocket_resume; frame; split_matches; frame; congruence. Qed.
#[export] Hint Rewrite socket_promise__createSocket_resume : frame.

Lemma messages__createSocket_resume (k : nat) (api : bool) (s : Client) :
  _onMessageCallbacks (_createSocket_resume k api s) = _onMessageCallbacks s.
Proof. unfold _createSocket_resume; frame; split_matches; frame; congruence. Qed.
#[export] Hint Rewrite messages__createSocket_resume : frame.

Lemma connects__createSocket_resume (k : nat) (api : bool) (s : Client) :
  _onConnectCallbacks (_createSocket_resume k api s) = _onConnectCallbacks s.
Proof. unfold _createSocket_resume; frame; split_matches; frame; congruence. Qed.
#[export] Hint Rewrite connects__createSocket_resume : frame.

Lemma disconnects__createSocket_resume (k : nat) (api : bool) (s : Client) :
  _onDisconnectCallbacks (_createSocket_resume k api s) = _onDisconnectCallbacks s.
Proof. unfold _createSocket_resume; frame; split_matches; frame; congruence. Qed.
#[export] Hint Rewrite disconnects__createSocket_resume : frame.

Lemma errors__createSocket_resume (k : nat) (api : bool) (s : Client) :
  _onErrorCallbacks (_createSocket_resume k api s) = _onErrorCallbacks s.
Proof. unfold _createSocket_resume; frame; split_matches; frame; congruence. Qed.
#[export] Hint Rewrite errors__createSocket_resume : frame.

Lemma importing__createSocket_resume (k : nat) (api : bool) (s : Client) :
  importing (_createSocket_resume k api s) = importing s.
Proof. unfold _createSocket_resume; frame; split_matches; frame; congruence. Qed.
#[export] Hint Rewrite importing__createSocket_resume : frame.

(* ================================================================== *)
(** * Call numbers only grow *)
(* ================================================================== *)

Lemma next_call_enqueue (m : Method) (j : Job) (s : Client) :
  next_call m (enqueue j s) = next_call m s.
Proof. reflexivity. Qed.

Lemma next_call_emit (m : Method) (o : Obs) (s : Client) :
  next_call m (emit o s) = next_call m s.
Proof. reflexivity. Qed.

Lemma next_call_register_message (m : Method) (c : MessageCallback) (s : Client) :
  next_call m (register_message c s) = next_call m s.
Proof. reflexivity. Qed.

Lemma next_call_unlisten_message (m : Method) (c : MessageCallback) (s : Client) :
  next_call m (unlisten_message c s) = next_call m s.
Proof. reflexivity. Qed.

Lemma next_call_register_connect (m : Method) (c : ConnectCallback) (s : Client) :
  next_call m (register_connect c s) = next_call m s.
Proof. reflexivity. Qed.

Lemma next_call_unlisten_connect (m : Method) (c : ConnectCallback) (s : Client) :
  next_call m (unlisten_connect c s) = next_call m s.
Proof. reflexivity. Qed.

Lemma next_call_register_disconnect (m : Method) (c : nat) (s : Client) :
  next_call m (register_disconnect c s) = next_call m s.
Proof. reflexivity. Qed.

Lemma next_call_unlisten_disconnect (m : Method) (c : nat) (s : Client) :
  next_call m (unlisten_disconnect c s) = next_call m s.
Proof. reflexivity. Qed.

Lemma next_call_register_error (m : Method) (c : nat) (s : Client) :
  next_call m (register_error c s) = next_call m s.
Proof. reflexivity. Qed.

Lemma next_call_unlisten_error (m : Method) (c : nat) (s : Client) :
  next_call m (unlisten_error c s) = next_call m s.
Proof. reflexivity. Qed.

Lemma next_call_set_socket (m : Method) (v : option nat) (s : Client) :
  next_call m (set_socket v s) = next_call m s.
Proof. reflexivity. Qed.

Lemma next_call_set_createSocketPromise (m : Method) (v : option nat) (s : Client) :
  next_call m (set_createSocketPromise v s) = next_call m s.
Proof. reflexivity. Qed.

Lemma next_call_set_sockets (m : Method) (v : list WebSocket) (s : Client) :
  next_call m (set_sockets v s) = next_call m s.
Proof. reflexivity. Qed.

Lemma next_call_set_importing (m : Method) (v : list nat) (s : Client) :
  next_call m (set_importing v s) = next_call m s.
Proof. reflexivity. Qed.

Lemma next_call_set_microtasks (m : Method) (v : list Job) (s : Client) :
  next_call m (set_microtasks v s) = next_call m s.
Proof. reflexivity. Qed.

Lemma next_call_set_log (m : Method) (v : list Obs) (s : Client) :
  next_call m (set_log v s) = next_call m s.
Proof. reflexivity. Qed.

Lemma next_call_set_readyState (m : Method) (i : nat) (r : ReadyState) (s : Client) :
  next_call m (set_readyState i r s) = next_call m s.
Proof. reflexivity. Qed.

Lemma next_call_closeConnection (m : Method)  (s : Client) :
  next_call m (closeConnection s) = next_call m s.
Proof. unfold closeConnection; destruct (_socket s); reflexivity. Qed.

#[export] Hint Rewrite
  next_call_enqueue
  next_call_emit
  next_call_register_message
  next_call_unlisten_message
  next_call_register_connect
  next_call_unlisten_connect
  next_call_register_disconnect
  next_call_unlisten_disconnect
  next_call_register_error
  next_call_unlisten_error
  next_call_set_socket
  next_call_set_createSocketPromise
  next_call_set_sockets
  next_call_set_importing
  next_call_set_microtasks
  next_call_set_log
  next_call_set_readyState
  next_call_closeConnection
  : frame.


Ltac mono_with tac :=
  frame;
  repeat (eapply Nat.le_trans; [|first [apply next_call_alloc_le | tac]]; frame);
  first [assumption | apply Nat.le_refl | lia].

Ltac mono0 := mono_with fail.

Lemma next_call__createSocket_le (m : Method) (s : Client) :
  next_call m s <= next_call m (_createSocket s).
Proof. unfold _createSocket; split_matches; mono0. Qed.

Lemma next_call__waitForConnection_le (m : Method) (s : Client) :
  next_call m s <= next_call m (_waitForConnection s).
Proof. unfold _waitForConnection; split_matches; mono0. Qed.

Lemma next_call_connect_le (m : Method) (s : Client) :
  next_call m s <= next_call m (connect s).
Proof.
  unfold connect; split_matches;
    mono_with ltac:(first [apply next_call__createSocket_le | apply next_call__waitForConnection_le]).
Qed.

Lemma next_call_sendAndWaitReply_le (m : Method) (message : string) (s : Client) :
  next_call m s <= next_call m (sendAndWaitReply message s).
Proof. unfold sendAndWaitReply; mono_with ltac:(apply next_call_connect_le). Qed.

Lemma next_call_runCommand_le (m : Method) (command : string)
      (ctx : option ContextContainer) (s : Client) :
  next_call m s <= next_call m (runCommand command ctx s).
Proof. unfold runCommand; mono_with ltac:(apply next_call_sendAndWaitReply_le). Qed.

Lemma next_call_subscribeMany_le (m : Method) (events : list string) (callback : nat)
      (s : Client) :
  next_call m s <= next_call m (subscribeMany events callback s).
Proof. unfold subscribeMany; mono_with ltac:(apply next_call_sendAndWaitReply_le). Qed.

Lemma next_call_unlistenFn_le (m : Method) (n : nat) (events : list string)
      (callback : nat) (response : JsValue) (s : Client) :
  next_call m s <= next_call m (unlistenFn n events callback response s).
Proof.
  unfold unlistenFn; split_matches; mono_with ltac:(apply next_call_sendAndWaitReply_le).
Qed.

Ltac mono :=
  mono_with ltac:(first [ apply next_call__createSocket_le
                        | apply next_call__waitForConnection_le
                        | apply next_call_connect_le
                        | apply next_call_sendAndWaitReply_le
                        | apply next_call_runCommand_le
                        | apply next_call_subscribeMany_le
                        | apply next_call_unlistenFn_le ]).

Lemma next_call_run_job_le (m : Method) (j : Job) (s : Client) :
  next_call m s <= next_call m (run_job j s).
Proof.
  destruct j as [[c|c|c message|c events callback|c|c] [v|r] | c [] | c message o | c o];
    cbn [run_job resume pass subscribeMany_replied _createSocket_resume];
    unfold sendAndWaitReply_connected; split_matches; mono.
Qed.

Lemma next_call_tick_le (m : Method) (s s' : Client) :
  tick s = Some s' -> next_call m s <= next_call m s'.
Proof.
  unfold tick. destruct (microtasks s) as [|j q]; [discriminate|].
  intros H. injection H as <-.
  apply (Nat.le_trans _ (next_call m (set_microtasks q s))); [apply Nat.le_refl|].
  apply next_call_run_job_le.
Qed.

(* ================================================================== *)
(** * What the event handlers leave alone *)
(* ================================================================== *)

Lemma forEach_preserves (A : Type) (invoke : A -> Client -> Completion)
      (P : Client -> Prop) :
  (forall cb s, P s -> P (state_of (invoke cb s))) ->
  forall l s, P s -> P (state_of (forEach invoke l s)).
Proof.
  intros Hinv. induction l as [|cb rest IH]; intros s Hs; cbn [forEach]; [exact Hs|].
  specialize (Hinv cb s Hs). destruct (invoke cb s) as [s1|r s1]; cbn in Hinv.
  - now apply IH.
  - exact Hinv.
Qed.

Lemma handled_preserves (P : Client -> Prop) (c : Completion) :
  (forall r s, P s -> P (emit (ObsUncaught r) s)) ->
  P (state_of c) -> P (handled c).
Proof. intros Hemit. destruct c; cbn; auto. Qed.

Lemma same_fields_refl (s : Client) : same_fields s s.
Proof. repeat split. Qed.

Lemma same_fields_trans (s1 s2 s3 : Client) :
  same_fields s1 s2 -> same_fields s2 s3 -> same_fields s1 s3.
Proof.
  unfold same_fields. intros H1 H2.
  decompose [and] H1. decompose [and] H2.
  repeat split; try congruence; intros m; etransitivity; eauto.
Qed.

Lemma same_fields_emit (o : Obs) (s : Client) : same_fields s (emit o s).
Proof. repeat split. Qed.

Lemma same_fields_settle_reply (n : nat) (message : string) (o : Outcome) (s : Client) :
  same_fields s (settle_reply n message o s).
Proof.
  unfold same_fields.
  rewrite port_settle_reply, api_settle_reply, socket_settle_reply,
    socket_promise_settle_reply, messages_settle_reply, connects_settle_reply,
    disconnects_settle_reply, errors_settle_reply, sockets_settle_reply,
    importing_settle_reply.
  repeat split. intros m. apply next_call_settle_reply.
Qed.

Lemma same_fields_settle_wait (n : nat) (o : Outcome) (s : Client) :
  same_fields s (settle_wait n o s).
Proof.
  unfold same_fields.
  rewrite port_settle_wait, api_settle_wait, socket_settle_wait,
    socket_promise_settle_wait, messages_settle_wait, connects_settle_wait,
    disconnects_settle_wait, errors_settle_wait, sockets_settle_wait,
    importing_settle_wait.
  repeat split. intros m. apply next_call_settle_wait.
Qed.

Lemma same_fields_invoke_message (e : MessageEvent) (cb : MessageCallback) (s : Client) :
  same_fields s (state_of (invoke_message e cb s)).
Proof.
  destruct cb as [n message|n events callback|f]; cbn [invoke_message].
  - unfold reply_listener.
    destruct e as [v|]; [|apply same_fields_refl].
    destruct v; try apply same_fields_refl; cbn [state_of];
      repeat match goal with
             | |- context [if ?b then _ else _] => destruct b
             end;
      repeat first [ apply same_fields_refl
                   | eapply same_fields_trans; [|apply same_fields_settle_reply] ].
  - unfold subscription_listener.
    destruct e as [v|]; [|apply same_fields_refl].
    destruct v; cbn [state_of];
      repeat match goal with
             | |- context [if ?b then _ else _] => destruct b
             end;
      repeat first [ apply same_fields_refl
                   | eapply same_fields_trans; [|apply same_fields_emit] ].
  - apply same_fields_emit.
Qed.

Lemma same_fields_invoke_connect (cb : ConnectCallback) (s : Client) :
  same_fields s (state_of (invoke_connect cb s)).
Proof.
  destruct cb; cbn [invoke_connect state_of];
    [apply same_fields_settle_wait | apply same_fields_emit].
Qed.

Lemma same_fields_handler (A : Type) (invoke : A -> Client -> Completion)
      (l : list A) (s : Client) :
  (forall cb s, same_fields s (state_of (invoke cb s))) ->
  same_fields s (handled (forEach invoke l s)).
Proof.
  intros Hinv. apply handled_preserves.
  - intros r s1 H. eapply same_fields_trans; [exact H | apply same_fields_emit].
  - apply forEach_preserves; [|apply same_fields_refl].
    intros cb s1 H. eapply same_fields_trans; [exact H | apply Hinv].
Qed.

Lemma same_fields_onmessage (e : MessageEvent) (s : Client) :
  same_fields s (onmessage e s).
Proof. apply same_fields_handler, same_fields_invoke_message. Qed.

Lemma same_fields_onopen (s : Client) : same_fields s (onopen s).
Proof. apply same_fields_handler, same_fields_invoke_connect. Qed.

Lemma same_fields_onerror (s : Client) : same_fields s (onerror s).
Proof. apply same_fields_handler. intros; apply same_fields_emit. Qed.

Lemma same_fields_onclose (s : Client) : same_fields s (onclose s).
Proof. apply same_fields_handler. intros; apply same_fields_emit. Qed.

Lemma port_onmessage (e : MessageEvent) (s : Client) :
  port (onmessage e s) = port s.
Proof. apply (same_fields_onmessage e s). Qed.

Lemma api_onmessage (e : MessageEvent) (s : Client) :
  hasGlobalWebSocket (onmessage e s) = hasGlobalWebSocket s.
Proof. apply (same_fields_onmessage e s). Qed.

Lemma socket_onmessage (e : MessageEvent) (s : Client) :
  _socket (onmessage e s) = _socket s.
Proof. apply (same_fields_onmessage e s). Qed.

Lemma socket_promise_onmessage (e : MessageEvent) (s : Client) :
  _createSocketPromise (onmessage e s) = _createSocketPromise s.
Proof. apply (same_fields_onmessage e s). Qed.

Lemma messages_onmessage (e : MessageEvent) (s : Client) :
  _onMessageCallbacks (onmessage e s) = _onMessageCallbacks s.
Proof. apply (same_fields_onmessage e s). Qed.

Lemma connects_onmessage (e : MessageEvent) (s : Client) :
  _onConnectCallbacks (onmessage e s) = _onConnectCallbacks s.
Proof. apply (same_fields_onmessage e s). Qed.

Lemma disconnects_onmessage (e : MessageEvent) (s : Client) :
  _onDisconnectCallbacks (onmessage e s) = _onDisconnectCallbacks s.
Proof. apply (same_fields_onmessage e s). Qed.

Lemma errors_onmessage (e : MessageEvent) (s : Client) :
  _onErrorCallbacks (onmessage e s) = _onErrorCallbacks s.
Proof. apply (same_fields_onmessage e s). Qed.

Lemma sockets_onmessage (e : MessageEvent) (s : Client) :
  sockets (onmessage e s) = sockets s.
Proof. apply (same_fields_onmessage e s). Qed.

Lemma importing_onmessage (e : MessageEvent) (s : Client) :
  importing (onmessage e s) = importing s.
Proof. apply (same_fields_onmessage e s). Qed.

Lemma next_call_onmessage (m : Method) (e : MessageEvent) (s : Client) :
  next_call m (onmessage e s) = next_call m s.
Proof. apply (same_fields_onmessage e s). Qed.

Lemma port_onopen  (s : Client) :
  port (onopen s) = port s.
Proof. apply (same_fields_onopen s). Qed.

Lemma api_onopen  (s : Client) :
  hasGlobalWebSocket (onopen s) = hasGlobalWebSocket s.
Proof. apply (same_fields_onopen s). Qed.

Lemma socket_onopen  (s : Client) :
  _socket (onopen s) = _socket s.
Proof. apply (same_fields_onopen s). Qed.

Lemma socket_promise_onopen  (s : Client) :
  _createSocketPromise (onopen s) = _createSocketPromise s.
Proof. apply (same_fields_onopen s). Qed.

Lemma messages_onopen  (s : Client) :
  _onMessageCallbacks (onopen s) = _onMessageCallbacks s.
Proof. apply (same_fields_onopen s). Qed.

Lemma connects_onopen  (s : Client) :
  _onConnectCallbacks (onopen s) = _onConnectCallbacks s.
Proof. apply (same_fields_onopen s). Qed.

Lemma disconnects_onopen  (s : Client) :
  _onDisconnectCallbacks (onopen s) = _onDisconnectCallbacks s.
Proof. apply (same_fields_onopen s). Qed.

Lemma errors_onopen  (s : Client) :
  _onErrorCallbacks (onopen s) = _onErrorCallbacks s.
Proof. apply (same_fields_onopen s). Qed.

Lemma sockets_onopen  (s : Client) :
  sockets (onopen s) = sockets s.
Proof. apply (same_fields_onopen s). Qed.

Lemma importing_onopen  (s : Client) :
  importing (onopen s) = importing s.
Proof. apply (same_fields_onopen s). Qed.

Lemma next_call_onopen (m : Method)  (s : Client) :
  next_call m (onopen s) = next_call m s.
Proof. apply (same_fields_onopen s). Qed.

Lemma port_onerror  (s : Client) :
  port (onerror s) = port s.
Proof. apply (same_fields_onerror s). Qed.

Lemma api_onerror  (s : Client) :
  hasGlobalWebSocket (onerror s) = hasGlobalWebSocket s.
Proof. apply (same_fields_onerror s). Qed.

Lemma socket_onerror  (s : Client) :
  _socket (onerror s) = _socket s.
Proof. apply (same_fields_onerror s). Qed.

Lemma socket_promise_onerror  (s : Client) :
  _createSocketPromise (onerror s) = _createSocketPromise s.
Proof. apply (same_fields_onerror s). Qed.

Lemma messages_onerror  (s : Client) :
  _onMessageCallbacks (onerror s) = _onMessageCallbacks s.
Proof. apply (same_fields_onerror s). Qed.

Lemma connects_onerror  (s : Client) :
  _onConnectCallbacks (onerror s) = _onConnectCallbacks s.
Proof. apply (same_fields_onerror s). Qed.

Lemma disconnects_onerror  (s : Client) :
  _onDisconnectCallbacks (onerror s) = _onDisconnectCallbacks s.
Proof. apply (same_fields_onerror s). Qed.

Lemma errors_onerror  (s : Client) :
  _onErrorCallbacks (onerror s) = _onErrorCallbacks s.
Proof. apply (same_fields_onerror s). Qed.

Lemma sockets_onerror  (s : Client) :
  sockets (onerror s) = sockets s.
Proof. apply (same_fields_onerror s). Qed.

Lemma importing_onerror  (s : Client) :
  importing (onerror s) = importing s.
Proof. apply (same_fields_onerror s). Qed.

Lemma next_call_onerror (m : Method)  (s : Client) :
  next_call m (onerror s) = next_call m s.
Proof. apply (same_fields_onerror s). Qed.

Lemma port_onclose  (s : Client) :
  port (onclose s) = port s.
Proof. apply (same_fields_onclose s). Qed.

Lemma api_onclose  (s : Client) :
  hasGlobalWebSocket (onclose s) = hasGlobalWebSocket s.
Proof. apply (same_fields_onclose s). Qed.

Lemma socket_onclose  (s : Client) :
  _socket (onclose s) = _socket s.
Proof. apply (same_fields_onclose s). Qed.

Lemma socket_promise_onclose  (s : Client) :
  _createSocketPromise (onclose s) = _createSocketPromise s.
Proof. apply (same_fields_onclose s). Qed.

Lemma messages_onclose  (s : Client) :
  _onMessageCallbacks (onclose s) = _onMessageCallbacks s.
Proof. apply (same_fields_onclose s). Qed.

Lemma connects_onclose  (s : Client) :
  _onConnectCallbacks (onclose s) = _onConnectCallbacks s.
Proof. apply (same_fields_onclose s). Qed.

Lemma disconnects_onclose  (s : Client) :
  _onDisconnectCallbacks (onclose s) = _onDisconnectCallbacks s.
Proof. apply (same_fields_onclose s). Qed.

Lemma errors_onclose  (s : Client) :
  _onErrorCallbacks (onclose s) = _onErrorCallbacks s.
Proof. apply (same_fields_onclose s). Qed.

Lemma sockets_onclose  (s : Client) :
  sockets (onclose s) = sockets s.
Proof. apply (same_fields_onclose s). Qed.

Lemma importing_onclose  (s : Client) :
  importing (onclose s) = importing s.
Proof. apply (same_fields_onclose s). Qed.

Lemma next_call_onclose (m : Method)  (s : Client) :
  next_call m (onclose s) = next_call m s.
Proof. apply (same_fields_onclose s). Qed.

#[export] Hint Rewrite
  port_onmessage
  api_onmessage
  socket_onmessage
  socket_promise_onmessage
  messages_onmessage
  connects_onmessage
  disconnects_onmessage
  errors_onmessage
  sockets_onmessage
  importing_onmessage
  next_call_onmessage
  port_onopen
  api_onopen
  socket_onopen
  socket_promise_onopen
  messages_onopen
  connects_onopen
  disconnects_onopen
  errors_onopen
  sockets_onopen
  importing_onopen
  next_call_onopen
  port_onerror
  api_onerror
  socket_onerror
  socket_promise_onerror
  messages_onerror
  connects_onerror
  disconnects_onerror
  errors_onerror
  sockets_onerror
  importing_onerror
  next_call_onerror
  port_onclose
  api_onclose
  socket_onclose
  socket_promise_onclose
  messages_onclose
  connects_onclose
  disconnects_onclose
  errors_onclose
  sockets_onclose
  importing_onclose
  next_call_onclose
  : frame.

(* ================================================================== *)
(** * Continuations that are suspended or scheduled *)
(* ================================================================== *)

Section Pending.

Variable h : Cont -> nat.

Lemma pending_alloc (m : Method) (s : Client) : pending h (alloc m s) = pending h s.
Proof. apply (measure_alloc (fun _ => h) (awaited h)). Qed.

Lemma pending_enqueue (j : Job) (s : Client) :
  pending h (enqueue j s) = pending h s + awaited h j.
Proof. apply (measure_enqueue (fun _ => h) (awaited h)). Qed.

Lemma pending_settle (m : Method) (n : nat) (o : Outcome) (s : Client) :
  pending h (settle m n o s) <= pending h s.
Proof. apply (measure_settle (fun _ => h) (awaited h)). intros k. apply Nat.le_refl. Qed.

Lemma pending_await (m : Method) (n : nat) (k : Cont) (s : Client) :
  pending h (await m n k s) <= pending h s + h k.
Proof.
  apply (measure_await (fun _ => h) (awaited h)); [apply Nat.le_refl | intros o; apply Nat.le_refl].
Qed.

Lemma pending_settle_reply (n : nat) (message : string) (o : Outcome) (s : Client) :
  pending h (settle_reply n message o s) <= pending h s.
Proof.
  pose proof (measure_settle_reply (fun _ => h) (awaited h) n message o s) as H.
  unfold pending. cbn [awaited] in H. lia.
Qed.

Lemma pending_settle_wait (n : nat) (o : Outcome) (s : Client) :
  pending h (settle_wait n o s) <= pending h s.
Proof.
  pose proof (measure_settle_wait (fun _ => h) (awaited h) n o s) as H.
  unfold pending. cbn [awaited] in H. lia.
Qed.

Lemma pending_pop (j : Job) (q : list Job) (s : Client) :
  microtasks s = j :: q ->
  pending h s = awaited h j + pending h (set_microtasks q s).
Proof. apply (measure_pop (fun _ => h) (awaited h)). Qed.

End Pending.

(** Bounds for the operations a state is built from, outermost first. *)
Ltac pending_of h st :=
  lazymatch st with
  | await ?m ?n ?k ?s => pose proof (pending_await h m n k s); pending_of h s
  | settle ?m ?n ?o ?s => pose proof (pending_settle h m n o s); pending_of h s
  | settle_reply ?n ?t ?o ?s => pose proof (pending_settle_reply h n t o s); pending_of h s
  | settle_wait ?n ?o ?s => pose proof (pending_settle_wait h n o s); pending_of h s
  | alloc ?m ?s => pose proof (pending_alloc h m s); pending_of h s
  | enqueue ?j ?s => pose proof (pending_enqueue h j s); pending_of h s
  | emit ?o ?s =>
      pose proof (eq_refl : pending h (emit o s) = pending h s); pending_of h s
  | register_message ?c ?s =>
      pose proof (eq_refl : pending h (register_message c s) = pending h s); pending_of h s
  | unlisten_message ?c ?s =>
      pose proof (eq_refl : pending h (unlisten_message c s) = pending h s); pending_of h s
  | register_connect ?c ?s =>
      pose proof (eq_refl : pending h (register_connect c s) = pending h s); pending_of h s
  | unlisten_connect ?c ?s =>
      pose proof (eq_refl : pending h (unlisten_connect c s) = pending h s); pending_of h s
  | set_socket ?c ?s =>
      pose proof (eq_refl : pending h (set_socket c s) = pending h s); pending_of h s
  | set_sockets ?c ?s =>
      pose proof (eq_refl : pending h (set_sockets c s) = pending h s); pending_of h s
  | set_readyState ?i ?r ?s =>
      pose proof (eq_refl : pending h (set_readyState i r s) = pending h s); pending_of h s
  | set_createSocketPromise ?c ?s =>
      pose proof (eq_refl : pending h (set_createSocketPromise c s) = pending h s);
      pending_of h s
  | set_importing ?c ?s =>
      pose proof (eq_refl : pending h (set_importing c s) = pending h s); pending_of h s
  | _ => idtac
  end.

Ltac pending_bound :=
  lazymatch goal with
  | |- pending ?h ?st <= _ => pending_of h st; cbn [awaited] in *; lia
  | |- pending ?h ?st = _ => pending_of h st; cbn [awaited] in *; lia
  end.

Section PendingCalls.

Variable h : Cont -> nat.

Lemma pending__createSocket (s : Client) : pending h (_createSocket s) = pending h s.
Proof. unfold _createSocket. fields. destruct (hasGlobalWebSocket s); pending_bound. Qed.

Lemma pending__waitForConnection (s : Client) :
  pending h (_waitForConnection s) <= pending h s.
Proof.
  unfold _waitForConnection. destruct (socket_is_open (alloc WaitM s)); pending_bound.
Qed.

Lemma pending_connect (s : Client) :
  pending h (connect s)
  <= pending h s + h (KConnectGotSocket (next_call ConnectM s))
     + h (KConnectOpened (next_call ConnectM s)).
Proof.
  unfold connect. fields.
  pose proof (pending__waitForConnection (alloc ConnectM s)).
  pose proof (pending__createSocket (alloc ConnectM s)).
  pose proof (pending_alloc h ConnectM s).
  destruct (_socket s); [|destruct (_createSocketPromise s)]; pending_bound.
Qed.

Lemma pending_sendAndWaitReply (message : string) (s : Client) :
  pending h (sendAndWaitReply message s)
  <= pending h s + h (KSendConnected (next_call ReplyM s) message)
     + h (KConnectGotSocket (next_call ConnectM s))
     + h (KConnectOpened (next_call ConnectM s)).
Proof.
  unfold sendAndWaitReply.
  pose proof (pending_connect (alloc ReplyM s)) as H.
  change (next_call ConnectM (alloc ReplyM s)) with (next_call ConnectM s) in *.
  pose proof (pending_alloc h ReplyM s).
  pending_bound.
Qed.

Lemma pending_runCommand (command : string) (ctx : option ContextContainer) (s : Client) :
  pending h (runCommand command ctx s)
  <= pending h s + h (KCommandReplied (next_call CommandM s))
     + h (KSendConnected (next_call ReplyM s) (command_text command ctx))
     + h (KConnectGotSocket (next_call ConnectM s))
     + h (KConnectOpened (next_call ConnectM s)).
Proof.
  unfold runCommand.
  pose proof (pending_sendAndWaitReply (command_text command ctx) (alloc CommandM s)) as H.
  change (next_call ConnectM (alloc CommandM s)) with (next_call ConnectM s) in *.
  change (next_call ReplyM (alloc CommandM s)) with (next_call ReplyM s) in *.
  pose proof (pending_alloc h CommandM s).
  pending_bound.
Qed.

Lemma pending_subscribeMany (events : list string) (callback : nat) (s : Client) :
  pending h (subscribeMany events callback s)
  <= pending h s + h (KSubscribeReplied (next_call SubscribeM s) events callback)
     + h (KSendConnected (next_call ReplyM s) (subscribe_text events))
     + h (KConnectGotSocket (next_call ConnectM s))
     + h (KConnectOpened (next_call ConnectM s)).
Proof.
  unfold subscribeMany.
  pose proof (pending_sendAndWaitReply (subscribe_text events) (alloc SubscribeM s)) as H.
  change (next_call ConnectM (alloc SubscribeM s)) with (next_call ConnectM s) in *.
  change (next_call ReplyM (alloc SubscribeM s)) with (next_call ReplyM s) in *.
  pose proof (pending_alloc h SubscribeM s).
  pending_bound.
Qed.

Lemma pending_unlistenFn (n : nat) (events : list string) (callback : nat)
      (response : JsValue) (s : Client) :
  pending h (unlistenFn n events callback response s)
  <= pending h s + h (KUnlistenReplied (next_call UnlistenM s))
     + h (KSendConnected (next_call ReplyM s)
            ("unsubscribe " ++ template (opt_prop response "subscriptionId")))
     + h (KConnectGotSocket (next_call ConnectM s))
     + h (KConnectOpened (next_call ConnectM s)).
Proof.
  unfold unlistenFn.
  pose proof (pending_alloc h UnlistenM s).
  destruct response as [[]|]; cbn [opt_prop];
    match goal with
    | |- context [sendAndWaitReply ?t ?s0] =>
        pose proof (pending_sendAndWaitReply t s0) as H0;
        change (next_call ConnectM s0) with (next_call ConnectM s) in H0;
        change (next_call ReplyM s0) with (next_call ReplyM s) in H0;
        change (pending h s0) with (pending h (alloc UnlistenM s)) in H0
    | _ => idtac
    end;
    pending_bound.
Qed.

Lemma pending_run_job (j : Job) (s : Client) :
  pending h (run_job j s) <= pending h s + respawn h j.
Proof.
  destruct j as [[c|c|c message|c events callback|c|c] [v|r] | c [] | c message o | c o];
    cbn [run_job resume pass respawn subscribeMany_replied _createSocket_resume].
  all: try pending_bound.
  - match goal with
    | |- context [_waitForConnection (set_socket ?a ?s0)] =>
        pose proof (pending__waitForConnection (set_socket a s0));
        change (pending h (set_socket a s0)) with (pending h s0) in *
    end.
    pending_bound.
  - unfold sendAndWaitReply_connected. split_matches; pending_bound.
Qed.

Lemma pending_tick (s s' : Client) :
  tick s = Some s' ->
  exists j q, microtasks s = j :: q
              /\ pending h s' + awaited h j <= pending h s + respawn h j.
Proof.
  unfold tick. destruct (microtasks s) as [|j q] eqn:Hq; [discriminate|].
  intros H. injection H as <-. exists j, q. split; [reflexivity|].
  rewrite (pending_pop h s Hq).
  pose proof (pending_run_job j (set_microtasks q s)). lia.
Qed.

Lemma pending_handler (A : Type) (invoke : A -> Client -> Completion)
      (l : list A) (s : Client) :
  (forall cb s, pending h (state_of (invoke cb s)) <= pending h s) ->
  pending h (handled (forEach invoke l s)) <= pending h s.
Proof.
  intros Hinv.
  apply (@handled_preserves (fun s' => pending h s' <= pending h s)).
  - intros r s1 H. exact H.
  - apply (@forEach_preserves _ invoke (fun s' => pending h s' <= pending h s));
      [|apply Nat.le_refl].
    intros cb s1 H. specialize (Hinv cb s1). lia.
Qed.

Lemma pending_onmessage (e : MessageEvent) (s : Client) :
  pending h (onmessage e s) <= pending h s.
Proof.
  apply pending_handler. intros cb s1.
  destruct cb as [n message|n events callback|f]; cbn [invoke_message].
  - unfold reply_listener.
    destruct e as [[]|]; cbn [state_of]; try apply Nat.le_refl;
      repeat match goal with
             | |- context [if ?b then _ else _] => destruct b
             end; pending_bound.
  - unfold subscription_listener.
    destruct e as [[]|]; cbn [state_of]; try apply Nat.le_refl;
      repeat match goal with
             | |- context [if ?b then _ else _] => destruct b
             end; apply Nat.le_refl.
  - apply Nat.le_refl.
Qed.

Lemma pending_onopen (s : Client) : pending h (onopen s) <= pending h s.
Proof.
  apply pending_handler. intros [w|f] s1; cbn [invoke_connect state_of].
  - apply pending_settle_wait.
  - apply Nat.le_refl.
Qed.

Lemma pending_onerror (s : Client) : pending h (onerror s) <= pending h s.
Proof. apply pending_handler. intros f s1. apply Nat.le_refl. Qed.

Lemma pending_onclose (s : Client) : pending h (onclose s) <= pending h s.
Proof. apply pending_handler. intros f s1. apply Nat.le_refl. Qed.

Lemma pending_deliver (ev : Event) (s s' : Client) :
  deliver ev s = Some s' -> pending h s' <= pending h s.
Proof.
  destruct ev as [k ok|i|i e|i|i]; cbn [deliver].
  - destruct (existsb (Nat.eqb k) (importing s)); [|discriminate].
    intros H. injection H as <-. pending_bound.
  - destruct (ready s i) as [[]|]; try discriminate.
    intros H. injection H as <-.
    eapply Nat.le_trans; [apply pending_onopen | apply Nat.le_refl].
  - destruct (ready s i) as [[]|]; try discriminate;
      intros H; injection H as <-; apply pending_onmessage.
  - destruct (ready s i) as [[]|]; try discriminate;
      intros H; injection H as <-;
      (eapply Nat.le_trans; [apply pending_onerror | apply Nat.le_refl]).
  - destruct (ready s i) as [[]|]; try discriminate;
      intros H; injection H as <-;
      (eapply Nat.le_trans; [apply pending_onclose | apply Nat.le_refl]).
Qed.

End PendingCalls.

(* ================================================================== *)
(** * What a step does to the registry, the log and the pending work *)
(* ================================================================== *)

Lemma sendAndWaitReply_connected_messages (n : nat) (message : string) (s : Client) :
  _onMessageCallbacks (sendAndWaitReply_connected n message s)
  = if sendable message s
    then Registry.push (_onMessageCallbacks s) (ReplyListener n message)
    else _onMessageCallbacks s.
Proof.
  unfold sendAndWaitReply_connected, sendable.
  destruct (_socket s) as [i|]; [|reflexivity].
  destruct (nth_error (sockets s) i) as [ws|]; [|reflexivity].
  destruct (ws_send message ws); reflexivity.
Qed.

Lemma subscribeMany_replied_messages (n : nat) (events : list string) (callback : nat)
      (o : Outcome) (s : Client) :
  _onMessageCallbacks (subscribeMany_replied n events callback o s)
  = match o with
    | Fulfilled _ => Registry.push (_onMessageCallbacks s) (SubscriptionListener n events callback)
    | Rejected _ => _onMessageCallbacks s
    end.
Proof. unfold subscribeMany_replied; destruct o; frame; reflexivity. Qed.

Lemma unlistenFn_messages (n : nat) (events : list string) (callback : nat)
      (response : JsValue) (s : Client) :
  _onMessageCallbacks (unlistenFn n events callback response s)
  = Registry.unlisten MessageCallback_same (SubscriptionListener n events callback)
      (_onMessageCallbacks s).
Proof. unfold unlistenFn; split_matches; frame; reflexivity. Qed.

Lemma messages_call (op : Op) (s s' : Client) :
  call op s = Some s' ->
  _onMessageCallbacks s' = change_registry (call_change op s) (_onMessageCallbacks s).
Proof.
  destruct op as [ | | |message|query|command ctx|event callback|events callback
                  |sub|f|f|f|f|f|f|f|f]; cbn [call call_change];
    try (destruct (promise s SubscribeM sub) as [[|[[]|]]|]; try discriminate);
    intros H; injection H as <-; cbn [change_registry].
  all: try (frame; reflexivity).
  apply unlistenFn_messages.
Qed.

Lemma messages_run_job (j : Job) (s : Client) :
  _onMessageCallbacks (run_job j s) = change_registry (job_change j s) (_onMessageCallbacks s).
Proof.
  destruct j as [[c|c|c message|c events callback|c|c] [v|r] | c [] | c message o | c o];
    cbn [run_job resume pass job_change change_registry].
  all: try (frame; reflexivity).
  - rewrite sendAndWaitReply_connected_messages. destruct (sendable message s); reflexivity.
  - apply subscribeMany_replied_messages.
  - apply subscribeMany_replied_messages.
Qed.

Lemma messages_deliver (ev : Event) (s s' : Client) :
  deliver ev s = Some s' -> _onMessageCallbacks s' = _onMessageCallbacks s.
Proof.
  destruct ev as [k ok|i|i e|i|i]; cbn [deliver].
  - destruct (existsb (Nat.eqb k) (importing s)); [|discriminate].
    intros H. injection H as <-. reflexivity.
  - destruct (ready s i) as [[]|]; try discriminate.
    intros H. injection H as <-. now rewrite messages_onopen.
  - destruct (ready s i) as [[]|]; try discriminate;
      intros H; injection H as <-; now rewrite messages_onmessage.
  - destruct (ready s i) as [[]|]; try discriminate;
      intros H; injection H as <-; now rewrite messages_onerror.
  - destruct (ready s i) as [[]|]; try discriminate;
      intros H; injection H as <-; now rewrite messages_onclose.
Qed.

(** Every step changes the message registry by at most one registration
    or one run of an unregister closure. *)
Lemma messages_step (l : Label) (s s' : Client) :
  step s l = Some s' ->
  _onMessageCallbacks s' = change_registry (step_change l s) (_onMessageCallbacks s).
Proof.
  destruct l as [op| |ev]; cbn [step step_change].
  - apply messages_call.
  - unfold tick. destruct (microtasks s) as [|j q] eqn:Hq; [discriminate|].
    intros H. injection H as <-. rewrite messages_run_job.
    destruct j as [[c|c|c message|c events callback|c|c] [v|r] | c [] | c message o | c o];
      reflexivity.
  - destruct (microtasks s); [|discriminate].
    intros H. cbn [change_registry]. now apply messages_deliver with (ev := ev).
Qed.

Lemma log_call (op : Op) (s s' : Client) : call op s = Some s' -> log s' = log s.
Proof.
  destruct op as [ | | |message|query|command ctx|event callback|events callback
                  |sub|f|f|f|f|f|f|f|f]; cbn [call];
    try (destruct (promise s SubscribeM sub) as [[|[[]|]]|]; try discriminate);
    intros H; injection H as <-; frame; reflexivity.
Qed.

Lemma next_call_call_le (m : Method) (op : Op) (s s' : Client) :
  call op s = Some s' -> next_call m s <= next_call m s'.
Proof.
  destruct op as [ | | |message|query|command ctx|event callback|events callback
                  |sub|f|f|f|f|f|f|f|f]; cbn [call];
    try (destruct (promise s SubscribeM sub) as [[|[[]|]]|]; try discriminate);
    intros H; injection H as <-.
  - apply next_call_connect_le.
  - rewrite next_call_closeConnection. apply Nat.le_refl.
  - apply next_call__waitForConnection_le.
  - apply next_call_sendAndWaitReply_le.
  - apply next_call_sendAndWaitReply_le.
  - apply next_call_runCommand_le.
  - apply next_call_subscribeMany_le.
  - apply next_call_subscribeMany_le.
  - apply next_call_unlistenFn_le.
  - apply Nat.le_refl.
  - apply Nat.le_refl.
  - apply Nat.le_refl.
  - apply Nat.le_refl.
  - apply Nat.le_refl.
  - apply Nat.le_refl.
  - apply Nat.le_refl.
  - apply Nat.le_refl.
Qed.

Lemma next_call_deliver (m : Method) (ev : Event) (s s' : Client) :
  deliver ev s = Some s' -> next_call m s' = next_call m s.
Proof.
  destruct ev as [k ok|i|i e|i|i]; cbn [deliver].
  - destruct (existsb (Nat.eqb k) (importing s)); [|discriminate].
    intros H. injection H as <-. reflexivity.
  - destruct (ready s i) as [[]|]; try discriminate.
    intros H. injection H as <-. now rewrite next_call_onopen.
  - destruct (ready s i) as [[]|]; try discriminate;
      intros H; injection H as <-; now rewrite next_call_onmessage.
  - destruct (ready s i) as [[]|]; try discriminate;
      intros H; injection H as <-; now rewrite next_call_onerror.
  - destruct (ready s i) as [[]|]; try discriminate;
      intros H; injection H as <-; now rewrite next_call_onclose.
Qed.

Lemma next_call_step_le (m : Method) (l : Label) (s s' : Client) :
  step s l = Some s' -> next_call m s <= next_call m s'.
Proof.
  destruct l as [op| |ev]; cbn [step].
  - apply next_call_call_le.
  - apply next_call_tick_le.
  - destruct (microtasks s); [|discriminate].
    intros H. rewrite (next_call_deliver m ev s H). apply Nat.le_refl.
Qed.

Lemma pending_call (h : Cont -> nat) (op : Op) (s s' : Client) :
  call op s = Some s' ->
  pending h s' <= pending h s + total (map h (call_conts op s)).
Proof.
  destruct op as [ | | |message|query|command ctx|event callback|events callback
                  |sub|f|f|f|f|f|f|f|f]; cbn [call call_conts];
    try (destruct (promise s SubscribeM sub) as [[|[[]|]]|]; try discriminate);
    intros H; injection H as <-;
    unfold send_conts, connect_conts; cbn [map]; rewrite ?total_cons;
    change (total []) with 0.
  - pose proof (pending_connect h s). lia.
  - unfold closeConnection. rewrite Nat.add_0_r. destruct (_socket s); apply Nat.le_refl.
  - pose proof (pending__waitForConnection h s). lia.
  - pose proof (pending_sendAndWaitReply h message s). lia.
  - pose proof (pending_sendAndWaitReply h ("query " ++ query) s). unfold sendQuery. lia.
  - pose proof (pending_runCommand h command ctx s). lia.
  - pose proof (pending_subscribeMany h [event] callback s). lia.
  - pose proof (pending_subscribeMany h events callback s). lia.
  - pose proof (pending_unlistenFn h sub events callback response s). lia.
  - rewrite Nat.add_0_r. apply Nat.le_refl.
  - rewrite Nat.add_0_r. apply Nat.le_refl.
  - rewrite Nat.add_0_r. apply Nat.le_refl.
  - rewrite Nat.add_0_r. apply Nat.le_refl.
  - rewrite Nat.add_0_r. apply Nat.le_refl.
  - rewrite Nat.add_0_r. apply Nat.le_refl.
  - rewrite Nat.add_0_r. apply Nat.le_refl.
  - rewrite Nat.add_0_r. apply Nat.le_refl.
Qed.

(* ================================================================== *)
(** * Subscriptions: what a step does to one of them *)
(* ================================================================== *)

Lemma subscription_listeners_change (n : nat) (c : RegistryChange) (l : list MessageCallback) :
  match c with
  | Unchanged => True
  | Pushed cb | Unlistened cb => is_subscription n cb = false
  end ->
  subscription_listeners n (change_registry c l) = subscription_listeners n l.
Proof.
  destruct c as [|cb|cb]; cbn [change_registry]; intros H; unfold subscription_listeners.
  - reflexivity.
  - rewrite RegistryFacts.filter_push, H. apply app_nil_r.
  - apply RegistryFacts.filter_unlisten; [apply MessageCallback_same_spec | exact H].
Qed.

Lemma delivered_emit (n : nat) (o : Obs) (s : Client) :
  delivered n (log (emit o s))
  = delivered n (log s)
    ++ match o with
       | ObsSubscribeCallback n' callback d => if Nat.eqb n' n then [(callback, d)] else []
       | _ => []
       end.
Proof. cbn [emit log set_log]. rewrite delivered_app. cbn. now rewrite app_nil_r. Qed.

Lemma delivered_run_job (n : nat) (j : Job) (s : Client) :
  delivered n (log (run_job j s)) = delivered n (log s).
Proof.
  destruct j as [[c|c|c message|c events callback|c|c] [v|r] | c [] | c message o | c o];
    cbn [run_job resume pass subscribeMany_replied _createSocket_resume];
    unfold sendAndWaitReply_connected; split_matches; frame;
    rewrite ?delivered_app; cbn; rewrite ?app_nil_r; reflexivity.
Qed.

Lemma deliveries_undecodable (e : MessageEvent) (l : list MessageCallback) :
  undecodable e = true -> deliveries l e = [].
Proof.
  intros He. unfold deliveries. induction l as [|cb rest IH]; [reflexivity|].
  cbn [flat_map]. rewrite IH.
  destruct cb; cbn [delivery]; try reflexivity.
  destruct e as [[]|]; try discriminate; reflexivity.
Qed.

Lemma subscription_listener_decoded (m : nat) (events : list string) (callback : nat)
      (v : Json) (s : Client) :
  v <> JNull ->
  subscription_listener m events callback (Some v) s
  = Normal (if is_subscribed_event events (Some v)
            then emit (ObsSubscribeCallback m callback (event_data (Some v)))
                   (emit (ObsConsoleLog (Some v)) s)
            else emit (ObsConsoleLog (Some v)) s).
Proof. intros Hv. destruct v; try contradiction; reflexivity. Qed.

Lemma reply_listener_log (m : nat) (message : string) (e : MessageEvent) (s : Client) :
  log (state_of (reply_listener m message e s)) = log s.
Proof.
  unfold reply_listener. destruct e as [[]|]; cbn [state_of]; try reflexivity;
    repeat match goal with
           | |- context [if ?b then _ else _] => destruct b
           end;
    rewrite ?log_settle_reply; reflexivity.
Qed.

Lemma reply_listener_throws (m : nat) (message : string) (e : MessageEvent) (s : Client) :
  (exists s1, reply_listener m message e s = Normal s1)
  \/ (undecodable e = true /\ exists r, reply_listener m message e s = Throw r s).
Proof.
  unfold reply_listener. destruct e as [[]|]; eauto.
Qed.

(** The dispatch of a message calls the callback of subscription [n] once
    for each of its listeners that takes the payload, in their order. *)
Lemma delivered_forEach (n : nat) (e : MessageEvent) :
  forall l s,
    delivered n (log (handled (forEach (invoke_message e) l s)))
    = delivered n (log s) ++ deliveries (subscription_listeners n l) e.
Proof.
  induction l as [|cb rest IH]; intros s.
  - cbn. now rewrite app_nil_r.
  - destruct cb as [m message|m events callback|f]; cbn [forEach invoke_message].
    + change (subscription_listeners n (ReplyListener m message :: rest))
        with (subscription_listeners n rest).
      pose proof (reply_listener_log m message e s) as Hlog.
      destruct (reply_listener_throws m message e s) as [[s1 E]|[He [r E]]];
        rewrite E in *; cbn [state_of] in Hlog.
      * now rewrite IH, Hlog.
      * cbn [handled]. rewrite delivered_emit, deliveries_undecodable by assumption.
        rewrite ?app_nil_r. reflexivity.
    + assert (Hsub : subscription_listeners n (SubscriptionListener m events callback :: rest)
                     = (if Nat.eqb m n then [SubscriptionListener m events callback] else [])
                       ++ subscription_listeners n rest).
      { unfold subscription_listeners. cbn [filter is_subscription].
        destruct (Nat.eqb m n); reflexivity. }
      destruct e as [v|].
      2:{ cbn [subscription_listener handled].
          rewrite delivered_emit, deliveries_undecodable by reflexivity.
          rewrite ?app_nil_r. reflexivity. }
      assert (Hnull : v = JNull \/ v <> JNull) by (destruct v; auto; right; discriminate).
      destruct Hnull as [->|Hv].
      { cbn [subscription_listener handled].
        rewrite !delivered_emit, deliveries_undecodable by reflexivity.
        rewrite ?app_nil_r. reflexivity. }
      rewrite (@subscription_listener_decoded m events callback v s Hv), IH, Hsub.
      unfold deliveries at 2. rewrite flat_map_app.
      fold (deliveries (subscription_listeners n rest) (Some v)).
      rewrite app_assoc. f_equal.
      destruct (is_subscribed_event events (Some v)) eqn:Es;
        rewrite !delivered_emit; destruct (Nat.eqb m n); cbn [flat_map delivery app];
        rewrite ?Es, ?app_nil_r; reflexivity.
    + change (subscription_listeners n (UserMessageCallback f :: rest))
        with (subscription_listeners n rest).
      rewrite IH, delivered_emit. now rewrite app_nil_r.
Qed.

Lemma delivered_handler (n : nat) (A : Type) (invoke : A -> Client -> Completion)
      (l : list A) (s : Client) :
  (forall cb s, delivered n (log (state_of (invoke cb s))) = delivered n (log s)) ->
  delivered n (log (handled (forEach invoke l s))) = delivered n (log s).
Proof.
  intros Hinv.
  apply (@handled_preserves (fun s' => delivered n (log s') = delivered n (log s))).
  - intros r s1 H. rewrite delivered_emit, H. apply app_nil_r.
  - apply (@forEach_preserves _ invoke (fun s' => delivered n (log s') = delivered n (log s)));
      [|reflexivity].
    intros cb s1 H. now rewrite Hinv.
Qed.

Lemma delivered_onopen (n : nat) (s : Client) :
  delivered n (log (onopen s)) = delivered n (log s).
Proof.
  apply delivered_handler. intros [w|f] s1; cbn [invoke_connect state_of].
  - now rewrite log_settle_wait.
  - rewrite delivered_emit. apply app_nil_r.
Qed.

Lemma delivered_onerror (n : nat) (s : Client) :
  delivered n (log (onerror s)) = delivered n (log s).
Proof.
  apply delivered_handler. intros f s1. cbn [invoke_error state_of].
  rewrite delivered_emit. apply app_nil_r.
Qed.

Lemma delivered_onclose (n : nat) (s : Client) :
  delivered n (log (onclose s)) = delivered n (log s).
Proof.
  apply delivered_handler. intros f s1. cbn [invoke_disconnect state_of].
  rewrite delivered_emit. apply app_nil_r.
Qed.

Lemma delivered_deliver (n : nat) (ev : Event) (s s' : Client) :
  deliver ev s = Some s' ->
  delivered n (log s')
  = delivered n (log s)
    ++ label_deliveries (subscription_listeners n (_onMessageCallbacks s)) (Env ev).
Proof.
  destruct ev as [k ok|i|i e|i|i]; cbn [deliver label_deliveries].
  - destruct (existsb (Nat.eqb k) (importing s)); [|discriminate].
    intros H. injection H as <-. cbn. now rewrite app_nil_r.
  - destruct (ready s i) as [[]|]; try discriminate.
    intros H. injection H as <-. rewrite delivered_onopen. cbn. now rewrite app_nil_r.
  - destruct (ready s i) as [[]|]; try discriminate;
      intros H; injection H as <-; apply delivered_forEach.
  - destruct (ready s i) as [[]|]; try discriminate;
      intros H; injection H as <-; rewrite delivered_onerror; cbn; now rewrite app_nil_r.
  - destruct (ready s i) as [[]|]; try discriminate;
      intros H; injection H as <-; rewrite delivered_onclose; cbn; now rewrite app_nil_r.
Qed.

Lemma resubscribes_call_conts (n : nat) (op : Op) (s : Client) :
  n < next_call SubscribeM s ->
  total (map (resubscribes n) (call_conts op s)) = 0.
Proof.
  intros Hn.
  assert (Hfresh : Nat.eqb (next_call SubscribeM s) n = false)
    by (apply Nat.eqb_neq; lia).
  destruct op as [ | | |message|query|command ctx|event callback|events callback
                  |sub|f|f|f|f|f|f|f|f]; cbn [call_conts];
    try (destruct (promise s SubscribeM sub) as [[|[[]|]]|]);
    unfold send_conts, connect_conts; cbn [map resubscribes];
    rewrite ?Hfresh; reflexivity.
Qed.

(** A step other than a call of the closure of subscription [n] leaves the
    subscription as it is, and calls its callback only for a message. *)
Lemma subscription_step (n : nat) (l : list MessageCallback) (lab : Label) (s s' : Client) :
  subscription n l s ->
  step s lab = Some s' ->
  is_unlisten n lab = false ->
  subscription n l s'
  /\ delivered n (log s') = delivered n (log s) ++ label_deliveries l lab.
Proof.
  intros (Hl & Hz & Hn) Hstep Hlab.
  pose proof (next_call_step_le SubscribeM lab s Hstep) as Hle.
  pose proof (messages_step lab s Hstep) as Hm.
  unfold resubscribing in Hz.
  destruct lab as [op| |ev]; cbn [step] in Hstep; cbn [label_deliveries].
  - pose proof (pending_call (resubscribes n) op s Hstep) as Hp.
    rewrite resubscribes_call_conts in Hp by exact Hn.
    rewrite (log_call op s Hstep), app_nil_r.
    split; [split; [|split]|reflexivity]; [|unfold resubscribing; lia|lia].
    rewrite Hm, subscription_listeners_change; [exact Hl|].
    cbn [step_change].
    destruct op as [ | | |message|query|command ctx|event callback|events callback
                    |sub|f|f|f|f|f|f|f|f]; cbn [call_change]; try exact I; try reflexivity.
    cbn [is_unlisten] in Hlab.
    destruct (promise s SubscribeM sub) as [[|[[]|]]|]; try exact I.
    exact Hlab.
  - destruct (pending_tick (resubscribes n) s Hstep) as (j & q & Hq & Hp).
    assert (Hr : respawn (resubscribes n) j = 0).
    { destruct j as [[c|c|c message|c events callback|c|c] [v|r] | c [] | c message o | c o];
        reflexivity. }
    unfold tick in Hstep. rewrite Hq in Hstep. injection Hstep as <-.
    rewrite delivered_run_job, app_nil_r.
    split; [split; [|split]|reflexivity]; [|unfold resubscribing; lia|lia].
    rewrite Hm, subscription_listeners_change; [exact Hl|].
    cbn [step_change]. rewrite Hq.
    destruct j as [[c|c|c message|c events callback|c|c] [v|r] | c [] | c message o | c o];
      cbn [job_change]; try exact I; try reflexivity.
    + destruct (sendable message s); [reflexivity | exact I].
    + cbn [awaited resubscribes] in Hp. cbn [is_subscription].
      destruct (Nat.eqb c n); [lia | reflexivity].
  - destruct (microtasks s) eqn:Hq; [|discriminate].
    pose proof (pending_deliver (resubscribes n) ev s Hstep) as Hp.
    rewrite (delivered_deliver n ev s Hstep), Hl.
    split; [split; [|split]|]; [|unfold resubscribing; lia|lia|].
    + cbn [step_change change_registry] in Hm. now rewrite Hm.
    + destruct ev; reflexivity.
Qed.

Lemma subscription_run (n : nat) (l : list MessageCallback) :
  forall ls s s',
    subscription n l s ->
    existsb (is_unlisten n) ls = false ->
    run s ls = Some s' ->
    subscription n l s'
    /\ delivered n (log s') = delivered n (log s) ++ flat_map (label_deliveries l) ls.
Proof.
  induction ls as [|lab ls IH]; intros s s' Hs Hls Hrun; cbn [run] in Hrun.
  - injection Hrun as <-. split; [exact Hs|]. cbn. now rewrite app_nil_r.
  - cbn [existsb] in Hls. apply orb_false_iff in Hls. destruct Hls as [Hlab Hls].
    destruct (step s lab) as [s1|] eqn:Hstep; [|discriminate].
    destruct (subscription_step lab Hs Hstep Hlab) as [Hs1 Hd1].
    destruct (IH s1 s' Hs1 Hls Hrun) as [Hs' Hd'].
    split; [exact Hs'|]. rewrite Hd', Hd1. cbn [flat_map]. now rewrite app_assoc.
Qed.

Lemma label_deliveries_single (n : nat) (events : list string) (callback : nat)
      (ls : list Label) :
  flat_map (label_deliveries [SubscriptionListener n events callback]) ls
  = subscribed_data events callback (messages ls).
Proof.
  unfold subscribed_data, messages.
  induction ls as [|lab ls IH]; [reflexivity|].
  cbn [flat_map]. rewrite flat_map_app, <- IH. f_equal.
  destruct lab as [op| |[k ok|i|i e|i|i]]; reflexivity.
Qed.

(** Once the listener is gone it stays gone, whatever the caller does. *)
Lemma subscription_gone_step (n : nat) (lab : Label) (s s' : Client) :
  subscription n [] s ->
  step s lab = Some s' ->
  subscription n [] s' /\ delivered n (log s') = delivered n (log s).
Proof.
  intros Hs Hstep.
  destruct (is_unlisten n lab) eqn:Hlab.
  - destruct lab as [[ | | |message|query|command ctx|event callback|events callback
                     |sub|f|f|f|f|f|f|f|f]| |ev]; try discriminate.
    cbn [is_unlisten] in Hlab. apply Nat.eqb_eq in Hlab. subst sub.
    destruct Hs as (Hl & Hz & Hn).
    pose proof (next_call_step_le SubscribeM _ s Hstep) as Hle.
    pose proof (messages_step _ s Hstep) as Hm.
    cbn [step] in Hstep.
    pose proof (pending_call (resubscribes n) _ s Hstep) as Hp.
    rewrite resubscribes_call_conts in Hp by exact Hn.
    rewrite (log_call _ s Hstep).
    split; [split; [|split]|reflexivity];
      [|unfold resubscribing in *; lia|lia].
    rewrite Hm. cbn [step_change call_change].
    destruct (promise s SubscribeM n) as [[|[[ |sock|d|events callback response]|r]]|];
      cbn [change_registry]; try exact Hl.
    rewrite RegistryFacts.unlisten_absent; [exact Hl|].
    apply (RegistryFacts.occurrences_absent MessageCallback_same MessageCallback_same_spec).
    intros Hin.
    assert (Hf : In (SubscriptionListener n events callback)
                    (subscription_listeners n (_onMessageCallbacks s))).
    { apply filter_In. split; [exact Hin|]. cbn. apply Nat.eqb_refl. }
    rewrite Hl in Hf. exact Hf.
  - destruct (subscription_step lab Hs Hstep Hlab) as [Hs' Hd].
    split; [exact Hs'|]. rewrite Hd.
    destruct lab as [op| |[k ok|i|i e|i|i]]; cbn; now rewrite app_nil_r.
Qed.

Lemma subscription_gone_run (n : nat) :
  forall ls s s',
    subscription n [] s ->
    run s ls = Some s' ->
    subscription n [] s' /\ delivered n (log s') = delivered n (log s).
Proof.
  induction ls as [|lab ls IH]; intros s s' Hs Hrun; cbn [run] in Hrun.
  - injection Hrun as <-. now split.
  - destruct (step s lab) as [s1|] eqn:Hstep; [|discriminate].
    destruct (subscription_gone_step lab Hs Hstep) as [Hs1 Hd1].
    destruct (IH s1 s' Hs1 Hrun) as [Hs' Hd'].
    split; [exact Hs'|]. now rewrite Hd', Hd1.
Qed.

(** The closure removes the subscription's one listener. *)
Lemma subscription_unlisten (n : nat) (events : list string) (callback : nat)
      (response : JsValue) (s s' : Client) :
  subscription n [SubscriptionListener n events callback] s ->
  promise s SubscribeM n = Some (Settled (Fulfilled (VUnlistenFn events callback response))) ->
  step s (Call (InvokeUnlistenFn n)) = Some s' ->
  subscription n [] s' /\ log s' = log s /\ sockets s' = sockets s.
Proof.
  intros (Hl & Hz & Hn) Hp Hstep.
  pose proof (next_call_step_le SubscribeM _ s Hstep) as Hle.
  pose proof (messages_step _ s Hstep) as Hm.
  cbn [step] in Hstep.
  pose proof (pending_call (resubscribes n) _ s Hstep) as Hpe.
  rewrite resubscribes_call_conts in Hpe by exact Hn.
  split; [|split; [exact (log_call _ s Hstep)|]].
  - split; [|split]; [|unfold resubscribing in *; lia|lia].
    rewrite Hm. cbn [step_change call_change]. rewrite Hp. cbn [change_registry].
    set (L := SubscriptionListener n events callback) in *.
    assert (Hocc : Registry.occurrences MessageCallback_same L (_onMessageCallbacks s) <= 1).
    { clear - Hl. revert Hl. unfold subscription_listeners.
      generalize (_onMessageCallbacks s) as l.
      assert (Hgen : forall l acc,
                 filter (is_subscription n) l = acc ->
                 Registry.occurrences MessageCallback_same L l <= List.length acc).
      { induction l as [|x xs IH]; intros acc Hacc; cbn; [lia|].
        cbn [filter] in Hacc.
        destruct (MessageCallback_same x L) eqn:E.
        - apply MessageCallback_same_spec in E. subst x.
          unfold L in Hacc at 1. cbn [is_subscription] in Hacc.
          rewrite Nat.eqb_refl in Hacc. subst acc. cbn [List.length].
          specialize (IH _ eq_refl). lia.
        - destruct (is_subscription n x).
          + subst acc. cbn [List.length]. specialize (IH _ eq_refl). lia.
          + specialize (IH _ Hacc). lia. }
      intros l Hl. specialize (Hgen l _ Hl). cbn in Hgen. exact Hgen. }
    destruct (RegistryFacts.unlisten_once MessageCallback_same L _ Hocc) as [Heq Hzero].
    unfold subscription_listeners.
    destruct (filter (is_subscription n)
                (Registry.unlisten MessageCallback_same L (_onMessageCallbacks s)))
      as [|x rest] eqn:Ef; [reflexivity|].
    exfalso.
    assert (Hx : In x (filter (is_subscription n)
                         (Registry.unlisten MessageCallback_same L (_onMessageCallbacks s))))
      by (rewrite Ef; now left).
    apply filter_In in Hx. destruct Hx as [Hin Hsub].
    assert (Hx' : In x (subscription_listeners n (_onMessageCallbacks s))).
    { apply filter_In. split; [|exact Hsub].
      rewrite Heq in Hin. clear - Hin.
      induction (_onMessageCallbacks s) as [|y ys IH]; cbn in *; [exact Hin|].
      destruct (MessageCallback_same y L); [now right|].
      destruct Hin as [->|Hin]; [now left | right; auto]. }
    rewrite Hl in Hx'. destruct Hx' as [<-|[]].
    apply (RegistryFacts.occurrences_absent MessageCallback_same MessageCallback_same_spec) in Hzero.
    contradiction.
  - unfold call in Hstep. rewrite Hp in Hstep. injection Hstep as <-.
    apply sockets_unlistenFn.
Qed.

(* ================================================================== *)
(** * The promises of the other calls *)
(* ================================================================== *)

(** The cell of call [n] of [m]. *)
Lemma cell_set_heap (m m' : Method) (v : list Cell) (n : nat) (s : Client) :
  nth_error (heap (set_heap m v s) m') n
  = if Method_eqb m m' then nth_error v n else nth_error (heap s m') n.
Proof. cbn. destruct (Method_eqb m m'); reflexivity. Qed.

Lemma cell_update_cell (m m' : Method) (n n' : nat) (f : Cell -> Cell) (s : Client) :
  nth_error (heap (update_cell m n f s) m') n'
  = if Method_eqb m m' && Nat.eqb n n'
    then option_map f (nth_error (heap s m) n)
    else nth_error (heap s m') n'.
Proof.
  unfold update_cell. rewrite cell_set_heap.
  destruct (Method_eqb m m') eqn:Em; cbn [andb]; [|reflexivity].
  apply Method_eqb_spec in Em. subst m'.
  destruct (Nat.eqb_spec n n') as [->|Hne].
  - apply nth_error_update_nth_eq.
  - now apply nth_error_update_nth_neq.
Qed.

Lemma cell_alloc (m m' : Method) (n : nat) (s : Client) :
  nth_error (heap (alloc m s) m') n
  = if Method_eqb m m' && Nat.eqb n (next_call m s)
    then Some fresh_cell
    else nth_error (heap s m') n.
Proof.
  unfold alloc. rewrite cell_set_heap.
  destruct (Method_eqb m m') eqn:Em; cbn [andb]; [|reflexivity].
  apply Method_eqb_spec in Em. subst m'. unfold next_call.
  destruct (Nat.eqb_spec n (List.length (heap s m))) as [->|Hne].
  - rewrite nth_error_app2, Nat.sub_diag by lia. reflexivity.
  - destruct (Nat.lt_ge_cases n (List.length (heap s m))).
    + now rewrite nth_error_app1.
    + rewrite (proj2 (nth_error_None _ _)) by (rewrite length_app; cbn; lia).
      symmetry. apply nth_error_None. lia.
Qed.

Lemma promise_settle (m m' : Method) (n n' : nat) (o : Outcome) (s : Client) :
  promise (settle m n o s) m' n'
  = if Method_eqb m m' && Nat.eqb n n'
    then match promise s m n with
         | Some Pending => Some (Settled o)
         | other => other
         end
    else promise s m' n'.
Proof.
  unfold settle, promise.
  destruct (nth_error (heap s m) n) as [[i [|o'] ks]|] eqn:E.
  - change (heap (set_microtasks ?q ?s0)) with (heap s0).
    rewrite cell_update_cell, E.
    destruct (Method_eqb m m' && Nat.eqb n n'); reflexivity.
  - destruct (Method_eqb m m' && Nat.eqb n n') eqn:Eb; [|reflexivity].
    apply andb_true_iff in Eb. destruct Eb as [Em En].
    apply Method_eqb_spec in Em. apply Nat.eqb_eq in En. subst. now rewrite E.
  - destruct (Method_eqb m m' && Nat.eqb n n') eqn:Eb; [|reflexivity].
    apply andb_true_iff in Eb. destruct Eb as [Em En].
    apply Method_eqb_spec in Em. apply Nat.eqb_eq in En. subst. now rewrite E.
Qed.

Lemma cell_unchanged_same (m m' : Method) (n n' : nat) (c c' : Cell) (s : Client)
      (F : Cell -> Status) :
  nth_error (heap s m) n = Some c ->
  F c' = F c ->
  option_map F (nth_error (heap (update_cell m n (fun _ => c') s) m') n')
  = option_map F (nth_error (heap s m') n').
Proof.
  intros E HF. rewrite cell_update_cell.
  destruct (Method_eqb m m' && Nat.eqb n n') eqn:Eb; [|reflexivity].
  apply andb_true_iff in Eb. destruct Eb as [Em En].
  apply Method_eqb_spec in Em. apply Nat.eqb_eq in En. subst.
  rewrite E. cbn. now rewrite HF.
Qed.

Lemma promise_await (m m' : Method) (n n' : nat) (k : Cont) (s : Client) :
  promise (await m n k s) m' n' = promise s m' n'.
Proof.
  unfold await, promise.
  destruct (nth_error (heap s m) n) as [[i [|o'] ks]|] eqn:E; try reflexivity.
  now apply cell_unchanged_same with (c := mkCell i Pending ks).
Qed.

Lemma promise_settle_reply (m' : Method) (n n' : nat) (message : string) (o : Outcome)
      (s : Client) :
  promise (settle_reply n message o s) m' n' = promise s m' n'.
Proof.
  unfold settle_reply, promise.
  destruct (nth_error (heap s ReplyM) n) as [[[|o'] r ks]|] eqn:E; try reflexivity.
  change (heap (enqueue ?j ?s0)) with (heap s0).
  now apply cell_unchanged_same with (c := mkCell Pending r ks).
Qed.

Lemma promise_settle_wait (m' : Method) (n n' : nat) (o : Outcome) (s : Client) :
  promise (settle_wait n o s) m' n' = promise s m' n'.
Proof.
  unfold settle_wait, promise.
  destruct (nth_error (heap s WaitM) n) as [[[|o'] r ks]|] eqn:E; try reflexivity.
  change (heap (enqueue ?j ?s0)) with (heap s0).
  now apply cell_unchanged_same with (c := mkCell Pending r ks).
Qed.

Lemma promise_alloc (m m' : Method) (n : nat) (s : Client) :
  promise (alloc m s) m' n
  = if Method_eqb m m' && Nat.eqb n (next_call m s)
    then Some Pending
    else promise s m' n.
Proof.
  unfold promise. rewrite cell_alloc.
  destruct (Method_eqb m m' && Nat.eqb n (next_call m s)); reflexivity.
Qed.

Lemma inner_settle (m m' : Method) (n n' : nat) (o : Outcome) (s : Client) :
  inner_promise (settle m n o s) m' n' = inner_promise s m' n'.
Proof.
  unfold settle, inner_promise.
  destruct (nth_error (heap s m) n) as [[i [|o'] ks]|] eqn:E; try reflexivity.
  change (heap (set_microtasks ?q ?s0)) with (heap s0).
  now apply cell_unchanged_same with (c := mkCell i Pending ks).
Qed.

Lemma inner_await (m m' : Method) (n n' : nat) (k : Cont) (s : Client) :
  inner_promise (await m n k s) m' n' = inner_promise s m' n'.
Proof.
  unfold await, inner_promise.
  destruct (nth_error (heap s m) n) as [[i [|o'] ks]|] eqn:E; try reflexivity.
  now apply cell_unchanged_same with (c := mkCell i Pending ks).
Qed.

Lemma inner_alloc (m m' : Method) (n : nat) (s : Client) :
  inner_promise (alloc m s) m' n
  = if Method_eqb m m' && Nat.eqb n (next_call m s)
    then Some Pending
    else inner_promise s m' n.
Proof.
  unfold inner_promise. rewrite cell_alloc.
  destruct (Method_eqb m m' && Nat.eqb n (next_call m s)); reflexivity.
Qed.

Lemma inner_settle_reply (m' : Method) (n n' : nat) (message : string) (o : Outcome)
      (s : Client) :
  inner_promise (settle_reply n message o s) m' n'
  = if Method_eqb ReplyM m' && Nat.eqb n n'
    then match inner_promise s ReplyM n with
         | Some Pending => Some (Settled o)
         | other => other
         end
    else inner_promise s m' n'.
Proof.
  unfold settle_reply, inner_promise.
  destruct (nth_error (heap s ReplyM) n) as [[[|o'] r ks]|] eqn:E.
  - change (heap (enqueue ?j ?s0)) with (heap s0).
    rewrite cell_update_cell, E.
    destruct (Method_eqb ReplyM m' && Nat.eqb n n'); reflexivity.
  - destruct (Method_eqb ReplyM m' && Nat.eqb n n') eqn:Eb; [|reflexivity].
    apply andb_true_iff in Eb. destruct Eb as [Em En].
    apply Method_eqb_spec in Em. apply Nat.eqb_eq in En. subst. now rewrite E.
  - destruct (Method_eqb ReplyM m' && Nat.eqb n n') eqn:Eb; [|reflexivity].
    apply andb_true_iff in Eb. destruct Eb as [Em En].
    apply Method_eqb_spec in Em. apply Nat.eqb_eq in En. subst. now rewrite E.
Qed.

Lemma inner_settle_wait (m' : Method) (n n' : nat) (o : Outcome) (s : Client) :
  inner_promise (settle_wait n o s) m' n'
  = if Method_eqb WaitM m' && Nat.eqb n n'
    then match inner_promise s WaitM n with
         | Some Pending => Some (Settled o)
         | other => other
         end
    else inner_promise s m' n'.
Proof.
  unfold settle_wait, inner_promise.
  destruct (nth_error (heap s WaitM) n) as [[[|o'] r ks]|] eqn:E.
  - change (heap (enqueue ?j ?s0)) with (heap s0).
    rewrite cell_update_cell, E.
    destruct (Method_eqb WaitM m' && Nat.eqb n n'); reflexivity.
  - destruct (Method_eqb WaitM m' && Nat.eqb n n') eqn:Eb; [|reflexivity].
    apply andb_true_iff in Eb. destruct Eb as [Em En].
    apply Method_eqb_spec in Em. apply Nat.eqb_eq in En. subst. now rewrite E.
  - destruct (Method_eqb WaitM m' && Nat.eqb n n') eqn:Eb; [|reflexivity].
    apply andb_true_iff in Eb. destruct Eb as [Em En].
    apply Method_eqb_spec in Em. apply Nat.eqb_eq in En. subst. now rewrite E.
Qed.

Lemma promise_defined (s : Client) (m : Method) (n : nat) :
  promise s m n <> None <-> n < next_call m s.
Proof.
  unfold promise, next_call. rewrite <- nth_error_Some.
  destruct (nth_error (heap s m) n); cbn; split; congruence.
Qed.

Lemma inner_promise_defined (s : Client) (m : Method) (n : nat) :
  inner_promise s m n <> None <-> n < next_call m s.
Proof.
  unfold inner_promise, next_call. rewrite <- nth_error_Some.
  destruct (nth_error (heap s m) n); cbn; split; congruence.
Qed.

Create Rewrite HintDb heap.
#[export] Hint Rewrite promise_settle promise_await promise_settle_reply promise_settle_wait
  promise_alloc inner_settle inner_await inner_alloc inner_settle_reply inner_settle_wait
  : heap.

Lemma promise_enqueue (m : Method) (n : nat) (j : Job) (s : Client) :
  promise (enqueue j s) m n = promise s m n.
Proof. reflexivity. Qed.

Lemma inner_enqueue (m : Method) (n : nat) (j : Job) (s : Client) :
  inner_promise (enqueue j s) m n = inner_promise s m n.
Proof. reflexivity. Qed.

Lemma promise_emit (m : Method) (n : nat) (o : Obs) (s : Client) :
  promise (emit o s) m n = promise s m n.
Proof. reflexivity. Qed.

Lemma inner_emit (m : Method) (n : nat) (o : Obs) (s : Client) :
  inner_promise (emit o s) m n = inner_promise s m n.
Proof. reflexivity. Qed.

Lemma promise_register_message (m : Method) (n : nat) (c : MessageCallback) (s : Client) :
  promise (register_message c s) m n = promise s m n.
Proof. reflexivity. Qed.

Lemma inner_register_message (m : Method) (n : nat) (c : MessageCallback) (s : Client) :
  inner_promise (register_message c s) m n = inner_promise s m n.
Proof. reflexivity. Qed.

Lemma promise_unlisten_message (m : Method) (n : nat) (c : MessageCallback) (s : Client) :
  promise (unlisten_message c s) m n = promise s m n.
Proof. reflexivity. Qed.

Lemma inner_unlisten_message (m : Method) (n : nat) (c : MessageCallback) (s : Client) :
  inner_promise (unlisten_message c s) m n = inner_promise s m n.
Proof. reflexivity. Qed.

Lemma promise_register_connect (m : Method) (n : nat) (c : ConnectCallback) (s : Client) :
  promise (register_connect c s) m n = promise s m n.
Proof. reflexivity. Qed.

Lemma inner_register_connect (m : Method) (n : nat) (c : ConnectCallback) (s : Client) :
  inner_promise (register_connect c s) m n = inner_promise s m n.
Proof. reflexivity. Qed.

Lemma promise_unlisten_connect (m : Method) (n : nat) (c : ConnectCallback) (s : Client) :
  promise (unlisten_connect c s) m n = promise s m n.
Proof. reflexivity. Qed.

Lemma inner_unlisten_connect (m : Method) (n : nat) (c : ConnectCallback) (s : Client) :
  inner_promise (unlisten_connect c s) m n = inner_promise s m n.
Proof. reflexivity. Qed.

Lemma promise_register_disconnect (m : Method) (n : nat) (c : nat) (s : Client) :
  promise (register_disconnect c s) m n = promise s m n.
Proof. reflexivity. Qed.

Lemma inner_register_disconnect (m : Method) (n : nat) (c : nat) (s : Client) :
  inner_promise (register_disconnect c s) m n = inner_promise s m n.
Proof. reflexivity. Qed.

Lemma promise_unlisten_disconnect (m : Method) (n : nat) (c : nat) (s : Client) :
  promise (unlisten_disconnect c s) m n = promise s m n.
Proof. reflexivity. Qed.

Lemma inner_unlisten_disconnect (m : Method) (n : nat) (c : nat) (s : Client) :
  inner_promise (unlisten_disconnect c s) m n = inner_promise s m n.
Proof. reflexivity. Qed.

Lemma promise_register_error (m : Method) (n : nat) (c : nat) (s : Client) :
  promise (register_error c s) m n = promise s m n.
Proof. reflexivity. Qed.

Lemma inner_register_error (m : Method) (n : nat) (c : nat) (s : Client) :
  inner_promise (register_error c s) m n = inner_promise s m n.
Proof. reflexivity. Qed.

Lemma promise_unlisten_error (m : Method) (n : nat) (c : nat) (s : Client) :
  promise (unlisten_error c s) m n = promise s m n.
Proof. reflexivity. Qed.

Lemma inner_unlisten_error (m : Method) (n : nat) (c : nat) (s : Client) :
  inner_promise (unlisten_error c s) m n = inner_promise s m n.
Proof. reflexivity. Qed.

Lemma promise_set_socket (m : Method) (n : nat) (v : option nat) (s : Client) :
  promise (set_socket v s) m n = promise s m n.
Proof. reflexivity. Qed.

Lemma inner_set_socket (m : Method) (n : nat) (v : option nat) (s : Client) :
  inner_promise (set_socket v s) m n = inner_promise s m n.
Proof. reflexivity. Qed.

Lemma promise_set_createSocketPromise (m : Method) (n : nat) (v : option nat) (s : Client) :
  promise (set_createSocketPromise v s) m n = promise s m n.
Proof. reflexivity. Qed.

Lemma inner_set_createSocketPromise (m : Method) (n : nat) (v : option nat) (s : Client) :
  inner_promise (set_createSocketPromise v s) m n = inner_promise s m n.
Proof. reflexivity. Qed.

Lemma promise_set_sockets (m : Method) (n : nat) (v : list WebSocket) (s : Client) :
  promise (set_sockets v s) m n = promise s m n.
Proof. reflexivity. Qed.

Lemma inner_set_sockets (m : Method) (n : nat) (v : list WebSocket) (s : Client) :
  inner_promise (set_sockets v s) m n = inner_promise s m n.
Proof. reflexivity. Qed.

Lemma promise_set_importing (m : Method) (n : nat) (v : list nat) (s : Client) :
  promise (set_importing v s) m n = promise s m n.
Proof. reflexivity. Qed.

Lemma inner_set_importing (m : Method) (n : nat) (v : list nat) (s : Client) :
  inner_promise (set_importing v s) m n = inner_promise s m n.
Proof. reflexivity. Qed.

Lemma promise_set_microtasks (m : Method) (n : nat) (v : list Job) (s : Client) :
  promise (set_microtasks v s) m n = promise s m n.
Proof. reflexivity. Qed.

Lemma inner_set_microtasks (m : Method) (n : nat) (v : list Job) (s : Client) :
  inner_promise (set_microtasks v s) m n = inner_promise s m n.
Proof. reflexivity. Qed.

Lemma promise_set_log (m : Method) (n : nat) (v : list Obs) (s : Client) :
  promise (set_log v s) m n = promise s m n.
Proof. reflexivity. Qed.

Lemma inner_set_log (m : Method) (n : nat) (v : list Obs) (s : Client) :
  inner_promise (set_log v s) m n = inner_promise s m n.
Proof. reflexivity. Qed.

Lemma promise_set_readyState (m : Method) (n : nat) (i : nat) (r : ReadyState) (s : Client) :
  promise (set_readyState i r s) m n = promise s m n.
Proof. reflexivity. Qed.

Lemma inner_set_readyState (m : Method) (n : nat) (i : nat) (r : ReadyState) (s : Client) :
  inner_promise (set_readyState i r s) m n = inner_promise s m n.
Proof. reflexivity. Qed.

Lemma promise_closeConnection (m : Method) (n : nat)  (s : Client) :
  promise (closeConnection s) m n = promise s m n.
Proof. unfold closeConnection; destruct (_socket s); reflexivity. Qed.

Lemma inner_closeConnection (m : Method) (n : nat)  (s : Client) :
  inner_promise (closeConnection s) m n = inner_promise s m n.
Proof. unfold closeConnection; destruct (_socket s); reflexivity. Qed.

#[export] Hint Rewrite
  promise_enqueue
  inner_enqueue
  promise_emit
  inner_emit
  promise_register_message
  inner_register_message
  promise_unlisten_message
  inner_unlisten_message
  promise_register_connect
  inner_register_connect
  promise_unlisten_connect
  inner_unlisten_connect
  promise_register_disconnect
  inner_register_disconnect
  promise_unlisten_disconnect
  inner_unlisten_disconnect
  promise_register_error
  inner_register_error
  promise_unlisten_error
  inner_unlisten_error
  promise_set_socket
  inner_set_socket
  promise_set_createSocketPromise
  inner_set_createSocketPromise
  promise_set_sockets
  inner_set_sockets
  promise_set_importing
  inner_set_importing
  promise_set_microtasks
  inner_set_microtasks
  promise_set_log
  inner_set_log
  promise_set_readyState
  inner_set_readyState
  promise_closeConnection
  inner_closeConnection
  : heap.

(* ================================================================== *)
(** * What a step does to the promise of a call *)
(* ================================================================== *)

(** Rewrite the promises through the operations, and decide the tests on
    call numbers with the bounds at hand. *)
Ltac heap_simpl :=
  repeat (progress (autorewrite with heap frame; fields));
  repeat match goal with
         | |- context [next_call ?m (alloc ?m' ?s)] =>
             change (next_call m (alloc m' s)) with (next_call m s)
         end.

Ltac decide_tests :=
  repeat match goal with
         | |- context [Nat.eqb ?a ?b] =>
             first [ rewrite (proj2 (Nat.eqb_neq a b)) by lia
                   | rewrite (proj2 (Nat.eqb_eq a b)) by lia ]
         end;
  rewrite ?andb_false_r, ?andb_true_r; cbn [andb].

Ltac old_promise m :=
  heap_simpl; destruct m; cbn [Method_eqb andb]; decide_tests; try reflexivity.

Lemma promise__createSocket (m : Method) (n : nat) (s : Client) :
  n < next_call m s -> promise (_createSocket s) m n = promise s m n.
Proof. intros H. unfold _createSocket. split_matches; old_promise m. Qed.

Lemma promise__waitForConnection (m : Method) (n : nat) (s : Client) :
  n < next_call m s -> promise (_waitForConnection s) m n = promise s m n.
Proof. intros H. unfold _waitForConnection. split_matches; old_promise m. Qed.

Lemma promise_connect (m : Method) (n : nat) (s : Client) :
  n < next_call m s -> promise (connect s) m n = promise s m n.
Proof.
  intros H. unfold connect. fields.
  assert (H1 : n < next_call m (alloc ConnectM s))
    by (eapply Nat.lt_le_trans; [exact H | apply next_call_alloc_le]).
  destruct (_socket s); [|destruct (_createSocketPromise s)].
  - rewrite promise_await, promise__waitForConnection by exact H1. old_promise m.
  - old_promise m.
  - rewrite promise_await. change (promise (set_createSocketPromise ?v ?s0)) with (promise s0).
    rewrite promise__createSocket by exact H1. old_promise m.
Qed.

Lemma promise_sendAndWaitReply (m : Method) (n : nat) (message : string) (s : Client) :
  n < next_call m s -> promise (sendAndWaitReply message s) m n = promise s m n.
Proof.
  intros H. unfold sendAndWaitReply.
  assert (H1 : n < next_call m (alloc ReplyM s))
    by (eapply Nat.lt_le_trans; [exact H | apply next_call_alloc_le]).
  rewrite promise_await, promise_connect by exact H1. old_promise m.
Qed.

Lemma promise_runCommand (m : Method) (n : nat) (command : string)
      (ctx : option ContextContainer) (s : Client) :
  n < next_call m s -> promise (runCommand command ctx s) m n = promise s m n.
Proof.
  intros H. unfold runCommand.
  assert (H1 : n < next_call m (alloc CommandM s))
    by (eapply Nat.lt_le_trans; [exact H | apply next_call_alloc_le]).
  rewrite promise_await, promise_sendAndWaitReply by exact H1. old_promise m.
Qed.

Lemma promise_subscribeMany (m : Method) (n : nat) (events : list string)
      (callback : nat) (s : Client) :
  n < next_call m s -> promise (subscribeMany events callback s) m n = promise s m n.
Proof.
  intros H. unfold subscribeMany.
  assert (H1 : n < next_call m (alloc SubscribeM s))
    by (eapply Nat.lt_le_trans; [exact H | apply next_call_alloc_le]).
  rewrite promise_await, promise_sendAndWaitReply by exact H1. old_promise m.
Qed.

Lemma promise_unlistenFn (m : Method) (n : nat) (sub : nat) (events : list string)
      (callback : nat) (response : JsValue) (s : Client) :
  n < next_call m s ->
  promise (unlistenFn sub events callback response s) m n = promise s m n.
Proof.
  intros H. unfold unlistenFn.
  assert (H1 : n < next_call m (unlisten_message (SubscriptionListener sub events callback)
                                  (alloc UnlistenM s)))
    by (rewrite next_call_unlisten_message;
        eapply Nat.lt_le_trans; [exact H | apply next_call_alloc_le]).
  destruct response as [[]|];
    try (rewrite promise_await, promise_sendAndWaitReply by exact H1);
    old_promise m.
Qed.

(** A call of the caller settles no promise made before it. *)
Lemma promise_call (m : Method) (n : nat) (op : Op) (s s' : Client) :
  call op s = Some s' -> n < next_call m s -> promise s' m n = promise s m n.
Proof.
  destruct op as [ | | |message|query|command ctx|event callback|events callback
                  |sub|f|f|f|f|f|f|f|f]; cbn [call];
    try (destruct (promise s SubscribeM sub) as [[|[[]|]]|]; try discriminate);
    intros H Hn; injection H as <-.
  - now apply promise_connect.
  - apply promise_closeConnection.
  - now apply promise__waitForConnection.
  - now apply promise_sendAndWaitReply.
  - now apply promise_sendAndWaitReply.
  - now apply promise_runCommand.
  - now apply promise_subscribeMany.
  - now apply promise_subscribeMany.
  - now apply promise_unlistenFn.
  - reflexivity.
  - reflexivity.
  - reflexivity.
  - reflexivity.
  - reflexivity.
  - reflexivity.
  - reflexivity.
  - reflexivity.
Qed.

Lemma promise_handler (m : Method) (n : nat) (A : Type)
      (invoke : A -> Client -> Completion) (l : list A) (s : Client) :
  (forall cb s, promise (state_of (invoke cb s)) m n = promise s m n) ->
  promise (handled (forEach invoke l s)) m n = promise s m n.
Proof.
  intros Hinv.
  apply (@handled_preserves (fun s' => promise s' m n = promise s m n)).
  - intros r s1 H. exact H.
  - apply (@forEach_preserves _ invoke (fun s' => promise s' m n = promise s m n));
      [|reflexivity].
    intros cb s1 H. now rewrite Hinv.
Qed.

Lemma promise_invoke_message (m : Method) (n : nat) (e : MessageEvent)
      (cb : MessageCallback) (s : Client) :
  promise (state_of (invoke_message e cb s)) m n = promise s m n.
Proof.
  destruct cb as [c message|c events callback|f]; cbn [invoke_message].
  - unfold reply_listener.
    destruct e as [[]|]; cbn [state_of]; try reflexivity;
      repeat match goal with
             | |- context [if ?b then _ else _] => destruct b
             end;
      rewrite ?promise_settle_reply; reflexivity.
  - unfold subscription_listener.
    destruct e as [[]|]; cbn [state_of]; try reflexivity;
      repeat match goal with
             | |- context [if ?b then _ else _] => destruct b
             end; reflexivity.
  - reflexivity.
Qed.

(** An event of the socket settles no promise a call returned: it settles
    the promises the calls built, and the rest follows in microtasks. *)
Lemma promise_deliver (m : Method) (n : nat) (ev : Event) (s s' : Client) :
  deliver ev s = Some s' -> promise s' m n = promise s m n.
Proof.
  destruct ev as [k ok|i|i e|i|i]; cbn [deliver].
  - destruct (existsb (Nat.eqb k) (importing s)); [|discriminate].
    intros H. injection H as <-. reflexivity.
  - destruct (ready s i) as [[]|]; try discriminate.
    intros H. injection H as <-. unfold onopen. rewrite promise_handler; [reflexivity|].
    intros [w|f] s1; cbn [invoke_connect state_of];
      [apply promise_settle_wait | reflexivity].
  - destruct (ready s i) as [[]|]; try discriminate;
      intros H; injection H as <-; unfold onmessage;
      apply promise_handler; intros; apply promise_invoke_message.
  - destruct (ready s i) as [[]|]; try discriminate;
      intros H; injection H as <-; unfold onerror;
      (rewrite promise_handler; [reflexivity|]); intros; reflexivity.
  - destruct (ready s i) as [[]|]; try discriminate;
      intros H; injection H as <-; unfold onclose;
      (rewrite promise_handler; [reflexivity|]); intros; reflexivity.
Qed.

(** A microtask settles the promise of the call it belongs to, if any, and
    no other promise made before it. *)
Lemma promise_run_job (m : Method) (n : nat) (j : Job) (s : Client) :
  n < next_call m s ->
  job_targets j m n = false ->
  promise (run_job j s) m n = promise s m n.
Proof.
  intros Hn Hj.
  destruct j as [[c|c|c message|c events callback|c|c] [v|r] | c [] | c message o | c o];
    cbn [run_job resume pass subscribeMany_replied _createSocket_resume];
    cbn [job_targets job_settles] in Hj.
  all: try (heap_simpl; rewrite Hj; reflexivity).
  - rewrite promise_await, promise__waitForConnection by exact Hn. reflexivity.
  - unfold sendAndWaitReply_connected. split_matches; reflexivity.
  - unfold sendAndWaitReply_connected. split_matches; reflexivity.
Qed.

Lemma promise_run_job_target (m : Method) (n : nat) (o : Outcome) (j : Job) (s : Client) :
  job_settles j = Some (m, n, o) ->
  promise (run_job j s) m n
  = match promise s m n with
    | Some Pending => Some (Settled o)
    | other => other
    end.
Proof.
  intros Hj.
  destruct j as [[c|c|c message|c events callback|c|c] [v|r] | c [] | c message o' | c o'];
    cbn [job_settles] in Hj; try discriminate; injection Hj as <- <- <-;
    cbn [run_job resume pass subscribeMany_replied _createSocket_resume];
    heap_simpl; cbn [Method_eqb andb]; rewrite Nat.eqb_refl; reflexivity.
Qed.

Unset Implicit Arguments.

(* ================================================================== *)
(** * How the microtask queue grows *)
(* ================================================================== *)

Section QueueGrows.

Variable ok : Job -> bool.

Lemma queue_grows_refl (s : Client) : queue_grows ok s s.
Proof. exists []. split; [now rewrite app_nil_r | reflexivity]. Qed.

Lemma queue_grows_trans (s1 s2 s3 : Client) :
  queue_grows ok s1 s2 -> queue_grows ok s2 s3 -> queue_grows ok s1 s3.
Proof.
  intros (a & Ha & Hoka) (b & Hb & Hokb). exists (a ++ b). split.
  - now rewrite Hb, Ha, app_assoc.
  - now rewrite forallb_app, Hoka, Hokb.
Qed.

Lemma queue_grows_same (s s' : Client) :
  microtasks s' = microtasks s -> queue_grows ok s s'.
Proof. intros H. exists []. split; [now rewrite app_nil_r | reflexivity]. Qed.

Lemma queue_grows_enqueue (j : Job) (s : Client) :
  ok j = true -> queue_grows ok s (enqueue j s).
Proof. intros H. exists [j]. split; [reflexivity | cbn; now rewrite H]. Qed.

Lemma queue_grows_settle (m : Method) (n : nat) (o : Outcome) (s : Client) :
  (forall k, ok (JAwaited k o) = true) -> queue_grows ok s (settle m n o s).
Proof.
  intros Hok. unfold settle.
  destruct (nth_error (heap s m) n) as [[i [|o'] ks]|]; try apply queue_grows_refl.
  exists (map (fun k => JAwaited k o) ks). split; [reflexivity|].
  apply forallb_forall. intros j Hj. apply in_map_iff in Hj.
  destruct Hj as (k & <- & _). apply Hok.
Qed.

Lemma queue_grows_await (m : Method) (n : nat) (k : Cont) (s : Client) :
  (forall o, ok (JAwaited k o) = true) -> queue_grows ok s (await m n k s).
Proof.
  intros Hok. unfold await.
  destruct (nth_error (heap s m) n) as [[i [|o'] ks]|]; try apply queue_grows_refl.
  - apply queue_grows_same. reflexivity.
  - apply queue_grows_enqueue, Hok.
Qed.

End QueueGrows.

Ltac queue_step :=
  cbv zeta;
  lazymatch goal with
  | |- queue_grows _ ?s ?s => apply queue_grows_refl
  | |- queue_grows _ ?s (settle _ _ _ _) =>
      eapply queue_grows_trans; [|apply queue_grows_settle; intros; reflexivity]
  | |- queue_grows _ ?s (await _ _ _ _) =>
      eapply queue_grows_trans; [|apply queue_grows_await; intros; reflexivity]
  | |- queue_grows _ ?s (enqueue _ _) =>
      eapply queue_grows_trans; [|apply queue_grows_enqueue; reflexivity]
  | |- queue_grows _ ?s (alloc _ ?s1) =>
      apply queue_grows_trans with s1; [|apply queue_grows_same; reflexivity]
  | |- queue_grows _ ?s (emit _ ?s1) =>
      apply queue_grows_trans with s1; [|apply queue_grows_same; reflexivity]
  | |- queue_grows _ ?s (register_message _ ?s1) =>
      apply queue_grows_trans with s1; [|apply queue_grows_same; reflexivity]
  | |- queue_grows _ ?s (unlisten_message _ ?s1) =>
      apply queue_grows_trans with s1; [|apply queue_grows_same; reflexivity]
  | |- queue_grows _ ?s (register_connect _ ?s1) =>
      apply queue_grows_trans with s1; [|apply queue_grows_same; reflexivity]
  | |- queue_grows _ ?s (unlisten_connect _ ?s1) =>
      apply queue_grows_trans with s1; [|apply queue_grows_same; reflexivity]
  | |- queue_grows _ ?s (set_socket _ ?s1) =>
      apply queue_grows_trans with s1; [|apply queue_grows_same; reflexivity]
  | |- queue_grows _ ?s (set_sockets _ ?s1) =>
      apply queue_grows_trans with s1; [|apply queue_grows_same; reflexivity]
  | |- queue_grows _ ?s (set_createSocketPromise _ ?s1) =>
      apply queue_grows_trans with s1; [|apply queue_grows_same; reflexivity]
  | |- queue_grows _ ?s (set_importing _ ?s1) =>
      apply queue_grows_trans with s1; [|apply queue_grows_same; reflexivity]
  end.

Ltac queue_steps := repeat queue_step.

Lemma queue__createSocket (s : Client) :
  queue_grows is_awaited_or_create s (_createSocket s).
Proof.
  unfold _createSocket. destruct (hasGlobalWebSocket (alloc CreateSocketM s)).
  - queue_steps.
  - queue_steps.
Qed.

Lemma queue__waitForConnection (ok : Job -> bool) (s : Client) :
  (forall k o, ok (JAwaited k o) = true) ->
  queue_grows ok s (_waitForConnection s).
Proof.
  intros Hok. unfold _waitForConnection.
  destruct (socket_is_open (alloc WaitM s)).
  - eapply queue_grows_trans; [|apply queue_grows_settle; intros; apply Hok].
    apply queue_grows_same. reflexivity.
  - apply queue_grows_same. reflexivity.
Qed.

Lemma queue_connect (s : Client) : queue_grows is_awaited_or_create s (connect s).
Proof.
  unfold connect. fields.
  destruct (_socket s); [|destruct (_createSocketPromise s)].
  - queue_step. eapply queue_grows_trans; [|apply queue__waitForConnection; reflexivity].
    queue_steps.
  - queue_steps.
  - queue_step. queue_step.
    eapply queue_grows_trans; [|apply queue__createSocket]. queue_steps.
Qed.

Lemma queue_sendAndWaitReply (message : string) (s : Client) :
  queue_grows is_awaited_or_create s (sendAndWaitReply message s).
Proof.
  unfold sendAndWaitReply. queue_step.
  eapply queue_grows_trans; [|apply queue_connect]. queue_steps.
Qed.

Lemma queue_runCommand (command : string) (ctx : option ContextContainer) (s : Client) :
  queue_grows is_awaited_or_create s (runCommand command ctx s).
Proof.
  unfold runCommand. queue_step.
  eapply queue_grows_trans; [|apply queue_sendAndWaitReply]. queue_steps.
Qed.

Lemma queue_subscribeMany (events : list string) (callback : nat) (s : Client) :
  queue_grows is_awaited_or_create s (subscribeMany events callback s).
Proof.
  unfold subscribeMany. queue_step.
  eapply queue_grows_trans; [|apply queue_sendAndWaitReply]. queue_steps.
Qed.

Lemma queue_unlistenFn (n : nat) (events : list string) (callback : nat)
      (response : JsValue) (s : Client) :
  queue_grows is_awaited_or_create s (unlistenFn n events callback response s).
Proof.
  unfold unlistenFn.
  destruct response as [[]|]; try (queue_steps; fail);
    queue_step; (eapply queue_grows_trans; [|apply queue_sendAndWaitReply]); queue_steps.
Qed.

(** A call of the caller schedules only continuations and the creation of
    the socket. *)
Lemma queue_call (op : Op) (s s' : Client) :
  call op s = Some s' -> queue_grows is_awaited_or_create s s'.
Proof.
  destruct op as [ | | |message|query|command ctx|event callback|events callback
                  |sub|f|f|f|f|f|f|f|f]; cbn [call];
    try (destruct (promise s SubscribeM sub) as [[|[[]|]]|]; try discriminate);
    intros H; injection H as <-.
  - apply queue_connect.
  - apply queue_grows_same. unfold closeConnection. destruct (_socket s); reflexivity.
  - apply queue__waitForConnection. reflexivity.
  - apply queue_sendAndWaitReply.
  - apply queue_sendAndWaitReply.
  - apply queue_runCommand.
  - apply queue_subscribeMany.
  - apply queue_subscribeMany.
  - apply queue_unlistenFn.
  - apply queue_grows_same; reflexivity.
  - apply queue_grows_same; reflexivity.
  - apply queue_grows_same; reflexivity.
  - apply queue_grows_same; reflexivity.
  - apply queue_grows_same; reflexivity.
  - apply queue_grows_same; reflexivity.
  - apply queue_grows_same; reflexivity.
  - apply queue_grows_same; reflexivity.
Qed.

(** A microtask schedules only continuations. *)
Lemma queue_run_job (j : Job) (s : Client) : queue_grows is_awaited s (run_job j s).
Proof.
  destruct j as [[c|c|c message|c events callback|c|c] [v|r] | c [] | c message o | c o];
    cbn [run_job resume pass subscribeMany_replied _createSocket_resume].
  all: try (queue_steps; fail).
  - queue_step. eapply queue_grows_trans; [|apply queue__waitForConnection; reflexivity].
    queue_steps.
  - unfold sendAndWaitReply_connected. split_matches; queue_steps.
Qed.

Lemma queue_tick (s s' : Client) :
  tick s = Some s' ->
  exists j q added,
    microtasks s = j :: q /\ s' = run_job j (set_microtasks q s)
    /\ microtasks s' = q ++ added /\ forallb is_awaited added = true.
Proof.
  unfold tick. destruct (microtasks s) as [|j q] eqn:Hq; [discriminate|].
  intros H. injection H as <-.
  destruct (queue_run_job j (set_microtasks q s)) as (added & Ha & Hok).
  exists j, q, added. repeat split; assumption.
Qed.

(* ================================================================== *)
(** * The promises the calls build *)
(* ================================================================== *)

Lemma inner__createSocket (m : Method) (n : nat) (s : Client) :
  n < next_call m s -> inner_promise (_createSocket s) m n = inner_promise s m n.
Proof. intros H. unfold _createSocket. split_matches; old_promise m. Qed.

Lemma inner__waitForConnection (m : Method) (n : nat) (s : Client) :
  n < next_call m s -> inner_promise (_waitForConnection s) m n = inner_promise s m n.
Proof. intros H. unfold _waitForConnection. split_matches; old_promise m. Qed.

Lemma inner_connect (m : Method) (n : nat) (s : Client) :
  n < next_call m s -> inner_promise (connect s) m n = inner_promise s m n.
Proof.
  intros H. unfold connect. fields.
  assert (H1 : n < next_call m (alloc ConnectM s))
    by (eapply Nat.lt_le_trans; [exact H | apply next_call_alloc_le]).
  destruct (_socket s); [|destruct (_createSocketPromise s)].
  - rewrite inner_await, inner__waitForConnection by exact H1. old_promise m.
  - old_promise m.
  - rewrite inner_await. change (inner_promise (set_createSocketPromise ?v ?s0)) with (inner_promise s0).
    rewrite inner__createSocket by exact H1. old_promise m.
Qed.

Lemma inner_sendAndWaitReply (m : Method) (n : nat) (message : string) (s : Client) :
  n < next_call m s -> inner_promise (sendAndWaitReply message s) m n = inner_promise s m n.
Proof.
  intros H. unfold sendAndWaitReply.
  assert (H1 : n < next_call m (alloc ReplyM s))
    by (eapply Nat.lt_le_trans; [exact H | apply next_call_alloc_le]).
  rewrite inner_await, inner_connect by exact H1. old_promise m.
Qed.

Lemma inner_runCommand (m : Method) (n : nat) (command : string)
      (ctx : option ContextContainer) (s : Client) :
  n < next_call m s -> inner_promise (runCommand command ctx s) m n = inner_promise s m n.
Proof.
  intros H. unfold runCommand.
  assert (H1 : n < next_call m (alloc CommandM s))
    by (eapply Nat.lt_le_trans; [exact H | apply next_call_alloc_le]).
  rewrite inner_await, inner_sendAndWaitReply by exact H1. old_promise m.
Qed.

Lemma inner_subscribeMany (m : Method) (n : nat) (events : list string)
      (callback : nat) (s : Client) :
  n < next_call m s -> inner_promise (subscribeMany events callback s) m n = inner_promise s m n.
Proof.
  intros H. unfold subscribeMany.
  assert (H1 : n < next_call m (alloc SubscribeM s))
    by (eapply Nat.lt_le_trans; [exact H | apply next_call_alloc_le]).
  rewrite inner_await, inner_sendAndWaitReply by exact H1. old_promise m.
Qed.

Lemma inner_unlistenFn (m : Method) (n : nat) (sub : nat) (events : list string)
      (callback : nat) (response : JsValue) (s : Client) :
  n < next_call m s ->
  inner_promise (unlistenFn sub events callback response s) m n = inner_promise s m n.
Proof.
  intros H. unfold unlistenFn.
  assert (H1 : n < next_call m (unlisten_message (SubscriptionListener sub events callback)
                                  (alloc UnlistenM s)))
    by (rewrite next_call_unlisten_message;
        eapply Nat.lt_le_trans; [exact H | apply next_call_alloc_le]).
  destruct response as [[]|];
    try (rewrite inner_await, inner_sendAndWaitReply by exact H1);
    old_promise m.
Qed.

(** A call of the caller settles no inner_promise made before it. *)
Lemma inner_call (m : Method) (n : nat) (op : Op) (s s' : Client) :
  call op s = Some s' -> n < next_call m s -> inner_promise s' m n = inner_promise s m n.
Proof.
  destruct op as [ | | |message|query|command ctx|event callback|events callback
                  |sub|f|f|f|f|f|f|f|f]; cbn [call];
    try (destruct (promise s SubscribeM sub) as [[|[[]|]]|]; try discriminate);
    intros H Hn; injection H as <-.
  - now apply inner_connect.
  - apply inner_closeConnection.
  - now apply inner__waitForConnection.
  - now apply inner_sendAndWaitReply.
  - now apply inner_sendAndWaitReply.
  - now apply inner_runCommand.
  - now apply inner_subscribeMany.
  - now apply inner_subscribeMany.
  - now apply inner_unlistenFn.
  - reflexivity.
  - reflexivity.
  - reflexivity.
  - reflexivity.
  - reflexivity.
  - reflexivity.
  - reflexivity.
  - reflexivity.
Qed.

Lemma inner_handler (m : Method) (n : nat) (A : Type)
      (invoke : A -> Client -> Completion) (l : list A) (s : Client) :
  (forall cb s, inner_promise (state_of (invoke cb s)) m n = inner_promise s m n) ->
  inner_promise (handled (forEach invoke l s)) m n = inner_promise s m n.
Proof.
  intros Hinv.
  apply (@handled_preserves (fun s' => inner_promise s' m n = inner_promise s m n)).
  - intros r s1 H. exact H.
  - apply (@forEach_preserves _ invoke
             (fun s' => inner_promise s' m n = inner_promise s m n));
      [|reflexivity].
    intros cb s1 H. now rewrite Hinv.
Qed.

(** A microtask settles no promise a call built: those are settled by the
    listeners, in the handlers of the socket. *)
Lemma inner_run_job (m : Method) (n : nat) (j : Job) (s : Client) :
  n < next_call m s ->
  inner_promise (run_job j s) m n = inner_promise s m n.
Proof.
  intros Hn.
  destruct j as [[c|c|c message|c events callback|c|c] [v|r] | c [] | c message o | c o];
    cbn [run_job resume pass subscribeMany_replied _createSocket_resume].
  all: try (heap_simpl; reflexivity).
  - rewrite inner_await, inner__waitForConnection by exact Hn. reflexivity.
  - unfold sendAndWaitReply_connected. split_matches; reflexivity.
Qed.

Lemma inner_tick (m : Method) (n : nat) (s s' : Client) :
  tick s = Some s' -> n < next_call m s ->
  inner_promise s' m n = inner_promise s m n.
Proof.
  unfold tick. destruct (microtasks s) as [|j q]; [discriminate|].
  intros H Hn. injection H as <-. now rewrite inner_run_job.
Qed.

(** The events of the socket other than a message leave the promises the
    requests built as they are. *)
Lemma inner_deliver_other (n : nat) (ev : Event) (s s' : Client) :
  deliver ev s = Some s' ->
  match ev with SocketMessage _ _ => False | _ => True end ->
  inner_promise s' ReplyM n = inner_promise s ReplyM n.
Proof.
  destruct ev as [k ok|i|i e|i|i]; cbn [deliver]; intros H Hev; try contradiction.
  - destruct (existsb (Nat.eqb k) (importing s)); [|discriminate].
    injection H as <-. reflexivity.
  - destruct (ready s i) as [[]|]; try discriminate.
    injection H as <-. unfold onopen. rewrite inner_handler; [reflexivity|].
    intros [w|f] s1; cbn [invoke_connect state_of]; [|reflexivity].
    rewrite inner_settle_wait. reflexivity.
  - destruct (ready s i) as [[]|]; try discriminate;
      injection H as <-; unfold onerror;
      (rewrite inner_handler; [reflexivity|]); intros; reflexivity.
  - destruct (ready s i) as [[]|]; try discriminate;
      injection H as <-; unfold onclose;
      (rewrite inner_handler; [reflexivity|]); intros; reflexivity.
Qed.

(* ================================================================== *)
(** * Requests: from the reply to the settled promise *)
(* ================================================================== *)

Lemma finally_jobs_app (n : nat) (q1 q2 : list Job) :
  finally_jobs n (q1 ++ q2) = finally_jobs n q1 ++ finally_jobs n q2.
Proof. apply filter_app. Qed.

Lemma finally_jobs_none (n : nat) (ok : Job -> bool) (added : list Job) :
  (forall j, ok j = true -> is_finally n j = false) ->
  forallb ok added = true -> finally_jobs n added = [].
Proof.
  intros Hok. induction added as [|j q IH]; cbn; [reflexivity|].
  intros H. apply andb_true_iff in H. destruct H as [Hj Hq].
  rewrite (Hok j Hj). now apply IH.
Qed.

Lemma finally_jobs_grows (n : nat) (ok : Job -> bool) (s s' : Client) :
  (forall j, ok j = true -> is_finally n j = false) ->
  queue_grows ok s s' ->
  finally_jobs n (microtasks s') = finally_jobs n (microtasks s).
Proof.
  intros Hok (added & Ha & Hall).
  rewrite Ha, finally_jobs_app, (@finally_jobs_none n ok added Hok Hall).
  apply app_nil_r.
Qed.

Lemma awaited_not_finally (n : nat) (j : Job) : is_awaited j = true -> is_finally n j = false.
Proof. destruct j; cbn; congruence. Qed.

Lemma awaited_or_create_not_finally (n : nat) (j : Job) :
  is_awaited_or_create j = true -> is_finally n j = false.
Proof. destruct j; cbn; congruence. Qed.

Lemma reply_listeners_change (n : nat) (c : RegistryChange) (l : list MessageCallback) :
  match c with
  | Unchanged => True
  | Pushed cb | Unlistened cb => is_reply_listener n cb = false
  end ->
  reply_listeners n (change_registry c l) = reply_listeners n l.
Proof.
  destruct c as [|cb|cb]; cbn [change_registry]; intros H; unfold reply_listeners.
  - reflexivity.
  - rewrite RegistryFacts.filter_push, H. apply app_nil_r.
  - apply RegistryFacts.filter_unlisten; [apply MessageCallback_same_spec | exact H].
Qed.

Lemma resends_call_conts (n : nat) (op : Op) (s : Client) :
  n < next_call ReplyM s ->
  total (map (resends n) (call_conts op s)) = 0.
Proof.
  intros Hn.
  assert (Hfresh : Nat.eqb (next_call ReplyM s) n = false)
    by (apply Nat.eqb_neq; lia).
  destruct op as [ | | |message|query|command ctx|event callback|events callback
                  |sub|f|f|f|f|f|f|f|f]; cbn [call_conts];
    try (destruct (promise s SubscribeM sub) as [[|[[]|]]|]);
    unfold send_conts, connect_conts; cbn [map resends];
    rewrite ?Hfresh; reflexivity.
Qed.

(** ** The listener of a request *)

Lemma microtasks_settle_reply (c : nat) (message : string) (o : Outcome) (s : Client) :
  microtasks (settle_reply c message o s)
  = microtasks s ++ match inner_promise s ReplyM c with
                    | Some Pending => [JSendFinally c message o]
                    | _ => []
                    end.
Proof.
  unfold settle_reply, inner_promise.
  destruct (nth_error (heap s ReplyM) c) as [[[|o'] r ks]|]; cbn [option_map inner];
    try (now rewrite app_nil_r).
  reflexivity.
Qed.

Lemma settle_reply_settled (c : nat) (message : string) (o o' : Outcome) (s : Client) :
  inner_promise s ReplyM c = Some (Settled o') -> settle_reply c message o s = s.
Proof.
  unfold settle_reply, inner_promise.
  destruct (nth_error (heap s ReplyM) c) as [[[|o''] r ks]|]; cbn [option_map inner];
    congruence.
Qed.

Lemma finally_settle_reply_other (n c : nat) (message : string) (o : Outcome) (s : Client) :
  c <> n ->
  finally_jobs n (microtasks (settle_reply c message o s)) = finally_jobs n (microtasks s).
Proof.
  intros Hc. rewrite microtasks_settle_reply, finally_jobs_app.
  destruct (inner_promise s ReplyM c) as [[|]|]; cbn [finally_jobs filter is_finally];
    rewrite ?(proj2 (Nat.eqb_neq c n) Hc); apply app_nil_r.
Qed.

Lemma inner_settle_reply_other (n c : nat) (message : string) (o : Outcome) (s : Client) :
  c <> n ->
  inner_promise (settle_reply c message o s) ReplyM n = inner_promise s ReplyM n.
Proof.
  intros Hc. rewrite inner_settle_reply. cbn [Method_eqb andb].
  now rewrite (proj2 (Nat.eqb_neq c n) Hc).
Qed.

(** A listener other than that of a request [n] answers, and the listener
    of [n] for a message that is no reply to it, leave [n] as it is. *)
Lemma invoke_message_other (n : nat) (e : MessageEvent) (cb : MessageCallback)
      (s : Client) :
  (forall msg, cb = ReplyListener n msg -> is_reply msg e = false) ->
  inner_promise (state_of (invoke_message e cb s)) ReplyM n = inner_promise s ReplyM n
  /\ finally_jobs n (microtasks (state_of (invoke_message e cb s)))
     = finally_jobs n (microtasks s).
Proof.
  intros Hcb.
  destruct cb as [c message|c events callback|f]; cbn [invoke_message].
  - destruct (Nat.eq_dec c n) as [->|Hc].
    + specialize (Hcb message eq_refl).
      unfold reply_listener.
      destruct e as [[]|]; cbn [state_of]; try (split; reflexivity);
        cbn [is_reply] in Hcb; rewrite Hcb; cbn [andb]; split; reflexivity.
    + unfold reply_listener.
      destruct e as [[]|]; cbn [state_of]; try (split; reflexivity);
        repeat match goal with
               | |- context [if ?b then _ else _] => destruct b
               end;
        rewrite ?inner_settle_reply_other, ?finally_settle_reply_other by exact Hc;
        split; reflexivity.
  - unfold subscription_listener.
    destruct e as [[]|]; cbn [state_of]; try (split; reflexivity);
      repeat match goal with
             | |- context [if ?b then _ else _] => destruct b
             end; split; reflexivity.
  - split; reflexivity.
Qed.

Lemma forEach_others (n : nat) (e : MessageEvent) :
  forall (l : list MessageCallback) (s : Client),
    (forall msg, In (ReplyListener n msg) l -> is_reply msg e = false) ->
    inner_promise (state_of (forEach (invoke_message e) l s)) ReplyM n
    = inner_promise s ReplyM n
    /\ finally_jobs n (microtasks (state_of (forEach (invoke_message e) l s)))
       = finally_jobs n (microtasks s).
Proof.
  induction l as [|cb rest IH]; intros s Hl; cbn [forEach]; [split; reflexivity|].
  assert (Hcb : forall msg, cb = ReplyListener n msg -> is_reply msg e = false)
    by (intros msg ->; apply Hl; now left).
  destruct (@invoke_message_other n e cb s Hcb) as [Hi Hf].
  destruct (invoke_message e cb s) as [s1|r s1]; cbn [state_of] in *.
  - destruct (IH s1) as [Hi' Hf']; [intros msg Hin; apply Hl; now right|].
    split; congruence.
  - split; assumption.
Qed.

Lemma is_reply_decodable (message : string) (e : MessageEvent) :
  is_reply message e = true -> undecodable e = false.
Proof. destruct e as [[]|]; cbn; congruence. Qed.

Lemma invoke_message_normal (e : MessageEvent) (cb : MessageCallback) (s : Client) :
  undecodable e = false -> exists s1, invoke_message e cb s = Normal s1.
Proof.
  intros He. destruct cb as [c message|c events callback|f]; cbn [invoke_message].
  - unfold reply_listener. destruct e as [[]|]; try discriminate; eexists; reflexivity.
  - unfold subscription_listener. destruct e as [[]|]; try discriminate; eexists; reflexivity.
  - eexists; reflexivity.
Qed.

(** The listener of request [n], for a reply to it. *)
Lemma invoke_message_reply (n : nat) (message : string) (e : MessageEvent) (s : Client) :
  is_reply message e = true ->
  inner_promise s ReplyM n = Some Pending ->
  exists s1,
    invoke_message e (ReplyListener n message) s = Normal s1
    /\ inner_promise s1 ReplyM n = Some (Settled (reply_outcome message e))
    /\ finally_jobs n (microtasks s1)
       = finally_jobs n (microtasks s) ++ [JSendFinally n message (reply_outcome message e)].
Proof.
  intros He Hp. cbn [invoke_message]. unfold reply_listener, reply_outcome.
  destruct e as [v|]; [|discriminate].
  assert (Hv : v <> JNull) by (intros ->; discriminate).
  cbn [is_reply] in He. cbn [event_error event_data].
  set (err := prop v "error") in *. set (dat := prop v "data") in *.
  assert (Hone : forall o,
             inner_promise (settle_reply n message o s) ReplyM n = Some (Settled o)
             /\ finally_jobs n (microtasks (settle_reply n message o s))
                = finally_jobs n (microtasks s) ++ [JSendFinally n message o]).
  { intros o. rewrite inner_settle_reply, microtasks_settle_reply, finally_jobs_app, Hp.
    cbn [Method_eqb andb finally_jobs filter is_finally]. rewrite Nat.eqb_refl.
    split; reflexivity. }
  destruct v; try congruence; rewrite He; cbn [andb];
    (destruct (truthy err);
     [ destruct (Hone (Rejected (RejectText (error_text message err)))) as [Hi Hf];
       eexists; split; [reflexivity|];
       rewrite (@settle_reply_settled n message _ _ _ Hi); split; assumption
     | eexists; split; [reflexivity|]; apply Hone ]).
Qed.

Lemma reply_listeners_nil (n : nat) (l : list MessageCallback) :
  reply_listeners n l = [] -> forall msg, ~ In (ReplyListener n msg) l.
Proof.
  intros Hl msg Hin.
  assert (H : In (ReplyListener n msg) (reply_listeners n l)).
  { apply filter_In. split; [exact Hin|]. cbn. apply Nat.eqb_refl. }
  rewrite Hl in H. exact H.
Qed.

Lemma forEach_reply (n : nat) (message : string) (e : MessageEvent) :
  is_reply message e = true ->
  forall (l : list MessageCallback) (s : Client),
    reply_listeners n l = [ReplyListener n message] ->
    inner_promise s ReplyM n = Some Pending ->
    inner_promise (state_of (forEach (invoke_message e) l s)) ReplyM n
    = Some (Settled (reply_outcome message e))
    /\ finally_jobs n (microtasks (state_of (forEach (invoke_message e) l s)))
       = finally_jobs n (microtasks s) ++ [JSendFinally n message (reply_outcome message e)].
Proof.
  intros He. induction l as [|cb rest IH]; intros s Hl Hp; [discriminate|].
  cbn [forEach]. unfold reply_listeners in Hl. cbn [filter] in Hl.
  destruct (is_reply_listener n cb) eqn:Hcb.
  - injection Hl as -> Hrest.
    destruct (@invoke_message_reply n message e s He Hp) as (s1 & -> & Hi & Hf).
    destruct (@forEach_others n e rest s1) as [Hi' Hf'].
    { intros msg Hin. exfalso. exact (@reply_listeners_nil n rest Hrest msg Hin). }
    split; congruence.
  - assert (Hother : forall msg, cb = ReplyListener n msg -> is_reply msg e = false).
    { intros msg ->. cbn in Hcb. rewrite Nat.eqb_refl in Hcb. discriminate. }
    destruct (@invoke_message_other n e cb s Hother) as [Hi Hf].
    destruct (@invoke_message_normal e cb s (@is_reply_decodable message e He)) as (s1 & Hs1).
    rewrite Hs1 in *. cbn [state_of] in Hi, Hf.
    destruct (IH s1 Hl) as [Hi' Hf']; [congruence|].
    split; congruence.
Qed.

Lemma inner_handled (c : Completion) (m : Method) (n : nat) :
  inner_promise (handled c) m n = inner_promise (state_of c) m n.
Proof. destruct c; reflexivity. Qed.

Lemma microtasks_handled (c : Completion) :
  microtasks (handled c) = microtasks (state_of c).
Proof. destruct c; reflexivity. Qed.

Lemma promise_onmessage (m : Method) (n : nat) (e : MessageEvent) (s : Client) :
  promise (onmessage e s) m n = promise s m n.
Proof. unfold onmessage. apply promise_handler. intros. apply promise_invoke_message. Qed.

Lemma outstanding_bound (n : nat) (message : string) (s : Client) :
  outstanding n message s -> n < next_call ReplyM s.
Proof.
  intros (_ & _ & Hp & _). apply promise_defined. congruence.
Qed.

(** A reply to request [n] settles the promise the request built, and
    schedules its [.finally]. *)
Lemma onmessage_reply (n : nat) (message : string) (e : MessageEvent) (s : Client) :
  outstanding n message s ->
  is_reply message e = true ->
  scheduled n message (reply_outcome message e) (onmessage e s).
Proof.
  intros (Hl & Hi & Hp & Hz & Hf) He.
  destruct (@forEach_reply n message e He (_onMessageCallbacks s) s Hl Hi) as [Hi' Hf'].
  pose proof (pending_onmessage (resends n) e s) as Hle.
  unfold scheduled. rewrite messages_onmessage, promise_onmessage.
  unfold onmessage. rewrite inner_handled, microtasks_handled, Hi', Hf', Hf.
  repeat split; try assumption; try reflexivity.
  fold (onmessage e s). lia.
Qed.

(** Any other message leaves the request outstanding. *)
Lemma onmessage_other (n : nat) (message : string) (e : MessageEvent) (s : Client) :
  outstanding n message s ->
  is_reply message e = false ->
  outstanding n message (onmessage e s).
Proof.
  intros (Hl & Hi & Hp & Hz & Hf) He.
  destruct (@forEach_others n e (_onMessageCallbacks s) s) as [Hi' Hf'].
  { intros msg Hin.
    assert (H : In (ReplyListener n msg) (reply_listeners n (_onMessageCallbacks s))).
    { apply filter_In. split; [exact Hin|]. cbn. apply Nat.eqb_refl. }
    rewrite Hl in H. destruct H as [H|[]]. injection H as <-. exact He. }
  pose proof (pending_onmessage (resends n) e s) as Hle.
  unfold outstanding. rewrite messages_onmessage, promise_onmessage.
  unfold onmessage. rewrite inner_handled, microtasks_handled, Hi', Hf', Hf.
  repeat split; try assumption; try reflexivity.
  fold (onmessage e s). lia.
Qed.

(** Once the promise of a request is settled, no message changes it. *)
Lemma onmessage_replied (n : nat) (o : Outcome) (e : MessageEvent) (s : Client) :
  replied n o s -> replied n o (onmessage e s).
Proof.
  intros (Hl & Hi & Hp & Hz & Hf).
  destruct (@forEach_others n e (_onMessageCallbacks s) s) as [Hi' Hf'].
  { intros msg Hin. exfalso. exact (@reply_listeners_nil n _ Hl msg Hin). }
  pose proof (pending_onmessage (resends n) e s) as Hle.
  unfold replied. rewrite messages_onmessage, promise_onmessage.
  unfold onmessage. rewrite inner_handled, microtasks_handled, Hi', Hf', Hf.
  repeat split; try assumption; try reflexivity.
  fold (onmessage e s). lia.
Qed.

(* ================================================================== *)
(** * Requests: what a step does to one of them *)
(* ================================================================== *)

Section FilterUnlisten.

Variable T : Type.
Variable same : T -> T -> bool.
Hypothesis same_spec : forall a b, same a b = true <-> a = b.
Variable P : T -> bool.

Lemma occurrences_filter (c : T) (l : list T) :
  P c = true ->
  Registry.occurrences same c (filter P l) = Registry.occurrences same c l.
Proof.
  intros Hc. induction l as [|x xs IH]; cbn [filter Registry.occurrences]; [reflexivity|].
  destruct (P x) eqn:Hx; cbn [Registry.occurrences].
  - now rewrite IH.
  - destruct (same x c) eqn:Hs; [|now rewrite IH].
    apply same_spec in Hs. congruence.
Qed.

Lemma filter_remove_first (c : T) (l : list T) :
  P c = true ->
  filter P (Registry.remove_first same c l) = Registry.remove_first same c (filter P l).
Proof.
  intros Hc. induction l as [|x xs IH]; cbn [filter Registry.remove_first]; [reflexivity|].
  destruct (same x c) eqn:Hs.
  - apply same_spec in Hs. subst x. rewrite Hc. cbn [Registry.remove_first].
    now rewrite (proj2 (same_spec c c) eq_refl).
  - cbn [filter]. destruct (P x); [|exact IH].
    cbn [Registry.remove_first]. now rewrite Hs, IH.
Qed.

(** The one entry of its kind goes when it is unregistered. *)
Lemma filter_unlisten_single (c : T) (l : list T) :
  P c = true -> filter P l = [c] -> filter P (Registry.unlisten same c l) = [].
Proof.
  intros Hc Hl.
  assert (Hocc : Registry.occurrences same c l = 1).
  { rewrite <- (occurrences_filter c l Hc), Hl. cbn.
    now rewrite (proj2 (same_spec c c) eq_refl). }
  destruct (RegistryFacts.unlisten_once same c l) as [-> _]; [lia|].
  rewrite (filter_remove_first c l Hc), Hl. cbn.
  now rewrite (proj2 (same_spec c c) eq_refl).
Qed.

End FilterUnlisten.

Lemma not_finally_no_target (n : nat) (j : Job) :
  is_finally n j = false -> job_targets j ReplyM n = false.
Proof.
  destruct j as [[c|c|c message|c events callback|c|c] [v|r] | c [] | c message o | c o];
    cbn; intros H; try reflexivity; exact H.
Qed.

(** A microtask other than the [.finally] of request [n] leaves the
    request as it is. *)
Lemma reply_tick_registry (n : nat) (s s' : Client) :
  tick s = Some s' ->
  pending (resends n) s = 0 ->
  match microtasks s with j :: _ => is_finally n j = false | [] => True end ->
  reply_listeners n (_onMessageCallbacks s') = reply_listeners n (_onMessageCallbacks s)
  /\ pending (resends n) s' = 0
  /\ finally_jobs n (microtasks s') = finally_jobs n (microtasks s).
Proof.
  intros Htick Hz Hhead.
  pose proof (messages_step Tick s Htick) as Hm.
  destruct (pending_tick (resends n) s Htick) as (j' & q' & Hq' & Hp).
  destruct (queue_tick s s' Htick) as (j & q & added & Hq & Hs' & Hadd & Hok).
  rewrite Hq in Hq'. injection Hq' as <- <-. rewrite Hq in Hhead.
  assert (Hr : respawn (resends n) j = 0).
  { destruct j as [[c|c|c message|c events callback|c|c] [v|r] | c [] | c message o | c o];
      reflexivity. }
  repeat split.
  - rewrite Hm. apply reply_listeners_change. cbn [step_change]. rewrite Hq.
    destruct j as [[c|c|c message|c events callback|c|c] [v|r] | c [] | c message o | c o];
      cbn [job_change]; try exact I; try reflexivity.
    + destruct (sendable message s); [|exact I].
      cbn [awaited resends] in Hp. cbn [is_reply_listener].
      destruct (Nat.eqb c n); [lia | reflexivity].
    + exact Hhead.
  - lia.
  - rewrite Hadd, Hq, finally_jobs_app.
    rewrite (@finally_jobs_none n is_awaited added (awaited_not_finally n) Hok).
    cbn [finally_jobs filter]. rewrite Hhead. apply app_nil_r.
Qed.

Lemma reply_tick_frame (n : nat) (s s' : Client) :
  tick s = Some s' ->
  n < next_call ReplyM s ->
  pending (resends n) s = 0 ->
  match microtasks s with j :: _ => is_finally n j = false | [] => True end ->
  reply_listeners n (_onMessageCallbacks s') = reply_listeners n (_onMessageCallbacks s)
  /\ inner_promise s' ReplyM n = inner_promise s ReplyM n
  /\ promise s' ReplyM n = promise s ReplyM n
  /\ pending (resends n) s' = 0
  /\ finally_jobs n (microtasks s') = finally_jobs n (microtasks s).
Proof.
  intros Htick Hn Hz Hhead.
  destruct (reply_tick_registry n s s' Htick Hz Hhead) as (Hl & Hp & Hf).
  pose proof (inner_tick ReplyM n s s' Htick Hn) as Hi.
  destruct (queue_tick s s' Htick) as (j & q & added & Hq & Hs' & Hadd & Hok).
  rewrite Hq in Hhead.
  repeat split; try assumption.
  rewrite Hs'. change (promise s ReplyM n) with (promise (set_microtasks q s) ReplyM n).
  apply promise_run_job; [exact Hn | now apply not_finally_no_target].
Qed.

Lemma outstanding_tick (n : nat) (message : string) (s s' : Client) :
  outstanding n message s -> tick s = Some s' -> outstanding n message s'.
Proof.
  intros Hs Htick. pose proof (outstanding_bound n message s Hs) as Hn.
  destruct Hs as (Hl & Hi & Hp & Hz & Hf).
  destruct (reply_tick_frame n s s' Htick Hn Hz) as (Hl' & Hi' & Hp' & Hz' & Hf').
  { destruct (microtasks s) as [|j q]; [exact I|].
    cbn [finally_jobs filter] in Hf. destruct (is_finally n j); [discriminate|reflexivity]. }
  unfold outstanding. rewrite Hl', Hi', Hp', Hf'. repeat split; assumption.
Qed.

Lemma replied_tick (n : nat) (o : Outcome) (s s' : Client) :
  replied n o s -> tick s = Some s' -> replied n o s'.
Proof.
  intros Hs Htick.
  assert (Hn : n < next_call ReplyM s).
  { destruct Hs as (_ & _ & Hp & _). apply promise_defined. congruence. }
  destruct Hs as (Hl & Hi & Hp & Hz & Hf).
  destruct (reply_tick_frame n s s' Htick Hn Hz) as (Hl' & Hi' & Hp' & Hz' & Hf').
  { destruct (microtasks s) as [|j q]; [exact I|].
    cbn [finally_jobs filter] in Hf. destruct (is_finally n j); [discriminate|reflexivity]. }
  unfold replied. rewrite Hl', Hi', Hp', Hf'. repeat split; assumption.
Qed.

(** The [.finally] of a request unregisters its listener and settles the
    promise the request returned. *)
Lemma scheduled_tick (n : nat) (message : string) (o : Outcome) (s s' : Client) :
  scheduled n message o s -> tick s = Some s' ->
  scheduled n message o s' \/ replied n o s'.
Proof.
  intros Hs Htick.
  assert (Hn : n < next_call ReplyM s).
  { destruct Hs as (_ & _ & Hp & _). apply promise_defined. congruence. }
  destruct Hs as (Hl & Hi & Hp & Hz & Hf).
  destruct (microtasks s) as [|j q] eqn:Hq; [discriminate|].
  destruct (is_finally n j) eqn:Hj.
  - right. cbn [finally_jobs filter] in Hf. rewrite Hj in Hf. injection Hf as -> Hf.
    destruct (pending_tick (resends n) s Htick) as (j' & q' & Hq' & Hpend).
    destruct (queue_tick s s' Htick) as (j & q0 & added & Hq0 & Hs' & Hadd & Hok).
    rewrite Hq in Hq0. injection Hq0 as <- <-.
    rewrite Hq in Hq'. injection Hq' as <- <-.
    pose proof (messages_step Tick s Htick) as Hm.
    cbn [step_change] in Hm. rewrite Hq in Hm. cbn [job_change change_registry] in Hm.
    repeat split.
    + rewrite Hm. unfold reply_listeners.
      apply (filter_unlisten_single _ _ MessageCallback_same_spec (is_reply_listener n));
        [cbn; apply Nat.eqb_refl | exact Hl].
    + rewrite (inner_tick ReplyM n s s' Htick Hn). exact Hi.
    + rewrite Hs'.
      rewrite (@promise_run_job_target ReplyM n o (JSendFinally n message o)) by reflexivity.
      change (promise (set_microtasks q s)) with (promise s). now rewrite Hp.
    + cbn [respawn] in Hpend. lia.
    + rewrite Hadd, finally_jobs_app. unfold finally_jobs at 1. rewrite Hf.
      apply (@finally_jobs_none n is_awaited added (awaited_not_finally n) Hok).
  - left.
    destruct (reply_tick_frame n s s' Htick Hn Hz) as (Hl' & Hi' & Hp' & Hz' & Hf').
    { rewrite Hq. exact Hj. }
    unfold scheduled. rewrite Hl', Hi', Hp', Hf', Hq. repeat split; assumption.
Qed.

(** ** Calls of the caller *)

Lemma reply_call_frame (n : nat) (op : Op) (s s' : Client) :
  call op s = Some s' ->
  n < next_call ReplyM s ->
  pending (resends n) s = 0 ->
  reply_listeners n (_onMessageCallbacks s') = reply_listeners n (_onMessageCallbacks s)
  /\ inner_promise s' ReplyM n = inner_promise s ReplyM n
  /\ promise s' ReplyM n = promise s ReplyM n
  /\ pending (resends n) s' = 0
  /\ finally_jobs n (microtasks s') = finally_jobs n (microtasks s).
Proof.
  intros Hcall Hn Hz.
  pose proof (messages_step (Call op) s Hcall) as Hm.
  pose proof (pending_call (resends n) op s Hcall) as Hp.
  rewrite resends_call_conts in Hp by exact Hn.
  repeat split.
  - rewrite Hm. apply reply_listeners_change. cbn [step_change].
    destruct op as [ | | |message|query|command ctx|event callback|events callback
                    |sub|f|f|f|f|f|f|f|f]; cbn [call_change]; try exact I; try reflexivity.
    destruct (promise s SubscribeM sub) as [[|[[ |sock|d|events callback response]|r]]|];
      try exact I; reflexivity.
  - now apply (inner_call ReplyM n op s s').
  - now apply promise_call with (op := op).
  - lia.
  - apply finally_jobs_grows with (ok := is_awaited_or_create);
      [apply awaited_or_create_not_finally | now apply (queue_call op s s')].
Qed.

Lemma outstanding_call (n : nat) (message : string) (op : Op) (s s' : Client) :
  outstanding n message s -> call op s = Some s' -> outstanding n message s'.
Proof.
  intros Hs Hcall. pose proof (outstanding_bound n message s Hs) as Hn.
  destruct Hs as (Hl & Hi & Hp & Hz & Hf).
  destruct (reply_call_frame n op s s' Hcall Hn Hz) as (Hl' & Hi' & Hp' & Hz' & Hf').
  unfold outstanding. rewrite Hl', Hi', Hp', Hf'. repeat split; assumption.
Qed.

Lemma replied_call (n : nat) (o : Outcome) (op : Op) (s s' : Client) :
  replied n o s -> call op s = Some s' -> replied n o s'.
Proof.
  intros Hs Hcall.
  assert (Hn : n < next_call ReplyM s).
  { destruct Hs as (_ & _ & Hp & _). apply promise_defined. congruence. }
  destruct Hs as (Hl & Hi & Hp & Hz & Hf).
  destruct (reply_call_frame n op s s' Hcall Hn Hz) as (Hl' & Hi' & Hp' & Hz' & Hf').
  unfold replied. rewrite Hl', Hi', Hp', Hf'. repeat split; assumption.
Qed.

(** ** Events of the socket *)

Lemma microtasks_settle_wait (w : nat) (o : Outcome) (s : Client) :
  microtasks (settle_wait w o s)
  = microtasks s ++ match inner_promise s WaitM w with
                    | Some Pending => [JWaitFinally w o]
                    | _ => []
                    end.
Proof.
  unfold settle_wait, inner_promise.
  destruct (nth_error (heap s WaitM) w) as [[[|o'] r ks]|]; cbn [option_map inner];
    try (now rewrite app_nil_r).
  reflexivity.
Qed.

Lemma finally_jobs_onopen (n : nat) (s : Client) :
  finally_jobs n (microtasks (onopen s)) = finally_jobs n (microtasks s).
Proof.
  unfold onopen. rewrite microtasks_handled.
  apply (@forEach_preserves _ invoke_connect
           (fun s' => finally_jobs n (microtasks s') = finally_jobs n (microtasks s)));
    [|reflexivity].
  intros [w|f] s1 H; cbn [invoke_connect state_of]; [|exact H].
  rewrite microtasks_settle_wait, finally_jobs_app, H.
  destruct (inner_promise s1 WaitM w) as [[|]|]; apply app_nil_r.
Qed.

Lemma microtasks_onerror (s : Client) : microtasks (onerror s) = microtasks s.
Proof.
  unfold onerror. rewrite microtasks_handled.
  apply (@forEach_preserves _ invoke_error (fun s' => microtasks s' = microtasks s));
    [|reflexivity].
  intros f s1 H. exact H.
Qed.

Lemma microtasks_onclose (s : Client) : microtasks (onclose s) = microtasks s.
Proof.
  unfold onclose. rewrite microtasks_handled.
  apply (@forEach_preserves _ invoke_disconnect (fun s' => microtasks s' = microtasks s));
    [|reflexivity].
  intros f s1 H. exact H.
Qed.

Lemma finally_jobs_deliver_other (n : nat) (ev : Event) (s s' : Client) :
  deliver ev s = Some s' ->
  match ev with SocketMessage _ _ => False | _ => True end ->
  finally_jobs n (microtasks s') = finally_jobs n (microtasks s).
Proof.
  destruct ev as [k ok|i|i e|i|i]; cbn [deliver]; intros H Hev; try contradiction.
  - destruct (existsb (Nat.eqb k) (importing s)); [|discriminate].
    injection H as <-. cbn [enqueue set_microtasks microtasks set_importing].
    rewrite finally_jobs_app. apply app_nil_r.
  - destruct (ready s i) as [[]|]; try discriminate.
    injection H as <-. now rewrite finally_jobs_onopen.
  - destruct (ready s i) as [[]|]; try discriminate; injection H as <-;
      now rewrite microtasks_onerror.
  - destruct (ready s i) as [[]|]; try discriminate; injection H as <-;
      now rewrite microtasks_onclose.
Qed.

Lemma reply_deliver_frame (n : nat) (ev : Event) (s s' : Client) :
  deliver ev s = Some s' ->
  match ev with SocketMessage _ _ => False | _ => True end ->
  pending (resends n) s = 0 ->
  reply_listeners n (_onMessageCallbacks s') = reply_listeners n (_onMessageCallbacks s)
  /\ inner_promise s' ReplyM n = inner_promise s ReplyM n
  /\ promise s' ReplyM n = promise s ReplyM n
  /\ pending (resends n) s' = 0
  /\ finally_jobs n (microtasks s') = finally_jobs n (microtasks s).
Proof.
  intros Hd Hev Hz.
  pose proof (pending_deliver (resends n) ev s Hd) as Hp.
  repeat split.
  - now rewrite (messages_deliver ev s Hd).
  - now apply (inner_deliver_other n ev s s').
  - now apply (promise_deliver ReplyM n ev s Hd).
  - lia.
  - now apply (finally_jobs_deliver_other n ev s s').
Qed.

Lemma outstanding_deliver (n : nat) (message : string) (ev : Event) (s s' : Client) :
  outstanding n message s ->
  deliver ev s = Some s' ->
  match ev with
  | SocketMessage _ e =>
      if is_reply message e
      then scheduled n message (reply_outcome message e) s'
      else outstanding n message s'
  | _ => outstanding n message s'
  end.
Proof.
  intros Hs Hd.
  assert (Hother : match ev with SocketMessage _ _ => False | _ => True end ->
                   outstanding n message s').
  { intros Hev. destruct Hs as (Hl & Hi & Hp & Hz & Hf).
    destruct (reply_deliver_frame n ev s s' Hd Hev Hz) as (Hl' & Hi' & Hp' & Hz' & Hf').
    unfold outstanding. rewrite Hl', Hi', Hp', Hf'. repeat split; assumption. }
  destruct ev as [k ok|i|i e|i|i]; try (apply Hother; exact I).
  cbn [deliver] in Hd.
  assert (Hs' : s' = onmessage e s)
    by (destruct (ready s i) as [[]|]; try discriminate; now injection Hd as <-).
  subst s'. destruct (is_reply message e) eqn:He.
  - now apply onmessage_reply.
  - now apply onmessage_other.
Qed.

Lemma replied_deliver (n : nat) (o : Outcome) (ev : Event) (s s' : Client) :
  replied n o s -> deliver ev s = Some s' -> replied n o s'.
Proof.
  intros Hs Hd.
  assert (Hother : match ev with SocketMessage _ _ => False | _ => True end ->
                   replied n o s').
  { intros Hev. destruct Hs as (Hl & Hi & Hp & Hz & Hf).
    destruct (reply_deliver_frame n ev s s' Hd Hev Hz) as (Hl' & Hi' & Hp' & Hz' & Hf').
    unfold replied. rewrite Hl', Hi', Hp', Hf'. repeat split; assumption. }
  destruct ev as [k ok|i|i e|i|i]; try (apply Hother; exact I).
  cbn [deliver] in Hd.
  assert (Hs' : s' = onmessage e s)
    by (destruct (ready s i) as [[]|]; try discriminate; now injection Hd as <-).
  subst s'. now apply onmessage_replied.
Qed.

(** ** Steps and runs *)

Lemma outstanding_step (n : nat) (message : string) (lab : Label) (s s' : Client) :
  outstanding n message s ->
  step s lab = Some s' ->
  answers message lab = false ->
  outstanding n message s'.
Proof.
  intros Hs Hstep Hlab. destruct lab as [op| |ev]; cbn [step] in Hstep.
  - now apply (outstanding_call n message op s s').
  - now apply (outstanding_tick n message s s').
  - destruct (microtasks s); [|discriminate].
    pose proof (outstanding_deliver n message ev s s' Hs Hstep) as H.
    destruct ev as [k ok|i|i e|i|i]; try exact H.
    cbn [answers] in Hlab. now rewrite Hlab in H.
Qed.

Lemma replied_step (n : nat) (o : Outcome) (lab : Label) (s s' : Client) :
  replied n o s -> step s lab = Some s' -> replied n o s'.
Proof.
  intros Hs Hstep. destruct lab as [op| |ev]; cbn [step] in Hstep.
  - now apply (replied_call n o op s s').
  - now apply (replied_tick n o s s').
  - destruct (microtasks s); [|discriminate].
    now apply (replied_deliver n o ev s s').
Qed.

Lemma outstanding_run (n : nat) (message : string) :
  forall ls s s',
    outstanding n message s ->
    run s ls = Some s' ->
    existsb (answers message) ls = false ->
    outstanding n message s'.
Proof.
  induction ls as [|lab ls IH]; intros s s' Hs Hrun Hls; cbn [run] in Hrun.
  - now injection Hrun as <-.
  - cbn [existsb] in Hls. apply orb_false_iff in Hls. destruct Hls as [Hlab Hls].
    destruct (step s lab) as [s1|] eqn:Hstep; [|discriminate].
    apply (IH s1 s'); [|assumption|assumption].
    now apply (outstanding_step n message lab s s1).
Qed.

Lemma replied_run (n : nat) (o : Outcome) :
  forall ls s s', replied n o s -> run s ls = Some s' -> replied n o s'.
Proof.
  induction ls as [|lab ls IH]; intros s s' Hs Hrun; cbn [run] in Hrun.
  - now injection Hrun as <-.
  - destruct (step s lab) as [s1|] eqn:Hstep; [|discriminate].
    apply (IH s1 s'); [|assumption]. now apply (replied_step n o lab s s1).
Qed.

(** The task of a message, with its microtasks. *)
Lemma outstanding_task (n : nat) (message : string) (i : nat) (e : MessageEvent)
      (s s' : Client) :
  outstanding n message s ->
  task (SocketMessage i e) s = Some s' ->
  if is_reply message e
  then replied n (reply_outcome message e) s'
  else outstanding n message s'.
Proof.
  intros Hs Htask. unfold task in Htask.
  destruct (step s (Env (SocketMessage i e))) as [s1|] eqn:Hstep; [|discriminate].
  injection Htask as <-. cbn [step] in Hstep.
  destruct (microtasks s); [|discriminate].
  pose proof (outstanding_deliver n message _ s s1 Hs Hstep) as H. cbn in H.
  destruct (is_reply message e).
  - assert (Hd : scheduled n message (reply_outcome message e) (drain s1)
                 \/ replied n (reply_outcome message e) (drain s1)).
    { apply (@drain_invariant
               (fun s0 => scheduled n message (reply_outcome message e) s0
                          \/ replied n (reply_outcome message e) s0));
        [|now left].
      intros s2 s3 [H2|H2] Htick.
      - now apply (scheduled_tick n message _ s2 s3).
      - right. now apply (replied_tick n _ s2 s3). }
    destruct Hd as [(_ & _ & _ & _ & Hf)|Hd]; [|exact Hd].
    rewrite drain_quiescent in Hf. discriminate.
  - apply (@drain_invariant (fun s0 => outstanding n message s0)); [|exact H].
    intros s2 s3 H2 Htick. now apply (outstanding_tick n message s2 s3).
Qed.

(* ================================================================== *)
(** * Awaiting and settling: the queue and the suspended continuations *)
(* ================================================================== *)

Lemma waiting_alloc (m m' : Method) (n : nat) (s : Client) :
  waiting (alloc m s) m' n = waiting s m' n.
Proof.
  unfold waiting. rewrite cell_alloc.
  destruct (Method_eqb m m' && Nat.eqb n (next_call m s)) eqn:Eb; [|reflexivity].
  apply andb_true_iff in Eb. destruct Eb as [Em En].
  apply Method_eqb_spec in Em. apply Nat.eqb_eq in En. subst.
  unfold next_call. now rewrite (proj2 (nth_error_None _ _)) by lia.
Qed.

Lemma waiting_settle (m m' : Method) (n n' : nat) (o : Outcome) (s : Client) :
  waiting (settle m n o s) m' n'
  = if Method_eqb m m' && Nat.eqb n n'
    then match promise s m n with
         | Some Pending => []
         | _ => waiting s m n
         end
    else waiting s m' n'.
Proof.
  unfold settle, waiting, promise.
  destruct (nth_error (heap s m) n) as [[i [|o'] ks]|] eqn:E; cbn [option_map result].
  - change (heap (set_microtasks ?q ?s0)) with (heap s0).
    rewrite cell_update_cell, E.
    destruct (Method_eqb m m' && Nat.eqb n n'); reflexivity.
  - destruct (Method_eqb m m' && Nat.eqb n n') eqn:Eb; [|reflexivity].
    apply andb_true_iff in Eb. destruct Eb as [Em En].
    apply Method_eqb_spec in Em. apply Nat.eqb_eq in En. subst. now rewrite E.
  - destruct (Method_eqb m m' && Nat.eqb n n') eqn:Eb; [|reflexivity].
    apply andb_true_iff in Eb. destruct Eb as [Em En].
    apply Method_eqb_spec in Em. apply Nat.eqb_eq in En. subst. now rewrite E.
Qed.

Lemma waiting_await (m m' : Method) (n n' : nat) (k : Cont) (s : Client) :
  waiting (await m n k s) m' n'
  = if Method_eqb m m' && Nat.eqb n n'
    then match promise s m n with
         | Some Pending => waiting s m n ++ [k]
         | _ => waiting s m n
         end
    else waiting s m' n'.
Proof.
  unfold await, waiting, promise.
  destruct (nth_error (heap s m) n) as [[i [|o'] ks]|] eqn:E; cbn [option_map result].
  - rewrite cell_update_cell, E.
    destruct (Method_eqb m m' && Nat.eqb n n'); reflexivity.
  - change (heap (enqueue ?j ?s0)) with (heap s0).
    destruct (Method_eqb m m' && Nat.eqb n n') eqn:Eb; [|reflexivity].
    apply andb_true_iff in Eb. destruct Eb as [Em En].
    apply Method_eqb_spec in Em. apply Nat.eqb_eq in En. subst. now rewrite E.
  - destruct (Method_eqb m m' && Nat.eqb n n') eqn:Eb; [|reflexivity].
    apply andb_true_iff in Eb. destruct Eb as [Em En].
    apply Method_eqb_spec in Em. apply Nat.eqb_eq in En. subst. now rewrite E.
Qed.

Lemma waiting_settle_reply (m' : Method) (n n' : nat) (message : string) (o : Outcome)
      (s : Client) :
  waiting (settle_reply n message o s) m' n' = waiting s m' n'.
Proof.
  unfold settle_reply, waiting.
  destruct (nth_error (heap s ReplyM) n) as [[[|o'] r ks]|] eqn:E; try reflexivity.
  change (heap (enqueue ?j ?s0)) with (heap s0).
  rewrite cell_update_cell.
  destruct (Method_eqb ReplyM m' && Nat.eqb n n') eqn:Eb; [|reflexivity].
  apply andb_true_iff in Eb. destruct Eb as [Em En].
  apply Method_eqb_spec in Em. apply Nat.eqb_eq in En. subst. now rewrite E.
Qed.

Lemma waiting_settle_wait (m' : Method) (n n' : nat) (o : Outcome) (s : Client) :
  waiting (settle_wait n o s) m' n' = waiting s m' n'.
Proof.
  unfold settle_wait, waiting.
  destruct (nth_error (heap s WaitM) n) as [[[|o'] r ks]|] eqn:E; try reflexivity.
  change (heap (enqueue ?j ?s0)) with (heap s0).
  rewrite cell_update_cell.
  destruct (Method_eqb WaitM m' && Nat.eqb n n') eqn:Eb; [|reflexivity].
  apply andb_true_iff in Eb. destruct Eb as [Em En].
  apply Method_eqb_spec in Em. apply Nat.eqb_eq in En. subst. now rewrite E.
Qed.

Lemma microtasks_settle (m : Method) (n : nat) (o : Outcome) (s : Client) :
  microtasks (settle m n o s)
  = microtasks s ++ match promise s m n with
                    | Some Pending => map (fun k => JAwaited k o) (waiting s m n)
                    | _ => []
                    end.
Proof.
  unfold settle, promise, waiting.
  destruct (nth_error (heap s m) n) as [[i [|o'] ks]|]; cbn [option_map result awaiters];
    try (now rewrite app_nil_r).
  reflexivity.
Qed.

Lemma microtasks_await (m : Method) (n : nat) (k : Cont) (s : Client) :
  microtasks (await m n k s)
  = microtasks s ++ match promise s m n with
                    | Some (Settled o) => [JAwaited k o]
                    | _ => []
                    end.
Proof.
  unfold await, promise.
  destruct (nth_error (heap s m) n) as [[i [|o'] ks]|]; cbn [option_map result];
    try (now rewrite app_nil_r).
  reflexivity.
Qed.

Lemma microtasks_alloc (m : Method) (s : Client) : microtasks (alloc m s) = microtasks s.
Proof. reflexivity. Qed.

Lemma microtasks_enqueue (j : Job) (s : Client) :
  microtasks (enqueue j s) = microtasks s ++ [j].
Proof. reflexivity. Qed.

(** ** Running the queue *)

Lemma ticks_fuel (f1 : nat) :
  forall f2 s, weight s <= f1 -> weight s <= f2 -> ticks f1 s = ticks f2 s.
Proof.
  induction f1 as [|f1 IH]; intros f2 s H1 H2.
  - destruct f2 as [|f2]; cbn [ticks]; [reflexivity|].
    destruct (tick s) as [s1|] eqn:Ht; [|reflexivity].
    pose proof (tick_weight s Ht). lia.
  - cbn [ticks]. destruct (tick s) as [s1|] eqn:Ht.
    + pose proof (tick_weight s Ht) as Hlt.
      destruct f2 as [|f2]; [lia|]. cbn [ticks]. rewrite Ht. apply IH; lia.
    + destruct f2; cbn [ticks]; [reflexivity|now rewrite Ht].
Qed.

Lemma ticks_enough (fuel : nat) (s : Client) :
  weight s <= fuel -> ticks fuel s = drain s.
Proof. intros H. unfold drain. apply ticks_fuel; lia. Qed.

(** The queue is run one microtask after the other. *)
Lemma drain_tick (s s' : Client) : tick s = Some s' -> drain s = drain s'.
Proof.
  intros Ht. pose proof (tick_weight s Ht) as Hlt.
  unfold drain at 1. destruct (weight s) as [|w] eqn:Ew; [lia|].
  cbn [ticks]. rewrite Ht. apply ticks_enough. lia.
Qed.

Lemma drain_done (s : Client) : microtasks s = [] -> drain s = s.
Proof.
  intros Hq. unfold drain. destruct (weight s); cbn [ticks]; [reflexivity|].
  unfold tick. now rewrite Hq.
Qed.

Lemma drain_job (j : Job) (q : list Job) (s : Client) :
  microtasks s = j :: q -> drain s = drain (run_job j (set_microtasks q s)).
Proof.
  intros Hq. apply drain_tick. unfold tick. now rewrite Hq.
Qed.

(* ================================================================== *)
(** * The socket is created once *)
(* ================================================================== *)

Lemma filter_none (A : Type) (ok P : A -> bool) (l : list A) :
  (forall x, ok x = true -> P x = false) ->
  forallb ok l = true -> filter P l = [].
Proof.
  intros Hok. induction l as [|x xs IH]; cbn; [reflexivity|].
  intros H. apply andb_true_iff in H. destruct H as [Hx Hxs].
  rewrite (Hok x Hx). now apply IH.
Qed.

Lemma create_filter_grows (ok : Job -> bool) (s s' : Client) :
  (forall j, ok j = true -> is_create j = false) ->
  queue_grows ok s s' ->
  filter is_create (microtasks s') = filter is_create (microtasks s).
Proof.
  intros Hok (added & Ha & Hall).
  rewrite Ha, filter_app, (filter_none Job ok is_create added Hok Hall).
  apply app_nil_r.
Qed.

Lemma awaited_not_create (j : Job) : is_awaited j = true -> is_create j = false.
Proof. destruct j; cbn; congruence. Qed.

Lemma creating_await (m : Method) (n : nat) (k : Cont) (s : Client) :
  creating (await m n k s) = creating s.
Proof.
  unfold creating. rewrite importing_await.
  rewrite (create_filter_grows is_awaited s (await m n k s) awaited_not_create);
    [reflexivity|].
  apply queue_grows_await. reflexivity.
Qed.

Lemma creating_settle (m : Method) (n : nat) (o : Outcome) (s : Client) :
  creating (settle m n o s) = creating s.
Proof.
  unfold creating. rewrite importing_settle.
  rewrite (create_filter_grows is_awaited s (settle m n o s) awaited_not_create);
    [reflexivity|].
  apply queue_grows_settle. reflexivity.
Qed.

Lemma creating__createSocket (s : Client) : creating (_createSocket s) = S (creating s).
Proof.
  unfold _createSocket, creating.
  destruct (hasGlobalWebSocket (alloc CreateSocketM s)); cbn; rewrite ?filter_app,
    ?length_app; cbn; lia.
Qed.

Lemma creating__waitForConnection (s : Client) :
  creating (_waitForConnection s) = creating s.
Proof.
  unfold creating. rewrite importing__waitForConnection.
  rewrite (create_filter_grows is_awaited s (_waitForConnection s) awaited_not_create);
    [reflexivity|].
  apply queue__waitForConnection. reflexivity.
Qed.

Lemma creation_connect (s : Client) :
  creating (connect s) = creating s + creates s
  /\ createSocket_calls (connect s) = createSocket_calls s + creates s.
Proof.
  unfold connect, creates, createSocket_calls. cbv zeta.
  change (_socket (alloc ConnectM s)) with (_socket s).
  change (_createSocketPromise (alloc ConnectM s)) with (_createSocketPromise s).
  destruct (_socket s) as [i|] eqn:Es; [|destruct (_createSocketPromise s) as [p|] eqn:Ep].
  - rewrite creating_await, creating__waitForConnection, socket_promise_await,
      socket_promise__waitForConnection.
    change (creating (alloc ConnectM s)) with (creating s).
    change (_createSocketPromise (alloc ConnectM s)) with (_createSocketPromise s).
    destruct (_createSocketPromise s); split; lia.
  - rewrite creating_await, socket_promise_await.
    change (creating (alloc ConnectM s)) with (creating s).
    change (_createSocketPromise (alloc ConnectM s)) with (_createSocketPromise s).
    rewrite Ep. split; lia.
  - rewrite creating_await, socket_promise_await.
    change (creating (set_createSocketPromise ?v ?s0)) with (creating s0).
    rewrite creating__createSocket.
    change (creating (alloc ConnectM s)) with (creating s).
    cbn [_createSocketPromise set_createSocketPromise]. split; lia.
Qed.

Lemma creation_sendAndWaitReply (message : string) (s : Client) :
  creating (sendAndWaitReply message s) = creating s + creates s
  /\ createSocket_calls (sendAndWaitReply message s) = createSocket_calls s + creates s.
Proof.
  unfold sendAndWaitReply. cbv zeta.
  destruct (creation_connect (alloc ReplyM s)) as [Hc Hp].
  unfold createSocket_calls in *. rewrite creating_await, socket_promise_await.
  exact (conj Hc Hp).
Qed.

Lemma creation_runCommand (command : string) (ctx : option ContextContainer) (s : Client) :
  creating (runCommand command ctx s) = creating s + creates s
  /\ createSocket_calls (runCommand command ctx s) = createSocket_calls s + creates s.
Proof.
  unfold runCommand. cbv zeta.
  destruct (creation_sendAndWaitReply (command_text command ctx) (alloc CommandM s))
    as [Hc Hp].
  unfold createSocket_calls in *. rewrite creating_await, socket_promise_await.
  exact (conj Hc Hp).
Qed.

Lemma creation_subscribeMany (events : list string) (callback : nat) (s : Client) :
  creating (subscribeMany events callback s) = creating s + creates s
  /\ createSocket_calls (subscribeMany events callback s) = createSocket_calls s + creates s.
Proof.
  unfold subscribeMany. cbv zeta.
  destruct (creation_sendAndWaitReply (subscribe_text events) (alloc SubscribeM s))
    as [Hc Hp].
  unfold createSocket_calls in *. rewrite creating_await, socket_promise_await.
  exact (conj Hc Hp).
Qed.

Lemma creation_unlistenFn (n : nat) (events : list string) (callback : nat)
      (response : JsValue) (s : Client) :
  exists d,
    creating (unlistenFn n events callback response s) = creating s + d
    /\ createSocket_calls (unlistenFn n events callback response s)
       = createSocket_calls s + d.
Proof.
  unfold unlistenFn. cbv zeta.
  set (s2 := unlisten_message (SubscriptionListener n events callback) (alloc UnlistenM s)).
  assert (Hsend : forall message,
             creating (await ReplyM (next_call ReplyM s2) (KUnlistenReplied (next_call UnlistenM s))
                         (sendAndWaitReply message s2)) = creating s + creates s
             /\ createSocket_calls
                  (await ReplyM (next_call ReplyM s2) (KUnlistenReplied (next_call UnlistenM s))
                         (sendAndWaitReply message s2)) = createSocket_calls s + creates s).
  { intros message. destruct (creation_sendAndWaitReply message s2) as [Hc Hp].
    unfold createSocket_calls in *. rewrite creating_await, socket_promise_await.
    exact (conj Hc Hp). }
  destruct response as [[]|]; try (exists (creates s); apply Hsend);
    exists 0; unfold createSocket_calls; rewrite creating_settle, socket_promise_settle;
    rewrite !Nat.add_0_r; split; reflexivity.
Qed.

Lemma Forall_update_nth (A : Type) (P : A -> Prop) (f : A -> A) (l : list A) :
  (forall x, P x -> P (f x)) ->
  forall n, Forall P l -> Forall P (update_nth n f l).
Proof.
  intros Hf. induction l as [|x xs IH]; intros [|n] H; cbn; try exact H;
    inversion H; subst; constructor; auto.
Qed.

Lemma ws_port_ws_close (ws : WebSocket) : ws_port (ws_close ws) = ws_port ws.
Proof. unfold ws_close. destruct (readyState ws); reflexivity. Qed.

Lemma ws_port_ws_send (message : string) (ws ws' : WebSocket) :
  ws_send message ws = Some ws' -> ws_port ws' = ws_port ws.
Proof.
  unfold ws_send. destruct (readyState ws); intros H; try discriminate;
    now injection H as <-.
Qed.

Lemma sockets_call (op : Op) (s s' : Client) :
  call op s = Some s' ->
  port s' = port s
  /\ List.length (sockets s') = List.length (sockets s)
  /\ (forall P : WebSocket -> Prop,
         (forall ws, P ws -> P (ws_close ws)) ->
         Forall P (sockets s) -> Forall P (sockets s')).
Proof.
  destruct op as [ | | |message|query|command ctx|event callback|events callback
                  |sub|f|f|f|f|f|f|f|f]; cbn [call];
    try (destruct (promise s SubscribeM sub) as [[|[[]|]]|]; try discriminate);
    intros H; injection H as <-.
  2:{ unfold closeConnection. destruct (_socket s) as [i|].
      - cbn [port sockets set_sockets]. rewrite length_update_nth.
        repeat split. intros P HP. now apply Forall_update_nth.
      - repeat split. auto. }
  all: try (repeat split; auto; fail).
  all: unfold sendQuery;
    rewrite ?port_connect, ?sockets_connect, ?port__waitForConnection,
      ?sockets__waitForConnection, ?port_sendAndWaitReply, ?sockets_sendAndWaitReply,
      ?port_runCommand, ?sockets_runCommand, ?port_subscribeMany, ?sockets_subscribeMany,
      ?port_unlistenFn, ?sockets_unlistenFn;
    repeat split; auto.
Qed.

(** A call creates a socket only through [connect], and only if none was
    created before. *)
Lemma single_socket_call (op : Op) (s s' : Client) :
  single_socket s -> call op s = Some s' -> single_socket s'.
Proof.
  intros [Hb Hp] Hcall.
  destruct (sockets_call op s s' Hcall) as (Hport & Hlen & Hall).
  assert (Hd : exists d, creating s' = creating s + d
                         /\ createSocket_calls s' = createSocket_calls s + d).
  { destruct op as [ | | |message|query|command ctx|event callback|events callback
                    |sub|f|f|f|f|f|f|f|f]; cbn [call] in Hcall;
      try (destruct (promise s SubscribeM sub) as [[|[[]|]]|]; try discriminate);
      injection Hcall as <-.
    - exists (creates s). apply creation_connect.
    - exists 0. unfold createSocket_calls, creating.
      rewrite socket_promise_closeConnection, importing_closeConnection.
      unfold closeConnection.
      destruct (_socket s); split; cbn [microtasks set_sockets]; lia.
    - exists 0. unfold createSocket_calls.
      rewrite creating__waitForConnection, socket_promise__waitForConnection. split; lia.
    - exists (creates s). apply creation_sendAndWaitReply.
    - exists (creates s). apply creation_sendAndWaitReply.
    - exists (creates s). apply creation_runCommand.
    - exists (creates s). apply creation_subscribeMany.
    - exists (creates s). apply creation_subscribeMany.
    - apply creation_unlistenFn.
    - exists 0. unfold creating, createSocket_calls. split; cbn; lia.
    - exists 0. unfold creating, createSocket_calls. split; cbn; lia.
    - exists 0. unfold creating, createSocket_calls. split; cbn; lia.
    - exists 0. unfold creating, createSocket_calls. split; cbn; lia.
    - exists 0. unfold creating, createSocket_calls. split; cbn; lia.
    - exists 0. unfold creating, createSocket_calls. split; cbn; lia.
    - exists 0. unfold creating, createSocket_calls. split; cbn; lia.
    - exists 0. unfold creating, createSocket_calls. split; cbn; lia. }
  destruct Hd as (d & Hc & Hcalls). split.
  - lia.
  - unfold configured_port. rewrite Hport. apply Hall; [|exact Hp].
    intros ws Hws. now rewrite ws_port_ws_close.
Qed.

Lemma Forall_update_nth_at (A : Type) (P : A -> Prop) (y : A) (l : list A) :
  forall n x, nth_error l n = Some x -> (P x -> P y) ->
              Forall P l -> Forall P (update_nth n (fun _ => y) l).
Proof.
  induction l as [|z zs IH]; intros [|n] x Hx Hy H; cbn in *; try discriminate;
    inversion H; subst; constructor; auto.
  - injection Hx as <-. auto.
  - eapply IH; eauto.
Qed.

Lemma sockets_sendAndWaitReply_connected (n : nat) (message : string) (s : Client) :
  List.length (sockets (sendAndWaitReply_connected n message s)) = List.length (sockets s)
  /\ (forall p, Forall (fun ws => ws_port ws = p) (sockets s) ->
                Forall (fun ws => ws_port ws = p)
                       (sockets (sendAndWaitReply_connected n message s))).
Proof.
  unfold sendAndWaitReply_connected.
  destruct (_socket s) as [i|]; [|split; auto].
  destruct (nth_error (sockets s) i) as [ws|] eqn:Ews; [|split; auto].
  destruct (ws_send message ws) as [ws'|] eqn:Esend; [|split; auto].
  cbn [sockets register_message set_onMessageCallbacks set_sockets].
  rewrite length_update_nth. split; [reflexivity|].
  intros p Hp. apply (Forall_update_nth_at _ _ ws' (sockets s) i ws Ews); [|exact Hp].
  intros <-. now apply (ws_port_ws_send message ws ws').
Qed.

(** A microtask other than the rest of [_createSocket] constructs no
    socket. *)
Lemma run_job_no_socket (j : Job) (s : Client) :
  is_create j = false ->
  port (run_job j s) = port s
  /\ _createSocketPromise (run_job j s) = _createSocketPromise s
  /\ importing (run_job j s) = importing s
  /\ List.length (sockets (run_job j s)) = List.length (sockets s)
  /\ (forall p, Forall (fun ws => ws_port ws = p) (sockets s) ->
                Forall (fun ws => ws_port ws = p) (sockets (run_job j s))).
Proof.
  intros Hj.
  destruct j as [[c|c|c message|c events callback|c|c] [v|r] | c [] | c message o | c o];
    try discriminate;
    cbn [run_job resume subscribeMany_replied].
  all: try (frame; repeat split; auto; fail).
  destruct (sockets_sendAndWaitReply_connected c message s) as [Hlen Hall].
  rewrite port_sendAndWaitReply_connected, socket_promise_sendAndWaitReply_connected,
    importing_sendAndWaitReply_connected.
  repeat split; assumption.
Qed.

Lemma single_socket_tick (s s' : Client) :
  single_socket s -> tick s = Some s' -> single_socket s'.
Proof.
  intros [Hb Hp] Ht.
  destruct (queue_tick s s' Ht) as (j & q & added & Hq & Hs' & Hadd & Hok).
  assert (Hcreating : creating s' + (if is_create j then 1 else 0)
                      = creating s + 0
                      /\ importing s' = importing s).
  { assert (Hi : importing s' = importing s).
    { rewrite Hs'.
      destruct (is_create j) eqn:Hj.
      - destruct j as [k o|k api|k m o|k o]; try discriminate.
        cbn [run_job]. rewrite importing__createSocket_resume. reflexivity.
      - destruct (run_job_no_socket j (set_microtasks q s) Hj) as (_ & _ & Hi & _).
        exact Hi. }
    split; [|exact Hi]. unfold creating. rewrite Hi, Hadd, Hq, filter_app.
    rewrite (filter_none Job is_awaited is_create added awaited_not_create Hok).
    cbn [filter]. destruct (is_create j); cbn [List.length]; rewrite app_nil_r; lia. }
  destruct Hcreating as [Hc Hi].
  destruct (is_create j) eqn:Hj.
  - destruct j as [k o|k api|k m o|k o]; try discriminate.
    assert (Hport : port s' = port s)
      by (rewrite Hs'; cbn [run_job]; now rewrite port__createSocket_resume).
    assert (Hcalls : _createSocketPromise s' = _createSocketPromise s)
      by (rewrite Hs'; cbn [run_job]; now rewrite socket_promise__createSocket_resume).
    assert (Hsock : sockets s'
                    = sockets s ++ (if api
                                    then [mkWebSocket (configured_port s) CONNECTING []]
                                    else [])).
    { rewrite Hs'. cbn [run_job]. unfold _createSocket_resume.
      destruct api; rewrite sockets_settle; [reflexivity|].
      cbn [sockets set_microtasks]. now rewrite app_nil_r. }
    unfold single_socket, createSocket_calls, configured_port in *.
    rewrite Hport, Hcalls, Hsock, length_app. split.
    + destruct api; cbn [List.length]; lia.
    + apply Forall_app. split; [exact Hp|].
      destruct api; constructor; [reflexivity | constructor].
  - destruct (run_job_no_socket j (set_microtasks q s) Hj) as (Hport & Hcalls & _ & Hlen & Hall).
    rewrite <- Hs' in *. cbn [port _createSocketPromise sockets set_microtasks] in *.
    unfold single_socket, createSocket_calls, configured_port in *.
    rewrite Hport, Hcalls, Hlen. split; [lia|]. now apply Hall.
Qed.

Lemma filter_create_onopen (s : Client) :
  filter is_create (microtasks (onopen s)) = filter is_create (microtasks s).
Proof.
  unfold onopen. rewrite microtasks_handled.
  apply (@forEach_preserves _ invoke_connect
           (fun s' => filter is_create (microtasks s') = filter is_create (microtasks s)));
    [|reflexivity].
  intros [w|f] s1 H; cbn [invoke_connect state_of]; [|exact H].
  rewrite microtasks_settle_wait, filter_app, H.
  destruct (inner_promise s1 WaitM w) as [[|]|]; apply app_nil_r.
Qed.

Lemma filter_create_onmessage (e : MessageEvent) (s : Client) :
  filter is_create (microtasks (onmessage e s)) = filter is_create (microtasks s).
Proof.
  unfold onmessage. rewrite microtasks_handled.
  apply (@forEach_preserves _ (invoke_message e)
           (fun s' => filter is_create (microtasks s') = filter is_create (microtasks s)));
    [|reflexivity].
  intros cb s1 H. rewrite <- H. clear H.
  destruct cb as [c message|c events callback|f]; cbn [invoke_message].
  - unfold reply_listener.
    destruct e as [[]|]; cbn [state_of]; try reflexivity;
      repeat match goal with
             | |- context [if ?b then _ else _] => destruct b
             end;
      rewrite ?microtasks_settle_reply, ?filter_app;
      repeat match goal with
             | |- context [inner_promise ?s0 ReplyM c] =>
                 destruct (inner_promise s0 ReplyM c) as [[|]|]
             end; cbn [filter is_create]; rewrite ?app_nil_r; reflexivity.
  - unfold subscription_listener.
    destruct e as [[]|]; cbn [state_of]; try reflexivity;
      repeat match goal with
             | |- context [if ?b then _ else _] => destruct b
             end; reflexivity.
  - reflexivity.
Qed.

Lemma length_filter_le (A : Type) (P : A -> bool) (l : list A) :
  List.length (filter P l) <= List.length l.
Proof. induction l as [|x xs IH]; cbn; [lia|]. destruct (P x); cbn; lia. Qed.

Lemma length_filter_lt (k : nat) (l : list nat) :
  existsb (Nat.eqb k) l = true ->
  List.length (filter (fun k' => negb (Nat.eqb k k')) l) < List.length l.
Proof.
  induction l as [|x xs IH]; cbn; [discriminate|].
  destruct (Nat.eqb k x); cbn.
  - intros _. pose proof (length_filter_le nat (fun k' => negb (Nat.eqb k k')) xs). lia.
  - intros H. specialize (IH H). lia.
Qed.

Lemma single_socket_deliver (ev : Event) (s s' : Client) :
  single_socket s -> deliver ev s = Some s' -> single_socket s'.
Proof.
  intros [Hb Hp] Hd. unfold single_socket, creating, createSocket_calls, configured_port in *.
  destruct ev as [k ok|i|i e|i|i]; cbn [deliver] in Hd.
  - destruct (existsb (Nat.eqb k) (importing s)) eqn:Hk; [|discriminate].
    injection Hd as <-.
    cbn [sockets importing microtasks _createSocketPromise port enqueue set_microtasks
           set_importing].
    rewrite filter_app, length_app. cbn [filter is_create List.length].
    pose proof (length_filter_lt k (importing s) Hk). split; [lia | exact Hp].
  - destruct (ready s i) as [[]|]; try discriminate. injection Hd as <-.
    rewrite sockets_onopen, importing_onopen, socket_promise_onopen, port_onopen,
      filter_create_onopen.
    cbn [sockets importing microtasks _createSocketPromise port set_readyState set_sockets].
    rewrite length_update_nth. split; [lia|].
    apply Forall_update_nth; [|exact Hp]. intros ws Hws. exact Hws.
  - assert (Hs' : s' = onmessage e s)
      by (destruct (ready s i) as [[]|]; try discriminate; now injection Hd as <-).
    subst s'.
    rewrite sockets_onmessage, importing_onmessage, socket_promise_onmessage, port_onmessage,
      filter_create_onmessage. split; assumption.
  - assert (Hs' : exists s0, s' = onerror s0
                             /\ (s0 = s \/ exists r, s0 = set_readyState i r s)).
    { destruct (ready s i) as [[]|]; try discriminate; injection Hd as <-;
        eexists; split; try reflexivity; eauto. }
    destruct Hs' as (s0 & -> & Hs0).
    rewrite sockets_onerror, importing_onerror, socket_promise_onerror, port_onerror,
      microtasks_onerror.
    destruct Hs0 as [->|[r ->]]; [split; assumption|].
    cbn [sockets importing microtasks _createSocketPromise port set_readyState set_sockets].
    rewrite length_update_nth. split; [lia|].
    apply Forall_update_nth; [|exact Hp]. intros ws Hws. exact Hws.
  - assert (Hs' : exists r, s' = onclose (set_readyState i r s)).
    { destruct (ready s i) as [[]|]; try discriminate; injection Hd as <-;
        eexists; reflexivity. }
    destruct Hs' as (r & ->).
    rewrite sockets_onclose, importing_onclose, socket_promise_onclose, port_onclose,
      microtasks_onclose.
    cbn [sockets importing microtasks _createSocketPromise port set_readyState set_sockets].
    rewrite length_update_nth. split; [lia|].
    apply Forall_update_nth; [|exact Hp]. intros ws Hws. exact Hws.
Qed.

Lemma single_socket_step (lab : Label) (s s' : Client) :
  single_socket s -> step s lab = Some s' -> single_socket s'.
Proof.
  intros Hs Hstep. destruct lab as [op| |ev]; cbn [step] in Hstep.
  - now apply (single_socket_call op s s').
  - now apply (single_socket_tick s s').
  - destruct (microtasks s); [|discriminate].
    now apply (single_socket_deliver ev s s').
Qed.

Lemma single_socket_run :
  forall ls s s', single_socket s -> run s ls = Some s' -> single_socket s'.
Proof.
  induction ls as [|lab ls IH]; intros s s' Hs Hrun; cbn [run] in Hrun.
  - now injection Hrun as <-.
  - destruct (step s lab) as [s1|] eqn:Hstep; [|discriminate].
    apply (IH s1 s'); [|assumption]. now apply (single_socket_step lab s s1).
Qed.

Lemma single_socket_new (options : option N) (api : bool) :
  single_socket (new_client options api).
Proof. split; [cbn; lia | constructor]. Qed.

(* ================================================================== *)
(** * Observing a state through the operations that built it *)
(* ================================================================== *)

Lemma waiting_enqueue (m : Method) (n : nat) (j : Job) (s : Client) :
  waiting (enqueue j s) m n = waiting s m n.
Proof. reflexivity. Qed.

Lemma waiting_emit (m : Method) (n : nat) (o : Obs) (s : Client) :
  waiting (emit o s) m n = waiting s m n.
Proof. reflexivity. Qed.

Lemma waiting_register_message (m : Method) (n : nat) (c : MessageCallback) (s : Client) :
  waiting (register_message c s) m n = waiting s m n.
Proof. reflexivity. Qed.

Lemma waiting_unlisten_message (m : Method) (n : nat) (c : MessageCallback) (s : Client) :
  waiting (unlisten_message c s) m n = waiting s m n.
Proof. reflexivity. Qed.

Lemma waiting_register_connect (m : Method) (n : nat) (c : ConnectCallback) (s : Client) :
  waiting (register_connect c s) m n = waiting s m n.
Proof. reflexivity. Qed.

Lemma waiting_unlisten_connect (m : Method) (n : nat) (c : ConnectCallback) (s : Client) :
  waiting (unlisten_connect c s) m n = waiting s m n.
Proof. reflexivity. Qed.

Lemma waiting_register_disconnect (m : Method) (n : nat) (c : nat) (s : Client) :
  waiting (register_disconnect c s) m n = waiting s m n.
Proof. reflexivity. Qed.

Lemma waiting_unlisten_disconnect (m : Method) (n : nat) (c : nat) (s : Client) :
  waiting (unlisten_disconnect c s) m n = waiting s m n.
Proof. reflexivity. Qed.

Lemma waiting_register_error (m : Method) (n : nat) (c : nat) (s : Client) :
  waiting (register_error c s) m n = waiting s m n.
Proof. reflexivity. Qed.

Lemma waiting_unlisten_error (m : Method) (n : nat) (c : nat) (s : Client) :
  waiting (unlisten_error c s) m n = waiting s m n.
Proof. reflexivity. Qed.

Lemma waiting_set_socket (m : Method) (n : nat) (v : option nat) (s : Client) :
  waiting (set_socket v s) m n = waiting s m n.
Proof. reflexivity. Qed.

Lemma waiting_set_createSocketPromise (m : Method) (n : nat) (v : option nat) (s : Client) :
  waiting (set_createSocketPromise v s) m n = waiting s m n.
Proof. reflexivity. Qed.

Lemma waiting_set_sockets (m : Method) (n : nat) (v : list WebSocket) (s : Client) :
  waiting (set_sockets v s) m n = waiting s m n.
Proof. reflexivity. Qed.

Lemma waiting_set_importing (m : Method) (n : nat) (v : list nat) (s : Client) :
  waiting (set_importing v s) m n = waiting s m n.
Proof. reflexivity. Qed.

Lemma waiting_set_microtasks (m : Method) (n : nat) (v : list Job) (s : Client) :
  waiting (set_microtasks v s) m n = waiting s m n.
Proof. reflexivity. Qed.

Lemma waiting_set_log (m : Method) (n : nat) (v : list Obs) (s : Client) :
  waiting (set_log v s) m n = waiting s m n.
Proof. reflexivity. Qed.

Lemma waiting_set_onMessageCallbacks (m : Method) (n : nat) (v : list MessageCallback) (s : Client) :
  waiting (set_onMessageCallbacks v s) m n = waiting s m n.
Proof. reflexivity. Qed.

Lemma waiting_set_onConnectCallbacks (m : Method) (n : nat) (v : list ConnectCallback) (s : Client) :
  waiting (set_onConnectCallbacks v s) m n = waiting s m n.
Proof. reflexivity. Qed.

Lemma waiting_set_readyState (m : Method) (n : nat) (i : nat) (r : ReadyState) (s : Client) :
  waiting (set_readyState i r s) m n = waiting s m n.
Proof. reflexivity. Qed.

Lemma port_alloc (m : Method) (s : Client) : port (alloc m s) = port s.
Proof. reflexivity. Qed.

Lemma api_alloc (m : Method) (s : Client) : hasGlobalWebSocket (alloc m s) = hasGlobalWebSocket s.
Proof. reflexivity. Qed.

Lemma socket_alloc (m : Method) (s : Client) : _socket (alloc m s) = _socket s.
Proof. reflexivity. Qed.

Lemma socket_promise_alloc (m : Method) (s : Client) : _createSocketPromise (alloc m s) = _createSocketPromise s.
Proof. reflexivity. Qed.

Lemma messages_alloc (m : Method) (s : Client) : _onMessageCallbacks (alloc m s) = _onMessageCallbacks s.
Proof. reflexivity. Qed.

Lemma connects_alloc (m : Method) (s : Client) : _onConnectCallbacks (alloc m s) = _onConnectCallbacks s.
Proof. reflexivity. Qed.

Lemma disconnects_alloc (m : Method) (s : Client) : _onDisconnectCallbacks (alloc m s) = _onDisconnectCallbacks s.
Proof. reflexivity. Qed.

Lemma errors_alloc (m : Method) (s : Client) : _onErrorCallbacks (alloc m s) = _onErrorCallbacks s.
Proof. reflexivity. Qed.

Lemma sockets_alloc (m : Method) (s : Client) : sockets (alloc m s) = sockets s.
Proof. reflexivity. Qed.

Lemma importing_alloc (m : Method) (s : Client) : importing (alloc m s) = importing s.
Proof. reflexivity. Qed.

Lemma log_alloc (m : Method) (s : Client) : log (alloc m s) = log s.
Proof. reflexivity. Qed.

#[export] Hint Rewrite
  waiting_enqueue
  waiting_emit
  waiting_register_message
  waiting_unlisten_message
  waiting_register_connect
  waiting_unlisten_connect
  waiting_register_disconnect
  waiting_unlisten_disconnect
  waiting_register_error
  waiting_unlisten_error
  waiting_set_socket
  waiting_set_createSocketPromise
  waiting_set_sockets
  waiting_set_importing
  waiting_set_microtasks
  waiting_set_log
  waiting_set_onMessageCallbacks
  waiting_set_onConnectCallbacks
  waiting_set_readyState
  port_alloc
  api_alloc
  socket_alloc
  socket_promise_alloc
  messages_alloc
  connects_alloc
  disconnects_alloc
  errors_alloc
  sockets_alloc
  importing_alloc
  log_alloc
  : frame.

Lemma waiting_fresh (s : Client) (m : Method) (n : nat) :
  next_call m s <= n -> waiting s m n = [].
Proof.
  intros H. unfold waiting, next_call in *.
  now rewrite (proj2 (nth_error_None _ _)) by lia.
Qed.

Lemma promise_fresh (s : Client) (m : Method) (n : nat) :
  next_call m s <= n -> promise s m n = None.
Proof.
  intros H. unfold promise, next_call in *.
  now rewrite (proj2 (nth_error_None _ _)) by lia.
Qed.

Lemma next_call_alloc (m m' : Method) (s : Client) :
  next_call m' (alloc m s) = if Method_eqb m m' then S (next_call m' s) else next_call m' s.
Proof.
  destruct (Method_eqb m m') eqn:E.
  - apply Method_eqb_spec in E. subst. apply next_call_alloc_same.
  - apply next_call_alloc_other. intros ->. now rewrite Method_eqb_refl in E.
Qed.

Create Rewrite HintDb observe.
#[export] Hint Rewrite waiting_alloc waiting_settle waiting_await waiting_settle_reply
  waiting_settle_wait microtasks_settle microtasks_await microtasks_alloc microtasks_enqueue
  microtasks_settle_reply microtasks_settle_wait
  next_call_alloc : observe.

(** Rewrite an observation of a state (a field, a promise, the suspended
    continuations, the queue) through the operations the state is built
    with, and decide the tests on call numbers that are syntactically
    equal. *)
Ltac observe :=
  repeat (progress (autorewrite with observe heap frame;
                    cbn [Method_eqb andb orb negb app map
                         port hasGlobalWebSocket _socket _createSocketPromise
                         _onMessageCallbacks _onConnectCallbacks _onDisconnectCallbacks
                         _onErrorCallbacks sockets importing log microtasks
                         enqueue emit register_message unlisten_message register_connect
                         unlisten_connect register_disconnect unlisten_disconnect
                         register_error unlisten_error
                         set_socket set_createSocketPromise set_sockets set_importing
                         set_log set_readyState set_microtasks set_onMessageCallbacks
                         set_onConnectCallbacks set_onDisconnectCallbacks
                         set_onErrorCallbacks];
                    rewrite ?Nat.eqb_refl));
  cbn [andb].

Lemma socket_is_open_spec (i : nat) (s : Client) :
  _socket s = Some i -> ready s i = Some OPEN -> socket_is_open s = true.
Proof.
  unfold socket_is_open, ready. intros -> H.
  destruct (nth_error (sockets s) i) as [ws|]; [|discriminate].
  cbn in H. injection H as ->. reflexivity.
Qed.

Lemma socket_is_open_not (s : Client) :
  (forall i, _socket s = Some i -> ready s i <> Some OPEN) -> socket_is_open s = false.
Proof.
  unfold socket_is_open, ready. intros H.
  destruct (_socket s) as [i|]; [|reflexivity].
  specialize (H i eq_refl).
  destruct (nth_error (sockets s) i) as [ws|]; [|reflexivity].
  cbn in H. destruct (readyState ws); try reflexivity. now contradiction H.
Qed.

Lemma connect_open_eq (i : nat) (s : Client) :
  _socket s = Some i -> ready s i = Some OPEN ->
  connect s
  = await WaitM (next_call WaitM s) (KConnectOpened (next_call ConnectM s))
      (settle WaitM (next_call WaitM s) (Fulfilled (VSocket (Some i)))
         (alloc WaitM (alloc ConnectM s))).
Proof.
  intros Hs Hr. unfold connect. cbv zeta.
  change (_socket (alloc ConnectM s)) with (_socket s). rewrite Hs.
  unfold _waitForConnection. cbv zeta.
  change (socket_is_open (alloc WaitM (alloc ConnectM s))) with (socket_is_open s).
  rewrite (socket_is_open_spec i s Hs Hr).
  change (_socket (alloc WaitM (alloc ConnectM s))) with (_socket s). rewrite Hs.
  observe. reflexivity.
Qed.


(* ================================================================== *)
(** * Nothing mentions a request before it is made *)
(* ================================================================== *)

Lemma next_call_ReplyM_connect (s : Client) :
  next_call ReplyM (connect s) = next_call ReplyM s.
Proof.
  unfold connect, _waitForConnection, _createSocket. cbv zeta.
  destruct (_socket (alloc ConnectM s)); [|destruct (_createSocketPromise (alloc ConnectM s))].
  - destruct (socket_is_open (alloc WaitM (alloc ConnectM s))); observe; reflexivity.
  - observe. reflexivity.
  - destruct (hasGlobalWebSocket (alloc CreateSocketM (alloc ConnectM s)));
      observe; reflexivity.
Qed.

Lemma next_call_ReplyM_sendAndWaitReply (message : string) (s : Client) :
  next_call ReplyM (sendAndWaitReply message s) = S (next_call ReplyM s).
Proof.
  unfold sendAndWaitReply. cbv zeta.
  rewrite next_call_await, next_call_ReplyM_connect. observe. reflexivity.
Qed.

(** The requests a call suspends are those it makes. *)
Lemma pending_resends_call (n : nat) (op : Op) (s s' : Client) :
  call op s = Some s' ->
  next_call ReplyM s' <= n ->
  pending (resends n) s = 0 ->
  pending (resends n) s' = 0.
Proof.
  intros Hcall Hn Hz.
  pose proof (next_call_call_le ReplyM op s Hcall) as Hle.
  pose proof (pending_call (resends n) op s Hcall) as Hp.
  assert (Hsend : forall message s0,
             next_call ReplyM s0 = next_call ReplyM s ->
             next_call ReplyM (sendAndWaitReply message s0) <= n ->
             Nat.eqb (next_call ReplyM s) n = false).
  { intros message s0 Hs0 H. rewrite next_call_ReplyM_sendAndWaitReply, Hs0 in H.
    apply Nat.eqb_neq. lia. }
  destruct op as [ | | |message|query|command ctx|event callback|events callback
                  |sub|f|f|f|f|f|f|f|f]; cbn [call call_conts] in *;
    unfold send_conts, connect_conts in Hp; cbn [map resends] in Hp.
  1-3, 10-17: (rewrite ?total_cons in Hp; change (total []) with 0 in Hp; lia).
  - injection Hcall as <-.
    rewrite (Hsend message s eq_refl Hn) in Hp.
    rewrite ?total_cons in Hp; change (total []) with 0 in Hp; lia.
  - injection Hcall as <-. unfold sendQuery in Hn.
    rewrite (Hsend _ s eq_refl Hn) in Hp.
    rewrite ?total_cons in Hp; change (total []) with 0 in Hp; lia.
  - injection Hcall as <-. unfold runCommand in Hn. cbv zeta in Hn.
    rewrite next_call_await in Hn.
    rewrite (Hsend _ (alloc CommandM s) eq_refl Hn) in Hp.
    rewrite ?total_cons in Hp; change (total []) with 0 in Hp; lia.
  - injection Hcall as <-. unfold subscribeMany in Hn. cbv zeta in Hn.
    rewrite next_call_await in Hn.
    rewrite (Hsend _ (alloc SubscribeM s) eq_refl Hn) in Hp.
    rewrite ?total_cons in Hp; change (total []) with 0 in Hp; lia.
  - injection Hcall as <-. unfold subscribeMany in Hn. cbv zeta in Hn.
    rewrite next_call_await in Hn.
    rewrite (Hsend _ (alloc SubscribeM s) eq_refl Hn) in Hp.
    rewrite ?total_cons in Hp; change (total []) with 0 in Hp; lia.
  - destruct (promise s SubscribeM sub) as [[|[[ |sock|d|events callback response]|r]]|];
      try discriminate.
    injection Hcall as <-. clear Hp. unfold unlistenFn in *. cbv zeta in *.
    set (s2 := unlisten_message (SubscriptionListener sub events callback)
                 (alloc UnlistenM s)) in *.
    assert (Hnull : pending (resends n)
                      (settle UnlistenM (next_call UnlistenM s) (Rejected ThrownTypeError) s2)
                    = 0).
    { assert (H : pending (resends n)
                    (settle UnlistenM (next_call UnlistenM s) (Rejected ThrownTypeError) s2)
                  <= pending (resends n) s) by (unfold s2; pending_bound).
      lia. }
    assert (Hreq : forall message,
               next_call ReplyM
                 (await ReplyM (next_call ReplyM s2) (KUnlistenReplied (next_call UnlistenM s))
                    (sendAndWaitReply message s2)) <= n ->
               pending (resends n)
                 (await ReplyM (next_call ReplyM s2) (KUnlistenReplied (next_call UnlistenM s))
                    (sendAndWaitReply message s2)) = 0).
    { intros message H. rewrite next_call_await in H.
      pose proof (Hsend message s2 eq_refl H) as Hne.
      pose proof (pending_await (resends n) ReplyM (next_call ReplyM s2)
                    (KUnlistenReplied (next_call UnlistenM s))
                    (sendAndWaitReply message s2)) as H1.
      pose proof (pending_sendAndWaitReply (resends n) message s2) as H2.
      change (next_call ReplyM s2) with (next_call ReplyM s) in H2.
      change (pending (resends n) s2) with (pending (resends n) (alloc UnlistenM s)) in H2.
      rewrite pending_alloc in H2.
      cbn [resends] in H1, H2. rewrite Hne in H2. lia. }
    destruct response as [[]|]; try exact Hnull; now apply Hreq.
Qed.

Lemma fresh_requests_call (op : Op) (s s' : Client) :
  fresh_requests s -> call op s = Some s' -> fresh_requests s'.
Proof.
  intros Hs Hcall n Hn.
  pose proof (next_call_call_le ReplyM op s Hcall) as Hle.
  destruct (Hs n) as (Hl & Hz & Hf); [lia|].
  pose proof (messages_step (Call op) s Hcall) as Hm.
  repeat split.
  - rewrite Hm, reply_listeners_change; [exact Hl|]. cbn [step_change].
    destruct op as [ | | |message|query|command ctx|event callback|events callback
                    |sub|f|f|f|f|f|f|f|f]; cbn [call_change]; try exact I; try reflexivity.
    destruct (promise s SubscribeM sub) as [[|[[ |sock|d|events callback response]|r]]|];
      try exact I; reflexivity.
  - now apply (pending_resends_call n op s s').
  - rewrite <- Hf. apply finally_jobs_grows with (ok := is_awaited_or_create);
      [apply awaited_or_create_not_finally | now apply (queue_call op s s')].
Qed.

Lemma fresh_requests_tick (s s' : Client) :
  fresh_requests s -> tick s = Some s' -> fresh_requests s'.
Proof.
  intros Hs Htick n Hn.
  pose proof (next_call_tick_le ReplyM s Htick) as Hle.
  destruct (Hs n) as (Hl & Hz & Hf); [lia|].
  destruct (reply_tick_registry n s s' Htick Hz) as (Hl' & Hz' & Hf').
  { destruct (microtasks s) as [|j q]; [exact I|].
    cbn [finally_jobs filter] in Hf. destruct (is_finally n j); [discriminate|reflexivity]. }
  rewrite Hl', Hf'. repeat split; assumption.
Qed.

Lemma fresh_requests_deliver (ev : Event) (s s' : Client) :
  fresh_requests s -> deliver ev s = Some s' -> fresh_requests s'.
Proof.
  intros Hs Hd n Hn.
  rewrite (next_call_deliver ReplyM ev s Hd) in Hn.
  destruct (Hs n Hn) as (Hl & Hz & Hf).
  pose proof (pending_deliver (resends n) ev s Hd) as Hp.
  rewrite (messages_deliver ev s Hd).
  split; [exact Hl|]. split; [lia|].
  assert (Hother : match ev with SocketMessage _ _ => False | _ => True end ->
                   finally_jobs n (microtasks s') = []).
  { intros Hev. now rewrite (finally_jobs_deliver_other n ev s s' Hd Hev). }
  destruct ev as [k ok|i|i e|i|i]; try (apply Hother; exact I).
  cbn [deliver] in Hd.
  assert (Hs' : s' = onmessage e s)
    by (destruct (ready s i) as [[]|]; try discriminate; now injection Hd as <-).
  subst s'. unfold onmessage. rewrite microtasks_handled.
  destruct (@forEach_others n e (_onMessageCallbacks s) s) as [_ Hf'].
  { intros msg Hin. exfalso. exact (@reply_listeners_nil n _ Hl msg Hin). }
  now rewrite Hf'.
Qed.

Lemma fresh_requests_step (lab : Label) (s s' : Client) :
  fresh_requests s -> step s lab = Some s' -> fresh_requests s'.
Proof.
  intros Hs Hstep. destruct lab as [op| |ev]; cbn [step] in Hstep.
  - now apply (fresh_requests_call op s s').
  - now apply (fresh_requests_tick s s').
  - destruct (microtasks s); [|discriminate].
    now apply (fresh_requests_deliver ev s s').
Qed.

Lemma fresh_requests_run :
  forall ls s s', fresh_requests s -> run s ls = Some s' -> fresh_requests s'.
Proof.
  induction ls as [|lab ls IH]; intros s s' Hs Hrun; cbn [run] in Hrun.
  - now injection Hrun as <-.
  - destruct (step s lab) as [s1|] eqn:Hstep; [|discriminate].
    apply (IH s1 s'); [|assumption]. now apply (fresh_requests_step lab s s1).
Qed.

Lemma fresh_requests_new (options : option N) (api : bool) :
  fresh_requests (new_client options api).
Proof. intros n _. repeat split. Qed.

(* ================================================================== *)
(** * A request on an open connection *)
(* ================================================================== *)

Lemma ready_open (s : Client) (i : nat) (ws : WebSocket) :
  nth_error (sockets s) i = Some ws -> readyState ws = OPEN -> ready s i = Some OPEN.
Proof. intros H1 H2. unfold ready. now rewrite H1, <- H2. Qed.

(** The two microtasks of a request on an open connection: [connect]
    returns, then the executor sends the text and registers the
    listener. *)
Lemma drain_sending (n c i : nat) (message : string) (v1 : Value) (ws : WebSocket)
      (s1 : Client) :
  microtasks s1 = [JAwaited (KConnectOpened c) (Fulfilled v1)] ->
  promise s1 ConnectM c = Some Pending ->
  waiting s1 ConnectM c = [KSendConnected n message] ->
  _socket s1 = Some i ->
  nth_error (sockets s1) i = Some ws ->
  readyState ws = OPEN ->
  drain s1
  = register_message (ReplyListener n message)
      (set_sockets (update_nth i (fun _ => transmit message ws) (sockets s1))
         (set_microtasks []
            (settle ConnectM c (Fulfilled VUndefined) (set_microtasks [] s1))))
  /\ forall h, pending h (drain s1) + h (KSendConnected n message) + h (KConnectOpened c)
               <= pending h s1.
Proof.
  intros Hq1 Hp Hw Hs Hws Hopen.
  set (s2 := settle ConnectM c (Fulfilled VUndefined) (set_microtasks [] s1)).
  assert (Hq2 : microtasks s2 = [JAwaited (KSendConnected n message) (Fulfilled VUndefined)]).
  { unfold s2. observe. now rewrite Hp, Hw. }
  assert (Hrun : sendAndWaitReply_connected n message (set_microtasks [] s2)
                 = register_message (ReplyListener n message)
                     (set_sockets (update_nth i (fun _ => transmit message ws) (sockets s1))
                        (set_microtasks [] s2))).
  { unfold sendAndWaitReply_connected.
    assert (H1 : _socket (set_microtasks [] s2) = Some i) by (unfold s2; observe; exact Hs).
    assert (H2 : sockets (set_microtasks [] s2) = sockets s1) by (unfold s2; observe; reflexivity).
    rewrite H1, H2, Hws. unfold ws_send. rewrite Hopen. reflexivity. }
  assert (Hd : drain s1
               = register_message (ReplyListener n message)
                   (set_sockets (update_nth i (fun _ => transmit message ws) (sockets s1))
                      (set_microtasks [] s2))).
  { rewrite (drain_job _ _ s1 Hq1). cbn [run_job resume pass]. fold s2.
    rewrite (drain_job _ _ s2 Hq2). cbn [run_job resume]. rewrite Hrun.
    apply drain_done. reflexivity. }
  split; [exact Hd|].
  intros h. rewrite Hd.
  change (pending h (register_message ?cb (set_sockets ?v ?s0))) with (pending h s0).
  pose proof (pending_pop h s1 Hq1) as P1.
  pose proof (pending_pop h s2 Hq2) as P2.
  pose proof (pending_settle h ConnectM c (Fulfilled VUndefined) (set_microtasks [] s1)) as P3.
  fold s2 in P3. cbn [awaited] in P1, P2. lia.
Qed.

(** [sendAndWaitReply], up to its first microtask, on an open connection. *)
Lemma sendAndWaitReply_open (i : nat) (message : string) (s : Client) :
  _socket s = Some i -> ready s i = Some OPEN -> microtasks s = [] ->
  let s1 := sendAndWaitReply message s in
  microtasks s1
  = [JAwaited (KConnectOpened (next_call ConnectM s)) (Fulfilled (VSocket (Some i)))]
  /\ promise s1 ConnectM (next_call ConnectM s) = Some Pending
  /\ waiting s1 ConnectM (next_call ConnectM s)
     = [KSendConnected (next_call ReplyM s) message]
  /\ promise s1 ReplyM (next_call ReplyM s) = Some Pending
  /\ inner_promise s1 ReplyM (next_call ReplyM s) = Some Pending
  /\ waiting s1 ReplyM (next_call ReplyM s) = [].
Proof.
  intros Hs Hr Hq. unfold sendAndWaitReply. cbv zeta.
  rewrite (connect_open_eq i (alloc ReplyM s) Hs Hr).
  change (next_call ConnectM (alloc ReplyM s)) with (next_call ConnectM s).
  change (next_call WaitM (alloc ReplyM s)) with (next_call WaitM s).
  repeat split; observe; rewrite ?Hq, ?waiting_fresh by lia; observe; reflexivity.
Qed.

(** What the two microtasks leave: the text is on the socket, the listener
    is registered, the request is outstanding. *)
Lemma sending_result (n c i : nat) (message : string) (v1 : Value) (ws : WebSocket)
      (s1 : Client) :
  microtasks s1 = [JAwaited (KConnectOpened c) (Fulfilled v1)] ->
  promise s1 ConnectM c = Some Pending ->
  waiting s1 ConnectM c = [KSendConnected n message] ->
  _socket s1 = Some i ->
  nth_error (sockets s1) i = Some ws ->
  readyState ws = OPEN ->
  promise s1 ReplyM n = Some Pending ->
  inner_promise s1 ReplyM n = Some Pending ->
  reply_listeners n (_onMessageCallbacks s1) = [] ->
  pending (resends n) s1 <= 1 ->
  outstanding n message (drain s1)
  /\ sockets (drain s1) = update_nth i (fun _ => transmit message ws) (sockets s1)
  /\ log (drain s1) = log s1
  /\ _onMessageCallbacks (drain s1) = _onMessageCallbacks s1 ++ [ReplyListener n message]
  /\ (forall m k, promise (drain s1) m k
                  = promise (settle ConnectM c (Fulfilled VUndefined) s1) m k)
  /\ (forall m k, waiting (drain s1) m k
                  = waiting (settle ConnectM c (Fulfilled VUndefined) s1) m k)
  /\ (forall h, pending h (drain s1) + h (KSendConnected n message) + h (KConnectOpened c)
                <= pending h s1).
Proof.
  intros Hq1 Hp Hw Hs Hws Hopen Hpr Hin Hl Hpend.
  destruct (drain_sending n c i message v1 ws s1 Hq1 Hp Hw Hs Hws Hopen) as [Hd Hh].
  assert (Hprom : forall m k, promise (drain s1) m k
                              = promise (settle ConnectM c (Fulfilled VUndefined) s1) m k).
  { intros m k. rewrite Hd. observe. reflexivity. }
  split; [|split; [|split; [|split; [|split; [|split]]]]].
  - unfold outstanding. split; [|split; [|split; [|split]]].
    + rewrite Hd. observe. unfold reply_listeners, Registry.push in *.
      rewrite filter_app, Hl. cbn. now rewrite Nat.eqb_refl.
    + rewrite Hd. observe. exact Hin.
    + rewrite Hprom. observe. exact Hpr.
    + specialize (Hh (resends n)). cbn [resends] in Hh. rewrite Nat.eqb_refl in Hh. lia.
    + rewrite Hd. reflexivity.
  - rewrite Hd. observe. reflexivity.
  - rewrite Hd. observe. reflexivity.
  - rewrite Hd. observe. reflexivity.
  - exact Hprom.
  - intros m k. rewrite Hd. observe. reflexivity.
  - exact Hh.
Qed.

(* ================================================================== *)
(** * From a settled promise to the continuations suspended on it *)
(* ================================================================== *)

Lemma total_In (A : Type) (f : A -> nat) (x : A) (l : list A) :
  In x l -> f x <= total (map f l).
Proof.
  induction l as [|y ys IH]; intros H; [contradiction|].
  cbn [map]. rewrite total_cons. destruct H as [->|H]; [lia|]. specialize (IH H). lia.
Qed.

Lemma In_methods (m : Method) : In m methods.
Proof. destruct m; cbn; auto 10. Qed.

Lemma pending_split (h : Cont -> nat) (s : Client) :
  pending h s
  = total (map (fun m => cells_measure h (heap s m)) methods)
    + total (map (awaited h) (microtasks s)).
Proof. reflexivity. Qed.

Lemma pending_waiting (h : Cont -> nat) (k : Cont) (m : Method) (n : nat) (s : Client) :
  In k (waiting s m n) ->
  h k + total (map (awaited h) (microtasks s)) <= pending h s.
Proof.
  intros Hin. rewrite pending_split.
  pose proof (total_In Method (fun m' => cells_measure h (heap s m')) m methods
                (In_methods m)) as H1.
  cbn beta in H1. unfold waiting in Hin.
  destruct (nth_error (heap s m) n) as [c|] eqn:Hc; [|contradiction].
  pose proof (total_In Cell (cell_measure h) c (heap s m) (nth_error_In _ _ Hc)) as H2.
  fold (cells_measure h (heap s m)) in H2.
  pose proof (total_In Cont h k (awaiters c) Hin) as H3.
  fold (cell_measure h c) in H3. lia.
Qed.

Lemma pending_queued (h : Cont -> nat) (j : Job) (s : Client) :
  In j (microtasks s) -> awaited h j <= pending h s.
Proof.
  intros Hin. rewrite pending_split.
  pose proof (total_In Job (awaited h) j (microtasks s) Hin). lia.
Qed.

Lemma waiting_bound (k : Cont) (m : Method) (n : nat) (s : Client) :
  In k (waiting s m n) -> n < next_call m s.
Proof.
  unfold waiting, next_call. intros H.
  destruct (nth_error (heap s m) n) eqn:E; [|contradiction].
  apply nth_error_Some. congruence.
Qed.

(** ** The owner of a continuation *)

Lemma owned_owner (k : Cont) : owned (fst (owner k)) (snd (owner k)) k = 1.
Proof. unfold owned. now rewrite Method_eqb_refl, Nat.eqb_refl. Qed.

Lemma owned_respawn (m : Method) (c : nat) (j : Job) :
  respawn (owned m c) j <= awaited (owned m c) j.
Proof.
  destruct j as [[c'|c'|c' message|c' events callback|c'|c'] [v|r] | c' [] | c' message o | c' o];
    cbn [respawn awaited]; try lia.
  unfold owned. cbn [owner fst snd]. lia.
Qed.

Lemma settles_owner (k : Cont) (o : Outcome) (m : Method) (c : nat) (o' : Outcome) :
  job_settles (JAwaited k o) = Some (m, c, o') -> owner k = (m, c).
Proof.
  destruct k as [c'|c'|c' message|c' events callback|c'|c'], o as [v|r];
    cbn [job_settles owner]; intros H; try discriminate; now injection H as <- <- _.
Qed.

Lemma targets_owned (m : Method) (c : nat) (j : Job) :
  settles_itself m = true ->
  job_targets j m c = true ->
  awaited (owned m c) j = 1.
Proof.
  intros Hm.
  destruct j as [[c'|c'|c' message|c' events callback|c'|c'] [v|r] | c' [] | c' message o | c' o];
    cbn [job_targets job_settles awaited]; unfold owned; cbn [owner fst snd];
    intros H; try discriminate; try (now rewrite H);
    destruct m; try discriminate.
Qed.

Lemma pending_owned_tick (m : Method) (c : nat) (s s' : Client) :
  tick s = Some s' -> pending (owned m c) s' <= pending (owned m c) s.
Proof.
  intros Ht. destruct (pending_tick (owned m c) s Ht) as (j & q & _ & Hp).
  pose proof (owned_respawn m c j). lia.
Qed.

(** ** What is suspended stays suspended until the promise is settled *)

Lemma In_waiting_settle (k : Cont) (m m0 : Method) (n n0 : nat) (o : Outcome) (s : Client) :
  Method_eqb m m0 && Nat.eqb n n0 = false ->
  In k (waiting s m0 n0) -> In k (waiting (settle m n o s) m0 n0).
Proof. intros H. now rewrite waiting_settle, H. Qed.

Lemma In_waiting_await (k k' : Cont) (m m0 : Method) (n n0 : nat) (s : Client) :
  In k (waiting s m0 n0) -> In k (waiting (await m n k' s) m0 n0).
Proof.
  intros H. rewrite waiting_await.
  destruct (Method_eqb m m0 && Nat.eqb n n0) eqn:E; [|exact H].
  apply andb_true_iff in E. destruct E as [Em En].
  apply Method_eqb_spec in Em. apply Nat.eqb_eq in En. subst.
  destruct (promise s m0 n0) as [[|]|]; try exact H. apply in_or_app. now left.
Qed.

Lemma In_waiting__waitForConnection (k : Cont) (m0 : Method) (n0 : nat) (s : Client) :
  In k (waiting s m0 n0) -> In k (waiting (_waitForConnection s) m0 n0).
Proof.
  intros H. pose proof (waiting_bound k m0 n0 s H) as Hb.
  unfold _waitForConnection. cbv zeta.
  destruct (socket_is_open (alloc WaitM s)).
  - apply In_waiting_settle; [|now rewrite waiting_alloc].
    destruct m0; cbn [Method_eqb andb]; try reflexivity.
    apply Nat.eqb_neq. lia.
  - now rewrite waiting_register_connect, waiting_alloc.
Qed.

Lemma In_waiting__createSocket (k : Cont) (m0 : Method) (n0 : nat) (s : Client) :
  In k (waiting s m0 n0) -> In k (waiting (_createSocket s) m0 n0).
Proof.
  intros H. unfold _createSocket. cbv zeta.
  destruct (hasGlobalWebSocket (alloc CreateSocketM s)).
  - now rewrite waiting_enqueue, waiting_alloc.
  - now rewrite waiting_set_importing, waiting_alloc.
Qed.

Lemma In_waiting_connect (k : Cont) (m0 : Method) (n0 : nat) (s : Client) :
  In k (waiting s m0 n0) -> In k (waiting (connect s) m0 n0).
Proof.
  intros H. unfold connect. cbv zeta.
  destruct (_socket (alloc ConnectM s)); [|destruct (_createSocketPromise (alloc ConnectM s))].
  - apply In_waiting_await, In_waiting__waitForConnection. now rewrite waiting_alloc.
  - apply In_waiting_await. now rewrite waiting_alloc.
  - apply In_waiting_await. rewrite waiting_set_createSocketPromise.
    apply In_waiting__createSocket. now rewrite waiting_alloc.
Qed.

Lemma In_waiting_sendAndWaitReply (k : Cont) (m0 : Method) (n0 : nat) (message : string)
      (s : Client) :
  In k (waiting s m0 n0) -> In k (waiting (sendAndWaitReply message s) m0 n0).
Proof.
  intros H. unfold sendAndWaitReply. cbv zeta.
  apply In_waiting_await, In_waiting_connect. now rewrite waiting_alloc.
Qed.

(** A call of the caller leaves every suspended continuation suspended. *)
Lemma In_waiting_call (k : Cont) (m0 : Method) (n0 : nat) (op : Op) (s s' : Client) :
  call op s = Some s' -> In k (waiting s m0 n0) -> In k (waiting s' m0 n0).
Proof.
  intros Hcall H. pose proof (waiting_bound k m0 n0 s H) as Hb.
  destruct op as [ | | |message|query|command ctx|event callback|events callback
                  |sub|f|f|f|f|f|f|f|f]; cbn [call] in Hcall;
    try (destruct (promise s SubscribeM sub) as [[|[[ |sock|d|events callback response]|r]]|];
         try discriminate);
    injection Hcall as <-; try exact H.
  - now apply In_waiting_connect.
  - unfold closeConnection. destruct (_socket s); exact H.
  - now apply In_waiting__waitForConnection.
  - now apply In_waiting_sendAndWaitReply.
  - now apply In_waiting_sendAndWaitReply.
  - unfold runCommand. cbv zeta.
    apply In_waiting_await, In_waiting_sendAndWaitReply. now rewrite waiting_alloc.
  - unfold subscribeMany. cbv zeta.
    apply In_waiting_await, In_waiting_sendAndWaitReply. now rewrite waiting_alloc.
  - unfold subscribeMany. cbv zeta.
    apply In_waiting_await, In_waiting_sendAndWaitReply. now rewrite waiting_alloc.
  - unfold unlistenFn. cbv zeta.
    destruct response as [[]|];
      try (apply In_waiting_await, In_waiting_sendAndWaitReply;
           now rewrite waiting_unlisten_message, waiting_alloc);
      (apply In_waiting_settle;
       [|now rewrite waiting_unlisten_message, waiting_alloc]);
      destruct m0; cbn [Method_eqb andb]; try reflexivity;
      apply Nat.eqb_neq; lia.
Qed.

(** A microtask that does not settle the promise leaves the continuations
    suspended on it. *)
Lemma In_waiting_run_job (k : Cont) (m0 : Method) (n0 : nat) (j : Job) (s : Client) :
  job_targets j m0 n0 = false ->
  In k (waiting s m0 n0) -> In k (waiting (run_job j s) m0 n0).
Proof.
  intros Hj H. pose proof (waiting_bound k m0 n0 s H) as Hb.
  destruct j as [[c|c|c message|c events callback|c|c] [v|r] | c [] | c message o | c o];
    cbn [run_job resume pass subscribeMany_replied _createSocket_resume];
    cbn [job_targets job_settles] in Hj.
  all: try (apply In_waiting_settle; [exact Hj|]; observe; exact H).
  - apply In_waiting_await, In_waiting__waitForConnection. exact H.
  - unfold sendAndWaitReply_connected.
    destruct (_socket s) as [i|]; [|exact H].
    destruct (nth_error (sockets s) i) as [ws|]; [|exact H].
    destruct (ws_send message ws); exact H.
  - exact H.
Qed.

Lemma waiting_handler (m : Method) (n : nat) (A : Type)
      (invoke : A -> Client -> Completion) (l : list A) (s : Client) :
  (forall cb s, waiting (state_of (invoke cb s)) m n = waiting s m n) ->
  waiting (handled (forEach invoke l s)) m n = waiting s m n.
Proof.
  intros Hinv.
  apply (@handled_preserves (fun s' => waiting s' m n = waiting s m n)).
  - intros r s1 H. exact H.
  - apply (@forEach_preserves _ invoke (fun s' => waiting s' m n = waiting s m n));
      [|reflexivity].
    intros cb s1 H. now rewrite Hinv.
Qed.

(** An event of the socket resumes nothing by itself. *)
Lemma waiting_deliver (m : Method) (n : nat) (ev : Event) (s s' : Client) :
  deliver ev s = Some s' -> waiting s' m n = waiting s m n.
Proof.
  destruct ev as [k ok|i|i e|i|i]; cbn [deliver].
  - destruct (existsb (Nat.eqb k) (importing s)); [|discriminate].
    intros H. injection H as <-. reflexivity.
  - destruct (ready s i) as [[]|]; try discriminate.
    intros H. injection H as <-. unfold onopen. rewrite waiting_handler; [reflexivity|].
    intros [w|f] s1; cbn [invoke_connect state_of];
      [apply waiting_settle_wait | reflexivity].
  - assert (Hm : waiting (onmessage e s) m n = waiting s m n).
    { unfold onmessage. apply waiting_handler. intros cb s1.
      destruct cb as [c message|c events callback|f]; cbn [invoke_message].
      - unfold reply_listener.
        destruct e as [[]|]; cbn [state_of]; try reflexivity;
          repeat match goal with
                 | |- context [if ?b then _ else _] => destruct b
                 end;
          rewrite ?waiting_settle_reply; reflexivity.
      - unfold subscription_listener.
        destruct e as [[]|]; cbn [state_of]; try reflexivity;
          repeat match goal with
                 | |- context [if ?b then _ else _] => destruct b
                 end; reflexivity.
      - reflexivity. }
    destruct (ready s i) as [[]|]; try discriminate;
      intros H; injection H as <-; exact Hm.
  - destruct (ready s i) as [[]|]; try discriminate;
      intros H; injection H as <-; unfold onerror;
      (rewrite waiting_handler; [reflexivity|]); intros; reflexivity.
  - destruct (ready s i) as [[]|]; try discriminate;
      intros H; injection H as <-; unfold onclose;
      (rewrite waiting_handler; [reflexivity|]); intros; reflexivity.
Qed.

(** ** Settling schedules the continuations *)

Lemma settle_enqueues (k : Cont) (m0 : Method) (n0 : nat) (o : Outcome) (s : Client) :
  promise s m0 n0 = Some Pending ->
  In k (waiting s m0 n0) ->
  In (JAwaited k o) (microtasks (settle m0 n0 o s)).
Proof.
  intros Hp Hin. rewrite microtasks_settle, Hp. apply in_or_app. right.
  apply in_map_iff. exists k. now split.
Qed.

Lemma job_settles_enqueues (k : Cont) (m0 : Method) (n0 : nat) (o : Outcome)
      (j : Job) (s : Client) :
  job_settles j = Some (m0, n0, o) ->
  promise s m0 n0 = Some Pending ->
  In k (waiting s m0 n0) ->
  In (JAwaited k o) (microtasks (run_job j s)).
Proof.
  intros Hj Hp Hin.
  destruct j as [[c|c|c message|c events callback|c|c] [v|r] | c [] | c message o' | c o'];
    cbn [job_settles] in Hj; try discriminate; injection Hj as <- <- <-;
    cbn [run_job resume pass subscribeMany_replied _createSocket_resume];
    apply settle_enqueues; observe; assumption.
Qed.

(** ** A settled promise stays settled *)

Lemma promise_settled_settle (m m' : Method) (n n' : nat) (o o' : Outcome) (s : Client) :
  promise s m' n' = Some (Settled o') ->
  promise (settle m n o s) m' n' = Some (Settled o').
Proof.
  intros H. rewrite promise_settle.
  destruct (Method_eqb m m' && Nat.eqb n n') eqn:E; [|exact H].
  apply andb_true_iff in E. destruct E as [Em En].
  apply Method_eqb_spec in Em. apply Nat.eqb_eq in En. subst. now rewrite H.
Qed.

Lemma promise_settled_run_job (m : Method) (n : nat) (o : Outcome) (j : Job) (s : Client) :
  promise s m n = Some (Settled o) ->
  promise (run_job j s) m n = Some (Settled o).
Proof.
  intros H.
  assert (Hb : n < next_call m s) by (apply promise_defined; congruence).
  destruct (job_targets j m n) eqn:Hj.
  - destruct j as [[c|c|c message|c events callback|c|c] [v|r] | c [] | c message o' | c o'];
      cbn [job_targets job_settles] in Hj; try discriminate;
      cbn [run_job resume pass subscribeMany_replied _createSocket_resume];
      apply promise_settled_settle; observe; exact H.
  - now rewrite promise_run_job.
Qed.

Lemma promise_settled_tick (m : Method) (n : nat) (o : Outcome) (s s' : Client) :
  promise s m n = Some (Settled o) -> tick s = Some s' ->
  promise s' m n = Some (Settled o).
Proof.
  intros H Ht. destruct (queue_tick s s' Ht) as (j & q & added & _ & -> & _).
  now apply promise_settled_run_job.
Qed.

(** ** The phases of a continuation *)

Lemma awaited_owned_cases (m : Method) (c : nat) (j : Job) :
  awaited (owned m c) j = 0 \/ awaited (owned m c) j = 1.
Proof.
  destruct j as [k o|k a|k msg o|k o]; cbn [awaited]; auto.
  unfold owned. destruct (Method_eqb (fst (owner k)) m && Nat.eqb (snd (owner k)) c); auto.
Qed.

Lemma tick_eq (j : Job) (q : list Job) (s : Client) :
  microtasks s = j :: q -> tick s = Some (run_job j (set_microtasks q s)).
Proof. intros H. unfold tick. now rewrite H. Qed.

(** While [k] is suspended, no scheduled microtask belongs to its call. *)
Lemma suspended_head (k : Cont) (m0 : Method) (n0 : nat) (j : Job) (q : list Job)
      (s : Client) :
  suspended k m0 n0 s ->
  microtasks s = j :: q ->
  awaited (owned (fst (owner k)) (snd (owner k))) j = 0.
Proof.
  intros (Hin & _ & Hp & _) Hq.
  pose proof (pending_waiting (owned (fst (owner k)) (snd (owner k))) k m0 n0 s Hin) as H.
  rewrite owned_owner, Hq in H. cbn [map] in H. rewrite total_cons in H. lia.
Qed.

Lemma not_owned_no_target (k : Cont) (j : Job) :
  settles_itself (fst (owner k)) = true ->
  awaited (owned (fst (owner k)) (snd (owner k))) j = 0 ->
  job_targets j (fst (owner k)) (snd (owner k)) = false.
Proof.
  intros Hm H0.
  destruct (job_targets j (fst (owner k)) (snd (owner k))) eqn:E; [|reflexivity].
  rewrite (targets_owned _ _ j Hm E) in H0. discriminate.
Qed.

Lemma suspended_run_job (k : Cont) (m0 : Method) (n0 : nat) (j : Job) (q : list Job)
      (s : Client) :
  suspended k m0 n0 s ->
  settles_itself (fst (owner k)) = true ->
  microtasks s = j :: q ->
  job_targets j m0 n0 = false ->
  suspended k m0 n0 (run_job j (set_microtasks q s)).
Proof.
  intros Hs Hm Hq Hj. pose proof (suspended_head k m0 n0 j q s Hs Hq) as H0.
  destruct Hs as (Hin & Hp0 & Hp & Hr).
  pose proof (waiting_bound k m0 n0 s Hin) as Hb.
  assert (Hrb : snd (owner k) < next_call (fst (owner k)) s)
    by (apply promise_defined; unfold result_of in Hr; congruence).
  repeat split.
  - now apply In_waiting_run_job.
  - rewrite promise_run_job; assumption.
  - pose proof (pending_owned_tick (fst (owner k)) (snd (owner k)) s _ (tick_eq j q s Hq)).
    lia.
  - unfold result_of in *. rewrite promise_run_job; try assumption.
    now apply not_owned_no_target.
Qed.

Lemma suspended_settling (k : Cont) (m0 : Method) (n0 : nat) (o : Outcome)
      (j : Job) (q : list Job) (s : Client) :
  suspended k m0 n0 s ->
  settles_itself (fst (owner k)) = true ->
  microtasks s = j :: q ->
  job_settles j = Some (m0, n0, o) ->
  resuming k o (run_job j (set_microtasks q s)).
Proof.
  intros Hs Hm Hq Hj. pose proof (suspended_head k m0 n0 j q s Hs Hq) as H0.
  destruct Hs as (Hin & Hp0 & Hp & Hr).
  assert (Hrb : snd (owner k) < next_call (fst (owner k)) s)
    by (apply promise_defined; unfold result_of in Hr; congruence).
  repeat split.
  - now apply (job_settles_enqueues k m0 n0 o j).
  - pose proof (pending_owned_tick (fst (owner k)) (snd (owner k)) s _ (tick_eq j q s Hq)).
    lia.
  - unfold result_of in *. rewrite promise_run_job; try assumption.
    now apply not_owned_no_target.
Qed.

Lemma resuming_head (k : Cont) (o : Outcome) (j : Job) (q : list Job) (s : Client) :
  resuming k o s ->
  microtasks s = j :: q ->
  (awaited (owned (fst (owner k)) (snd (owner k))) j = 0 /\ In (JAwaited k o) q)
  \/ j = JAwaited k o.
Proof.
  intros (Hin & Hp & _) Hq. rewrite Hq in Hin.
  destruct Hin as [Hj|Hin]; [now right|]. left. split; [|exact Hin].
  pose proof (pending_pop (owned (fst (owner k)) (snd (owner k))) s Hq) as Hpop.
  pose proof (pending_queued (owned (fst (owner k)) (snd (owner k))) (JAwaited k o)
                (set_microtasks q s) Hin) as Hqd.
  cbn [awaited] in Hqd. rewrite owned_owner in Hqd.
  destruct (awaited_owned_cases (fst (owner k)) (snd (owner k)) j) as [H|H]; [exact H|].
  lia.
Qed.

Lemma resuming_run_job (k : Cont) (o : Outcome) (j : Job) (q : list Job) (s : Client) :
  resuming k o s ->
  settles_itself (fst (owner k)) = true ->
  microtasks s = j :: q ->
  awaited (owned (fst (owner k)) (snd (owner k))) j = 0 ->
  resuming k o (run_job j (set_microtasks q s)).
Proof.
  intros Hs Hm Hq H0.
  destruct (resuming_head k o j q s Hs Hq) as [[_ Hin]| ->];
    [|cbn [awaited] in H0; rewrite owned_owner in H0; discriminate].
  destruct Hs as (_ & Hp & Hr).
  assert (Hrb : snd (owner k) < next_call (fst (owner k)) s)
    by (apply promise_defined; unfold result_of in Hr; congruence).
  destruct (queue_run_job j (set_microtasks q s)) as (added & Ha & _).
  repeat split.
  - rewrite Ha. apply in_or_app. now left.
  - pose proof (pending_owned_tick (fst (owner k)) (snd (owner k)) s _ (tick_eq j q s Hq)).
    lia.
  - unfold result_of in *. rewrite promise_run_job; try assumption.
    now apply not_owned_no_target.
Qed.

Lemma resuming_resumed (k : Cont) (o o' : Outcome) (m : Method) (c : nat)
      (q : list Job) (s : Client) :
  resuming k o s ->
  microtasks s = JAwaited k o :: q ->
  job_settles (JAwaited k o) = Some (m, c, o') ->
  resumed k o' (run_job (JAwaited k o) (set_microtasks q s)).
Proof.
  intros (_ & Hp & Hr) Hq Hj.
  pose proof (settles_owner k o m c o' Hj) as Ho.
  unfold resumed, result_of in *. rewrite Ho in *. cbn [fst snd] in *. split.
  - rewrite (@promise_run_job_target m c o' (JAwaited k o)) by exact Hj.
    change (promise (set_microtasks q s)) with (promise s). now rewrite Hr.
  - destruct (pending_tick (owned m c) s (tick_eq _ q s Hq)) as (j' & q' & Hq' & Hpt).
    rewrite Hq in Hq'. injection Hq' as <- <-.
    assert (Hresp : respawn (owned m c) (JAwaited k o) = 0).
    { destruct k as [c'|c'|c' message|c' events callback|c'|c'], o as [v|r];
        cbn [job_settles] in Hj; try discriminate; reflexivity. }
    cbn [awaited] in Hpt. pose proof (owned_owner k) as H1. rewrite Ho in H1.
    cbn [fst snd] in H1. lia.
Qed.

Lemma resumed_head (k : Cont) (o : Outcome) (j : Job) (q : list Job) (s : Client) :
  resumed k o s ->
  microtasks s = j :: q ->
  awaited (owned (fst (owner k)) (snd (owner k))) j = 0.
Proof.
  intros (_ & Hp) Hq.
  assert (Hin : In j (microtasks s)) by (rewrite Hq; now left).
  pose proof (pending_queued (owned (fst (owner k)) (snd (owner k))) j s Hin). lia.
Qed.

Lemma resumed_tick (k : Cont) (o : Outcome) (s s' : Client) :
  resumed k o s -> tick s = Some s' -> resumed k o s'.
Proof.
  intros (Hr & Hp) Ht. split.
  - unfold result_of in *. now apply (promise_settled_tick _ _ o s s').
  - pose proof (pending_owned_tick (fst (owner k)) (snd (owner k)) s s' Ht). lia.
Qed.

Lemma suspended_deliver (k : Cont) (m0 : Method) (n0 : nat) (ev : Event) (s s' : Client) :
  suspended k m0 n0 s -> deliver ev s = Some s' -> suspended k m0 n0 s'.
Proof.
  intros (Hin & Hp0 & Hp & Hr) Hd.
  pose proof (pending_deliver (owned (fst (owner k)) (snd (owner k))) ev s Hd) as Hle.
  unfold suspended, result_of in *.
  rewrite (waiting_deliver m0 n0 ev s s' Hd), !(promise_deliver _ _ ev s Hd).
  repeat split; try assumption. lia.
Qed.

Lemma owned_call_conts (m : Method) (c : nat) (op : Op) (s : Client) :
  c < next_call m s ->
  total (map (owned m c) (call_conts op s)) = 0.
Proof.
  intros Hc.
  assert (Hzero : forall k, snd (owner k) = next_call (fst (owner k)) s -> owned m c k = 0).
  { intros k Hk. unfold owned.
    destruct (Method_eqb (fst (owner k)) m) eqn:Em; [|reflexivity].
    apply Method_eqb_spec in Em. rewrite Hk, Em.
    cbn [andb]. now rewrite (proj2 (Nat.eqb_neq _ _)) by lia. }
  destruct op as [ | | |message|query|command ctx|event callback|events callback
                  |sub|f|f|f|f|f|f|f|f]; cbn [call_conts];
    try (destruct (promise s SubscribeM sub) as [[|[[]|]]|]);
    unfold send_conts, connect_conts; cbn [map]; rewrite ?total_cons;
    rewrite ?Hzero by reflexivity; reflexivity.
Qed.

Lemma suspended_call (k : Cont) (m0 : Method) (n0 : nat) (op : Op) (s s' : Client) :
  suspended k m0 n0 s -> call op s = Some s' -> suspended k m0 n0 s'.
Proof.
  intros (Hin & Hp0 & Hp & Hr) Hcall.
  pose proof (waiting_bound k m0 n0 s Hin) as Hb.
  assert (Hrb : snd (owner k) < next_call (fst (owner k)) s)
    by (apply promise_defined; unfold result_of in Hr; congruence).
  pose proof (pending_call (owned (fst (owner k)) (snd (owner k))) op s Hcall) as Hle.
  rewrite owned_call_conts in Hle by exact Hrb.
  unfold suspended, result_of in *.
  rewrite !(promise_call _ op s Hcall) by assumption.
  repeat split; try assumption; [|lia].
  now apply (In_waiting_call k m0 n0 op s s').
Qed.

(** ** A continuation suspended on a request *)

Lemma scheduled_finally_head (r : nat) (message : string) (o : Outcome)
      (j : Job) (q : list Job) (s : Client) :
  scheduled r message o s ->
  microtasks s = j :: q ->
  is_finally r j = true ->
  j = JSendFinally r message o.
Proof.
  intros (_ & _ & _ & _ & Hf) Hq Hj. rewrite Hq in Hf.
  cbn [finally_jobs filter] in Hf. rewrite Hj in Hf. now injection Hf as ->.
Qed.

Section ReplyResumes.

Variables (K : Cont) (r : nat) (message : string) (o o' : Outcome)
          (m : Method) (c : nat) (Q Q' : Client -> Prop).

Hypothesis K_settles_itself : settles_itself (fst (owner K)) = true.
Hypothesis K_settles : job_settles (JAwaited K o) = Some (m, c, o').
Hypothesis Q_frame :
  forall s j q, Q s -> microtasks s = j :: q -> awaited (owned m c) j = 0 ->
                Q (run_job j (set_microtasks q s)).
Hypothesis Q_resumes :
  forall s q, Q s -> microtasks s = JAwaited K o :: q ->
              Q' (run_job (JAwaited K o) (set_microtasks q s)).
Hypothesis Q'_frame :
  forall s j q, Q' s -> microtasks s = j :: q -> awaited (owned m c) j = 0 ->
                Q' (run_job j (set_microtasks q s)).

Lemma owner_K : owner K = (m, c).
Proof. exact (settles_owner K o m c o' K_settles). Qed.

Lemma phase_tick (s s' : Client) :
  reply_phase K r message o o' Q Q' s -> tick s = Some s' ->
  reply_phase K r message o o' Q Q' s'.
Proof.
  intros Hphase Ht.
  destruct (queue_tick s s' Ht) as (j & q & added & Hq & Hs' & _).
  pose proof owner_K as Ho.
  destruct Hphase as [(Hsch & Hsus & HQ)|[(Hrep & Hres & HQ)|(Hrep & Hres & HQ')]].
  - pose proof (suspended_head K ReplyM r j q s Hsus Hq) as H0.
    rewrite Ho in H0. cbn [fst snd] in H0.
    destruct (is_finally r j) eqn:Hj.
    + right. left.
      pose proof (scheduled_finally_head r message o j q s Hsch Hq Hj) as ->.
      assert (Hres : resuming K o s')
        by (rewrite Hs'; now apply (suspended_settling K ReplyM r o)).
      split; [|split; [exact Hres | rewrite Hs'; now apply Q_frame]].
      destruct (scheduled_tick r message o s s' Hsch Ht) as [Hbad|Hgood]; [|exact Hgood].
      exfalso. destruct Hbad as (_ & _ & Hp & _). destruct Hsch as (_ & _ & Hp0 & _).
      rewrite Hs' in Hp.
      rewrite (@promise_run_job_target ReplyM r o (JSendFinally r message o)) in Hp
        by reflexivity.
      change (promise (set_microtasks q s)) with (promise s) in Hp.
      rewrite Hp0 in Hp. discriminate.
    + left.
      assert (Hsus' : suspended K ReplyM r s').
      { rewrite Hs'. apply suspended_run_job; try assumption.
        now apply not_finally_no_target. }
      split; [|split; [exact Hsus' | rewrite Hs'; now apply Q_frame]].
      destruct (scheduled_tick r message o s s' Hsch Ht) as [Hgood|Hbad]; [exact Hgood|].
      exfalso. destruct Hbad as (_ & _ & Hp & _). destruct Hsus' as (_ & Hp0 & _).
      rewrite Hp in Hp0. discriminate.
  - right. pose proof (replied_tick r o s s' Hrep Ht) as Hrep'.
    destruct (resuming_head K o j q s Hres Hq) as [[H0 _]| ->].
    + left. split; [exact Hrep'|]. rewrite Hs'. split.
      * now apply resuming_run_job.
      * apply Q_frame; try assumption. now rewrite Ho in H0.
    + right. split; [exact Hrep'|]. rewrite Hs'. split.
      * now apply (resuming_resumed K o o' m c).
      * now apply Q_resumes.
  - right. right. split; [now apply (replied_tick r o s s')|].
    split; [now apply (resumed_tick K o' s s')|].
    rewrite Hs'. apply Q'_frame; try assumption.
    pose proof (resumed_head K o' j q s Hres Hq) as H0. now rewrite Ho in H0.
Qed.

(** Once the reply has settled the promise the request built, the
    microtasks of the task resume the continuation suspended on the
    request, and it settles the promise of its call. *)
Lemma reply_resumes (s1 : Client) :
  scheduled r message o s1 ->
  suspended K ReplyM r s1 ->
  Q s1 ->
  replied r o (drain s1) /\ resumed K o' (drain s1) /\ Q' (drain s1).
Proof.
  intros Hsch Hsus HQ.
  assert (H : reply_phase K r message o o' Q Q' (drain s1)).
  { apply (@drain_invariant (reply_phase K r message o o' Q Q')); [exact phase_tick|]. left.
    split; [|split]; assumption. }
  pose proof (drain_quiescent s1) as Hq.
  destruct H as [((_ & _ & _ & _ & Hf) & _)|[(_ & (Hin & _) & _)|H]].
  - rewrite Hq in Hf. discriminate.
  - rewrite Hq in Hin. contradiction.
  - exact H.
Qed.

End ReplyResumes.

(** A message that is no reply leaves the continuation suspended on the
    request. *)
Lemma suspended_on_outstanding_tick (K : Cont) (r : nat) (message : string) (s s' : Client) :
  settles_itself (fst (owner K)) = true ->
  outstanding r message s ->
  suspended K ReplyM r s ->
  tick s = Some s' ->
  suspended K ReplyM r s'.
Proof.
  intros Hm Hout Hsus Ht.
  destruct (queue_tick s s' Ht) as (j & q & added & Hq & -> & _).
  apply suspended_run_job; try assumption.
  apply not_finally_no_target.
  destruct Hout as (_ & _ & _ & _ & Hf). rewrite Hq in Hf.
  cbn [finally_jobs filter] in Hf. destruct (is_finally r j); [discriminate|reflexivity].
Qed.
(* ================================================================== *)
(** * No continuation belongs to a call before it is made *)
(* ================================================================== *)

Lemma next_call_own_connect (m : Method) (s : Client) :
  settles_itself m = true ->
  next_call m (connect s) = next_call m (alloc ConnectM s).
Proof.
  intros Hm. unfold connect, _waitForConnection, _createSocket. cbv zeta.
  destruct (_socket (alloc ConnectM s)); [|destruct (_createSocketPromise (alloc ConnectM s))].
  - destruct (socket_is_open (alloc WaitM (alloc ConnectM s)));
      destruct m; try discriminate; observe; reflexivity.
  - observe. reflexivity.
  - destruct (hasGlobalWebSocket (alloc CreateSocketM (alloc ConnectM s)));
      destruct m; try discriminate; observe; reflexivity.
Qed.

Lemma next_call_own_sendAndWaitReply (m : Method) (message : string) (s : Client) :
  settles_itself m = true ->
  next_call m (sendAndWaitReply message s) = next_call m (alloc ConnectM s).
Proof.
  intros Hm. unfold sendAndWaitReply. cbv zeta.
  rewrite next_call_await, (next_call_own_connect m _ Hm).
  destruct m; try discriminate; observe; reflexivity.
Qed.

Lemma owned_fresh (m : Method) (n : nat) (k : Cont) :
  snd (owner k) < n -> owned m n k = 0.
Proof.
  intros H. unfold owned. destruct (Method_eqb (fst (owner k)) m); [|reflexivity].
  cbn [andb]. now rewrite (proj2 (Nat.eqb_neq _ _)) by lia.
Qed.

Lemma owned_other (m : Method) (n : nat) (k : Cont) :
  Method_eqb (fst (owner k)) m = false -> owned m n k = 0.
Proof. intros H. unfold owned. now rewrite H. Qed.

Lemma fresh_conts_call (op : Op) (s s' : Client) :
  fresh_conts s -> call op s = Some s' -> fresh_conts s'.
Proof.
  intros Hs Hcall m n Hm Hn.
  pose proof (next_call_call_le m op s Hcall) as Hle.
  pose proof (Hs m n Hm ltac:(lia)) as Hz.
  assert (Hconn : forall s0, next_call m (alloc ConnectM s0) <= n ->
                             owned m n (KConnectGotSocket (next_call ConnectM s0)) = 0
                             /\ owned m n (KConnectOpened (next_call ConnectM s0)) = 0).
  { intros s0 H. rewrite next_call_alloc in H.
    destruct (Method_eqb ConnectM m) eqn:E.
    - split; apply owned_fresh; cbn [owner snd]; destruct m; try discriminate; lia.
    - split; apply owned_other; cbn [owner fst]; exact E. }
  assert (Hsend : forall message s0,
             fresh_conts s0 ->
             next_call m (sendAndWaitReply message s0) <= n ->
             pending (owned m n) (sendAndWaitReply message s0) = 0).
  { intros message s0 H0 H. pose proof (pending_sendAndWaitReply (owned m n) message s0) as Hp.
    pose proof H as H'. rewrite (next_call_own_sendAndWaitReply m message s0 Hm) in H'.
    destruct (Hconn s0 H') as [H1 H2]. rewrite H1, H2 in Hp.
    rewrite (owned_other m n (KSendConnected _ _)) in Hp
      by (cbn [owner fst]; destruct m; try discriminate; reflexivity).
    pose proof (next_call_sendAndWaitReply_le m message s0).
    rewrite (H0 m n Hm) in Hp by lia. now apply Nat.le_0_r in Hp. }
  assert (Halloc : forall m', fresh_conts (alloc m' s)).
  { intros m' m1 n1 Hm1 Hn1. rewrite pending_alloc. apply Hs; [exact Hm1|].
    pose proof (next_call_alloc_le m' m1 s). lia. }
  assert (Hawait : forall m' c k message s0,
             fresh_conts s0 ->
             owner k = (m', c) -> c < next_call m' s0 ->
             next_call m (await ReplyM (next_call ReplyM s0) k (sendAndWaitReply message s0)) <= n ->
             pending (owned m n)
               (await ReplyM (next_call ReplyM s0) k (sendAndWaitReply message s0)) = 0).
  { intros m' c k message s0 H0 Hk Hc H. rewrite next_call_await in H.
    pose proof (pending_await (owned m n) ReplyM (next_call ReplyM s0) k
                  (sendAndWaitReply message s0)) as Hp.
    rewrite (Hsend message s0 H0 H) in Hp.
    pose proof (next_call_sendAndWaitReply_le m message s0).
    assert (Hk0 : owned m n k = 0).
    { unfold owned. rewrite Hk. cbn [fst snd].
      destruct (Method_eqb m' m) eqn:E; [|reflexivity].
      apply Method_eqb_spec in E. subst m'. cbn [andb].
      now rewrite (proj2 (Nat.eqb_neq _ _)) by lia. }
    lia. }
  destruct op as [ | | |message|query|command ctx|event callback|events callback
                  |sub|f|f|f|f|f|f|f|f]; cbn [call] in Hcall;
    try (destruct (promise s SubscribeM sub) as [[|[[ |sock|d|events callback response]|r]]|];
         try discriminate);
    injection Hcall as <-.
  - pose proof (pending_connect (owned m n) s) as Hp.
    rewrite (next_call_own_connect m s Hm) in Hn.
    destruct (Hconn s Hn) as [H1 H2]. lia.
  - pose proof (pending_call (owned m n) CloseConnection s eq_refl) as Hp.
    cbn [call_conts map] in Hp. change (total []) with 0 in Hp. cbn [call] in Hp.
    lia.
  - pose proof (pending__waitForConnection (owned m n) s). lia.
  - now apply Hsend.
  - now apply Hsend.
  - unfold runCommand in *. cbv zeta in *.
    apply (Hawait CommandM (next_call CommandM s)); try assumption; try apply Halloc.
    + reflexivity.
    + observe. lia.
  - unfold subscribe, subscribeMany in *. cbv zeta in *.
    apply (Hawait SubscribeM (next_call SubscribeM s)); try assumption; try apply Halloc.
    + reflexivity.
    + observe. lia.
  - unfold subscribeMany in *. cbv zeta in *.
    apply (Hawait SubscribeM (next_call SubscribeM s)); try assumption; try apply Halloc.
    + reflexivity.
    + observe. lia.
  - unfold unlistenFn in *. cbv zeta in *.
    set (s2 := unlisten_message (SubscriptionListener sub events callback)
                 (alloc UnlistenM s)) in *.
    assert (H2 : fresh_conts s2).
    { intros m1 n1 Hm1 Hn1. exact (Halloc UnlistenM m1 n1 Hm1 Hn1). }
    assert (Hnull : pending (owned m n)
                      (settle UnlistenM (next_call UnlistenM s) (Rejected ThrownTypeError) s2)
                    = 0).
    { assert (H : pending (owned m n)
                    (settle UnlistenM (next_call UnlistenM s) (Rejected ThrownTypeError) s2)
                  <= pending (owned m n) s) by (unfold s2; pending_bound).
      lia. }
    destruct response as [[]|]; try exact Hnull;
      (apply (Hawait UnlistenM (next_call UnlistenM s)); try assumption;
       [reflexivity | unfold s2; observe; lia]).
  - exact Hz.
  - exact Hz.
  - exact Hz.
  - exact Hz.
  - exact Hz.
  - exact Hz.
  - exact Hz.
  - exact Hz.
Qed.

Lemma fresh_conts_tick (s s' : Client) :
  fresh_conts s -> tick s = Some s' -> fresh_conts s'.
Proof.
  intros Hs Ht m n Hm Hn.
  pose proof (next_call_tick_le m s Ht).
  pose proof (pending_owned_tick m n s s' Ht).
  pose proof (Hs m n Hm). lia.
Qed.

Lemma fresh_conts_deliver (ev : Event) (s s' : Client) :
  fresh_conts s -> deliver ev s = Some s' -> fresh_conts s'.
Proof.
  intros Hs Hd m n Hm Hn.
  rewrite (next_call_deliver m ev s Hd) in Hn.
  pose proof (pending_deliver (owned m n) ev s Hd).
  pose proof (Hs m n Hm). lia.
Qed.

Lemma fresh_conts_step (lab : Label) (s s' : Client) :
  fresh_conts s -> step s lab = Some s' -> fresh_conts s'.
Proof.
  intros Hs Hstep. destruct lab as [op| |ev]; cbn [step] in Hstep.
  - now apply (fresh_conts_call op s s').
  - now apply (fresh_conts_tick s s').
  - destruct (microtasks s); [|discriminate].
    now apply (fresh_conts_deliver ev s s').
Qed.

Lemma fresh_conts_run :
  forall ls s s', fresh_conts s -> run s ls = Some s' -> fresh_conts s'.
Proof.
  induction ls as [|lab ls IH]; intros s s' Hs Hrun; cbn [run] in Hrun.
  - now injection Hrun as <-.
  - destruct (step s lab) as [s1|] eqn:Hstep; [|discriminate].
    apply (IH s1 s'); [|assumption]. now apply (fresh_conts_step lab s s1).
Qed.

Lemma fresh_conts_new (options : option N) (api : bool) :
  fresh_conts (new_client options api).
Proof. intros m n _ _. reflexivity. Qed.
(* ================================================================== *)
(** * Async functions that await a request *)
(* ================================================================== *)

Lemma awaiting_step (K : Cont) (r : nat) (message : string) (lab : Label) (s s' : Client) :
  settles_itself (fst (owner K)) = true ->
  awaiting K r message s ->
  step s lab = Some s' ->
  answers message lab = false ->
  awaiting K r message s'.
Proof.
  intros HK [Hout Hsus] Hstep Hlab.
  split; [now apply (outstanding_step r message lab s s')|].
  destruct lab as [op| |ev]; cbn [step] in Hstep.
  - now apply (suspended_call K ReplyM r op s s').
  - now apply (suspended_on_outstanding_tick K r message s s').
  - destruct (microtasks s); [|discriminate].
    now apply (suspended_deliver K ReplyM r ev s s').
Qed.

Lemma awaiting_run (K : Cont) (r : nat) (message : string) :
  settles_itself (fst (owner K)) = true ->
  forall ls s s',
    awaiting K r message s ->
    run s ls = Some s' ->
    existsb (answers message) ls = false ->
    awaiting K r message s'.
Proof.
  intros HK. induction ls as [|lab ls IH]; intros s s' Hs Hrun Hls; cbn [run] in Hrun.
  - now injection Hrun as <-.
  - cbn [existsb] in Hls. apply orb_false_iff in Hls. destruct Hls as [Hlab Hls].
    destruct (step s lab) as [s1|] eqn:Hstep; [|discriminate].
    apply (IH s1 s'); [|assumption|assumption].
    now apply (awaiting_step K r message lab s s1).
Qed.

Lemma task_message (i : nat) (e : MessageEvent) (s s' : Client) :
  task (SocketMessage i e) s = Some s' ->
  deliver (SocketMessage i e) s = Some (onmessage e s) /\ s' = drain (onmessage e s).
Proof.
  unfold task. cbn [step]. destruct (microtasks s); [|discriminate].
  cbn [deliver]. destruct (ready s i) as [[]|]; try discriminate;
    cbn [option_map]; intros H; injection H as <-; split; reflexivity.
Qed.

(** The reply resumes the function that awaits the request, within the
    task of the message. *)
Lemma awaiting_reply (K : Cont) (r : nat) (message : string) (i : nat) (e : MessageEvent)
      (m : Method) (c : nat) (o' : Outcome) (Q Q' : Client -> Prop) (s s' : Client) :
  settles_itself (fst (owner K)) = true ->
  job_settles (JAwaited K (reply_outcome message e)) = Some (m, c, o') ->
  (forall s0 j q, Q s0 -> microtasks s0 = j :: q -> awaited (owned m c) j = 0 ->
                  Q (run_job j (set_microtasks q s0))) ->
  (forall s0 q, Q s0 -> microtasks s0 = JAwaited K (reply_outcome message e) :: q ->
                Q' (run_job (JAwaited K (reply_outcome message e)) (set_microtasks q s0))) ->
  (forall s0 j q, Q' s0 -> microtasks s0 = j :: q -> awaited (owned m c) j = 0 ->
                  Q' (run_job j (set_microtasks q s0))) ->
  awaiting K r message s ->
  is_reply message e = true ->
  task (SocketMessage i e) s = Some s' ->
  Q (onmessage e s) ->
  replied r (reply_outcome message e) s'
  /\ resumed K o' s'
  /\ Q' s'.
Proof.
  intros HK Hj HQ HQK HQ' [Hout Hsus] He Htask HQ0.
  destruct (task_message i e s s' Htask) as [Hd ->].
  pose proof (onmessage_reply r message e s Hout He) as Hsch.
  pose proof (suspended_deliver K ReplyM r _ s _ Hsus Hd) as Hsus'.
  exact (reply_resumes K r message (reply_outcome message e) o' m c Q Q'
           HK Hj HQ HQK HQ' (onmessage e s) Hsch Hsus' HQ0).
Qed.

(** ** The request of an async function on an open connection *)

Lemma await_request_open (K : Cont) (i : nat) (message : string) (ws : WebSocket)
      (s0 : Client) :
  _socket s0 = Some i ->
  nth_error (sockets s0) i = Some ws ->
  readyState ws = OPEN ->
  microtasks s0 = [] ->
  reply_listeners (next_call ReplyM s0) (_onMessageCallbacks s0) = [] ->
  pending (resends (next_call ReplyM s0)) s0 = 0 ->
  settles_itself (fst (owner K)) = true ->
  Method_eqb ConnectM (fst (owner K)) = false ->
  result_of K s0 = Some Pending ->
  pending (owned (fst (owner K)) (snd (owner K))) s0 = 0 ->
  let s1 := await ReplyM (next_call ReplyM s0) K (sendAndWaitReply message s0) in
  awaiting K (next_call ReplyM s0) message (drain s1)
  /\ sockets (drain s1) = update_nth i (fun _ => transmit message ws) (sockets s0)
  /\ log (drain s1) = log s0
  /\ _onMessageCallbacks (drain s1)
     = _onMessageCallbacks s0 ++ [ReplyListener (next_call ReplyM s0) message]
  /\ (forall m k, Method_eqb ConnectM m = false ->
                  promise (drain s1) m k = promise (sendAndWaitReply message s0) m k).
Proof.
  intros Hs Hws Hopen Hq Hl Hz HK HKc Hres Hown s1.
  pose proof (ready_open s0 i ws Hws Hopen) as Hr.
  set (n := next_call ReplyM s0) in *. set (c := next_call ConnectM s0).
  destruct (sendAndWaitReply_open i message s0 Hs Hr Hq) as (H1 & H2 & H3 & H4 & H5 & H6).
  fold n c in H1, H2, H3, H4, H5, H6.
  assert (Hq1 : microtasks s1
                = [JAwaited (KConnectOpened c) (Fulfilled (VSocket (Some i)))])
    by (unfold s1; observe; now rewrite H4, H1).
  assert (Hp1 : promise s1 ConnectM c = Some Pending) by (unfold s1; observe; exact H2).
  assert (Hw1 : waiting s1 ConnectM c = [KSendConnected n message])
    by (unfold s1; observe; exact H3).
  assert (Hs1 : _socket s1 = Some i)
    by (unfold s1; observe; rewrite ?socket_sendAndWaitReply; try assumption; reflexivity).
  assert (Hsock : sockets s1 = sockets s0)
    by (unfold s1; observe; rewrite ?sockets_sendAndWaitReply; try assumption; reflexivity).
  assert (Hmsgs : _onMessageCallbacks s1 = _onMessageCallbacks s0)
    by (unfold s1; observe; rewrite ?messages_sendAndWaitReply; try assumption; reflexivity).
  assert (Hlog : log s1 = log s0)
    by (unfold s1; observe; rewrite ?log_sendAndWaitReply; try assumption; reflexivity).
  assert (Hpr : promise s1 ReplyM n = Some Pending) by (unfold s1; observe; exact H4).
  assert (Hin : inner_promise s1 ReplyM n = Some Pending) by (unfold s1; observe; exact H5).
  assert (Hwr : waiting s1 ReplyM n = [K])
    by (unfold s1; observe; now rewrite H4, H6).
  assert (Hbound : forall h, pending h s1
                             <= pending h s0 + h (KSendConnected n message)
                                + h (KConnectGotSocket c) + h (KConnectOpened c) + h K).
  { intros h. pose proof (pending_sendAndWaitReply h message s0) as Hb.
    pose proof (pending_await h ReplyM n K (sendAndWaitReply message s0)) as Ha.
    fold n c in Hb. unfold s1. lia. }
  assert (Hpend : pending (resends n) s1 <= 1).
  { pose proof (Hbound (resends n)) as Hb. cbn [resends] in Hb.
    rewrite Nat.eqb_refl in Hb.
    assert (HK0 : resends n K = 0)
      by (destruct K; cbn [resends]; try reflexivity; discriminate).
    lia. }
  rewrite <- Hsock in Hws. rewrite <- Hmsgs in Hl.
  destruct (sending_result n c i message _ ws s1 Hq1 Hp1 Hw1 Hs1 Hws Hopen Hpr Hin Hl Hpend)
    as (Hout & Hsk & Hlg & Hms & Hprom & Hwait & Hle).
  assert (Hother : forall m k, Method_eqb ConnectM m = false ->
                               promise (drain s1) m k
                               = promise (sendAndWaitReply message s0) m k).
  { intros m k Hm. rewrite Hprom, promise_settle, Hm. cbn [andb].
    unfold s1. apply promise_await. }
  split; [split; [exact Hout|]|].
  - unfold suspended, result_of. split; [|split; [|split]].
    + rewrite Hwait. observe. rewrite Hwr. now left.
    + now destruct Hout as (_ & _ & Hp & _).
    + pose proof (Hle (owned (fst (owner K)) (snd (owner K)))) as H.
      pose proof (Hbound (owned (fst (owner K)) (snd (owner K)))) as Hb.
      rewrite owned_owner in Hb.
      rewrite !owned_other in Hb
        by (cbn [owner fst]; destruct K; try discriminate; reflexivity).
      lia.
    + rewrite Hother by exact HKc.
      unfold result_of in Hres. rewrite <- Hres.
      apply promise_sendAndWaitReply.
      apply promise_defined. congruence.
  - rewrite Hsk, Hlg, Hms, Hsock, Hmsgs, Hlog. repeat split. exact Hother.
Qed.
(* ================================================================== *)
(** * The listener of a subscription *)
(* ================================================================== *)

Lemma pending_ext (h h' : Cont -> nat) (s : Client) :
  (forall k, h k = h' k) -> pending h s = pending h' s.
Proof.
  intros H. rewrite !pending_split. f_equal.
  - f_equal. apply map_ext. intros m. unfold cells_measure. f_equal.
    apply map_ext. intros c. unfold cell_measure. f_equal. apply map_ext. exact H.
  - f_equal. apply map_ext. intros [k o|k api|n message o|w o]; cbn [awaited];
      [apply H | reflexivity | reflexivity | reflexivity].
Qed.

Lemma owned_resubscribes (n : nat) (k : Cont) : owned SubscribeM n k = resubscribes n k.
Proof. destruct k; reflexivity. Qed.

Lemma subscription_listeners_unlisten (n : nat) (cb : MessageCallback)
      (l : list MessageCallback) :
  subscription_listeners n l = [] ->
  subscription_listeners n (Registry.unlisten MessageCallback_same cb l) = [].
Proof.
  intros Hl. destruct (is_subscription n cb) eqn:Hcb.
  - rewrite RegistryFacts.unlisten_absent; [exact Hl|].
    apply (RegistryFacts.occurrences_absent MessageCallback_same MessageCallback_same_spec).
    intros Hin.
    assert (Hf : In cb (subscription_listeners n l))
      by (apply filter_In; split; assumption).
    rewrite Hl in Hf. exact Hf.
  - rewrite <- Hl. apply (subscription_listeners_change n (Unlistened cb)). exact Hcb.
Qed.

(** Only the continuation of [subscribeMany] call [n] registers a listener
    for it. *)
Lemma unsubscribed_step (n : nat) (lab : Label) (s s' : Client) :
  subscription_listeners n (_onMessageCallbacks s) = [] ->
  step s lab = Some s' ->
  (forall j q, lab = Tick -> microtasks s = j :: q -> awaited (resubscribes n) j = 0) ->
  subscription_listeners n (_onMessageCallbacks s') = [].
Proof.
  intros Hl Hstep Hhead. rewrite (messages_step lab s Hstep).
  destruct (step_change lab s) as [|cb|cb] eqn:Hc; cbn [change_registry].
  - exact Hl.
  - rewrite <- Hl. apply (subscription_listeners_change n (Pushed cb)).
    destruct lab as [op| |ev]; cbn [step_change] in Hc.
    + destruct op as [ | | |message|query|command ctx|event callback|events callback
                      |sub|f|f|f|f|f|f|f|f]; cbn [call_change] in Hc; try discriminate.
      * destruct (promise s SubscribeM sub) as [[|[[]|]]|]; discriminate.
      * now injection Hc as <-.
    + destruct (microtasks s) as [|j q] eqn:Hq; [discriminate|].
      specialize (Hhead j q eq_refl eq_refl).
      destruct j as [[c|c|c message|c events callback|c|c] [v|r] | c [] | c message o | c o];
        cbn [job_change] in Hc; try discriminate.
      * destruct (sendable message s); [|discriminate]. now injection Hc as <-.
      * injection Hc as <-. cbn [awaited resubscribes] in Hhead. cbn [is_subscription].
        destruct (Nat.eqb c n); [discriminate | reflexivity].
    + discriminate.
  - now apply subscription_listeners_unlisten.
Qed.

Lemma fresh_subscriptions_step (lab : Label) (s s' : Client) :
  fresh_conts s -> fresh_subscriptions s -> step s lab = Some s' -> fresh_subscriptions s'.
Proof.
  intros Hc Hs Hstep n Hn.
  pose proof (next_call_step_le SubscribeM lab s Hstep) as Hle.
  apply (unsubscribed_step n lab s s'); [apply Hs; lia | exact Hstep |].
  intros j q _ Hq.
  pose proof (pending_queued (owned SubscribeM n) j s) as Hp.
  rewrite Hq in Hp. specialize (Hp (or_introl eq_refl)).
  rewrite (Hc SubscribeM n eq_refl) in Hp by lia.
  destruct j as [k o| | |]; cbn [awaited] in *; try reflexivity.
  rewrite <- owned_resubscribes. lia.
Qed.

Lemma fresh_subscriptions_run :
  forall ls s s',
    fresh_conts s -> fresh_subscriptions s -> run s ls = Some s' -> fresh_subscriptions s'.
Proof.
  induction ls as [|lab ls IH]; intros s s' Hc Hs Hrun; cbn [run] in Hrun.
  - now injection Hrun as <-.
  - destruct (step s lab) as [s1|] eqn:Hstep; [|discriminate].
    apply (IH s1 s'); [| |assumption].
    + now apply (fresh_conts_step lab s s1).
    + now apply (fresh_subscriptions_step lab s s1).
Qed.

Lemma fresh_subscriptions_new (options : option N) (api : bool) :
  fresh_subscriptions (new_client options api).
Proof. intros n _. reflexivity. Qed.

(** While [subscribeMany] call [c] waits for its reply, no listener is
    registered for it. *)
Lemma awaiting_unsubscribed_run (c : nat) (events : list string) (callback : nat)
      (r : nat) (message : string) :
  forall ls s s',
    awaiting (KSubscribeReplied c events callback) r message s ->
    subscription_listeners c (_onMessageCallbacks s) = [] ->
    run s ls = Some s' ->
    existsb (answers message) ls = false ->
    subscription_listeners c (_onMessageCallbacks s') = [].
Proof.
  induction ls as [|lab ls IH]; intros s s' Hs Hl Hrun Hls; cbn [run] in Hrun.
  - now injection Hrun as <-.
  - cbn [existsb] in Hls. apply orb_false_iff in Hls. destruct Hls as [Hlab Hls].
    destruct (step s lab) as [s1|] eqn:Hstep; [|discriminate].
    apply (IH s1 s'); try assumption.
    + now apply (awaiting_step (KSubscribeReplied c events callback) r message lab s s1).
    + apply (unsubscribed_step c lab s s1); try assumption.
      intros j q _ Hq. destruct Hs as [_ Hsus].
      pose proof (suspended_head _ ReplyM r j q s Hsus Hq) as H0.
      cbn [owner fst snd] in H0.
      destruct j as [k o| | |]; cbn [awaited] in *; try reflexivity.
      now rewrite <- owned_resubscribes.
Qed.

Lemma subscription_listeners_run_job (n : nat) (l : list MessageCallback)
      (j : Job) (q : list Job) (s : Client) :
  subscription_listeners n (_onMessageCallbacks s) = l ->
  microtasks s = j :: q ->
  awaited (owned SubscribeM n) j = 0 ->
  subscription_listeners n (_onMessageCallbacks (run_job j (set_microtasks q s))) = l.
Proof.
  intros Hl Hq Hj.
  rewrite (messages_step Tick s (tick_eq j q s Hq)). cbn [step_change]. rewrite Hq.
  rewrite <- Hl. apply subscription_listeners_change.
  destruct j as [[c|c|c message|c events callback|c|c] [v|r] | c [] | c message o | c o];
    cbn [job_change]; try exact I; try reflexivity.
  - destruct (sendable message s); [reflexivity | exact I].
  - cbn [awaited] in Hj. rewrite owned_resubscribes in Hj. cbn [resubscribes] in Hj.
    cbn [is_subscription]. destruct (Nat.eqb c n); [discriminate | reflexivity].
Qed.

(** What [subscribeMany] does after its [await]: it registers the listener
    if the request was fulfilled, and nothing if it was rejected. *)
Lemma subscription_listeners_resumed (c : nat) (events : list string) (callback : nat)
      (o : Outcome) (q : list Job) (s : Client) :
  subscription_listeners c (_onMessageCallbacks s) = [] ->
  subscription_listeners c
    (_onMessageCallbacks
       (run_job (JAwaited (KSubscribeReplied c events callback) o) (set_microtasks q s)))
  = match o with
    | Fulfilled _ => [SubscriptionListener c events callback]
    | Rejected _ => []
    end.
Proof.
  intros Hl. cbn [run_job resume]. unfold subscribeMany_replied.
  destruct o as [v|r]; observe; [|exact Hl].
  unfold subscription_listeners, Registry.push in *.
  rewrite filter_app, Hl. cbn [filter is_subscription app]. now rewrite Nat.eqb_refl.
Qed.
(* ================================================================== *)
(** * From the settlement of a promise to the function that awaits it *)
(* ================================================================== *)

Lemma awaited_targets_own (k : Cont) (o : Outcome) (m : Method) (n : nat) :
  job_targets (JAwaited k o) m n = true -> settles_itself m = true.
Proof.
  destruct k as [c|c|c message|c events callback|c|c], o as [v|r];
    cbn [job_targets job_settles]; intros H; try discriminate;
    apply andb_true_iff in H; destruct H as [H _]; apply Method_eqb_spec in H;
    subst m; reflexivity.
Qed.

Lemma added_no_target (m0 : Method) (n0 : nat) (added : list Job) (j : Job) :
  settles_itself m0 = false ->
  forallb is_awaited added = true ->
  In j added ->
  job_targets j m0 n0 = false.
Proof.
  intros Hm Hall Hin. rewrite forallb_forall in Hall. specialize (Hall j Hin).
  destruct j as [k o| | |]; try discriminate.
  destruct (job_targets (JAwaited k o) m0 n0) eqn:E; [|reflexivity].
  apply awaited_targets_own in E. congruence.
Qed.

Section SettleResumes.

Variables (K : Cont) (m0 : Method) (n0 : nat) (P : Outcome -> Prop) (o' : Outcome)
          (m : Method) (c : nat) (Q Q' : Client -> Prop).

Hypothesis K_settles_itself : settles_itself (fst (owner K)) = true.
Hypothesis m0_settled_by_others : settles_itself m0 = false.
Hypothesis K_owner : owner K = (m, c).
Hypothesis K_settles : forall o, P o -> job_settles (JAwaited K o) = Some (m, c, o').
Hypothesis Q_frame :
  forall s j q, Q s -> microtasks s = j :: q -> awaited (owned m c) j = 0 ->
                Q (run_job j (set_microtasks q s)).
Hypothesis Q_resumes :
  forall o s q, P o -> Q s -> microtasks s = JAwaited K o :: q ->
                Q' (run_job (JAwaited K o) (set_microtasks q s)).
Hypothesis Q'_frame :
  forall s j q, Q' s -> microtasks s = j :: q -> awaited (owned m c) j = 0 ->
                Q' (run_job j (set_microtasks q s)).

Lemma settle_phase_tick (s s' : Client) :
  settle_phase K m0 n0 P o' Q Q' s -> tick s = Some s' ->
  settle_phase K m0 n0 P o' Q Q' s'.
Proof.
  intros Hphase Ht.
  destruct (queue_tick s s' Ht) as (j & q & added & Hq & Hs' & Hq' & Hadded).
  destruct Hphase as [(Hsus & (j1 & Hin1 & Hj1) & Hall & HQ)
                     |[(o & Ho & Hres & HQ)|(Hres & HQ')]].
  - pose proof (suspended_head K m0 n0 j q s Hsus Hq) as H0.
    rewrite K_owner in H0. cbn [fst snd] in H0.
    destruct (job_targets j m0 n0) eqn:Hj.
    + right. left.
      destruct (Hall j) as (o & Hset & Ho); [rewrite Hq; now left | exact Hj |].
      exists o. split; [exact Ho|]. rewrite Hs'. split.
      * now apply (suspended_settling K m0 n0 o).
      * now apply Q_frame.
    + left. split; [|split; [|split]].
      * rewrite Hs'. now apply suspended_run_job.
      * exists j1. split; [|exact Hj1]. rewrite Hq'. apply in_or_app. left.
        rewrite Hq in Hin1. destruct Hin1 as [<-|Hin1]; [congruence | exact Hin1].
      * intros j2 Hin2 Hj2. rewrite Hq' in Hin2. apply in_app_or in Hin2.
        destruct Hin2 as [Hin2|Hin2].
        -- apply Hall; [rewrite Hq; now right | exact Hj2].
        -- rewrite (added_no_target m0 n0 added j2 m0_settled_by_others Hadded Hin2) in Hj2.
           discriminate.
      * rewrite Hs'. now apply Q_frame.
  - right. destruct (resuming_head K o j q s Hres Hq) as [[H0 _]| ->].
    + left. exists o. split; [exact Ho|]. rewrite Hs'. split.
      * now apply resuming_run_job.
      * apply Q_frame; try assumption. now rewrite K_owner in H0.
    + right. rewrite Hs'. split.
      * apply (resuming_resumed K o o' m c); try assumption. now apply K_settles.
      * now apply Q_resumes.
  - right. right. split; [now apply (resumed_tick K o' s s')|].
    rewrite Hs'. apply Q'_frame; try assumption.
    pose proof (resumed_head K o' j q s Hres Hq) as H0. now rewrite K_owner in H0.
Qed.

(** Once a microtask that settles the promise is scheduled, the microtasks
    of the task resume the function suspended on it, and it settles the
    promise of its call. *)
Lemma settle_resumes (s1 : Client) :
  suspended K m0 n0 s1 ->
  (exists j, In j (microtasks s1) /\ job_targets j m0 n0 = true) ->
  settles_with P m0 n0 (microtasks s1) ->
  Q s1 ->
  resumed K o' (drain s1) /\ Q' (drain s1).
Proof.
  intros Hsus Hex Hall HQ.
  assert (H : settle_phase K m0 n0 P o' Q Q' (drain s1)).
  { apply (@drain_invariant (settle_phase K m0 n0 P o' Q Q')); [exact settle_phase_tick|].
    left. split; [|split; [|split]]; assumption. }
  pose proof (drain_quiescent s1) as Hq.
  destruct H as [(_ & (j & Hin & _) & _)|[(o & _ & (Hin & _) & _)|H]].
  - rewrite Hq in Hin. contradiction.
  - rewrite Hq in Hin. contradiction.
  - exact H.
Qed.

End SettleResumes.
(* ================================================================== *)
(** * Waiting for the open event *)
(* ================================================================== *)

Lemma waiter_push (w : nat) (cb : ConnectCallback) (l : list ConnectCallback) :
  In (ConnectWaiter w) l -> In (ConnectWaiter w) (Registry.push l cb).
Proof. intros H. unfold Registry.push. apply in_or_app. now left. Qed.

Lemma waiter_unlisten (w : nat) (cb : ConnectCallback) (l : list ConnectCallback) :
  cb <> ConnectWaiter w ->
  In (ConnectWaiter w) l ->
  In (ConnectWaiter w) (Registry.unlisten ConnectCallback_same cb l).
Proof.
  intros Hne Hin.
  set (P := ConnectCallback_same (ConnectWaiter w)).
  assert (Hcb : P cb = false).
  { unfold P. destruct (ConnectCallback_same (ConnectWaiter w) cb) eqn:E; [|reflexivity].
    apply ConnectCallback_same_spec in E. congruence. }
  assert (Hf : In (ConnectWaiter w) (filter P l)).
  { apply filter_In. split; [exact Hin|]. unfold P. now apply ConnectCallback_same_spec. }
  rewrite <- (RegistryFacts.filter_unlisten ConnectCallback_same ConnectCallback_same_spec
                P cb l Hcb) in Hf.
  apply filter_In in Hf. exact (proj1 Hf).
Qed.

Lemma waiter__waitForConnection (w : nat) (s : Client) :
  In (ConnectWaiter w) (_onConnectCallbacks s) ->
  In (ConnectWaiter w) (_onConnectCallbacks (_waitForConnection s)).
Proof.
  intros H. unfold _waitForConnection. cbv zeta.
  destruct (socket_is_open (alloc WaitM s)).
  - rewrite connects_settle. exact H.
  - cbn [register_connect set_onConnectCallbacks _onConnectCallbacks].
    now apply waiter_push.
Qed.

Lemma waiter_connect (w : nat) (s : Client) :
  In (ConnectWaiter w) (_onConnectCallbacks s) ->
  In (ConnectWaiter w) (_onConnectCallbacks (connect s)).
Proof.
  intros H. unfold connect. cbv zeta.
  destruct (_socket (alloc ConnectM s)); [|destruct (_createSocketPromise (alloc ConnectM s))];
    rewrite connects_await.
  - now apply waiter__waitForConnection.
  - exact H.
  - cbn [set_createSocketPromise _onConnectCallbacks]. rewrite connects__createSocket.
    exact H.
Qed.

Lemma waiter_sendAndWaitReply (w : nat) (message : string) (s : Client) :
  In (ConnectWaiter w) (_onConnectCallbacks s) ->
  In (ConnectWaiter w) (_onConnectCallbacks (sendAndWaitReply message s)).
Proof.
  intros H. unfold sendAndWaitReply. cbv zeta. rewrite connects_await.
  now apply waiter_connect.
Qed.

Lemma waiter_call (w : nat) (op : Op) (s s' : Client) :
  In (ConnectWaiter w) (_onConnectCallbacks s) ->
  call op s = Some s' ->
  In (ConnectWaiter w) (_onConnectCallbacks s').
Proof.
  intros H Hcall.
  destruct op as [ | | |message|query|command ctx|event callback|events callback
                  |sub|f|f|f|f|f|f|f|f]; cbn [call] in Hcall;
    try (destruct (promise s SubscribeM sub) as [[|[[ |sock|d|events callback response]|r]]|];
         try discriminate);
    injection Hcall as <-; try exact H.
  - now apply waiter_connect.
  - now rewrite connects_closeConnection.
  - now apply waiter__waitForConnection.
  - now apply waiter_sendAndWaitReply.
  - now apply waiter_sendAndWaitReply.
  - unfold runCommand. cbv zeta. rewrite connects_await. now apply waiter_sendAndWaitReply.
  - unfold subscribeMany. cbv zeta. rewrite connects_await. now apply waiter_sendAndWaitReply.
  - unfold subscribeMany. cbv zeta. rewrite connects_await. now apply waiter_sendAndWaitReply.
  - unfold unlistenFn. cbv zeta.
    destruct response as [[]|]; rewrite ?connects_settle, ?connects_await;
      try (apply waiter_sendAndWaitReply); exact H.
  - cbn [register_connect set_onConnectCallbacks _onConnectCallbacks]. now apply waiter_push.
  - cbn [unlisten_connect set_onConnectCallbacks _onConnectCallbacks].
    apply waiter_unlisten; [discriminate | exact H].
Qed.

Lemma waiter_run_job (w : nat) (j : Job) (s : Client) :
  In (ConnectWaiter w) (_onConnectCallbacks s) ->
  job_targets j WaitM w = false ->
  In (ConnectWaiter w) (_onConnectCallbacks (run_job j s)).
Proof.
  intros H Hj.
  destruct j as [[c|c|c message|c events callback|c|c] [v|r] | c api | c message o | c o];
    cbn [run_job resume].
  all: rewrite ?connects_pass, ?connects_settle, ?connects_sendAndWaitReply_connected,
         ?connects_subscribeMany_replied, ?connects__createSocket_resume; try exact H.
  - rewrite connects_await. now apply waiter__waitForConnection.
  - cbn [unlisten_connect set_onConnectCallbacks _onConnectCallbacks].
    apply waiter_unlisten; [|exact H].
    intros E. injection E as ->. cbn in Hj. rewrite Nat.eqb_refl in Hj. discriminate.
Qed.

(** ** The waiting promise, step by step *)

Lemma wait_outstanding_bound (w : nat) (s : Client) :
  wait_outstanding w s -> w < next_call WaitM s.
Proof. intros (_ & _ & Hp & _). apply promise_defined. congruence. Qed.

Lemma awaited_or_create_no_wait (w : nat) (j : Job) :
  is_awaited_or_create j = true -> job_targets j WaitM w = false.
Proof.
  destruct j as [[c|c|c message|c events callback|c|c] [v|r] | c [] | c message o | c o];
    cbn; intros H; try reflexivity; discriminate.
Qed.

Lemma wait_outstanding_call (w : nat) (op : Op) (s s' : Client) :
  wait_outstanding w s -> call op s = Some s' -> wait_outstanding w s'.
Proof.
  intros Hs Hcall. pose proof (wait_outstanding_bound w s Hs) as Hb.
  destruct Hs as (Hin & Hi & Hp & Hq).
  destruct (queue_call op s s' Hcall) as (added & Hq' & Hadded).
  split; [now apply (waiter_call w op s s')|].
  split; [now rewrite (inner_call WaitM w op s s' Hcall Hb)|].
  split; [now rewrite (promise_call WaitM op s Hcall Hb)|].
  intros j Hj. rewrite Hq' in Hj. apply in_app_or in Hj. destruct Hj as [Hj|Hj].
  - now apply Hq.
  - apply awaited_or_create_no_wait. rewrite forallb_forall in Hadded. now apply Hadded.
Qed.

Lemma wait_outstanding_tick (w : nat) (s s' : Client) :
  wait_outstanding w s -> tick s = Some s' -> wait_outstanding w s'.
Proof.
  intros Hs Ht. pose proof (wait_outstanding_bound w s Hs) as Hb.
  destruct Hs as (Hin & Hi & Hp & Hq).
  destruct (queue_tick s s' Ht) as (j & q & added & Hq0 & Hs' & Hq' & Hadded).
  assert (Hj : job_targets j WaitM w = false) by (apply Hq; rewrite Hq0; now left).
  split; [rewrite Hs'; now apply waiter_run_job|].
  split; [now rewrite (inner_tick WaitM w s s' Ht Hb)|].
  split.
  - rewrite Hs'.
    change (promise s WaitM w) with (promise (set_microtasks q s) WaitM w) in Hp.
    rewrite <- Hp. now apply promise_run_job.
  - intros j' Hj'. rewrite Hq' in Hj'. apply in_app_or in Hj'. destruct Hj' as [Hj'|Hj'].
    + apply Hq. rewrite Hq0. now right.
    + now apply (added_no_target WaitM w added j').
Qed.

Lemma inner_invoke_message_wait (w : nat) (e : MessageEvent) (cb : MessageCallback)
      (s : Client) :
  inner_promise (state_of (invoke_message e cb s)) WaitM w = inner_promise s WaitM w.
Proof.
  destruct cb as [n message|n events callback|f]; cbn [invoke_message].
  - unfold reply_listener.
    destruct e as [[]|]; cbn [state_of]; try reflexivity;
      repeat match goal with
             | |- context [if ?b then _ else _] => destruct b
             end;
      cbn [state_of]; rewrite ?inner_settle_reply; reflexivity.
  - unfold subscription_listener.
    destruct e as [[]|]; cbn [state_of]; try reflexivity;
      repeat match goal with
             | |- context [if ?b then _ else _] => destruct b
             end;
      reflexivity.
  - reflexivity.
Qed.

Lemma no_wait_job_settle_reply (w n : nat) (message : string) (o : Outcome) (s : Client) :
  (forall j, In j (microtasks s) -> job_targets j WaitM w = false) ->
  forall j, In j (microtasks (settle_reply n message o s)) -> job_targets j WaitM w = false.
Proof.
  intros Hs j Hj. rewrite microtasks_settle_reply in Hj.
  apply in_app_or in Hj. destruct Hj as [Hj|Hj]; [now apply Hs|].
  destruct (inner_promise s ReplyM n) as [[|]|]; try contradiction.
  destruct Hj as [<-|[]]. reflexivity.
Qed.

Lemma no_wait_job_invoke_message (w : nat) (e : MessageEvent) (cb : MessageCallback)
      (s : Client) :
  (forall j, In j (microtasks s) -> job_targets j WaitM w = false) ->
  forall j, In j (microtasks (state_of (invoke_message e cb s))) ->
            job_targets j WaitM w = false.
Proof.
  intros Hs.
  destruct cb as [n message|n events callback|f]; cbn [invoke_message].
  - unfold reply_listener.
    destruct e as [[]|]; cbn [state_of]; try exact Hs;
      repeat match goal with
             | |- context [if ?b then _ else _] => destruct b
             end;
      cbn [state_of]; repeat apply no_wait_job_settle_reply; exact Hs.
  - unfold subscription_listener.
    destruct e as [[]|]; cbn [state_of]; try exact Hs;
      repeat match goal with
             | |- context [if ?b then _ else _] => destruct b
             end;
      exact Hs.
  - exact Hs.
Qed.

Lemma wait_outstanding_deliver (w : nat) (ev : Event) (s s' : Client) :
  wait_outstanding w s ->
  deliver ev s = Some s' ->
  opens (Env ev) = false ->
  wait_outstanding w s'.
Proof.
  intros (Hin & Hi & Hp & Hq) Hd Hev.
  unfold wait_outstanding. rewrite (promise_deliver WaitM w ev s Hd).
  destruct ev as [k ok|i|i e|i|i]; cbn [deliver] in Hd; try discriminate.
  - destruct (existsb (Nat.eqb k) (importing s)); [|discriminate].
    injection Hd as <-. repeat split; try assumption.
    intros j Hj. cbn [enqueue set_microtasks microtasks set_importing] in Hj.
    apply in_app_or in Hj. destruct Hj as [Hj|[<-|[]]]; [now apply Hq|].
    destruct ok; reflexivity.
  - assert (Hs' : s' = onmessage e s)
      by (destruct (ready s i) as [[]|]; try discriminate; now injection Hd as <-).
    subst s'. rewrite connects_onmessage. unfold onmessage.
    rewrite inner_handled, microtasks_handled.
    split; [exact Hin|]. split; [|split; [exact Hp|]].
    + rewrite <- Hi.
      apply (@forEach_preserves _ (invoke_message e)
               (fun s1 => inner_promise s1 WaitM w = inner_promise s WaitM w));
        [|reflexivity].
      intros cb s1 H1. now rewrite inner_invoke_message_wait.
    + apply (@forEach_preserves _ (invoke_message e)
               (fun s1 => forall j, In j (microtasks s1) -> job_targets j WaitM w = false));
        [|exact Hq].
      intros cb s1 H1. now apply no_wait_job_invoke_message.
  - assert (Hs' : exists s0, s' = onerror s0
                             /\ _onConnectCallbacks s0 = _onConnectCallbacks s
                             /\ inner_promise s0 WaitM w = inner_promise s WaitM w
                             /\ microtasks s0 = microtasks s).
    { destruct (ready s i) as [[]|]; try discriminate; injection Hd as <-;
        eexists; (split; [reflexivity|]); repeat split. }
    destruct Hs' as (s0 & -> & H1 & H2 & H3).
    rewrite connects_onerror, microtasks_onerror, H1, H3. unfold onerror.
    rewrite inner_handler by (intros; reflexivity). rewrite H2.
    repeat split; assumption.
  - assert (Hs' : exists s0, s' = onclose s0
                             /\ _onConnectCallbacks s0 = _onConnectCallbacks s
                             /\ inner_promise s0 WaitM w = inner_promise s WaitM w
                             /\ microtasks s0 = microtasks s).
    { destruct (ready s i) as [[]|]; try discriminate; injection Hd as <-;
        eexists; (split; [reflexivity|]); repeat split. }
    destruct Hs' as (s0 & -> & H1 & H2 & H3).
    rewrite connects_onclose, microtasks_onclose, H1, H3. unfold onclose.
    rewrite inner_handler by (intros; reflexivity). rewrite H2.
    repeat split; assumption.
Qed.

Lemma wait_outstanding_step (w : nat) (lab : Label) (s s' : Client) :
  wait_outstanding w s -> step s lab = Some s' -> opens lab = false ->
  wait_outstanding w s'.
Proof.
  intros Hs Hstep Hlab. destruct lab as [op| |ev]; cbn [step] in Hstep.
  - now apply (wait_outstanding_call w op s s').
  - now apply (wait_outstanding_tick w s s').
  - destruct (microtasks s); [|discriminate].
    now apply (wait_outstanding_deliver w ev s s').
Qed.

(** ** The open event *)

Lemma state_of_invoke_connect (cb : ConnectCallback) (s : Client) :
  invoke_connect cb s = Normal (state_of (invoke_connect cb s)).
Proof. destruct cb; reflexivity. Qed.

Lemma microtasks_invoke_connect (cb : ConnectCallback) (s : Client) :
  exists added,
    microtasks (state_of (invoke_connect cb s)) = microtasks s ++ added
    /\ forall j, In j added -> exists w v, j = JWaitFinally w (Fulfilled v).
Proof.
  destruct cb as [w|f]; cbn [invoke_connect state_of].
  - rewrite microtasks_settle_wait. eexists. split; [reflexivity|].
    intros j Hj. destruct (inner_promise s WaitM w) as [[|]|]; try contradiction.
    destruct Hj as [<-|[]]. eauto.
  - exists []. split; [now rewrite app_nil_r | intros j []].
Qed.

Lemma forEach_connect_settles (w : nat) :
  forall (l : list ConnectCallback) (s : Client),
    settles_with is_fulfilled WaitM w (microtasks s) ->
    settles_with is_fulfilled WaitM w (microtasks (state_of (forEach invoke_connect l s))).
Proof.
  intros l s. apply (@forEach_preserves _ invoke_connect
                       (fun s1 => settles_with is_fulfilled WaitM w (microtasks s1))).
  intros cb s1 H1 j Hj Ht.
  destruct (microtasks_invoke_connect cb s1) as (added & Hq & Hadded).
  rewrite Hq in Hj. apply in_app_or in Hj. destruct Hj as [Hj|Hj]; [now apply H1|].
  destruct (Hadded j Hj) as (w' & v & ->).
  cbn in Ht. apply Nat.eqb_eq in Ht. subst w'.
  exists (Fulfilled v). split; [reflexivity | exact I].
Qed.

Lemma forEach_connect_grows (j : Job) :
  forall (l : list ConnectCallback) (s : Client),
    In j (microtasks s) -> In j (microtasks (state_of (forEach invoke_connect l s))).
Proof.
  intros l s. apply (@forEach_preserves _ invoke_connect (fun s1 => In j (microtasks s1))).
  intros cb s1 H1. destruct (microtasks_invoke_connect cb s1) as (added & -> & _).
  apply in_or_app. now left.
Qed.

Lemma forEach_connect_waiter (w : nat) :
  forall (l : list ConnectCallback) (s : Client),
    In (ConnectWaiter w) l ->
    inner_promise s WaitM w = Some Pending ->
    exists v, In (JWaitFinally w (Fulfilled v))
                 (microtasks (state_of (forEach invoke_connect l s))).
Proof.
  induction l as [|cb rest IH]; intros s Hin Hi; [contradiction|].
  cbn [forEach]. rewrite state_of_invoke_connect.
  destruct Hin as [->|Hin].
  - cbn [invoke_connect state_of]. eexists. apply forEach_connect_grows.
    rewrite microtasks_settle_wait, Hi. apply in_or_app. right. now left.
  - destruct (inner_promise (state_of (invoke_connect cb s)) WaitM w) as [[|o]|] eqn:Hi'.
    + now apply IH.
    + (* the waiter was met earlier in the list *)
      destruct cb as [w'|f]; cbn [invoke_connect state_of] in *;
        [|rewrite inner_emit in Hi'; congruence].
      rewrite inner_settle_wait in Hi'. cbn [Method_eqb andb] in Hi'.
      destruct (Nat.eqb w' w) eqn:E; [|congruence].
      apply Nat.eqb_eq in E. subst w'. eexists. apply forEach_connect_grows.
      rewrite microtasks_settle_wait, Hi. apply in_or_app. right. now left.
    + destruct cb as [w'|f]; cbn [invoke_connect state_of] in *;
        [|rewrite inner_emit in Hi'; congruence].
      rewrite inner_settle_wait in Hi'. cbn [Method_eqb andb] in Hi'.
      destruct (Nat.eqb w' w) eqn:E; [|congruence].
      apply Nat.eqb_eq in E. subst w'. rewrite Hi in Hi'. discriminate.
Qed.

(** The open event schedules the [.finally] of every waiting promise. *)
Lemma onopen_schedules (w : nat) (s : Client) :
  wait_outstanding w s ->
  (exists j, In j (microtasks (onopen s)) /\ job_targets j WaitM w = true)
  /\ settles_with is_fulfilled WaitM w (microtasks (onopen s)).
Proof.
  intros (Hin & Hi & Hp & Hq). unfold onopen. rewrite microtasks_handled. split.
  - destruct (forEach_connect_waiter w (_onConnectCallbacks s) s Hin Hi) as (v & Hv).
    eexists. split; [exact Hv|]. cbn. apply Nat.eqb_refl.
  - apply forEach_connect_settles. intros j Hj Ht. rewrite (Hq j Hj) in Ht. discriminate.
Qed.

(** ** A call of [connect] that waits for the open event *)

Lemma connecting_step (c w : nat) (lab : Label) (s s' : Client) :
  connecting c w s -> step s lab = Some s' -> opens lab = false ->
  connecting c w s'.
Proof.
  intros [Hw Hsus] Hstep Hlab.
  split; [now apply (wait_outstanding_step w lab s s')|].
  destruct lab as [op| |ev]; cbn [step] in Hstep.
  - now apply (suspended_call _ WaitM w op s s').
  - destruct (queue_tick s s' Hstep) as (j & q & added & Hq & -> & _).
    apply suspended_run_job; try assumption; [reflexivity|].
    destruct Hw as (_ & _ & _ & Hjobs). apply Hjobs. rewrite Hq. now left.
  - destruct (microtasks s); [|discriminate].
    now apply (suspended_deliver _ WaitM w ev s s').
Qed.

Lemma connecting_run (c w : nat) :
  forall ls s s',
    connecting c w s -> run s ls = Some s' -> existsb opens ls = false ->
    connecting c w s'.
Proof.
  induction ls as [|lab ls IH]; intros s s' Hs Hrun Hls; cbn [run] in Hrun.
  - now injection Hrun as <-.
  - cbn [existsb] in Hls. apply orb_false_iff in Hls. destruct Hls as [Hlab Hls].
    destruct (step s lab) as [s1|] eqn:Hstep; [|discriminate].
    apply (IH s1 s'); [|assumption|assumption].
    now apply (connecting_step c w lab s s1).
Qed.

Lemma wait_outstanding_set_readyState (w i : nat) (r : ReadyState) (s : Client) :
  wait_outstanding w s -> wait_outstanding w (set_readyState i r s).
Proof. intros H. exact H. Qed.

Lemma suspended_set_readyState (K : Cont) (m0 : Method) (n0 i : nat) (r : ReadyState)
      (s : Client) :
  suspended K m0 n0 s -> suspended K m0 n0 (set_readyState i r s).
Proof. intros H. exact H. Qed.

(** The open event fulfils every call of [connect] that waits for it,
    within its task. *)
Lemma connecting_open (c w i : nat) (Q Q' : Client -> Prop) (s s' : Client) :
  (forall s0 j q, Q s0 -> microtasks s0 = j :: q -> awaited (owned ConnectM c) j = 0 ->
                  Q (run_job j (set_microtasks q s0))) ->
  (forall o s0 q, is_fulfilled o -> Q s0 -> microtasks s0 = JAwaited (KConnectOpened c) o :: q ->
                  Q' (run_job (JAwaited (KConnectOpened c) o) (set_microtasks q s0))) ->
  (forall s0 j q, Q' s0 -> microtasks s0 = j :: q -> awaited (owned ConnectM c) j = 0 ->
                  Q' (run_job j (set_microtasks q s0))) ->
  connecting c w s ->
  task (SocketOpen i) s = Some s' ->
  Q (onopen (set_readyState i OPEN s)) ->
  resumed (KConnectOpened c) (Fulfilled VUndefined) s' /\ Q' s'.
Proof.
  intros HQ HQK HQ' [Hw Hsus] Htask HQ0.
  assert (Hs' : deliver (SocketOpen i) s = Some (onopen (set_readyState i OPEN s))
                /\ s' = drain (onopen (set_readyState i OPEN s))).
  { unfold task in Htask. cbn [step] in Htask. destruct (microtasks s); [|discriminate].
    cbn [deliver] in *. destruct (ready s i) as [[]|]; try discriminate.
    cbn [option_map] in Htask. split; [reflexivity | congruence]. }
  destruct Hs' as [Hd ->].
  destruct (onopen_schedules w (set_readyState i OPEN s)
              (wait_outstanding_set_readyState w i OPEN s Hw)) as [Hex Hall].
  apply (settle_resumes (KConnectOpened c) WaitM w is_fulfilled (Fulfilled VUndefined)
           ConnectM c Q Q' eq_refl eq_refl eq_refl); try assumption.
  - intros [v|r] Ho; [reflexivity | contradiction].
  - now apply (suspended_deliver _ WaitM w (SocketOpen i) s).
Qed.
(* ================================================================== *)
(** * A call of [connect] before the socket is open *)
(* ================================================================== *)

Lemma _waitForConnection_waits (s : Client) :
  socket_is_open s = false ->
  _waitForConnection s
  = register_connect (ConnectWaiter (next_call WaitM s)) (alloc WaitM s).
Proof.
  intros H. unfold _waitForConnection. cbv zeta.
  change (socket_is_open (alloc WaitM s)) with (socket_is_open s). now rewrite H.
Qed.

(** [await this._waitForConnection()] while the socket is not open. *)
Lemma await_wait_connecting (c : nat) (s0 : Client) :
  microtasks s0 = [] ->
  promise s0 ConnectM c = Some Pending ->
  pending (owned ConnectM c) s0 = 0 ->
  let w := next_call WaitM s0 in
  let s1 := await WaitM w (KConnectOpened c)
              (register_connect (ConnectWaiter w) (alloc WaitM s0)) in
  connecting c w s1 /\ microtasks s1 = [].
Proof.
  intros Hq Hp Hz w s1.
  assert (Hq1 : microtasks s1 = []) by (unfold s1, w; observe; now rewrite Hq).
  assert (Hpw : promise s1 WaitM w = Some Pending) by (unfold s1, w; observe; reflexivity).
  split; [|exact Hq1]. split.
  - split; [|split; [|split]].
    + unfold s1. rewrite connects_await.
      cbn [register_connect set_onConnectCallbacks _onConnectCallbacks].
      unfold Registry.push. apply in_or_app. right. now left.
    + unfold s1, w. observe. reflexivity.
    + exact Hpw.
    + intros j Hj. rewrite Hq1 in Hj. contradiction.
  - split; [|split; [exact Hpw|split]].
    + unfold s1, w. observe. rewrite waiting_fresh by lia. now left.
    + cbn [owner fst snd].
      pose proof (pending_await (owned ConnectM c) WaitM w (KConnectOpened c)
                    (register_connect (ConnectWaiter w) (alloc WaitM s0))) as H.
      change (pending (owned ConnectM c)
                (register_connect (ConnectWaiter w) (alloc WaitM s0)))
        with (pending (owned ConnectM c) (alloc WaitM s0)) in H.
      rewrite pending_alloc, Hz in H. fold s1 in H.
      assert (H1 : owned ConnectM c (KConnectOpened c) = 1) by apply (owned_owner (KConnectOpened c)).
      lia.
    + unfold result_of. cbn [owner fst snd]. unfold s1. observe. exact Hp.
Qed.

(** [connect()] on a client that has a socket which is not open. *)
Lemma connect_waits (i : nat) (s : Client) :
  _socket s = Some i ->
  socket_is_open s = false ->
  microtasks s = [] ->
  pending (owned ConnectM (next_call ConnectM s)) s = 0 ->
  connecting (next_call ConnectM s) (next_call WaitM s) (drain (connect s)).
Proof.
  intros Hs Hopen Hq Hz.
  assert (Heq : connect s
                = await WaitM (next_call WaitM s) (KConnectOpened (next_call ConnectM s))
                    (register_connect (ConnectWaiter (next_call WaitM s))
                       (alloc WaitM (alloc ConnectM s)))).
  { unfold connect. cbv zeta.
    change (_socket (alloc ConnectM s)) with (_socket s). rewrite Hs.
    rewrite _waitForConnection_waits by exact Hopen. reflexivity. }
  destruct (await_wait_connecting (next_call ConnectM s) (alloc ConnectM s)) as [Hc Hq1].
  - exact Hq.
  - observe. reflexivity.
  - rewrite pending_alloc. exact Hz.
  - rewrite Heq. change (next_call WaitM (alloc ConnectM s)) with (next_call WaitM s) in *.
    rewrite drain_done by exact Hq1. exact Hc.
Qed.

(** The first [connect()] of a client, where [globalThis.WebSocket]
    exists: the socket is constructed within the task of the call. *)
Lemma connect_first (s : Client) :
  _socket s = None ->
  _createSocketPromise s = None ->
  hasGlobalWebSocket s = true ->
  microtasks s = [] ->
  pending (owned ConnectM (next_call ConnectM s)) s = 0 ->
  let s' := drain (connect s) in
  connecting (next_call ConnectM s) (next_call WaitM s) s'
  /\ _socket s' = Some (List.length (sockets s))
  /\ sockets s'
     = sockets s
       ++ [mkWebSocket (match port s with Some p => p | None => DEFAULT_PORT end)
             CONNECTING []]
  /\ log s'
     = log s ++ [ObsSocketCreated (match port s with Some p => p | None => DEFAULT_PORT end)].
Proof.
  intros Hs Hc Hapi Hq Hz.
  set (c := next_call ConnectM s) in *. set (k := next_call CreateSocketM s).
  set (i := List.length (sockets s)).
  set (p := match port s with Some p => p | None => DEFAULT_PORT end).
  set (sA := await CreateSocketM k (KConnectGotSocket c)
               (set_createSocketPromise (Some k)
                  (enqueue (JCreateSocket k true)
                     (alloc CreateSocketM (alloc ConnectM s))))).
  assert (Heq : connect s = sA).
  { unfold connect. cbv zeta.
    change (_socket (alloc ConnectM s)) with (_socket s). rewrite Hs.
    change (_createSocketPromise (alloc ConnectM s)) with (_createSocketPromise s).
    rewrite Hc. unfold _createSocket. cbv zeta.
    change (hasGlobalWebSocket (alloc CreateSocketM (alloc ConnectM s)))
      with (hasGlobalWebSocket s).
    rewrite Hapi. reflexivity. }
  assert (HqA : microtasks sA = [JCreateSocket k true])
    by (unfold sA, k; observe; now rewrite Hq).
  set (sB := set_microtasks [] sA).
  set (sC := settle CreateSocketM k (Fulfilled (VSocket (Some i)))
               (emit (ObsSocketCreated p)
                  (set_sockets (sockets s ++ [mkWebSocket p CONNECTING []]) sB))).
  assert (HrunA : run_job (JCreateSocket k true) sB = sC).
  { cbn [run_job]. unfold _createSocket_resume.
    assert (H1 : port sB = port s) by (unfold sB, sA; observe; reflexivity).
    assert (H2 : sockets sB = sockets s) by (unfold sB, sA; observe; reflexivity).
    rewrite H1, H2. reflexivity. }
  assert (HqC : microtasks sC
                = [JAwaited (KConnectGotSocket c) (Fulfilled (VSocket (Some i)))]).
  { unfold sC, sB, sA, k. observe. rewrite waiting_fresh by lia. reflexivity. }
  set (sD := set_socket (Some i) (set_microtasks [] sC)).
  assert (HopenD : socket_is_open sD = false).
  { apply socket_is_open_not. intros i' Hi'.
    assert (H1 : _socket sD = Some i) by reflexivity.
    rewrite H1 in Hi'. injection Hi' as <-.
    assert (H2 : sockets sD = sockets s ++ [mkWebSocket p CONNECTING []])
      by (unfold sD, sC; observe; reflexivity).
    unfold ready. rewrite H2. unfold i.
    rewrite nth_error_app2 by lia. rewrite Nat.sub_diag. cbn. discriminate. }
  assert (HrunC : run_job (JAwaited (KConnectGotSocket c) (Fulfilled (VSocket (Some i))))
                    (set_microtasks [] sC)
                  = await WaitM (next_call WaitM sD) (KConnectOpened c)
                      (register_connect (ConnectWaiter (next_call WaitM sD))
                         (alloc WaitM sD))).
  { cbn [run_job resume]. cbv zeta. fold sD.
    rewrite _waitForConnection_waits by exact HopenD. reflexivity. }
  assert (Hw : next_call WaitM sD = next_call WaitM s)
    by (unfold sD, sC, sB, sA; observe; reflexivity).
  assert (HzD : pending (owned ConnectM c) sD = 0).
  { pose proof (pending_pop (owned ConnectM c) sC HqC) as P1.
    pose proof (pending_settle (owned ConnectM c) CreateSocketM k
                  (Fulfilled (VSocket (Some i)))
                  (emit (ObsSocketCreated p)
                     (set_sockets (sockets s ++ [mkWebSocket p CONNECTING []]) sB))) as P2.
    fold sC in P2.
    change (pending (owned ConnectM c)
              (emit (ObsSocketCreated p)
                 (set_sockets (sockets s ++ [mkWebSocket p CONNECTING []]) sB)))
      with (pending (owned ConnectM c) sB) in P2.
    pose proof (pending_pop (owned ConnectM c) sA HqA) as P3. fold sB in P3.
    pose proof (pending_await (owned ConnectM c) CreateSocketM k (KConnectGotSocket c)
                  (set_createSocketPromise (Some k)
                     (enqueue (JCreateSocket k true)
                        (alloc CreateSocketM (alloc ConnectM s))))) as P4.
    fold sA in P4.
    change (pending (owned ConnectM c)
              (set_createSocketPromise (Some k)
                 (enqueue (JCreateSocket k true)
                    (alloc CreateSocketM (alloc ConnectM s)))))
      with (pending (owned ConnectM c)
              (enqueue (JCreateSocket k true)
                 (alloc CreateSocketM (alloc ConnectM s)))) in P4.
    rewrite pending_enqueue, !pending_alloc, Hz in P4.
    cbn [awaited] in P1, P3, P4.
    assert (H1 : owned ConnectM c (KConnectGotSocket c) = 1)
      by apply (owned_owner (KConnectGotSocket c)).
    change (pending (owned ConnectM c) sD)
      with (pending (owned ConnectM c) (set_microtasks [] sC)).
    lia. }
  destruct (await_wait_connecting c sD) as [Hcon HqE].
  - reflexivity.
  - unfold sD, sC, sB, sA, c. observe. reflexivity.
  - exact HzD.
  - cbv zeta. rewrite Heq, (drain_job _ _ sA HqA). fold sB. rewrite HrunA.
    rewrite (drain_job _ _ sC HqC), HrunC. rewrite drain_done by exact HqE.
    rewrite Hw in *. split; [exact Hcon|].
    repeat split; unfold sD, sC, sB, sA; observe; reflexivity.
Qed.
(* ================================================================== *)
(** * The environment and the states of the sockets *)
(* ================================================================== *)

Lemma environment_call (op : Op) (s s' : Client) :
  call op s = Some s' ->
  port s' = port s /\ hasGlobalWebSocket s' = hasGlobalWebSocket s.
Proof.
  destruct op as [ | | |message|query|command ctx|event callback|events callback
                  |sub|f|f|f|f|f|f|f|f]; cbn [call];
    try (destruct (promise s SubscribeM sub) as [[|[[ |sock|d|events callback response]|r]]|];
         try discriminate);
    intros H; injection H as <-; split; frame; reflexivity.
Qed.

Lemma environment_run_job (j : Job) (s : Client) :
  port (run_job j s) = port s /\ hasGlobalWebSocket (run_job j s) = hasGlobalWebSocket s.
Proof.
  destruct j as [[c|c|c message|c events callback|c|c] [v|r] | c api | c message o | c o];
    cbn [run_job resume]; split; frame; reflexivity.
Qed.

Lemma environment_deliver (ev : Event) (s s' : Client) :
  deliver ev s = Some s' ->
  port s' = port s /\ hasGlobalWebSocket s' = hasGlobalWebSocket s.
Proof.
  destruct ev as [k ok|i|i e|i|i]; cbn [deliver].
  - destruct (existsb (Nat.eqb k) (importing s)); [|discriminate].
    intros H. injection H as <-. split; reflexivity.
  - destruct (ready s i) as [[]|]; try discriminate.
    intros H. injection H as <-. now rewrite port_onopen, api_onopen.
  - destruct (ready s i) as [[]|]; try discriminate;
      intros H; injection H as <-; now rewrite port_onmessage, api_onmessage.
  - destruct (ready s i) as [[]|]; try discriminate;
      intros H; injection H as <-; now rewrite port_onerror, api_onerror.
  - destruct (ready s i) as [[]|]; try discriminate;
      intros H; injection H as <-; now rewrite port_onclose, api_onclose.
Qed.

Lemma environment_step (lab : Label) (s s' : Client) :
  step s lab = Some s' ->
  port s' = port s /\ hasGlobalWebSocket s' = hasGlobalWebSocket s.
Proof.
  destruct lab as [op| |ev]; cbn [step]; intros Hstep.
  - now apply (environment_call op).
  - destruct (queue_tick s s' Hstep) as (j & q & added & _ & -> & _).
    apply (environment_run_job j (set_microtasks q s)).
  - destruct (microtasks s); [|discriminate]. now apply (environment_deliver ev).
Qed.

(** The port and the environment of a client are those it was constructed
    with. *)
Lemma environment_run (options : option N) (api : bool) :
  forall ls s0 s,
    port s0 = options -> hasGlobalWebSocket s0 = api ->
    run s0 ls = Some s ->
    port s = options /\ hasGlobalWebSocket s = api.
Proof.
  induction ls as [|lab ls IH]; intros s0 s Hp Ha Hrun; cbn [run] in Hrun.
  - injection Hrun as <-. now split.
  - destruct (step s0 lab) as [s1|] eqn:Hstep; [|discriminate].
    destruct (environment_step lab s0 s1 Hstep) as [Hp1 Ha1].
    apply (IH s1 s); congruence.
Qed.

Lemma map_update_nth_same (A B : Type) (f : A -> B) (y : A) :
  forall (l : list A) (i : nat) (x : A),
    nth_error l i = Some x -> f y = f x ->
    map f (update_nth i (fun _ => y) l) = map f l.
Proof.
  induction l as [|a l IH]; intros [|i] x Hx Hy; cbn in *; try discriminate.
  - injection Hx as ->. now rewrite Hy.
  - f_equal. now apply (IH i x).
Qed.

Lemma ws_send_readyState (message : string) (ws ws' : WebSocket) :
  ws_send message ws = Some ws' -> readyState ws' = readyState ws.
Proof.
  unfold ws_send. destruct (readyState ws) eqn:E; intros H; try discriminate;
    injection H as <-; cbn; congruence.
Qed.

Lemma states_sendAndWaitReply_connected (n : nat) (message : string) (s : Client) :
  map readyState (sockets (sendAndWaitReply_connected n message s))
  = map readyState (sockets s).
Proof.
  unfold sendAndWaitReply_connected.
  destruct (_socket s) as [i|]; [|reflexivity].
  destruct (nth_error (sockets s) i) as [ws|] eqn:Hws; [|reflexivity].
  destruct (ws_send message ws) as [ws'|] eqn:Hsend; [|reflexivity].
  cbn [register_message set_onMessageCallbacks set_sockets sockets].
  apply (map_update_nth_same _ _ readyState ws' (sockets s) i ws Hws).
  now apply (ws_send_readyState message).
Qed.

(** Microtasks other than the construction of a socket leave the states
    of the sockets as they are. *)
Lemma states_run_job (j : Job) (s : Client) :
  is_create j = false ->
  map readyState (sockets (run_job j s)) = map readyState (sockets s).
Proof.
  intros Hj.
  destruct j as [[c|c|c message|c events callback|c|c] [v|r] | c [] | c message o | c o];
    try discriminate; cbn [run_job resume subscribeMany_replied].
  all: try (frame; reflexivity).
  apply states_sendAndWaitReply_connected.
Qed.

Lemma Forall_states (Q : ReadyState -> Prop) (l l' : list WebSocket) :
  map readyState l' = map readyState l ->
  Forall (fun ws => Q (readyState ws)) l ->
  Forall (fun ws => Q (readyState ws)) l'.
Proof.
  intros Hmap H.
  apply (proj1 (Forall_map readyState Q l')). rewrite Hmap.
  now apply (proj2 (Forall_map readyState Q l)).
Qed.

Lemma never_opens_nil (s s' : Client) :
  List.length (sockets s') = List.length (sockets s) -> sockets s <> [] -> sockets s' <> [].
Proof.
  intros Hlen Hs Hs'. rewrite Hs' in Hlen. destruct (sockets s); [now apply Hs | discriminate].
Qed.

Lemma never_opens_no_create (s : Client) (j : Job) (q : list Job) :
  single_socket s -> never_opens s -> microtasks s = j :: q -> is_create j = false.
Proof.
  intros [Hb _] [Hne _] Hq.
  destruct (is_create j) eqn:Hj; [|reflexivity].
  unfold creating, createSocket_calls in Hb. rewrite Hq in Hb.
  cbn [filter] in Hb. rewrite Hj in Hb. cbn [List.length] in Hb.
  destruct (sockets s); [now contradiction Hne|].
  cbn [List.length] in Hb. destruct (_createSocketPromise s); lia.
Qed.

(** Once the client has a socket and none is connecting, no open event
    comes. *)
Lemma never_opens_step (lab : Label) (s s' : Client) :
  single_socket s -> never_opens s -> step s lab = Some s' ->
  never_opens s' /\ opens lab = false.
Proof.
  intros Hsingle Hs Hstep. pose proof Hs as [Hne Hall].
  destruct lab as [op| |ev]; cbn [step] in Hstep.
  - split; [|reflexivity].
    destruct (sockets_call op s s' Hstep) as (_ & Hlen & HP).
    split; [now apply (never_opens_nil s s')|].
    apply HP; [|exact Hall].
    intros ws Hws. unfold ws_close. destruct (readyState ws) eqn:E; cbn; congruence.
  - split; [|reflexivity].
    destruct (queue_tick s s' Hstep) as (j & q & added & Hq & -> & _).
    pose proof (never_opens_no_create s j q Hsingle Hs Hq) as Hj.
    pose proof (states_run_job j (set_microtasks q s) Hj) as Hmap.
    split.
    + apply (never_opens_nil s); [|exact Hne].
      change (sockets s) with (sockets (set_microtasks q s)).
      now rewrite <- !(length_map readyState), Hmap.
    + apply (Forall_states (fun r => r <> CONNECTING) (sockets s)); [|exact Hall].
      exact Hmap.
  - destruct (microtasks s); [|discriminate].
    destruct ev as [k ok|i|i e|i|i]; cbn [deliver opens] in *.
    + split; [|reflexivity].
      destruct (existsb (Nat.eqb k) (importing s)); [|discriminate].
      injection Hstep as <-. exact Hs.
    + exfalso. unfold ready in Hstep.
      destruct (nth_error (sockets s) i) as [ws|] eqn:Hws; [|discriminate].
      rewrite Forall_forall in Hall. specialize (Hall ws (nth_error_In _ _ Hws)).
      cbn [option_map] in Hstep. destruct (readyState ws); try discriminate.
      now contradiction Hall.
    + split; [|reflexivity].
      destruct (ready s i) as [[]|]; try discriminate; injection Hstep as <-;
        unfold never_opens; rewrite sockets_onmessage; exact Hs.
    + split; [|reflexivity].
      assert (Hset : never_opens (set_readyState i CLOSING s)).
      { split.
        - apply (never_opens_nil s); [|exact Hne].
          cbn [set_readyState set_sockets sockets]. apply length_update_nth.
        - cbn [set_readyState set_sockets sockets]. apply Forall_update_nth; [|exact Hall].
          intros ws _. cbn. discriminate. }
      destruct (ready s i) as [[]|]; try discriminate; injection Hstep as <-;
        unfold never_opens; rewrite sockets_onerror; try exact Hset; exact Hs.
    + split; [|reflexivity].
      assert (Hset : never_opens (set_readyState i CLOSED s)).
      { split.
        - apply (never_opens_nil s); [|exact Hne].
          cbn [set_readyState set_sockets sockets]. apply length_update_nth.
        - cbn [set_readyState set_sockets sockets]. apply Forall_update_nth; [|exact Hall].
          intros ws _. cbn. discriminate. }
      destruct (ready s i) as [[]|]; try discriminate; injection Hstep as <-;
        unfold never_opens; rewrite sockets_onclose; exact Hset.
Qed.

Lemma never_opens_run :
  forall ls s s',
    single_socket s -> never_opens s -> run s ls = Some s' ->
    never_opens s' /\ single_socket s' /\ existsb opens ls = false.
Proof.
  induction ls as [|lab ls IH]; intros s s' Hsingle Hs Hrun; cbn [run] in Hrun.
  - injection Hrun as <-. split; [exact Hs|]. split; [exact Hsingle | reflexivity].
  - destruct (step s lab) as [s1|] eqn:Hstep; [|discriminate].
    destruct (never_opens_step lab s s1 Hsingle Hs Hstep) as [Hs1 Hlab].
    cbn [existsb]. rewrite Hlab. cbn [orb].
    apply (IH s1 s'); try assumption. now apply (single_socket_step lab s s1).
Qed.

Lemma never_opens_drain (s : Client) :
  single_socket s -> never_opens s -> never_opens (drain s) /\ single_socket (drain s).
Proof.
  intros Hsingle Hs. destruct (ticks_run (weight s) s) as (n & Hrun).
  destruct (never_opens_run _ s _ Hsingle Hs Hrun) as (H1 & H2 & _). now split.
Qed.

Lemma single_socket_drain (s : Client) : single_socket s -> single_socket (drain s).
Proof.
  intros Hs. destruct (ticks_run (weight s) s) as (n & Hrun).
  exact (single_socket_run _ s _ Hs Hrun).
Qed.
(* ================================================================== *)
(** * Before the first call of [connect] *)
(* ================================================================== *)

Lemma creation_call (op : Op) (s s' : Client) :
  call op s = Some s' ->
  (createSocket_calls s' = createSocket_calls s + creates s
   /\ total (map gets_socket (call_conts op s)) = 1)
  \/ (_createSocketPromise s' = _createSocketPromise s
      /\ _socket s' = _socket s
      /\ pending gets_socket s' <= pending gets_socket s).
Proof.
  intros Hcall.
  destruct op as [ | | |message|query|command ctx|event callback|events callback
                  |sub|f|f|f|f|f|f|f|f]; cbn [call] in Hcall;
    try (destruct (promise s SubscribeM sub) as [[|[[ |sock|d|events callback response]|r]]|]
           eqn:Hsub; try discriminate);
    injection Hcall as <-.
  - left. split; [apply creation_connect | reflexivity].
  - right. repeat split; frame; try reflexivity.
    unfold closeConnection. destruct (_socket s); apply Nat.le_refl.
  - right. repeat split; frame; try reflexivity. apply pending__waitForConnection.
  - left. split; [apply creation_sendAndWaitReply | reflexivity].
  - left. split; [apply creation_sendAndWaitReply | reflexivity].
  - left. split; [apply creation_runCommand | reflexivity].
  - left. split; [apply creation_subscribeMany | reflexivity].
  - left. split; [apply creation_subscribeMany | reflexivity].
  - destruct response as [[]|].
    2-6: left; split; [|cbn [call_conts]; rewrite Hsub; reflexivity];
      unfold unlistenFn; cbv zeta; unfold createSocket_calls;
      rewrite socket_promise_await;
      match goal with
      | |- context [sendAndWaitReply ?t ?s2] =>
          exact (proj2 (creation_sendAndWaitReply t s2))
      end.
    all: right; unfold unlistenFn; cbv zeta; repeat split; frame; try reflexivity;
      pending_bound.
  - right. repeat split; apply Nat.le_refl.
  - right. repeat split; apply Nat.le_refl.
  - right. repeat split; apply Nat.le_refl.
  - right. repeat split; apply Nat.le_refl.
  - right. repeat split; apply Nat.le_refl.
  - right. repeat split; apply Nat.le_refl.
  - right. repeat split; apply Nat.le_refl.
  - right. repeat split; apply Nat.le_refl.
Qed.

Lemma no_creation_call (op : Op) (s s' : Client) :
  no_creation s -> call op s = Some s' -> no_creation s'.
Proof.
  intros Hs Hcall Hnone.
  destruct (creation_call op s s' Hcall) as [[Hcalls _]|(Hp & Hsock & Hle)].
  - exfalso. unfold createSocket_calls, creates in Hcalls. rewrite Hnone in Hcalls.
    destruct (_createSocketPromise s) eqn:Hc; [lia|].
    destruct (Hs Hc) as [Hsocket _]. rewrite Hsocket in Hcalls. lia.
  - rewrite Hp in Hnone. destruct (Hs Hnone) as [Hsocket Hz].
    split; [congruence | lia].
Qed.

Lemma socket_run_job (j : Job) (s : Client) :
  awaited gets_socket j = 0 ->
  _socket (run_job j s) = _socket s
  /\ _createSocketPromise (run_job j s) = _createSocketPromise s.
Proof.
  intros Hj.
  destruct j as [[c|c|c message|c events callback|c|c] [v|r] | c api | c message o | c o];
    try discriminate; cbn [run_job resume]; split; frame; reflexivity.
Qed.

Lemma no_creation_tick (s s' : Client) :
  no_creation s -> tick s = Some s' -> no_creation s'.
Proof.
  intros Hs Ht Hnone.
  destruct (pending_tick gets_socket s Ht) as (j & q & Hq & Hp).
  pose proof (tick_eq j q s Hq) as Heq. rewrite Ht in Heq. injection Heq as ->.
  assert (Hr : respawn gets_socket j = 0).
  { destruct j as [[c|c|c message|c events callback|c|c] [v|r] | c [] | c message o | c o];
      reflexivity. }
  pose proof (pending_queued gets_socket j s) as Hin.
  rewrite Hq in Hin. specialize (Hin (or_introl eq_refl)).
  destruct (awaited gets_socket j) eqn:Hj.
  - destruct (socket_run_job j (set_microtasks q s) Hj) as [H1 H2].
    rewrite H2 in Hnone. destruct (Hs Hnone) as [Hsocket Hz].
    split; [now rewrite H1 | lia].
  - exfalso.
    assert (Hc : _createSocketPromise s = None).
    { rewrite <- Hnone.
      destruct j as [[c|c|c message|c events callback|c|c] [v|r] | c api | c message o | c o];
        try discriminate; cbn [run_job resume]; frame; reflexivity. }
    destruct (Hs Hc) as [_ Hz]. lia.
Qed.

Lemma no_creation_deliver (ev : Event) (s s' : Client) :
  no_creation s -> deliver ev s = Some s' -> no_creation s'.
Proof.
  intros Hs Hd Hnone.
  pose proof (pending_deliver gets_socket ev s Hd) as Hle.
  assert (H : _socket s' = _socket s /\ _createSocketPromise s' = _createSocketPromise s).
  { destruct ev as [k ok|i|i e|i|i]; cbn [deliver] in Hd.
    - destruct (existsb (Nat.eqb k) (importing s)); [|discriminate].
      injection Hd as <-. split; reflexivity.
    - destruct (ready s i) as [[]|]; try discriminate.
      injection Hd as <-. now rewrite socket_onopen, socket_promise_onopen.
    - destruct (ready s i) as [[]|]; try discriminate;
        injection Hd as <-; now rewrite socket_onmessage, socket_promise_onmessage.
    - destruct (ready s i) as [[]|]; try discriminate;
        injection Hd as <-; now rewrite socket_onerror, socket_promise_onerror.
    - destruct (ready s i) as [[]|]; try discriminate;
        injection Hd as <-; now rewrite socket_onclose, socket_promise_onclose. }
  destruct H as [H1 H2]. rewrite H2 in Hnone. destruct (Hs Hnone) as [Hsocket Hz].
  split; [congruence | lia].
Qed.

Lemma no_creation_step (lab : Label) (s s' : Client) :
  no_creation s -> step s lab = Some s' -> no_creation s'.
Proof.
  intros Hs Hstep. destruct lab as [op| |ev]; cbn [step] in Hstep.
  - now apply (no_creation_call op s s').
  - now apply (no_creation_tick s s').
  - destruct (microtasks s); [|discriminate].
    now apply (no_creation_deliver ev s s').
Qed.

Lemma no_creation_run :
  forall ls s s', no_creation s -> run s ls = Some s' -> no_creation s'.
Proof.
  induction ls as [|lab ls IH]; intros s s' Hs Hrun; cbn [run] in Hrun.
  - now injection Hrun as <-.
  - destruct (step s lab) as [s1|] eqn:Hstep; [|discriminate].
    apply (IH s1 s'); [|assumption]. now apply (no_creation_step lab s s1).
Qed.

Lemma no_creation_new (options : option N) (api : bool) :
  no_creation (new_client options api).
Proof. intros _. split; reflexivity. Qed.

(** Before [_createSocket] is called the client has no socket. *)
Lemma no_creation_no_socket (s : Client) :
  single_socket s -> _createSocketPromise s = None -> sockets s = [].
Proof.
  intros [Hb _] Hc. unfold createSocket_calls in Hb. rewrite Hc in Hb.
  destruct (sockets s); [reflexivity | cbn in Hb; lia].
Qed.
(* ================================================================== *)
(** * Waiting for the import of [ws] *)
(* ================================================================== *)

(** [connect()] while the client has no socket and no global
    [WebSocket]: it starts the import, or joins the creation that waits
    for it. *)
Lemma joined_connect (s : Client) :
  hasGlobalWebSocket s = false ->
  _socket s = None ->
  match _createSocketPromise s with
  | None => True
  | Some k => In k (importing s) /\ promise s CreateSocketM k = Some Pending
  end ->
  pending (owned ConnectM (next_call ConnectM s)) s = 0 ->
  joined (next_call ConnectM s)
         (match _createSocketPromise s with
          | Some k => k
          | None => next_call CreateSocketM s
          end)
         (connect s)
  /\ microtasks (connect s) = microtasks s.
Proof.
  intros Hapi Hs Hc Hz. set (c := next_call ConnectM s) in *.
  unfold connect. cbv zeta.
  change (_socket (alloc ConnectM s)) with (_socket s). rewrite Hs.
  change (_createSocketPromise (alloc ConnectM s)) with (_createSocketPromise s).
  destruct (_createSocketPromise s) as [k|] eqn:Hk.
  - destruct Hc as [Hin Hp].
    assert (Hp' : promise (alloc ConnectM s) CreateSocketM k = Some Pending)
      by (observe; exact Hp).
    set (s1 := await CreateSocketM k (KConnectGotSocket c) (alloc ConnectM s)).
    assert (Hq : microtasks s1 = microtasks s)
      by (unfold s1; observe; rewrite Hp; now rewrite app_nil_r).
    split; [|exact Hq].
    split; [unfold s1; rewrite socket_await; exact Hs|].
    split; [unfold s1; rewrite socket_promise_await; exact Hk|].
    split; [unfold s1; rewrite importing_await; exact Hin|].
    split; [unfold s1, c; observe; reflexivity|].
    split; [|split; [|split]].
    + unfold s1. observe. rewrite Hp. apply in_or_app. right. now left.
    + unfold s1. observe. exact Hp.
    + cbn [owner fst snd].
      pose proof (pending_await (owned ConnectM c) CreateSocketM k (KConnectGotSocket c)
                    (alloc ConnectM s)) as H.
      rewrite pending_alloc, Hz in H. fold s1 in H.
      assert (H1 : owned ConnectM c (KConnectGotSocket c) = 1)
        by apply (owned_owner (KConnectGotSocket c)).
      change (pending (owned ConnectM c) s1 <= 1). lia.
    + unfold result_of, s1, c. cbn [owner fst snd]. observe. reflexivity.
  - unfold _createSocket. cbv zeta.
    change (hasGlobalWebSocket (alloc CreateSocketM (alloc ConnectM s)))
      with (hasGlobalWebSocket s).
    rewrite Hapi.
    change (next_call CreateSocketM (alloc ConnectM s)) with (next_call CreateSocketM s).
    set (k := next_call CreateSocketM s).
    set (s0 := set_createSocketPromise (Some k)
                 (set_importing (importing (alloc CreateSocketM (alloc ConnectM s)) ++ [k])
                    (alloc CreateSocketM (alloc ConnectM s)))).
    assert (Hp' : promise s0 CreateSocketM k = Some Pending)
      by (unfold s0, k; observe; reflexivity).
    set (s1 := await CreateSocketM k (KConnectGotSocket c) s0).
    assert (Hq : microtasks s1 = microtasks s)
      by (unfold s1; observe; rewrite Hp'; unfold s0; observe; now rewrite app_nil_r).
    split; [|exact Hq].
    split; [unfold s1; now rewrite socket_await|].
    split; [unfold s1; now rewrite socket_promise_await|].
    split; [unfold s1; rewrite importing_await; unfold s0;
            cbn [set_createSocketPromise set_importing importing];
            apply in_or_app; right; now left|].
    split; [unfold s1, s0, c; observe; reflexivity|].
    split; [|split; [|split]].
    + unfold s1. observe. rewrite Hp'. apply in_or_app. right. now left.
    + unfold s1. observe. exact Hp'.
    + cbn [owner fst snd].
      pose proof (pending_await (owned ConnectM c) CreateSocketM k (KConnectGotSocket c) s0)
        as H.
      change (pending (owned ConnectM c) s0)
        with (pending (owned ConnectM c) (alloc CreateSocketM (alloc ConnectM s))) in H.
      rewrite !pending_alloc, Hz in H. fold s1 in H.
      assert (H1 : owned ConnectM c (KConnectGotSocket c) = 1)
        by apply (owned_owner (KConnectGotSocket c)).
      change (pending (owned ConnectM c) s1 <= 1). lia.
    + unfold result_of, s1, s0, c. cbn [owner fst snd]. observe. reflexivity.
Qed.

Lemma joined_await (c k : nat) (m : Method) (n : nat) (K : Cont) (s : Client) :
  joined c k s ->
  owned ConnectM c K = 0 ->
  joined c k (await m n K s).
Proof.
  intros (Hs & Hk & Hin & Hn & Hw & Hp & Hle & Hr) HK.
  split; [now rewrite socket_await|].
  split; [now rewrite socket_promise_await|].
  split; [now rewrite importing_await|].
  split; [now rewrite next_call_await|].
  split; [now apply In_waiting_await|].
  split; [now rewrite promise_await|].
  split.
  - cbn [owner fst snd] in *.
    pose proof (pending_await (owned ConnectM c) m n K s). lia.
  - unfold result_of in *. now rewrite promise_await.
Qed.

(** The state [connect] is called in, inside an operation: the promise of
    the operation has been made. *)
Lemma joined_connect_after (pre : Client -> Client) (s : Client) :
  (forall s0, _socket (pre s0) = _socket s0
              /\ _createSocketPromise (pre s0) = _createSocketPromise s0
              /\ hasGlobalWebSocket (pre s0) = hasGlobalWebSocket s0
              /\ importing (pre s0) = importing s0
              /\ microtasks (pre s0) = microtasks s0
              /\ next_call ConnectM (pre s0) = next_call ConnectM s0
              /\ next_call CreateSocketM (pre s0) = next_call CreateSocketM s0
              /\ (forall n, promise (pre s0) CreateSocketM n = promise s0 CreateSocketM n)
              /\ (forall h, pending h (pre s0) = pending h s0)) ->
  hasGlobalWebSocket s = false ->
  _socket s = None ->
  match _createSocketPromise s with
  | None => True
  | Some k => In k (importing s) /\ promise s CreateSocketM k = Some Pending
  end ->
  pending (owned ConnectM (next_call ConnectM s)) s = 0 ->
  joined (next_call ConnectM s)
         (match _createSocketPromise s with
          | Some k => k
          | None => next_call CreateSocketM s
          end)
         (connect (pre s))
  /\ microtasks (connect (pre s)) = microtasks s.
Proof.
  intros Hpre Hapi Hs Hc Hz.
  destruct (Hpre s) as (H1 & H2 & H3 & H4 & H5 & H6 & H7 & H8 & H9).
  destruct (joined_connect (pre s)) as [Hj Hq].
  - congruence.
  - congruence.
  - rewrite H2. destruct (_createSocketPromise s); [|exact I].
    now rewrite H4, H8.
  - now rewrite H6, H9.
  - rewrite H2, H6, H7 in Hj. rewrite H5 in Hq. now split.
Qed.

Lemma importing_ws_joined (op : Op) (s s' : Client) :
  importing_ws s ->
  call op s = Some s' ->
  joined (next_call ConnectM s)
         (match _createSocketPromise s with
          | Some k => k
          | None => next_call CreateSocketM s
          end) s' ->
  importing_ws s'.
Proof.
  intros [Hs Hm] Hcall (Hs' & Hk' & Hin' & Hn' & Hsus').
  split; [exact Hs'|]. rewrite Hk'.
  split; [exact Hin'|]. split; [now destruct Hsus' as (_ & Hp & _)|].
  intros c Hc. rewrite Hn' in Hc.
  destruct (Nat.eq_dec c (next_call ConnectM s)) as [->|Hne]; [exact Hsus'|].
  destruct (_createSocketPromise s) as [k|]; [|lia].
  destruct Hm as (_ & _ & Hall).
  apply (suspended_call _ CreateSocketM k op s s'); [|exact Hcall].
  apply Hall. lia.
Qed.

Lemma importing_ws_unchanged (op : Op) (s s' : Client) :
  importing_ws s ->
  call op s = Some s' ->
  _socket s' = _socket s ->
  _createSocketPromise s' = _createSocketPromise s ->
  importing s' = importing s ->
  next_call ConnectM s' = next_call ConnectM s ->
  importing_ws s'.
Proof.
  intros [Hs Hm] Hcall H1 H2 H3 H4.
  split; [congruence|]. rewrite H2, H3, H4.
  destruct (_createSocketPromise s) as [k|]; [|exact Hm].
  destruct Hm as (Hin & Hp & Hall).
  split; [exact Hin|]. split.
  - rewrite (promise_call CreateSocketM op s Hcall); [exact Hp|].
    apply promise_defined. congruence.
  - intros c Hc. apply (suspended_call _ CreateSocketM k op s s'); [|exact Hcall].
    now apply Hall.
Qed.

Ltac pre_facts :=
  intros ?s0; repeat split; try reflexivity;
  intros ?h; rewrite ?pending_alloc;
  try change (pending ?h (unlisten_message ?cb ?x)) with (pending h x);
  rewrite ?pending_alloc; reflexivity.

Lemma importing_ws_call (op : Op) (s s' : Client) :
  hasGlobalWebSocket s = false ->
  fresh_conts s ->
  importing_ws s ->
  call op s = Some s' ->
  importing_ws s'.
Proof.
  intros Hapi Hfresh Hws Hcall. pose proof Hws as [Hs Hm].
  pose proof (Hfresh ConnectM (next_call ConnectM s) eq_refl (Nat.le_refl _)) as Hz.
  assert (Hc : match _createSocketPromise s with
               | None => True
               | Some k => In k (importing s) /\ promise s CreateSocketM k = Some Pending
               end).
  { destruct (_createSocketPromise s); [|exact I]. now destruct Hm as (H1 & H2 & _). }
  assert (Hsend : forall (pre : Client -> Client) message,
             (forall s0, _socket (pre s0) = _socket s0
                         /\ _createSocketPromise (pre s0) = _createSocketPromise s0
                         /\ hasGlobalWebSocket (pre s0) = hasGlobalWebSocket s0
                         /\ importing (pre s0) = importing s0
                         /\ microtasks (pre s0) = microtasks s0
                         /\ next_call ConnectM (pre s0) = next_call ConnectM s0
                         /\ next_call CreateSocketM (pre s0) = next_call CreateSocketM s0
                         /\ (forall n, promise (pre s0) CreateSocketM n
                                       = promise s0 CreateSocketM n)
                         /\ (forall h, pending h (pre s0) = pending h s0)) ->
             joined (next_call ConnectM s)
                    (match _createSocketPromise s with
                     | Some k => k
                     | None => next_call CreateSocketM s
                     end)
                    (sendAndWaitReply message (pre s))).
  { intros pre message Hpre. unfold sendAndWaitReply. cbv zeta.
    apply joined_await; [|reflexivity].
    apply (joined_connect_after (fun s0 => alloc ReplyM (pre s0))); try assumption.
    intros s0. destruct (Hpre s0) as (H1 & H2 & H3 & H4 & H5 & H6 & H7 & H8 & H9).
    repeat split; try assumption.
    intros h. rewrite pending_alloc. apply H9. }
  destruct op as [ | | |message|query|command ctx|event callback|events callback
                  |sub|f|f|f|f|f|f|f|f]; cbn [call] in Hcall;
    try (destruct (promise s SubscribeM sub) as [[|[[ |sock|d|events callback response]|r]]|]
           eqn:Hsub; try discriminate);
    pose proof Hcall as Hcall'; injection Hcall' as <-.
  - apply (importing_ws_joined Connect s); try assumption.
    now apply joined_connect.
  - apply (importing_ws_unchanged CloseConnection s); try assumption;
      rewrite ?socket_closeConnection, ?socket_promise_closeConnection,
        ?importing_closeConnection, ?next_call_closeConnection; reflexivity.
  - apply (importing_ws_unchanged WaitForConnection s); try assumption; frame;
      try reflexivity.
    unfold _waitForConnection. cbv zeta.
    destruct (socket_is_open (alloc WaitM s)); observe; reflexivity.
  - apply (importing_ws_joined (SendAndWaitReply message) s); try assumption.
    apply (Hsend (fun s0 => s0)). intros s0. repeat split.
  - apply (importing_ws_joined (SendQuery query) s); try assumption.
    apply (Hsend (fun s0 => s0)). intros s0. repeat split.
  - apply (importing_ws_joined (RunCommand command ctx) s); try assumption.
    unfold runCommand. cbv zeta. apply joined_await; [|reflexivity].
    apply (Hsend (alloc CommandM)). pre_facts.
  - apply (importing_ws_joined (Subscribe event callback) s); try assumption.
    unfold subscribeMany. cbv zeta. apply joined_await; [|reflexivity].
    apply (Hsend (alloc SubscribeM)). pre_facts.
  - apply (importing_ws_joined (SubscribeMany events callback) s); try assumption.
    unfold subscribeMany. cbv zeta. apply joined_await; [|reflexivity].
    apply (Hsend (alloc SubscribeM)). pre_facts.
  - assert (Hstep : call (InvokeUnlistenFn sub) s
                    = Some (unlistenFn sub events callback response s))
      by (cbn [call]; now rewrite Hsub).
    destruct response as [[]|].
    2-6: apply (importing_ws_joined (InvokeUnlistenFn sub) s _ Hws Hstep);
      unfold unlistenFn; cbv zeta; (apply joined_await; [|reflexivity]);
      apply (Hsend (fun s0 => unlisten_message (SubscriptionListener sub events callback)
                                (alloc UnlistenM s0)));
      pre_facts.
    all: apply (importing_ws_unchanged (InvokeUnlistenFn sub) s _ Hws Hstep);
      unfold unlistenFn; cbv zeta; frame; try reflexivity; observe; reflexivity.
  - apply (importing_ws_unchanged (OnMessage f) s); try assumption; reflexivity.
  - apply (importing_ws_unchanged (OnConnect f) s); try assumption; reflexivity.
  - apply (importing_ws_unchanged (OnDisconnect f) s); try assumption; reflexivity.
  - apply (importing_ws_unchanged (OnError f) s); try assumption; reflexivity.
  - apply (importing_ws_unchanged (UnlistenMessage f) s); try assumption; reflexivity.
  - apply (importing_ws_unchanged (UnlistenConnect f) s); try assumption; reflexivity.
  - apply (importing_ws_unchanged (UnlistenDisconnect f) s); try assumption; reflexivity.
  - apply (importing_ws_unchanged (UnlistenError f) s); try assumption; reflexivity.
Qed.

Lemma next_call_ConnectM_run_job (j : Job) (s : Client) :
  next_call ConnectM (run_job j s) = next_call ConnectM s.
Proof.
  destruct j as [[c|c|c message|c events callback|c|c] [v|r] | c api | c message o | c o];
    cbn [run_job resume];
    unfold pass, subscribeMany_replied, _createSocket_resume, sendAndWaitReply_connected,
      _waitForConnection;
    cbv zeta; split_matches; rewrite ?next_call_await, ?next_call_settle; reflexivity.
Qed.

Lemma not_create_no_target (j : Job) (k : nat) :
  is_create j = false -> job_targets j CreateSocketM k = false.
Proof.
  destruct j as [[c|c|c message|c events callback|c|c] [v|r] | c [] | c message o | c o];
    cbn; intros H; try reflexivity; discriminate.
Qed.

Lemma importing_no_create (s : Client) (k : nat) (j : Job) :
  single_socket s -> In k (importing s) -> In j (microtasks s) -> is_create j = false.
Proof.
  intros [Hb _] Hk Hj.
  destruct (is_create j) eqn:E; [|reflexivity].
  assert (H1 : In j (filter is_create (microtasks s))) by (apply filter_In; now split).
  unfold creating, createSocket_calls in Hb.
  destruct (filter is_create (microtasks s)); [contradiction|].
  destruct (importing s); [contradiction|].
  cbn [List.length] in Hb. destruct (_createSocketPromise s); lia.
Qed.

Lemma importing_ws_head (s : Client) (j : Job) (q : list Job) :
  fresh_conts s ->
  no_creation s ->
  importing_ws s ->
  microtasks s = j :: q ->
  awaited gets_socket j = 0.
Proof.
  intros Hfresh Hno [Hs Hm] Hq.
  destruct j as [[c|c|c message|c events callback|c|c] o| | |]; try reflexivity.
  exfalso.
  assert (Hown : owned ConnectM c (KConnectGotSocket c) = 1)
    by apply (owned_owner (KConnectGotSocket c)).
  pose proof (pending_queued (owned ConnectM c) (JAwaited (KConnectGotSocket c) o) s) as H1.
  rewrite Hq in H1. specialize (H1 (or_introl eq_refl)). cbn [awaited] in H1.
  rewrite Hown in H1.
  assert (Hc : c < next_call ConnectM s).
  { destruct (Nat.lt_ge_cases c (next_call ConnectM s)) as [H|H]; [exact H|].
    rewrite (Hfresh ConnectM c eq_refl H) in H1. lia. }
  destruct (_createSocketPromise s) as [k|]; [|lia].
  destruct Hm as (_ & _ & Hall).
  pose proof (suspended_head _ CreateSocketM k _ q s (Hall c Hc) Hq) as H0.
  cbn [owner fst snd awaited] in H0.
  rewrite Hown in H0. discriminate.
Qed.

Lemma importing_ws_tick (s s' : Client) :
  single_socket s ->
  fresh_conts s ->
  no_creation s ->
  importing_ws s ->
  tick s = Some s' ->
  importing_ws s'.
Proof.
  intros Hsingle Hfresh Hno Hws Ht. pose proof Hws as [Hs Hm].
  destruct (queue_tick s s' Ht) as (j & q & added & Hq & -> & _).
  pose proof (importing_ws_head s j q Hfresh Hno Hws Hq) as Hj.
  destruct (socket_run_job j (set_microtasks q s) Hj) as [H1 H2].
  split; [now rewrite H1|]. rewrite H2, next_call_ConnectM_run_job.
  change (_createSocketPromise (set_microtasks q s)) with (_createSocketPromise s).
  change (next_call ConnectM (set_microtasks q s)) with (next_call ConnectM s).
  destruct (_createSocketPromise s) as [k|]; [|exact Hm].
  destruct Hm as (Hin & Hp & Hall).
  assert (Hc : is_create j = false)
    by (apply (importing_no_create s k); try assumption; rewrite Hq; now left).
  destruct (run_job_no_socket j (set_microtasks q s) Hc) as (_ & _ & H3 & _).
  split; [now rewrite H3|]. split.
  - change (promise s CreateSocketM k)
      with (promise (set_microtasks q s) CreateSocketM k) in Hp.
    rewrite <- Hp. apply promise_run_job.
    + apply promise_defined. congruence.
    + now apply not_create_no_target.
  - intros c Hlt. apply suspended_run_job; try assumption; [now apply Hall | reflexivity|].
    now apply not_create_no_target.
Qed.

Lemma importing_ws_deliver (ev : Event) (s s' : Client) :
  importing_ws s ->
  deliver ev s = Some s' ->
  imports (Env ev) = false ->
  importing_ws s'.
Proof.
  intros [Hs Hm] Hd Hev.
  assert (H : _socket s' = _socket s /\ _createSocketPromise s' = _createSocketPromise s
              /\ importing s' = importing s).
  { destruct ev as [k ok|i|i e|i|i]; cbn [deliver imports] in *; try discriminate.
    - destruct (ready s i) as [[]|]; try discriminate.
      injection Hd as <-. now rewrite socket_onopen, socket_promise_onopen, importing_onopen.
    - destruct (ready s i) as [[]|]; try discriminate;
        injection Hd as <-;
        now rewrite socket_onmessage, socket_promise_onmessage, importing_onmessage.
    - destruct (ready s i) as [[]|]; try discriminate;
        injection Hd as <-;
        now rewrite socket_onerror, socket_promise_onerror, importing_onerror.
    - destruct (ready s i) as [[]|]; try discriminate;
        injection Hd as <-;
        now rewrite socket_onclose, socket_promise_onclose, importing_onclose. }
  destruct H as (H1 & H2 & H3).
  split; [congruence|]. rewrite H2, H3, (next_call_deliver ConnectM ev s Hd).
  destruct (_createSocketPromise s) as [k|]; [|exact Hm].
  destruct Hm as (Hin & Hp & Hall).
  split; [exact Hin|]. split; [now rewrite (promise_deliver CreateSocketM k ev s Hd)|].
  intros c Hc. apply (suspended_deliver _ CreateSocketM k ev s s'); [|exact Hd].
  now apply Hall.
Qed.

(** In an environment without [WebSocket], until the import of [ws]
    settles the client has no socket and every call of [connect] waits for
    it. *)
Lemma importing_ws_run (options : option N) :
  forall ls s,
    run (new_client options false) ls = Some s ->
    existsb imports ls = false ->
    importing_ws s.
Proof.
  assert (Hgen : forall ls s0 s,
             hasGlobalWebSocket s0 = false -> single_socket s0 -> fresh_conts s0 ->
             no_creation s0 -> importing_ws s0 ->
             run s0 ls = Some s -> existsb imports ls = false -> importing_ws s).
  { induction ls as [|lab ls IH]; intros s0 s Hapi Hsingle Hfresh Hno Hws Hrun Hls;
      cbn [run] in Hrun.
    - now injection Hrun as <-.
    - cbn [existsb] in Hls. apply orb_false_iff in Hls. destruct Hls as [Hlab Hls].
      destruct (step s0 lab) as [s1|] eqn:Hstep; [|discriminate].
      apply (IH s1 s); try assumption.
      + destruct (environment_step lab s0 s1 Hstep) as [_ H]. congruence.
      + now apply (single_socket_step lab s0 s1).
      + now apply (fresh_conts_step lab s0 s1).
      + now apply (no_creation_step lab s0 s1).
      + destruct lab as [op| |ev]; cbn [step] in Hstep.
        * now apply (importing_ws_call op s0 s1).
        * now apply (importing_ws_tick s0 s1).
        * destruct (microtasks s0); [|discriminate].
          now apply (importing_ws_deliver ev s0 s1). }
  intros ls s Hrun Hls.
  apply (Hgen ls (new_client options false) s); try assumption.
  - reflexivity.
  - apply single_socket_new.
  - apply fresh_conts_new.
  - apply no_creation_new.
  - split; reflexivity.
Qed.

(** The failure of the import rejects every call of [connect] that waits
    for the socket. *)
Lemma import_failure_rejects (c k : nat) (s s' : Client) :
  single_socket s ->
  In k (importing s) ->
  suspended (KConnectGotSocket c) CreateSocketM k s ->
  task (ImportSettled k false) s = Some s' ->
  promise s' ConnectM c = Some (Settled (Rejected (ThrownError ws_missing))).
Proof.
  intros Hsingle Hin Hsus Htask.
  unfold task in Htask. cbn [step] in Htask.
  destruct (microtasks s) as [|j0 q0] eqn:Hq; [|discriminate].
  destruct (deliver (ImportSettled k false) s) as [s1|] eqn:Hd; [|discriminate].
  cbn [option_map] in Htask. injection Htask as <-.
  pose proof (suspended_deliver _ CreateSocketM k _ s s1 Hsus Hd) as Hsus1.
  cbn [deliver] in Hd.
  destruct (existsb (Nat.eqb k) (importing s)); [|discriminate].
  injection Hd as Hs1.
  assert (Hq1 : microtasks s1 = [JCreateSocket k false])
    by (rewrite <- Hs1; cbn [enqueue set_microtasks microtasks set_importing];
        now rewrite Hq).
  destruct (settle_resumes (KConnectGotSocket c) CreateSocketM k
              (fun o => o = Rejected (ThrownError ws_missing))
              (Rejected (ThrownError ws_missing)) ConnectM c
              (fun _ => True) (fun _ => True) eq_refl eq_refl eq_refl) with (s1 := s1)
    as [[Hp _] _]; try (intros; exact I); try assumption.
  - intros o ->. reflexivity.
  - exists (JCreateSocket k false). rewrite Hq1. split; [now left|].
    cbn. apply Nat.eqb_refl.
  - intros j Hj Ht. rewrite Hq1 in Hj. destruct Hj as [<-|[]].
    eexists. split; reflexivity.
Qed.
(* ================================================================== *)
(** * A request that waits for the connection *)
(* ================================================================== *)

Lemma owned_resends (n : nat) (k : Cont) : owned ReplyM n k = resends n k.
Proof.
  destruct k as [c|c|c message|c events callback|c|c]; unfold owned;
    cbn [owner fst snd Method_eqb andb resends]; reflexivity.
Qed.

Lemma awaited_owned_resends (n : nat) (j : Job) :
  awaited (owned ReplyM n) j = awaited (resends n) j.
Proof. destruct j as [k o|k a|k msg o|k o]; cbn [awaited]; [apply owned_resends | | | ]; reflexivity. Qed.

Lemma pending_owned_resends (n : nat) (s : Client) :
  pending (owned ReplyM n) s = pending (resends n) s.
Proof. apply pending_ext. intros k. apply owned_resends. Qed.

Lemma unsent_defined (n : nat) (s : Client) : unsent n s -> n < next_call ReplyM s.
Proof. intros (_ & _ & Hp & _). apply promise_defined. congruence. Qed.

Lemma head_not_finally (n : nat) (j : Job) (q : list Job) (s : Client) :
  finally_jobs n (microtasks s) = [] -> microtasks s = j :: q -> is_finally n j = false.
Proof.
  intros Hf Hq. rewrite Hq in Hf. cbn [finally_jobs filter] in Hf.
  destruct (is_finally n j); [discriminate | reflexivity].
Qed.

(** ** What leaves an unsent request as it is *)

Lemma unsent_call (n : nat) (op : Op) (s s' : Client) :
  unsent n s -> call op s = Some s' -> unsent n s'.
Proof.
  intros Hs Hcall. pose proof (unsent_defined n s Hs) as Hn.
  destruct Hs as (Hl & Hi & Hp & Hf).
  pose proof (messages_step (Call op) s Hcall) as Hm.
  split; [|split; [|split]].
  - rewrite Hm, <- Hl. apply reply_listeners_change. cbn [step_change].
    destruct op as [ | | |message|query|command ctx|event callback|events callback
                    |sub|f|f|f|f|f|f|f|f]; cbn [call_change]; try exact I; try reflexivity.
    destruct (promise s SubscribeM sub) as [[|[[ |sock|d|events callback response]|r]]|];
      try exact I; reflexivity.
  - rewrite <- Hi. now apply (inner_call ReplyM n op s s').
  - rewrite <- Hp. now apply promise_call with (op := op).
  - rewrite <- Hf. apply finally_jobs_grows with (ok := is_awaited_or_create);
      [apply awaited_or_create_not_finally | now apply (queue_call op s s')].
Qed.

Lemma unsent_run_job (n : nat) (j : Job) (q : list Job) (s : Client) :
  unsent n s -> microtasks s = j :: q -> awaited (resends n) j = 0 ->
  unsent n (run_job j (set_microtasks q s)).
Proof.
  intros Hs Hq H0. pose proof (unsent_defined n s Hs) as Hn.
  destruct Hs as (Hl & Hi & Hp & Hf).
  pose proof (head_not_finally n j q s Hf Hq) as Hhead.
  pose proof (tick_eq j q s Hq) as Htick.
  pose proof (messages_step Tick s Htick) as Hm.
  destruct (queue_tick s _ Htick) as (j' & q' & added & Hq' & _ & Hadd & Hok).
  rewrite Hq in Hq'. injection Hq' as <- <-.
  split; [|split; [|split]].
  - rewrite Hm, <- Hl. apply reply_listeners_change. cbn [step_change]. rewrite Hq.
    destruct j as [[c|c|c message|c events callback|c|c] [v|r] | c [] | c message o | c o];
      cbn [job_change]; try exact I; try reflexivity.
    + destruct (sendable message s); [|exact I].
      cbn [awaited resends] in H0. cbn [is_reply_listener].
      destruct (Nat.eqb c n); [discriminate | reflexivity].
    + exact Hhead.
  - rewrite <- Hi. now apply (inner_tick ReplyM n s).
  - rewrite <- Hp. change (promise s ReplyM n) with (promise (set_microtasks q s) ReplyM n).
    apply promise_run_job; [exact Hn | now apply not_finally_no_target].
  - rewrite Hadd, finally_jobs_app.
    rewrite (finally_jobs_none n is_awaited added (awaited_not_finally n) Hok).
    rewrite Hq in Hf. cbn [finally_jobs filter] in Hf. rewrite Hhead in Hf.
    fold (finally_jobs n q) in Hf. rewrite Hf. reflexivity.
Qed.

Lemma unsent_deliver (n : nat) (ev : Event) (s s' : Client) :
  unsent n s -> deliver ev s = Some s' -> unsent n s'.
Proof.
  intros (Hl & Hi & Hp & Hf) Hd.
  assert (Hother : match ev with SocketMessage _ _ => False | _ => True end -> unsent n s').
  { intros Hev. split; [|split; [|split]].
    - now rewrite (messages_deliver ev s Hd).
    - rewrite <- Hi. now apply (inner_deliver_other n ev s s').
    - rewrite <- Hp. now apply (promise_deliver ReplyM n ev s Hd).
    - rewrite <- Hf. now apply (finally_jobs_deliver_other n ev s s'). }
  destruct ev as [k ok|i|i e|i|i]; try (apply Hother; exact I).
  cbn [deliver] in Hd.
  assert (Hs' : s' = onmessage e s)
    by (destruct (ready s i) as [[]|]; try discriminate; now injection Hd as <-).
  subst s'.
  destruct (forEach_others n e (_onMessageCallbacks s) s) as [Hi' Hf'].
  { intros msg Hin. exfalso. exact (reply_listeners_nil n _ Hl msg Hin). }
  unfold unsent. rewrite messages_onmessage, promise_onmessage.
  unfold onmessage. rewrite inner_handled, microtasks_handled, Hi', Hf'.
  repeat split; assumption.
Qed.

(** ** Continuations whose promise is settled by another microtask *)

Lemma suspended_run_job_other (k : Cont) (m0 : Method) (n0 : nat) (j : Job) (q : list Job)
      (s : Client) :
  suspended k m0 n0 s ->
  microtasks s = j :: q ->
  job_targets j m0 n0 = false ->
  job_targets j (fst (owner k)) (snd (owner k)) = false ->
  suspended k m0 n0 (run_job j (set_microtasks q s)).
Proof.
  intros Hs Hq Hj Hown.
  destruct Hs as (Hin & Hp0 & Hp & Hr).
  pose proof (waiting_bound k m0 n0 s Hin) as Hb.
  assert (Hrb : snd (owner k) < next_call (fst (owner k)) s)
    by (apply promise_defined; unfold result_of in Hr; congruence).
  repeat split.
  - now apply In_waiting_run_job.
  - rewrite promise_run_job; assumption.
  - pose proof (pending_owned_tick (fst (owner k)) (snd (owner k)) s _ (tick_eq j q s Hq)).
    lia.
  - unfold result_of in *. rewrite promise_run_job; assumption.
Qed.

Lemma suspended_settling_other (k : Cont) (m0 : Method) (n0 : nat) (o : Outcome)
      (j : Job) (q : list Job) (s : Client) :
  suspended k m0 n0 s ->
  microtasks s = j :: q ->
  job_settles j = Some (m0, n0, o) ->
  job_targets j (fst (owner k)) (snd (owner k)) = false ->
  resuming k o (run_job j (set_microtasks q s)).
Proof.
  intros Hs Hq Hj Hown.
  destruct Hs as (Hin & Hp0 & Hp & Hr).
  assert (Hrb : snd (owner k) < next_call (fst (owner k)) s)
    by (apply promise_defined; unfold result_of in Hr; congruence).
  repeat split.
  - now apply (job_settles_enqueues k m0 n0 o j).
  - pose proof (pending_owned_tick (fst (owner k)) (snd (owner k)) s _ (tick_eq j q s Hq)).
    lia.
  - unfold result_of in *. rewrite promise_run_job; assumption.
Qed.

Lemma resuming_run_job_other (k : Cont) (o : Outcome) (j : Job) (q : list Job) (s : Client) :
  resuming k o s ->
  microtasks s = j :: q ->
  awaited (owned (fst (owner k)) (snd (owner k))) j = 0 ->
  job_targets j (fst (owner k)) (snd (owner k)) = false ->
  resuming k o (run_job j (set_microtasks q s)).
Proof.
  intros Hs Hq H0 Hown.
  destruct (resuming_head k o j q s Hs Hq) as [[_ Hin]| ->];
    [|cbn [awaited] in H0; rewrite owned_owner in H0; discriminate].
  destruct Hs as (_ & Hp & Hr).
  assert (Hrb : snd (owner k) < next_call (fst (owner k)) s)
    by (apply promise_defined; unfold result_of in Hr; congruence).
  destruct (queue_run_job j (set_microtasks q s)) as (added & Ha & _).
  repeat split.
  - rewrite Ha. apply in_or_app. now left.
  - pose proof (pending_owned_tick (fst (owner k)) (snd (owner k)) s _ (tick_eq j q s Hq)).
    lia.
  - unfold result_of in *. rewrite promise_run_job; assumption.
Qed.

Lemma no_target_not_owned (m : Method) (c : nat) (j : Job) :
  settles_itself m = true -> awaited (owned m c) j = 0 -> job_targets j m c = false.
Proof.
  intros Hm H0. destruct (job_targets j m c) eqn:E; [|reflexivity].
  rewrite (targets_owned m c j Hm E) in H0. discriminate.
Qed.

(** ** The request while it waits *)

Lemma queued_head (c n : nat) (message : string) (j : Job) (q : list Job) (s : Client) :
  queued c n message s -> microtasks s = j :: q ->
  awaited (resends n) j = 0 /\ is_finally n j = false /\ job_targets j ReplyM n = false.
Proof.
  intros [(_ & _ & _ & Hf) Hsus] Hq.
  pose proof (suspended_head _ ConnectM c j q s Hsus Hq) as H0.
  cbn [owner fst snd] in H0. rewrite awaited_owned_resends in H0.
  pose proof (head_not_finally n j q s Hf Hq) as Hfin.
  split; [exact H0|]. split; [exact Hfin|]. now apply not_finally_no_target.
Qed.

Lemma queued_call (c n : nat) (message : string) (op : Op) (s s' : Client) :
  queued c n message s -> call op s = Some s' -> queued c n message s'.
Proof.
  intros [Hu Hsus] Hcall. split.
  - now apply (unsent_call n op s s').
  - now apply (suspended_call _ ConnectM c op s s').
Qed.

Lemma queued_run_job (c n : nat) (message : string) (j : Job) (q : list Job) (s : Client) :
  queued c n message s -> microtasks s = j :: q ->
  job_targets j ConnectM c = false ->
  queued c n message (run_job j (set_microtasks q s)).
Proof.
  intros Hs Hq Hj.
  destruct (queued_head c n message j q s Hs Hq) as (H0 & Hfin & Ht).
  destruct Hs as [Hu Hsus]. split.
  - now apply unsent_run_job.
  - now apply suspended_run_job_other.
Qed.

Lemma queued_deliver (c n : nat) (message : string) (ev : Event) (s s' : Client) :
  queued c n message s -> deliver ev s = Some s' -> queued c n message s'.
Proof.
  intros [Hu Hsus] Hd. split.
  - now apply (unsent_deliver n ev s s').
  - now apply (suspended_deliver _ ConnectM c ev s s').
Qed.

(** While a continuation of [connect] call [c] is suspended, the request
    that waits for [c] stays as it is. *)
Lemma queued_step (K : Cont) (m0 : Method) (n0 c n : nat) (message : string)
      (lab : Label) (s s' : Client) :
  owner K = (ConnectM, c) ->
  suspended K m0 n0 s ->
  queued c n message s -> step s lab = Some s' -> queued c n message s'.
Proof.
  intros HK Hsus Hs Hstep. destruct lab as [op| |ev]; cbn [step] in Hstep.
  - now apply (queued_call c n message op s s').
  - destruct (queue_tick s s' Hstep) as (j & q & added & Hq & _).
    pose proof (tick_eq j q s Hq) as Heq. rewrite Hstep in Heq. injection Heq as ->.
    apply queued_run_job; try assumption.
    pose proof (suspended_head K m0 n0 j q s Hsus Hq) as H0.
    rewrite HK in H0. cbn [fst snd] in H0.
    now apply no_target_not_owned.
  - destruct (microtasks s); [|discriminate].
    now apply (queued_deliver c n message ev s s').
Qed.

(** ** The caller that awaits the request *)

Lemma caller_waits_call (k : option Cont) (n : nat) (op : Op) (s s' : Client) :
  caller_waits k n s -> call op s = Some s' -> caller_waits k n s'.
Proof.
  destruct k as [K|]; cbn [caller_waits]; [|trivial].
  intros Hs Hcall. now apply (suspended_call K ReplyM n op s s').
Qed.

Lemma caller_waits_run_job (k : option Cont) (n : nat) (j : Job) (q : list Job) (s : Client) :
  match k with Some K => settles_itself (fst (owner K)) = true | None => True end ->
  caller_waits k n s -> microtasks s = j :: q -> job_targets j ReplyM n = false ->
  caller_waits k n (run_job j (set_microtasks q s)).
Proof.
  destruct k as [K|]; cbn [caller_waits]; [|trivial].
  intros HK Hs Hq Hj. now apply suspended_run_job.
Qed.

Lemma caller_waits_deliver (k : option Cont) (n : nat) (ev : Event) (s s' : Client) :
  caller_waits k n s -> deliver ev s = Some s' -> caller_waits k n s'.
Proof.
  destruct k as [K|]; cbn [caller_waits]; [|trivial].
  intros Hs Hd. now apply (suspended_deliver K ReplyM n ev s s').
Qed.

Lemma request_cont_owner (op : Op) (s : Client) :
  match request_cont op s with
  | Some K => settles_itself (fst (owner K)) = true
  | None => True
  end.
Proof.
  destruct op as [ | | |message|query|command ctx|event callback|events callback
                  |sub|f|f|f|f|f|f|f|f]; cbn [request_cont owner fst]; try exact I; reflexivity.
Qed.

(** ** From the end of [connect] to the executor of the request *)

Section SendResumes.

Variables (c n : nat) (message : string) (o : Outcome) (F R : Client -> Prop).

Hypothesis F_frame :
  forall s j q, F s -> microtasks s = j :: q ->
                awaited (resends n) j = 0 -> job_targets j ReplyM n = false ->
                F (run_job j (set_microtasks q s)).
Hypothesis F_resumes :
  forall s q, F s -> unsent n s -> pending (resends n) s <= 1 ->
              microtasks s = JAwaited (KSendConnected n message) o :: q ->
              R (run_job (JAwaited (KSendConnected n message) o) (set_microtasks q s)).
Hypothesis R_frame :
  forall s j q, R s -> microtasks s = j :: q -> R (run_job j (set_microtasks q s)).

Lemma send_waits_frame (s : Client) (j : Job) (q : list Job) :
  send_waits c n message F s -> microtasks s = j :: q ->
  awaited (owned ConnectM c) j = 0 ->
  send_waits c n message F (run_job j (set_microtasks q s)).
Proof.
  intros [Hs HF] Hq H0.
  destruct (queued_head c n message j q s Hs Hq) as (Hr & Hfin & Ht).
  split.
  - apply queued_run_job; try assumption. now apply no_target_not_owned.
  - now apply F_frame.
Qed.

Lemma send_waits_resumes (j : Job) (s : Client) (q : list Job) :
  job_settles j = Some (ConnectM, c, o) ->
  send_waits c n message F s -> microtasks s = j :: q ->
  send_phase n message o F R (run_job j (set_microtasks q s)).
Proof.
  intros Hj [Hs HF] Hq.
  destruct (queued_head c n message j q s Hs Hq) as (Hr & Hfin & Ht).
  destruct Hs as [Hu Hsus]. left. split; [|split].
  - now apply unsent_run_job.
  - now apply (suspended_settling_other _ ConnectM c o j q s).
  - now apply F_frame.
Qed.

Lemma send_phase_frame (s : Client) (j : Job) (q : list Job) :
  send_phase n message o F R s -> microtasks s = j :: q ->
  send_phase n message o F R (run_job j (set_microtasks q s)).
Proof.
  intros [(Hu & Hres & HF)|HR] Hq; [|right; now apply R_frame].
  destruct (resuming_head _ o j q s Hres Hq) as [[H0 _]| ->].
  - left. pose proof H0 as Hr. cbn [owner fst snd] in Hr. rewrite awaited_owned_resends in Hr.
    destruct Hu as (Hl & Hi & Hp & Hf).
    pose proof (head_not_finally n j q s Hf Hq) as Hfin.
    pose proof (not_finally_no_target n j Hfin) as Ht.
    split; [|split].
    + apply unsent_run_job; try assumption. repeat split; assumption.
    + now apply resuming_run_job_other.
    + now apply F_frame.
  - right. apply F_resumes; try assumption.
    destruct Hres as (_ & Hp & _). cbn [owner fst snd] in Hp.
    now rewrite pending_owned_resends in Hp.
Qed.

Lemma send_phase_done (s : Client) :
  send_phase n message o F R s -> microtasks s = [] -> R s.
Proof.
  intros [(_ & (Hin & _) & _)|HR] Hq; [|exact HR].
  rewrite Hq in Hin. contradiction.
Qed.

End SendResumes.
(* ================================================================== *)
(** * The request a send operation makes *)
(* ================================================================== *)

(** [connect] returns a pending promise, whatever the state of the
    client. *)
Lemma promise_connect_own (s : Client) :
  promise (connect s) ConnectM (next_call ConnectM s) = Some Pending.
Proof.
  unfold connect. cbv zeta. set (c := next_call ConnectM s).
  assert (Hc : c < next_call ConnectM (alloc ConnectM s)).
  { rewrite next_call_alloc. cbn [Method_eqb]. unfold c. lia. }
  assert (Hp : promise (alloc ConnectM s) ConnectM c = Some Pending)
    by (unfold c; observe; reflexivity).
  destruct (_socket (alloc ConnectM s)).
  - rewrite promise_await, promise__waitForConnection by exact Hc. exact Hp.
  - destruct (_createSocketPromise (alloc ConnectM s)).
    + rewrite promise_await. exact Hp.
    + rewrite promise_await, promise_set_createSocketPromise,
        promise__createSocket by exact Hc. exact Hp.
Qed.

Lemma queued_await (c n : nat) (message : string) (m : Method) (n' : nat) (K : Cont)
      (s : Client) :
  queued c n message s ->
  promise s m n' = Some Pending ->
  resends n K = 0 ->
  queued c n message (await m n' K s).
Proof.
  intros [(Hl & Hi & Hp & Hf) (Hin & Hpc & Hle & Hr)] Hm HK.
  split; [split; [|split; [|split]]|split; [|split; [|split]]].
  - now rewrite messages_await.
  - now rewrite inner_await.
  - now rewrite promise_await.
  - rewrite microtasks_await, Hm, app_nil_r. exact Hf.
  - now apply In_waiting_await.
  - now rewrite promise_await.
  - cbn [owner fst snd] in *.
    pose proof (pending_await (owned ReplyM n) m n' K s) as H.
    rewrite owned_resends in H. lia.
  - unfold result_of in *. now rewrite promise_await.
Qed.

Lemma queued_sendAndWaitReply (message : string) (s : Client) :
  reply_listeners (next_call ReplyM s) (_onMessageCallbacks s) = [] ->
  pending (resends (next_call ReplyM s)) s = 0 ->
  finally_jobs (next_call ReplyM s) (microtasks s) = [] ->
  queued (next_call ConnectM s) (next_call ReplyM s) message (sendAndWaitReply message s).
Proof.
  intros Hl Hz Hf. set (n := next_call ReplyM s) in *. set (c := next_call ConnectM s).
  assert (Hn : n < next_call ReplyM (alloc ReplyM s)).
  { rewrite next_call_alloc. cbn [Method_eqb]. unfold n. lia. }
  assert (Hp : promise (sendAndWaitReply message s) ReplyM n = Some Pending).
  { unfold sendAndWaitReply. cbv zeta.
    rewrite promise_await, promise_connect by exact Hn. unfold n. observe. reflexivity. }
  assert (Hpc : promise (connect (alloc ReplyM s)) ConnectM c = Some Pending)
    by apply (promise_connect_own (alloc ReplyM s)).
  split; [split; [|split; [|split]]|split; [|split; [|split]]].
  - now rewrite messages_sendAndWaitReply.
  - unfold sendAndWaitReply. cbv zeta.
    rewrite inner_await, inner_connect by exact Hn. unfold n. observe. reflexivity.
  - exact Hp.
  - rewrite <- Hf. apply finally_jobs_grows with (ok := is_awaited_or_create);
      [apply awaited_or_create_not_finally | apply queue_sendAndWaitReply].
  - unfold sendAndWaitReply. cbv zeta.
    change (next_call ConnectM (alloc ReplyM s)) with c.
    rewrite waiting_await. cbn [Method_eqb andb]. rewrite Nat.eqb_refl, Hpc.
    apply in_or_app. right. now left.
  - unfold sendAndWaitReply. cbv zeta.
    change (next_call ConnectM (alloc ReplyM s)) with c.
    now rewrite promise_await.
  - cbn [owner fst snd]. rewrite pending_owned_resends.
    pose proof (pending_sendAndWaitReply (resends n) message s) as H.
    cbn [resends] in H. fold n in H. rewrite Nat.eqb_refl in H. lia.
  - exact Hp.
Qed.

(** An async function that awaits a request it has just made. *)
Lemma suspended_await_reply (K : Cont) (n : nat) (s : Client) :
  promise s ReplyM n = Some Pending ->
  pending (owned (fst (owner K)) (snd (owner K))) s = 0 ->
  result_of K s = Some Pending ->
  suspended K ReplyM n (await ReplyM n K s).
Proof.
  intros Hp Hz Hr. split; [|split; [|split]].
  - rewrite waiting_await. cbn [Method_eqb andb]. rewrite Nat.eqb_refl, Hp.
    apply in_or_app. right. now left.
  - now rewrite promise_await.
  - pose proof (pending_await (owned (fst (owner K)) (snd (owner K))) ReplyM n K s) as H.
    rewrite owned_owner in H. lia.
  - unfold result_of in *. now rewrite promise_await.
Qed.

(** Whatever the state of the connection, a send operation leaves its
    request waiting for the call of [connect] it makes, and the operation
    waiting for the request. *)
Lemma request_queued (op : Op) (message : string) (s s1 : Client) :
  fresh_requests s ->
  fresh_conts s ->
  request_text op = Some message ->
  call op s = Some s1 ->
  queued (next_call ConnectM s) (next_call ReplyM s) message s1
  /\ caller_waits (request_cont op s) (next_call ReplyM s) s1.
Proof.
  intros Hreq Hconts Htext Hcall.
  destruct (Hreq (next_call ReplyM s) (Nat.le_refl _)) as (Hl & Hz & Hf).
  set (n := next_call ReplyM s) in *. set (c := next_call ConnectM s).
  assert (Hwrap : forall (m : Method) (K : Cont) text,
             settles_itself m = true ->
             Method_eqb m ConnectM = false ->
             owner K = (m, next_call m s) ->
             resends n K = 0 ->
             let s1 := await ReplyM (next_call ReplyM (alloc m s)) K
                         (sendAndWaitReply text (alloc m s)) in
             queued c n text s1 /\ suspended K ReplyM n s1).
  { intros m K text Hm Hmc HK HK0.
    assert (Hnr : next_call ReplyM (alloc m s) = n).
    { rewrite next_call_alloc. destruct m; try discriminate; reflexivity. }
    assert (Hnc : next_call ConnectM (alloc m s) = c)
      by (rewrite next_call_alloc, Hmc; reflexivity).
    rewrite Hnr. intros s0.
    assert (Hq : queued c n text (sendAndWaitReply text (alloc m s))).
    { rewrite <- Hnr at 1. rewrite <- Hnc.
      apply (queued_sendAndWaitReply text (alloc m s)).
      - rewrite Hnr. exact Hl.
      - rewrite Hnr, pending_alloc. exact Hz.
      - rewrite Hnr. exact Hf. }
    assert (Hp : promise (sendAndWaitReply text (alloc m s)) ReplyM n = Some Pending)
      by (now destruct Hq as [(_ & _ & Hp & _) _]).
    split.
    - apply queued_await; assumption.
    - apply suspended_await_reply; [exact Hp| |].
      + rewrite HK. cbn [fst snd].
        pose proof (pending_sendAndWaitReply (owned m (next_call m s)) text (alloc m s)) as H.
        rewrite pending_alloc in H.
        rewrite (Hconts m (next_call m s) Hm (Nat.le_refl _)) in H.
        rewrite !owned_other in H by (cbn [owner fst]; destruct m; try discriminate; reflexivity).
        lia.
      + unfold result_of. rewrite HK. cbn [fst snd].
        rewrite promise_sendAndWaitReply.
        * rewrite promise_alloc, Method_eqb_refl, Nat.eqb_refl. reflexivity.
        * rewrite next_call_alloc, Method_eqb_refl. lia. }
  destruct op as [ | | |msg|query|command ctx|event callback|events callback
                  |sub|f|f|f|f|f|f|f|f]; cbn [request_text] in Htext; try discriminate;
    injection Htext as <-; cbn [call] in Hcall; injection Hcall as <-;
    cbn [request_cont caller_waits].
  - split; [|exact I]. now apply queued_sendAndWaitReply.
  - split; [|exact I]. unfold sendQuery. now apply queued_sendAndWaitReply.
  - apply (Hwrap CommandM (KCommandReplied (next_call CommandM s))); reflexivity.
  - apply (Hwrap SubscribeM (KSubscribeReplied (next_call SubscribeM s) [event] callback));
      reflexivity.
  - apply (Hwrap SubscribeM (KSubscribeReplied (next_call SubscribeM s) events callback));
      reflexivity.
Qed.

(** ** Runs *)

Lemma run_app :
  forall (ls ls' : list Label) (s s' : Client),
    run s ls = Some s' -> run s (ls ++ ls') = run s' ls'.
Proof.
  induction ls as [|lab ls IH]; intros ls' s s' Hrun; cbn [run app] in *.
  - now injection Hrun as <-.
  - destruct (step s lab) as [s1|]; [|discriminate]. now apply IH.
Qed.

Lemma existsb_app_false (A : Type) (f : A -> bool) (l l' : list A) :
  existsb f l = false -> existsb f l' = false -> existsb f (l ++ l') = false.
Proof. intros H H'. rewrite existsb_app, H, H'. reflexivity. Qed.

(** ** What a microtask logs *)

Lemma log_run_job (j : Job) (s : Client) :
  exists l, log (run_job j s) = log s ++ l.
Proof.
  destruct j as [[c|c|c message|c events callback|c|c] [v|r] | c [] | c message o | c o];
    cbn [run_job resume pass].
  all: try (exists []; rewrite app_nil_r; frame; reflexivity).
  - unfold sendAndWaitReply_connected.
    destruct (_socket s) as [i|]; [|eexists; reflexivity].
    destruct (nth_error (sockets s) i) as [ws|]; [|eexists; reflexivity].
    destruct (ws_send message ws); [|eexists; reflexivity].
    exists []. now rewrite app_nil_r.
  - eexists. reflexivity.
  - unfold subscribeMany_replied. eexists. frame. reflexivity.
  - unfold subscribeMany_replied. exists []. rewrite app_nil_r. frame. reflexivity.
  - unfold _createSocket_resume. eexists. frame. reflexivity.
  - unfold _createSocket_resume. exists []. rewrite app_nil_r. frame. reflexivity.
Qed.

Lemma logged_run_job (o : Obs) (j : Job) (s : Client) :
  In o (log s) -> In o (log (run_job j s)).
Proof.
  intros H. destruct (log_run_job j s) as (l & ->). apply in_or_app. now left.
Qed.

(** ** A request whose executor is over without a listener *)

Lemma abandoned_head (n : nat) (j : Job) (q : list Job) (s : Client) :
  abandoned n s -> microtasks s = j :: q ->
  awaited (resends n) j = 0 /\ job_targets j ReplyM n = false.
Proof.
  intros [(_ & _ & _ & Hf) Hz] Hq. split.
  - pose proof (pending_queued (resends n) j s) as H. rewrite Hq in H.
    specialize (H (or_introl eq_refl)). lia.
  - apply not_finally_no_target. exact (head_not_finally n j q s Hf Hq).
Qed.

Lemma abandoned_run_job (n : nat) (j : Job) (q : list Job) (s : Client) :
  abandoned n s -> microtasks s = j :: q -> abandoned n (run_job j (set_microtasks q s)).
Proof.
  intros Hs Hq. destruct (abandoned_head n j q s Hs Hq) as [H0 _].
  destruct Hs as [Hu Hz]. split.
  - now apply unsent_run_job.
  - destruct (pending_tick (resends n) s (tick_eq j q s Hq)) as (j' & q' & Hq' & Hp).
    rewrite Hq in Hq'. injection Hq' as <- <-.
    assert (Hr : respawn (resends n) j = 0).
    { destruct j as [[c|c|c message|c events callback|c|c] [v|r] | c [] | c message o | c o];
        reflexivity. }
    lia.
Qed.

Lemma abandoned_step (n : nat) (lab : Label) (s s' : Client) :
  abandoned n s -> step s lab = Some s' -> abandoned n s'.
Proof.
  intros Hs Hstep. destruct lab as [op| |ev]; cbn [step] in Hstep.
  - destruct Hs as [Hu Hz]. split; [now apply (unsent_call n op s s')|].
    pose proof (pending_call (resends n) op s Hstep) as H.
    rewrite resends_call_conts in H by now apply unsent_defined. lia.
  - destruct (queue_tick s s' Hstep) as (j & q & added & Hq & -> & _).
    now apply abandoned_run_job.
  - destruct (microtasks s); [|discriminate]. destruct Hs as [Hu Hz]. split.
    + now apply (unsent_deliver n ev s s').
    + pose proof (pending_deliver (resends n) ev s Hstep). lia.
Qed.

(** The operation that awaits an abandoned request waits for ever. *)
Lemma abandoned_caller_step (k : option Cont) (n : nat) (lab : Label) (s s' : Client) :
  match k with Some K => settles_itself (fst (owner K)) = true | None => True end ->
  abandoned n s -> caller_waits k n s -> step s lab = Some s' -> caller_waits k n s'.
Proof.
  intros Hk Hs Hw Hstep. destruct lab as [op| |ev]; cbn [step] in Hstep.
  - now apply (caller_waits_call k n op s s').
  - destruct (queue_tick s s' Hstep) as (j & q & added & Hq & -> & _).
    apply caller_waits_run_job; try assumption.
    now destruct (abandoned_head n j q s Hs Hq).
  - destruct (microtasks s); [|discriminate].
    now apply (caller_waits_deliver k n ev s s').
Qed.

Lemma abandoned_run (k : option Cont) (n : nat) :
  match k with Some K => settles_itself (fst (owner K)) = true | None => True end ->
  forall ls s s',
    abandoned n s -> caller_waits k n s -> run s ls = Some s' ->
    abandoned n s' /\ caller_waits k n s'.
Proof.
  intros Hk. induction ls as [|lab ls IH]; intros s s' Hs Hw Hrun; cbn [run] in Hrun.
  - injection Hrun as <-. now split.
  - destruct (step s lab) as [s1|] eqn:Hstep; [|discriminate].
    apply (IH s1 s'); [| |assumption].
    + now apply (abandoned_step n lab s s1).
    + now apply (abandoned_caller_step k n lab s s1).
Qed.

(** ** The executor of a request whose [connect] is rejected *)

(** What the executor leaves when [await this.connect()] throws: the
    rejection of the promise the executor returns is reported, the request
    is abandoned. *)
Lemma rejected_send_resumes (k : option Cont) (n : nat) (message : string) (r : Reason)
      (s : Client) (q : list Job) :
  match k with Some K => settles_itself (fst (owner K)) = true | None => True end ->
  caller_waits k n s -> unsent n s -> pending (resends n) s <= 1 ->
  microtasks s = JAwaited (KSendConnected n message) (Rejected r) :: q ->
  let s' := run_job (JAwaited (KSendConnected n message) (Rejected r)) (set_microtasks q s) in
  abandoned n s' /\ In (ObsUnhandledRejection r) (log s') /\ caller_waits k n s'.
Proof.
  intros Hk Hw Hu Hle Hq s'.
  pose proof (head_not_finally n _ q s (proj2 (proj2 (proj2 Hu))) Hq) as Hfin.
  destruct Hu as (Hl & Hi & Hp & Hf).
  split; [split; [split; [|split; [|split]]|]|split].
  - exact Hl.
  - exact Hi.
  - exact Hp.
  - rewrite Hq in Hf. exact Hf.
  - pose proof (pending_pop (resends n) s Hq) as H. cbn [awaited resends] in H.
    rewrite Nat.eqb_refl in H.
    change (pending (resends n) s') with (pending (resends n) (set_microtasks q s)). lia.
  - unfold s'. cbn [run_job resume emit set_log log]. apply in_or_app. right. now left.
  - apply caller_waits_run_job; assumption || reflexivity.
Qed.

(** ** The operation that awaits a request which waits for [connect] *)

Lemma queued_caller_step (k : option Cont) (c n : nat) (message : string)
      (lab : Label) (s s' : Client) :
  match k with Some K => settles_itself (fst (owner K)) = true | None => True end ->
  queued c n message s -> caller_waits k n s -> step s lab = Some s' ->
  caller_waits k n s'.
Proof.
  intros Hk Hs Hw Hstep. destruct lab as [op| |ev]; cbn [step] in Hstep.
  - now apply (caller_waits_call k n op s s').
  - destruct (queue_tick s s' Hstep) as (j & q & added & Hq & -> & _).
    apply caller_waits_run_job; try assumption.
    now destruct (queued_head c n message j q s Hs Hq) as (_ & _ & Ht).
  - destruct (microtasks s); [|discriminate].
    now apply (caller_waits_deliver k n ev s s').
Qed.

(** ** While the import of [ws] is awaited *)

Lemma importing_unique (s : Client) (k k' : nat) :
  single_socket s -> In k (importing s) -> In k' (importing s) -> k = k'.
Proof.
  intros [Hb _] Hk Hk'. unfold creating, createSocket_calls in Hb.
  destruct (importing s) as [|a [|b l]]; [contradiction| |].
  - destruct Hk as [<-|[]], Hk' as [<-|[]]. reflexivity.
  - cbn [List.length] in Hb. destruct (_createSocketPromise s); lia.
Qed.

Lemma task_import (k : nat) (ok : bool) (s s' : Client) :
  task (ImportSettled k ok) s = Some s' -> In k (importing s).
Proof.
  unfold task. cbn [step]. destruct (microtasks s); [|discriminate].
  cbn [deliver]. destruct (existsb (Nat.eqb k) (importing s)) eqn:E; [|discriminate].
  intros _. apply existsb_exists in E. destruct E as (x & Hx & E).
  apply Nat.eqb_eq in E. now subst x.
Qed.

Lemma queued_importing_run (options : option N) (k0 : option Cont) (c n : nat)
      (message : string) :
  match k0 with Some K => settles_itself (fst (owner K)) = true | None => True end ->
  forall ls1 ls0 s1 s2,
    run (new_client options false) ls0 = Some s1 -> existsb imports ls0 = false ->
    c < next_call ConnectM s1 ->
    queued c n message s1 -> caller_waits k0 n s1 ->
    run s1 ls1 = Some s2 -> existsb imports ls1 = false ->
    queued c n message s2 /\ caller_waits k0 n s2 /\ c < next_call ConnectM s2.
Proof.
  intros Hk. induction ls1 as [|lab ls1 IH]; intros ls0 s1 s2 Hrun0 Hls0 Hc Hq Hw Hrun Hls1;
    cbn [run] in Hrun.
  - injection Hrun as <-. split; [|split]; assumption.
  - cbn [existsb] in Hls1. apply orb_false_iff in Hls1. destruct Hls1 as [Hlab Hls1].
    destruct (step s1 lab) as [s1'|] eqn:Hstep; [|discriminate].
    pose proof (importing_ws_run options ls0 s1 Hrun0 Hls0) as [_ Hm].
    destruct (_createSocketPromise s1) as [k|]; [|lia].
    destruct Hm as (_ & _ & Hall).
    apply (IH (ls0 ++ [lab]) s1' s2); try assumption.
    + rewrite (run_app ls0 [lab] _ s1 Hrun0). cbn [run]. now rewrite Hstep.
    + apply existsb_app_false; [exact Hls0|]. cbn [existsb]. now rewrite Hlab.
    + pose proof (next_call_step_le ConnectM lab s1 Hstep). lia.
    + apply (queued_step (KConnectGotSocket c) CreateSocketM k c n message lab s1 s1');
        try assumption; [reflexivity | now apply Hall].
    + now apply (queued_caller_step k0 c n message lab s1 s1').
Qed.

(** The failure of the import, for a request that waits for the socket:
    its call of [connect] is rejected, and its executor ends there. *)
Lemma import_failure_abandons (k0 : option Cont) (c n k : nat) (message : string)
      (s s' : Client) :
  match k0 with Some K => settles_itself (fst (owner K)) = true | None => True end ->
  suspended (KConnectGotSocket c) CreateSocketM k s ->
  queued c n message s -> caller_waits k0 n s ->
  task (ImportSettled k false) s = Some s' ->
  abandoned n s'
  /\ In (ObsUnhandledRejection (ThrownError ws_missing)) (log s')
  /\ caller_waits k0 n s'.
Proof.
  intros Hk Hsus Hqd Hw Htask.
  unfold task in Htask. cbn [step] in Htask.
  destruct (microtasks s) as [|j0 q0] eqn:Hq; [|discriminate].
  destruct (deliver (ImportSettled k false) s) as [s1|] eqn:Hd; [|discriminate].
  cbn [option_map] in Htask. injection Htask as <-.
  pose proof (suspended_deliver _ CreateSocketM k _ s s1 Hsus Hd) as Hsus1.
  pose proof (queued_deliver c n message _ s s1 Hqd Hd) as Hqd1.
  pose proof (caller_waits_deliver k0 n _ s s1 Hw Hd) as Hw1.
  cbn [deliver] in Hd.
  destruct (existsb (Nat.eqb k) (importing s)); [|discriminate].
  injection Hd as Hs1.
  assert (Hq1 : microtasks s1 = [JCreateSocket k false])
    by (rewrite <- Hs1; cbn [enqueue set_microtasks microtasks set_importing];
        now rewrite Hq).
  set (r := ThrownError ws_missing).
  set (F := caller_waits k0 n).
  set (R := fun s0 => abandoned n s0 /\ In (ObsUnhandledRejection r) (log s0)
                      /\ caller_waits k0 n s0).
  assert (F_frame : forall s0 j q, F s0 -> microtasks s0 = j :: q ->
                                   awaited (resends n) j = 0 ->
                                   job_targets j ReplyM n = false ->
                                   F (run_job j (set_microtasks q s0))).
  { intros s0 j q HF Hq0 _ Ht. now apply caller_waits_run_job. }
  assert (F_resumes : forall s0 q, F s0 -> unsent n s0 -> pending (resends n) s0 <= 1 ->
                                   microtasks s0 = JAwaited (KSendConnected n message) (Rejected r) :: q ->
                                   R (run_job (JAwaited (KSendConnected n message) (Rejected r))
                                        (set_microtasks q s0))).
  { intros s0 q HF Hu Hle Hq0. now apply (rejected_send_resumes k0 n message r s0 q). }
  assert (R_frame : forall s0 j q, R s0 -> microtasks s0 = j :: q ->
                                   R (run_job j (set_microtasks q s0))).
  { intros s0 j q (Ha & Hlog & HF) Hq0. split; [|split].
    - now apply abandoned_run_job.
    - now apply logged_run_job.
    - apply caller_waits_run_job; try assumption.
      now destruct (abandoned_head n j q s0 Ha Hq0). }
  destruct (settle_resumes (KConnectGotSocket c) CreateSocketM k
              (fun o => o = Rejected r) (Rejected r) ConnectM c
              (send_waits c n message F)
              (send_phase n message (Rejected r) F R)
              eq_refl eq_refl eq_refl) with (s1 := s1) as [_ Hphase].
  - intros o ->. reflexivity.
  - intros s0 j q HQ Hq0 H0. now apply (send_waits_frame c n message F F_frame).
  - intros o s0 q -> HQ Hq0.
    now apply (send_waits_resumes c n message (Rejected r) F R F_frame
                 (JAwaited (KConnectGotSocket c) (Rejected r))).
  - intros s0 j q HQ Hq0 _.
    now apply (send_phase_frame n message (Rejected r) F R F_frame F_resumes R_frame).
  - exact Hsus1.
  - exists (JCreateSocket k false). rewrite Hq1. split; [now left|].
    cbn. apply Nat.eqb_refl.
  - intros j Hj Ht. rewrite Hq1 in Hj. destruct Hj as [<-|[]].
    eexists. split; reflexivity.
  - split; assumption.
  - exact (send_phase_done n message (Rejected r) F R _ Hphase (drain_quiescent s1)).
Qed.
(* ================================================================== *)
(** * The first request of a client *)
(* ================================================================== *)

(** ** Once the client has its socket *)

Lemma pending_connect_socket (h : Cont -> nat) (i : nat) (s : Client) :
  _socket s = Some i ->
  pending h (connect s) <= pending h s + h (KConnectOpened (next_call ConnectM s)).
Proof.
  intros Hs. unfold connect. cbv zeta.
  change (_socket (alloc ConnectM s)) with (_socket s). rewrite Hs.
  pose proof (pending__waitForConnection h (alloc ConnectM s)).
  pose proof (pending_alloc h ConnectM s).
  pending_bound.
Qed.

Lemma pending_sendAndWaitReply_socket (h : Cont -> nat) (i : nat) (message : string)
      (s : Client) :
  _socket s = Some i ->
  pending h (sendAndWaitReply message s)
  <= pending h s + h (KSendConnected (next_call ReplyM s) message)
     + h (KConnectOpened (next_call ConnectM s)).
Proof.
  intros Hs. unfold sendAndWaitReply.
  pose proof (pending_connect_socket h i (alloc ReplyM s) Hs) as H.
  change (next_call ConnectM (alloc ReplyM s)) with (next_call ConnectM s) in *.
  pose proof (pending_alloc h ReplyM s).
  pending_bound.
Qed.

Lemma gets_socket_call (i : nat) (op : Op) (s s' : Client) :
  _socket s = Some i -> call op s = Some s' ->
  pending gets_socket s' <= pending gets_socket s.
Proof.
  intros Hs Hcall.
  destruct op as [ | | |message|query|command ctx|event callback|events callback
                  |sub|f|f|f|f|f|f|f|f]; cbn [call] in Hcall;
    try (destruct (promise s SubscribeM sub) as [[|[[ |sock|d|events callback response]|r]]|]
           eqn:Hsub; try discriminate);
    injection Hcall as <-.
  - pose proof (pending_connect_socket gets_socket i s Hs) as H. cbn [gets_socket] in H. lia.
  - unfold closeConnection. destruct (_socket s); apply Nat.le_refl.
  - apply pending__waitForConnection.
  - pose proof (pending_sendAndWaitReply_socket gets_socket i message s Hs) as H.
    cbn [gets_socket] in H. lia.
  - unfold sendQuery.
    pose proof (pending_sendAndWaitReply_socket gets_socket i ("query " ++ query) s Hs) as H.
    cbn [gets_socket] in H. lia.
  - unfold runCommand. cbv zeta.
    pose proof (pending_sendAndWaitReply_socket gets_socket i (command_text command ctx)
                  (alloc CommandM s) Hs) as H.
    rewrite pending_alloc in H. cbn [gets_socket] in H.
    match goal with
    | |- pending _ (await ?m ?n ?k ?x) <= _ =>
        pose proof (pending_await gets_socket m n k x) as Ha
    end.
    cbn [gets_socket] in Ha. lia.
  - unfold subscribeMany. cbv zeta.
    pose proof (pending_sendAndWaitReply_socket gets_socket i (subscribe_text [event])
                  (alloc SubscribeM s) Hs) as H.
    rewrite pending_alloc in H. cbn [gets_socket] in H.
    match goal with
    | |- pending _ (await ?m ?n ?k ?x) <= _ =>
        pose proof (pending_await gets_socket m n k x) as Ha
    end.
    cbn [gets_socket] in Ha. lia.
  - unfold subscribeMany. cbv zeta.
    pose proof (pending_sendAndWaitReply_socket gets_socket i (subscribe_text events)
                  (alloc SubscribeM s) Hs) as H.
    rewrite pending_alloc in H. cbn [gets_socket] in H.
    match goal with
    | |- pending _ (await ?m ?n ?k ?x) <= _ =>
        pose proof (pending_await gets_socket m n k x) as Ha
    end.
    cbn [gets_socket] in Ha. lia.
  - unfold unlistenFn. cbv zeta.
    destruct response as [[]|].
    2-6: match goal with
         | |- pending _ (await ?m ?n ?k (sendAndWaitReply ?t ?x)) <= _ =>
             pose proof (pending_await gets_socket m n k (sendAndWaitReply t x)) as Ha;
             pose proof (pending_sendAndWaitReply_socket gets_socket i t x Hs) as H;
             change (pending gets_socket x) with (pending gets_socket (alloc UnlistenM s)) in H;
             rewrite pending_alloc in H; cbn [gets_socket] in H, Ha; lia
         end.
    all: pending_bound.
  - apply Nat.le_refl.
  - apply Nat.le_refl.
  - apply Nat.le_refl.
  - apply Nat.le_refl.
  - apply Nat.le_refl.
  - apply Nat.le_refl.
  - apply Nat.le_refl.
  - apply Nat.le_refl.
Qed.

Lemma socket_call (op : Op) (s s' : Client) :
  call op s = Some s' -> _socket s' = _socket s.
Proof.
  intros Hcall.
  destruct op as [ | | |message|query|command ctx|event callback|events callback
                  |sub|f|f|f|f|f|f|f|f]; cbn [call] in Hcall;
    try (destruct (promise s SubscribeM sub) as [[|[[ |sock|d|events callback response]|r]]|]
           eqn:Hsub; try discriminate);
    injection Hcall as <-; unfold sendQuery; frame; reflexivity.
Qed.

Lemma socket_deliver (ev : Event) (s s' : Client) :
  deliver ev s = Some s' -> _socket s' = _socket s.
Proof.
  intros Hd. destruct ev as [k ok|i|i e|i|i]; cbn [deliver] in Hd.
  - destruct (existsb (Nat.eqb k) (importing s)); [|discriminate].
    injection Hd as <-. reflexivity.
  - destruct (ready s i) as [[]|]; try discriminate.
    injection Hd as <-. now rewrite socket_onopen.
  - destruct (ready s i) as [[]|]; try discriminate;
      injection Hd as <-; now rewrite socket_onmessage.
  - destruct (ready s i) as [[]|]; try discriminate;
      injection Hd as <-; now rewrite socket_onerror.
  - destruct (ready s i) as [[]|]; try discriminate;
      injection Hd as <-; now rewrite socket_onclose.
Qed.

Lemma has_socket_run_job (i : nat) (j : Job) (q : list Job) (s : Client) :
  has_socket i s -> microtasks s = j :: q -> has_socket i (run_job j (set_microtasks q s)).
Proof.
  intros [Hs Hz] Hq.
  destruct (pending_tick gets_socket s (tick_eq j q s Hq)) as (j' & q' & Hq' & Hp).
  rewrite Hq in Hq'. injection Hq' as <- <-.
  assert (Hr : respawn gets_socket j = 0).
  { destruct j as [[c|c|c message|c events callback|c|c] [v|r] | c [] | c message o | c o];
      reflexivity. }
  assert (H0 : awaited gets_socket j = 0).
  { pose proof (pending_queued gets_socket j s) as H. rewrite Hq in H.
    specialize (H (or_introl eq_refl)). lia. }
  split; [|lia].
  destruct (socket_run_job j (set_microtasks q s) H0) as [H1 _]. now rewrite H1.
Qed.

Lemma has_socket_step (i : nat) (lab : Label) (s s' : Client) :
  has_socket i s -> step s lab = Some s' -> has_socket i s'.
Proof.
  intros Hs Hstep. destruct lab as [op| |ev]; cbn [step] in Hstep.
  - destruct Hs as [Hs Hz]. split.
    + now rewrite (socket_call op s s' Hstep).
    + pose proof (gets_socket_call i op s s' Hs Hstep). lia.
  - destruct (queue_tick s s' Hstep) as (j & q & added & Hq & -> & _).
    now apply has_socket_run_job.
  - destruct (microtasks s); [|discriminate]. destruct Hs as [Hs Hz]. split.
    + now rewrite (socket_deliver ev s s' Hstep).
    + pose proof (pending_deliver gets_socket ev s Hstep). lia.
Qed.

(** ** What a microtask does to a socket *)

Lemma socket_grows_run_job (i : nat) (ws : WebSocket) (j : Job) (s : Client) :
  nth_error (sockets s) i = Some ws ->
  exists ws' more,
    nth_error (sockets (run_job j s)) i = Some ws'
    /\ readyState ws' = readyState ws
    /\ sent ws' = sent ws ++ more.
Proof.
  intros Hws.
  assert (Hsame : sockets (run_job j s) = sockets s ->
                  exists ws' more,
                    nth_error (sockets (run_job j s)) i = Some ws'
                    /\ readyState ws' = readyState ws
                    /\ sent ws' = sent ws ++ more).
  { intros ->. exists ws, []. rewrite app_nil_r. now repeat split. }
  destruct j as [[c|c|c message|c events callback|c|c] [v|r] | c [] | c message o | c o];
    cbn [run_job resume pass].
  all: try (apply Hsame; cbn [run_job resume pass]; unfold subscribeMany_replied,
            _createSocket_resume; frame; reflexivity).
  - unfold sendAndWaitReply_connected.
    destruct (_socket s) as [i'|]; [|exists ws, []; rewrite app_nil_r; now repeat split].
    destruct (nth_error (sockets s) i') as [ws1|] eqn:H1;
      [|exists ws, []; rewrite app_nil_r; now repeat split].
    destruct (ws_send message ws1) as [ws1'|] eqn:Hsend;
      [|exists ws, []; rewrite app_nil_r; now repeat split].
    cbn [register_message set_onMessageCallbacks set_sockets sockets].
    destruct (Nat.eq_dec i' i) as [->|Hne].
    + rewrite nth_error_update_nth_eq, H1. cbn [option_map].
      rewrite Hws in H1. injection H1 as <-.
      unfold ws_send in Hsend. destruct (readyState ws) eqn:Hr; try discriminate;
        injection Hsend as <-.
      * eexists _, [message]. repeat split.
      * exists ws, []. rewrite app_nil_r. now repeat split.
      * exists ws, []. rewrite app_nil_r. now repeat split.
    + rewrite (nth_error_update_nth_neq _ _ Hne).
      exists ws, []. rewrite app_nil_r. now repeat split.
  - unfold _createSocket_resume.
    rewrite sockets_settle. cbn [emit set_log set_sockets sockets].
    rewrite nth_error_app1 by (apply nth_error_Some; congruence).
    exists ws, []. rewrite app_nil_r. now repeat split.
Qed.

Lemma sent_from_run_job (i : nat) (l : list string) (j : Job) (s : Client) :
  sent_from i l s -> sent_from i l (run_job j s).
Proof.
  intros (ws & more & Hws & Hr & Hsent).
  destruct (socket_grows_run_job i ws j s Hws) as (ws' & more' & Hws' & Hr' & Hsent').
  exists ws', (more ++ more'). split; [exact Hws'|]. split; [congruence|].
  rewrite Hsent', Hsent. now rewrite app_assoc.
Qed.

Lemma sent_after_run_job (i : nat) (l : list string) (message : string) (j : Job)
      (s : Client) :
  sent_after i l message s -> sent_after i l message (run_job j s).
Proof.
  intros (ws & before & after & Hws & Hr & Hsent).
  destruct (socket_grows_run_job i ws j s Hws) as (ws' & more' & Hws' & Hr' & Hsent').
  exists ws', before, (after ++ more'). split; [exact Hws'|]. split; [congruence|].
  rewrite Hsent', Hsent. rewrite <- !app_assoc. reflexivity.
Qed.

(** ** The executor of a request, once [connect] has returned *)

Lemma fulfilled_send_resumes (k : option Cont) (n i : nat) (l : list string)
      (message : string) (v : Value) (s : Client) (q : list Job) :
  match k with Some K => settles_itself (fst (owner K)) = true | None => True end ->
  caller_waits k n s -> has_socket i s -> sent_from i l s ->
  unsent n s -> pending (resends n) s <= 1 ->
  microtasks s = JAwaited (KSendConnected n message) (Fulfilled v) :: q ->
  let s' := run_job (JAwaited (KSendConnected n message) (Fulfilled v)) (set_microtasks q s) in
  outstanding n message s' /\ sent_after i l message s'
  /\ caller_waits k n s' /\ has_socket i s'.
Proof.
  intros Hk Hw Hsock (ws & more & Hws & Hr & Hsent) Hu Hle Hq s'.
  pose proof (head_not_finally n _ q s (proj2 (proj2 (proj2 Hu))) Hq) as Hfin.
  pose proof (has_socket_run_job i _ q s Hsock Hq) as Hsock'.
  pose proof (caller_waits_run_job k n _ q s Hk Hw Hq eq_refl) as Hw'.
  destruct Hu as (Hl & Hi & Hp & Hf). destruct Hsock as [Hs Hz].
  assert (Heq : s' = register_message (ReplyListener n message)
                       (set_sockets
                          (update_nth i (fun _ => transmit message ws) (sockets s))
                          (set_microtasks q s))).
  { unfold s'. cbn [run_job resume]. unfold sendAndWaitReply_connected.
    cbn [set_microtasks _socket sockets]. rewrite Hs, Hws. unfold ws_send. rewrite Hr.
    reflexivity. }
  split; [|split; [|split]]; try assumption.
  - split; [|split; [|split; [|split]]].
    + rewrite Heq. cbn [register_message set_onMessageCallbacks _onMessageCallbacks
                          set_sockets set_microtasks].
      unfold reply_listeners, Registry.push in *. rewrite filter_app, Hl. cbn.
      now rewrite Nat.eqb_refl.
    + rewrite Heq. exact Hi.
    + rewrite Heq. exact Hp.
    + pose proof (pending_pop (resends n) s Hq) as H. cbn [awaited resends] in H.
      rewrite Nat.eqb_refl in H. rewrite Heq.
      change (pending (resends n) (register_message ?cb (set_sockets ?x ?y)))
        with (pending (resends n) y). lia.
    + rewrite Heq. cbn [register_message set_onMessageCallbacks set_sockets set_microtasks
                          microtasks].
      rewrite Hq in Hf. cbn [finally_jobs filter] in Hf. rewrite Hfin in Hf. exact Hf.
  - exists (transmit message ws), more, []. rewrite Heq.
    cbn [register_message set_onMessageCallbacks set_sockets sockets].
    rewrite nth_error_update_nth_eq, Hws. cbn [option_map].
    split; [reflexivity|]. split; [reflexivity|].
    cbn [transmit sent]. rewrite Hsent. now rewrite <- app_assoc.
Qed.

(** ** The open event, for a request that waits for it *)

Lemma open_sends (k : option Cont) (c w n i : nat) (message : string) (ws : WebSocket)
      (s s' : Client) :
  match k with Some K => settles_itself (fst (owner K)) = true | None => True end ->
  connecting c w s ->
  queued c n message s -> caller_waits k n s -> has_socket i s ->
  nth_error (sockets s) i = Some ws ->
  task (SocketOpen i) s = Some s' ->
  outstanding n message s' /\ sent_after i (sent ws) message s'
  /\ caller_waits k n s' /\ has_socket i s'.
Proof.
  intros Hk Hcon Hqd Hw Hsock Hws Htask.
  set (o := Fulfilled VUndefined).
  set (F := fun s0 => caller_waits k n s0 /\ has_socket i s0 /\ sent_from i (sent ws) s0).
  set (R := fun s0 => outstanding n message s0 /\ sent_after i (sent ws) message s0
                      /\ caller_waits k n s0 /\ has_socket i s0).
  assert (F_frame : forall s0 j q, F s0 -> microtasks s0 = j :: q ->
                                   awaited (resends n) j = 0 ->
                                   job_targets j ReplyM n = false ->
                                   F (run_job j (set_microtasks q s0))).
  { intros s0 j q (H1 & H2 & H3) Hq0 _ Ht. split; [|split].
    - now apply caller_waits_run_job.
    - now apply has_socket_run_job.
    - now apply sent_from_run_job. }
  assert (F_resumes : forall s0 q, F s0 -> unsent n s0 -> pending (resends n) s0 <= 1 ->
                                   microtasks s0 = JAwaited (KSendConnected n message) o :: q ->
                                   R (run_job (JAwaited (KSendConnected n message) o)
                                        (set_microtasks q s0))).
  { intros s0 q (H1 & H2 & H3) Hu Hle Hq0.
    now apply (fulfilled_send_resumes k n i (sent ws) message VUndefined s0 q). }
  assert (R_frame : forall s0 j q, R s0 -> microtasks s0 = j :: q ->
                                   R (run_job j (set_microtasks q s0))).
  { intros s0 j q (H1 & H2 & H3 & H4) Hq0. split; [|split; [|split]].
    - apply (outstanding_tick n message s0); [exact H1 | now apply tick_eq].
    - now apply sent_after_run_job.
    - apply caller_waits_run_job; try assumption.
      apply not_finally_no_target.
      destruct H1 as (_ & _ & _ & _ & Hf). exact (head_not_finally n j q s0 Hf Hq0).
    - now apply has_socket_run_job. }
  assert (Hd : deliver (SocketOpen i) s = Some (onopen (set_readyState i OPEN s))).
  { unfold task in Htask. cbn [step] in Htask. destruct (microtasks s); [|discriminate].
    cbn [deliver] in *. destruct (ready s i) as [[]|]; try discriminate. reflexivity. }
  destruct (connecting_open c w i (send_waits c n message F)
              (send_phase n message o F R) s s') as [_ Hphase]; try assumption.
  - intros s0 j q HQ Hq0 H0. now apply (send_waits_frame c n message F F_frame).
  - intros o1 s0 q Ho HQ Hq0.
    apply (send_waits_resumes c n message o F R F_frame
             (JAwaited (KConnectOpened c) o1)); try assumption.
    destruct o1 as [v|r]; [reflexivity | contradiction].
  - intros s0 j q HQ Hq0 _.
    now apply (send_phase_frame n message o F R F_frame F_resumes R_frame).
  - split; [now apply (queued_deliver c n message (SocketOpen i) s)|].
    split; [now apply (caller_waits_deliver k n (SocketOpen i) s)|]. split.
    + destruct Hsock as [Hs Hz]. split.
      * now rewrite (socket_deliver (SocketOpen i) s _ Hd).
      * pose proof (pending_deliver gets_socket (SocketOpen i) s Hd). lia.
    + exists (mkWebSocket (ws_port ws) OPEN (sent ws)), [].
      rewrite sockets_onopen. unfold set_readyState. cbn [set_sockets sockets].
      rewrite nth_error_update_nth_eq, Hws, app_nil_r. now repeat split.
  - apply (send_phase_done n message o F R s' Hphase).
    unfold task in Htask. cbn [step] in Htask. destruct (microtasks s); [|discriminate].
    rewrite Hd in Htask. cbn [option_map] in Htask.
    injection Htask as <-. apply drain_quiescent.
Qed.

(** ** The first call of [connect] *)

Lemma starting_connect (s : Client) :
  _socket s = None ->
  _createSocketPromise s = None ->
  hasGlobalWebSocket s = true ->
  microtasks s = [] ->
  sockets s = [] ->
  pending (owned ConnectM (next_call ConnectM s)) s = 0 ->
  pending gets_socket s = 0 ->
  starting (next_call ConnectM s) (next_call CreateSocketM s) (connect s).
Proof.
  intros Hs Hc Hapi Hq Hsk Hz Hg.
  set (c := next_call ConnectM s) in *. set (k := next_call CreateSocketM s).
  set (s0 := set_createSocketPromise (Some k)
               (enqueue (JCreateSocket k true)
                  (alloc CreateSocketM (alloc ConnectM s)))).
  assert (Heq : connect s = await CreateSocketM k (KConnectGotSocket c) s0).
  { unfold connect. cbv zeta.
    change (_socket (alloc ConnectM s)) with (_socket s). rewrite Hs.
    change (_createSocketPromise (alloc ConnectM s)) with (_createSocketPromise s).
    rewrite Hc. unfold _createSocket. cbv zeta.
    change (hasGlobalWebSocket (alloc CreateSocketM (alloc ConnectM s)))
      with (hasGlobalWebSocket s).
    rewrite Hapi. reflexivity. }
  assert (Hbound : forall h, pending h (connect s) <= pending h s + h (KConnectGotSocket c)).
  { intros h. rewrite Heq.
    pose proof (pending_await h CreateSocketM k (KConnectGotSocket c) s0) as H.
    change (pending h s0)
      with (pending h (enqueue (JCreateSocket k true)
                         (alloc CreateSocketM (alloc ConnectM s)))) in H.
    rewrite pending_enqueue, !pending_alloc in H. cbn [awaited] in H. lia. }
  split; [|split; [|split; [|split; [|split; [|split]]]]].
  - rewrite Heq. unfold s0, k. observe. now rewrite Hq.
  - rewrite Heq. unfold s0, k. observe. rewrite waiting_fresh by lia. reflexivity.
  - rewrite Heq. unfold s0, k. observe. reflexivity.
  - apply promise_connect_own.
  - pose proof (Hbound (owned ConnectM c)) as H.
    assert (H1 : owned ConnectM c (KConnectGotSocket c) = 1)
      by apply (owned_owner (KConnectGotSocket c)).
    lia.
  - pose proof (Hbound gets_socket) as H. cbn [gets_socket] in H. lia.
  - now rewrite sockets_connect.
Qed.

Lemma starting_await (c k : nat) (m : Method) (n : nat) (K : Cont) (s : Client) :
  starting c k s ->
  promise s m n = Some Pending ->
  Method_eqb m CreateSocketM = false ->
  owned ConnectM c K = 0 ->
  gets_socket K = 0 ->
  starting c k (await m n K s).
Proof.
  intros (Hq & Hw & Hpk & Hpc & Hle & Hg & Hsk) Hp Hm HK1 HK2.
  split; [|split; [|split; [|split; [|split; [|split]]]]].
  - now rewrite microtasks_await, Hp, app_nil_r.
  - rewrite waiting_await, Hm. exact Hw.
  - now rewrite promise_await.
  - now rewrite promise_await.
  - pose proof (pending_await (owned ConnectM c) m n K s). lia.
  - pose proof (pending_await gets_socket m n K s). lia.
  - now rewrite sockets_await.
Qed.

Lemma starting_sendAndWaitReply (message : string) (s : Client) :
  _socket s = None ->
  _createSocketPromise s = None ->
  hasGlobalWebSocket s = true ->
  microtasks s = [] ->
  sockets s = [] ->
  pending (owned ConnectM (next_call ConnectM s)) s = 0 ->
  pending gets_socket s = 0 ->
  starting (next_call ConnectM s) (next_call CreateSocketM s) (sendAndWaitReply message s).
Proof.
  intros Hs Hc Hapi Hq Hsk Hz Hg. unfold sendAndWaitReply. cbv zeta.
  apply starting_await; try reflexivity.
  - apply (starting_connect (alloc ReplyM s)); try assumption;
      rewrite pending_alloc; assumption.
  - apply promise_connect_own.
Qed.

(** The first send operation of a client, where [globalThis.WebSocket]
    exists, up to the end of the call. *)
Lemma starting_call (op : Op) (message : string) (s s1 : Client) :
  request_text op = Some message ->
  _socket s = None ->
  _createSocketPromise s = None ->
  hasGlobalWebSocket s = true ->
  microtasks s = [] ->
  sockets s = [] ->
  pending (owned ConnectM (next_call ConnectM s)) s = 0 ->
  pending gets_socket s = 0 ->
  call op s = Some s1 ->
  starting (next_call ConnectM s) (next_call CreateSocketM s) s1.
Proof.
  intros Htext Hs Hc Hapi Hq Hsk Hz Hg Hcall.
  assert (Hwrap : forall (m : Method) (K : Cont) text,
             Method_eqb m ConnectM = false ->
             Method_eqb m CreateSocketM = false ->
             Method_eqb m ReplyM = false ->
             owned ConnectM (next_call ConnectM s) K = 0 ->
             gets_socket K = 0 ->
             starting (next_call ConnectM s) (next_call CreateSocketM s)
               (await ReplyM (next_call ReplyM (alloc m s)) K
                  (sendAndWaitReply text (alloc m s)))).
  { intros m K text Hm1 Hm2 Hm3 HK1 HK2.
    assert (Hnc : next_call ConnectM (alloc m s) = next_call ConnectM s)
      by (rewrite next_call_alloc, Hm1; reflexivity).
    assert (Hnk : next_call CreateSocketM (alloc m s) = next_call CreateSocketM s)
      by (rewrite next_call_alloc, Hm2; reflexivity).
    apply starting_await; try assumption; try reflexivity.
    - rewrite <- Hnc, <- Hnk.
      apply (starting_sendAndWaitReply text (alloc m s)); try assumption;
        rewrite ?Hnc, pending_alloc; assumption.
    - unfold sendAndWaitReply. cbv zeta.
      rewrite promise_await, promise_connect.
      + observe. reflexivity.
      + rewrite (next_call_alloc ReplyM ReplyM). cbn [Method_eqb]. lia. }
  destruct op as [ | | |msg|query|command ctx|event callback|events callback
                  |sub|f|f|f|f|f|f|f|f]; cbn [request_text] in Htext; try discriminate;
    injection Htext as <-; cbn [call] in Hcall; injection Hcall as <-.
  - now apply starting_sendAndWaitReply.
  - unfold sendQuery. now apply starting_sendAndWaitReply.
  - apply (Hwrap CommandM (KCommandReplied (next_call CommandM s))); reflexivity.
  - apply (Hwrap SubscribeM (KSubscribeReplied (next_call SubscribeM s) [event] callback));
      reflexivity.
  - apply (Hwrap SubscribeM (KSubscribeReplied (next_call SubscribeM s) events callback));
      reflexivity.
Qed.

(** The two microtasks of the first call of [connect]: [_createSocket]
    constructs the socket and returns it, [connect] keeps it and waits
    for the open event.  A request that waits for [connect] waits on. *)
Lemma starting_drain (k0 : option Cont) (c k n : nat) (message : string) (s1 : Client) :
  match k0 with Some K => settles_itself (fst (owner K)) = true | None => True end ->
  starting c k s1 ->
  queued c n message s1 ->
  caller_waits k0 n s1 ->
  exists w,
    connecting c w (drain s1)
    /\ has_socket 0 (drain s1)
    /\ queued c n message (drain s1)
    /\ caller_waits k0 n (drain s1)
    /\ ready (drain s1) 0 = Some CONNECTING.
Proof.
  intros Hk (Hq & Hwt & Hpk & Hpc & Hle & Hg & Hsk) Hqd Hw.
  set (p := match port s1 with Some p => p | None => DEFAULT_PORT end).
  set (v := Fulfilled (VSocket (Some 0))).
  set (j1 := JCreateSocket k true).
  set (sB := run_job j1 (set_microtasks [] s1)).
  assert (HsB : sB = settle CreateSocketM k v
                       (emit (ObsSocketCreated p)
                          (set_sockets [mkWebSocket p CONNECTING []]
                             (set_microtasks [] s1)))).
  { unfold sB, j1. cbn [run_job]. unfold _createSocket_resume.
    cbn [set_microtasks port sockets]. rewrite Hsk. reflexivity. }
  assert (HqB : microtasks sB = [JAwaited (KConnectGotSocket c) v]).
  { rewrite HsB. observe. rewrite Hpk, Hwt. reflexivity. }
  pose proof (queued_run_job c n message j1 [] s1 Hqd Hq eq_refl) as HqdB. fold sB in HqdB.
  pose proof (caller_waits_run_job k0 n j1 [] s1 Hk Hw Hq eq_refl) as HwB. fold sB in HwB.
  assert (HpB : forall h, pending h sB <= pending h s1).
  { intros h. destruct (pending_tick h s1 (tick_eq j1 [] s1 Hq)) as (j' & q' & Hq' & Hp).
    rewrite Hq in Hq'. injection Hq' as <- <-. fold sB in Hp. cbn [respawn j1] in Hp. lia. }
  assert (HpcB : promise sB ConnectM c = Some Pending).
  { rewrite HsB. observe. exact Hpc. }
  set (j2 := JAwaited (KConnectGotSocket c) v).
  set (sC := set_microtasks [] sB).
  set (sD := set_socket (Some 0) sC).
  set (sE := run_job j2 sC).
  assert (HskD : sockets sD = [mkWebSocket p CONNECTING []]).
  { unfold sD, sC. rewrite HsB. observe. reflexivity. }
  assert (HopenD : socket_is_open sD = false).
  { apply socket_is_open_not. intros i' Hi'.
    assert (H1 : _socket sD = Some 0) by reflexivity.
    rewrite H1 in Hi'. injection Hi' as <-.
    unfold ready. rewrite HskD. cbn. discriminate. }
  assert (HsE : sE = await WaitM (next_call WaitM sD) (KConnectOpened c)
                       (register_connect (ConnectWaiter (next_call WaitM sD))
                          (alloc WaitM sD))).
  { unfold sE, j2, v. cbn [run_job resume]. cbv zeta. fold sD.
    rewrite _waitForConnection_waits by exact HopenD. reflexivity. }
  destruct (await_wait_connecting c sD) as [Hcon HqE].
  - reflexivity.
  - exact HpcB.
  - pose proof (pending_pop (owned ConnectM c) sB HqB) as P. cbn [awaited] in P.
    assert (H1 : owned ConnectM c (KConnectGotSocket c) = 1)
      by apply (owned_owner (KConnectGotSocket c)).
    pose proof (HpB (owned ConnectM c)).
    change (pending (owned ConnectM c) sD) with (pending (owned ConnectM c) (set_microtasks [] sB)).
    lia.
  - cbv zeta in Hcon, HqE. rewrite <- HsE in Hcon, HqE.
    assert (Hd : drain s1 = sE).
    { rewrite (drain_job j1 [] s1 Hq). fold sB.
      rewrite (drain_job j2 [] sB HqB). fold sC. fold sE.
      now apply drain_done. }
    rewrite Hd. exists (next_call WaitM sD).
    split; [exact Hcon|]. split; [|split; [|split]].
    + split.
      * rewrite HsE. rewrite socket_await. reflexivity.
      * destruct (pending_tick gets_socket sB (tick_eq j2 [] sB HqB)) as (j' & q' & Hq' & Hp).
        rewrite HqB in Hq'. injection Hq' as <- <-. fold sC sE in Hp.
        cbn [respawn awaited j2 v gets_socket] in Hp.
        pose proof (HpB gets_socket). lia.
    + exact (queued_run_job c n message j2 [] sB HqdB HqB eq_refl).
    + exact (caller_waits_run_job k0 n j2 [] sB Hk HwB HqB eq_refl).
    + unfold ready. rewrite HsE, sockets_await.
      cbn [register_connect set_onConnectCallbacks sockets].
      change (sockets (alloc WaitM sD)) with (sockets sD). rewrite HskD. reflexivity.
Qed.

(** ** Until the socket opens *)

Lemma queued_connecting_run (k0 : option Cont) (c w n i : nat) (message : string) :
  match k0 with Some K => settles_itself (fst (owner K)) = true | None => True end ->
  forall ls s s',
    connecting c w s -> queued c n message s -> caller_waits k0 n s -> has_socket i s ->
    run s ls = Some s' -> existsb opens ls = false ->
    connecting c w s' /\ queued c n message s' /\ caller_waits k0 n s' /\ has_socket i s'.
Proof.
  intros Hk. induction ls as [|lab ls IH]; intros s s' Hcon Hq Hw Hs Hrun Hls;
    cbn [run] in Hrun.
  - injection Hrun as <-. split; [|split; [|split]]; assumption.
  - cbn [existsb] in Hls. apply orb_false_iff in Hls. destruct Hls as [Hlab Hls].
    destruct (step s lab) as [s1|] eqn:Hstep; [|discriminate].
    apply (IH s1 s'); try assumption.
    + now apply (connecting_step c w lab s s1).
    + destruct Hcon as [_ Hsus].
      now apply (queued_step (KConnectOpened c) WaitM w c n message lab s s1).
    + now apply (queued_caller_step k0 c n message lab s s1).
    + now apply (has_socket_step i lab s s1).
Qed.

(** The first send operation of a client, where [globalThis.WebSocket]
    exists: nothing is sent before the socket opens; in the task of the
    open event the text is handed to the socket and the listener is
    registered. *)
Lemma first_request_open (options : option N) (ls : list Label) (s : Client) (op : Op)
      (message : string) (s1 : Client) (ls' : list Label) (s2 : Client) (i : nat)
      (s3 : Client) :
  run (new_client options true) ls = Some s ->
  microtasks s = [] ->
  _createSocketPromise s = None ->
  request_text op = Some message ->
  calls [op] s = Some s1 ->
  run s1 ls' = Some s2 ->
  existsb opens ls' = false ->
  task (SocketOpen i) s2 = Some s3 ->
  unsent (next_call ReplyM s) s2
  /\ caller_waits (request_cont op s) (next_call ReplyM s) s2
  /\ outstanding (next_call ReplyM s) message s3
  /\ caller_waits (request_cont op s) (next_call ReplyM s) s3
  /\ forall ws, nth_error (sockets s2) i = Some ws ->
                sent_after i (sent ws) message s3.
Proof.
  intros Hrun Hq Hc Htext Hcalls Hrun' Hls' Htask.
  pose proof (fresh_requests_run ls _ s (fresh_requests_new options true) Hrun) as Hreq.
  pose proof (fresh_conts_run ls _ s (fresh_conts_new options true) Hrun) as Hconts.
  pose proof (single_socket_run ls _ s (single_socket_new options true) Hrun) as Hsingle.
  pose proof (no_creation_run ls _ s (no_creation_new options true) Hrun) as Hno.
  destruct (environment_run options true ls (new_client options true) s
              eq_refl eq_refl Hrun) as [_ Hapi].
  destruct (Hno Hc) as [Hs Hg].
  pose proof (no_creation_no_socket s Hsingle Hc) as Hsk.
  pose proof (request_cont_owner op s) as Hk.
  set (n := next_call ReplyM s) in *. set (c := next_call ConnectM s).
  unfold calls in Hcalls. cbn [map run step] in Hcalls.
  destruct (call op s) as [s0|] eqn:Hcall; [|discriminate].
  cbn [option_map] in Hcalls. injection Hcalls as <-.
  destruct (request_queued op message s s0 Hreq Hconts Htext Hcall) as [Hqd Hw].
  fold n c in Hqd, Hw.
  pose proof (starting_call op message s s0 Htext Hs Hc Hapi Hq Hsk
                (Hconts ConnectM (next_call ConnectM s) eq_refl (Nat.le_refl _)) Hg Hcall)
    as Hstart. fold c in Hstart.
  destruct (starting_drain (request_cont op s) c _ n message s0 Hk Hstart Hqd Hw)
    as (w & Hcon1 & Hsock1 & Hqd1 & Hw1 & _).
  destruct (queued_connecting_run (request_cont op s) c w n 0 message Hk ls' _ s2
              Hcon1 Hqd1 Hw1 Hsock1 Hrun' Hls') as (Hcon2 & Hqd2 & Hw2 & Hsock2).
  assert (Hsingle2 : single_socket s2).
  { apply (single_socket_run ls' (drain s0) s2); [|exact Hrun'].
    apply single_socket_drain.
    now apply (single_socket_step (Call op) s s0). }
  assert (Hi : i = 0).
  { assert (Hr : ready s2 i = Some CONNECTING).
    { unfold task in Htask. cbn [step] in Htask. destruct (microtasks s2); [|discriminate].
      cbn [deliver] in Htask. destruct (ready s2 i) as [[]|]; try discriminate. reflexivity. }
    unfold ready in Hr. destruct (nth_error (sockets s2) i) as [ws|] eqn:Hws; [|discriminate].
    assert (Hlt : i < List.length (sockets s2)) by (apply nth_error_Some; congruence).
    destruct Hsingle2 as [Hb _]. unfold createSocket_calls in Hb.
    destruct (_createSocketPromise s2); lia. }
  subst i.
  split; [now destruct Hqd2|]. split; [exact Hw2|].
  assert (Hopen : forall ws, nth_error (sockets s2) 0 = Some ws ->
                             outstanding n message s3 /\ sent_after 0 (sent ws) message s3
                             /\ caller_waits (request_cont op s) n s3 /\ has_socket 0 s3).
  { intros ws Hws.
    exact (open_sends (request_cont op s) c w n 0 message ws s2 s3 Hk
             Hcon2 Hqd2 Hw2 Hsock2 Hws Htask). }
  assert (Hex : exists ws, nth_error (sockets s2) 0 = Some ws).
  { unfold task in Htask. cbn [step] in Htask. destruct (microtasks s2); [|discriminate].
    cbn [deliver] in Htask. unfold ready in Htask.
    destruct (nth_error (sockets s2) 0) as [ws|]; [now exists ws | discriminate]. }
  destruct Hex as (ws0 & Hws0). destruct (Hopen ws0 Hws0) as (Hout & _ & Hw3 & _).
  split; [exact Hout|]. split; [exact Hw3|].
  intros ws Hws. now destruct (Hopen ws Hws) as (_ & Hsent & _).
Qed.

Set Implicit Arguments.

(* ================================================================== *)
(** * Unregistration *)
(* ================================================================== *)




(* ================================================================== *)
(** * Payloads that cannot be decoded *)
(* ================================================================== *)

Lemma set_log_same (s : Client) : set_log (log s) s = s.
Proof. destruct s; reflexivity. Qed.

Lemma forEach_undecodable (e : MessageEvent) :
  undecodable e = true ->
  forall l s,
    handled (forEach (invoke_message e) l s) = set_log (log s ++ undecodable_log e l) s.
Proof.
  intros He. induction l as [|cb rest IH]; intros s.
  - cbn. now rewrite app_nil_r, set_log_same.
  - destruct cb as [n message | n events callback | f]; cbn [forEach invoke_message].
    + destruct e as [[]|]; try discriminate; reflexivity.
    + destruct e as [[]|]; try discriminate; cbn; unfold emit, set_log; cbn;
        rewrite <- ?app_assoc; reflexivity.
    + rewrite IH. cbn. unfold set_log; cbn. rewrite <- app_assoc. reflexivity.
Qed.

Lemma onmessage_undecodable (e : MessageEvent) (s : Client) :
  undecodable e = true ->
  onmessage e s = set_log (log s ++ undecodable_log e (_onMessageCallbacks s)) s.
Proof. intros He. unfold onmessage. now apply forEach_undecodable. Qed.

Lemma undecodable_log_callbacks (e : MessageEvent) (l : list MessageCallback) :
  undecodable e = true ->
  message_callbacks_run (undecodable_log e l)
  = map (fun f => (f, e)) (leading_user_callbacks l)
  /\ forall n, delivered n (undecodable_log e l) = [].
Proof.
  intros He. induction l as [|cb rest [IH1 IH2]]; [split; reflexivity|].
  destruct cb as [n message | n events callback | f].
  - split; reflexivity.
  - destruct e as [[]|]; try discriminate; split; reflexivity.
  - cbn [undecodable_log leading_user_callbacks map].
    change (ObsMessageCallback f e :: undecodable_log e rest)
      with ([ObsMessageCallback f e] ++ undecodable_log e rest).
    split.
    + rewrite message_callbacks_run_app, IH1. reflexivity.
    + intros n. rewrite delivered_app, IH2. reflexivity.
Qed.




(* ================================================================== *)
(** * Subscriptions: filtering, order, cancellation *)
(* ================================================================== *)


Lemma subscribed_client_subscription :
  subscription 0 [SubscriptionListener 0 ["a"; "b"] 7] subscribed_client.
Proof. vm_compute. repeat split; repeat constructor. Qed.


Lemma promise_unlistenFn_fresh (n : nat) (events : list string) (callback : nat)
      (response : JsValue) (s : Client) :
  promise (unlistenFn n events callback response s) UnlistenM (next_call UnlistenM s)
  = Some (match response with
          | None | Some JNull => Settled (Rejected ThrownTypeError)
          | Some _ => Pending
          end).
Proof.
  unfold unlistenFn.
  assert (H1 : next_call UnlistenM s
               < next_call UnlistenM (unlisten_message (SubscriptionListener n events callback)
                                        (alloc UnlistenM s)))
    by (rewrite next_call_unlisten_message, next_call_alloc_same; lia).
  destruct response as [[]|];
    try (rewrite promise_await, promise_sendAndWaitReply by exact H1);
    heap_simpl; cbn [Method_eqb andb]; rewrite ?Nat.eqb_refl; reflexivity.
Qed.

(** C3.  Calling the closure [subscribeMany] returned removes the
    subscription's listener at once: when the call returns to the caller
    nothing has been sent on the socket yet and the closure's promise is
    not fulfilled (it is pending on the unsubscribe request, or it has
    thrown on a missing [response]).  From then on, in every run of the
    client - whatever events arrive, and whether or not the unsubscribe
    request is ever acknowledged - the subscription's callback is not
    called again. *)
Theorem unlisten_stops_delivery
        (n : nat) (events : list string) (callback : nat) (response : JsValue)
        (s s1 : Client) :
  subscription n [SubscriptionListener n events callback] s ->
  promise s SubscribeM n = Some (Settled (Fulfilled (VUnlistenFn events callback response))) ->
  step s (Call (InvokeUnlistenFn n)) = Some s1 ->
  subscription_listeners n (_onMessageCallbacks s1) = []
  /\ sockets s1 = sockets s
  /\ promise s1 UnlistenM (next_call UnlistenM s)
     = Some (match response with
             | None | Some JNull => Settled (Rejected ThrownTypeError)
             | Some _ => Pending
             end)
  /\ forall ls s2,
       run s1 ls = Some s2 ->
       subscription_listeners n (_onMessageCallbacks s2) = []
       /\ delivered n (log s2) = delivered n (log s).
Proof.
  intros Hs Hp Hstep.
  destruct (subscription_unlisten Hs Hp Hstep) as (Hgone & Hlog & Hsock).
  split; [apply Hgone|]. split; [exact Hsock|]. split.
  - cbn [step call] in Hstep. rewrite Hp in Hstep. injection Hstep as <-.
    apply promise_unlistenFn_fresh.
  - intros ls s2 Hrun.
    destruct (subscription_gone_run ls Hgone Hrun) as [Hs2 Hd].
    split; [apply Hs2|]. now rewrite Hd, Hlog.
Qed.

Lemma unlisten_stops_delivery_witness :
  delivered 0
    (log (and_then (and_then subscribed_client [Call (InvokeUnlistenFn 0)])
            [Tick; Tick; Env (SocketMessage 0 (event_envelope "a")); Call (OnMessage 3);
             Env (SocketMessage 0 (event_envelope "b"))]))
  = delivered 0 (log subscribed_client).
Proof.
  assert (Hp : promise subscribed_client SubscribeM 0
               = Some (Settled (Fulfilled
                   (VUnlistenFn ["a"; "b"] 7 (Some (JObj [("subscriptionId", JStr "s1")]))))))
    by (vm_compute; reflexivity).
  assert (Hstep : step subscribed_client (Call (InvokeUnlistenFn 0))
                  = Some (and_then subscribed_client [Call (InvokeUnlistenFn 0)]))
    by (vm_compute; reflexivity).
  destruct (unlisten_stops_delivery subscribed_client_subscription Hp Hstep)
    as (_ & _ & _ & Hrun).
  apply (Hrun [Tick; Tick; Env (SocketMessage 0 (event_envelope "a")); Call (OnMessage 3);
               Env (SocketMessage 0 (event_envelope "b"))]).
  vm_compute. reflexivity.
Defined.

(* ================================================================== *)
(** * Requests and their replies *)
(* ================================================================== *)

Unset Implicit Arguments.

Lemma is_reply_unique (a b : string) (e : MessageEvent) :
  is_reply a e = true -> is_reply b e = true -> a = b.
Proof.
  destruct e as [v|]; [|discriminate]. cbn [is_reply].
  intros Ha Hb. apply andb_true_iff in Ha, Hb.
  destruct Ha as [_ Ha], Hb as [_ Hb]. unfold strict_eq_string in *.
  destruct (prop v "clientMessage") as [[]|]; try discriminate.
  apply String.eqb_eq in Ha, Hb. congruence.
Qed.

Lemma replied_task (n : nat) (o : Outcome) (ev : Event) (s s' : Client) :
  replied n o s -> task ev s = Some s' -> replied n o s'.
Proof.
  intros Hs Htask. unfold task in Htask.
  destruct (step s (Env ev)) as [s1|] eqn:Hstep; [|discriminate].
  injection Htask as <-.
  apply (@drain_invariant (fun s0 => replied n o s0)).
  - intros s2 s3 H2 Ht. now apply (replied_tick n o s2 s3).
  - now apply (replied_step n o (Env ev) s s1).
Qed.

Lemma two_queries_outstanding :
  outstanding 0 "query monitors" two_queries_client
  /\ outstanding 1 "query windows" two_queries_client.
Proof. vm_compute. repeat split. Qed.



(** X2 (sendAndWaitReply, lines 82-94).  A message that is no reply to an
    outstanding request (another [messageType], another [clientMessage], or
    a payload that cannot be decoded) leaves the request outstanding: its
    promise stays pending and its listener stays registered. *)
Theorem other_message_leaves_request_pending
        (n : nat) (message : string) (i : nat) (e : MessageEvent) (s s' : Client) :
  outstanding n message s ->
  is_reply message e = false ->
  task (SocketMessage i e) s = Some s' ->
  outstanding n message s'.
Proof.
  intros Hs He Htask.
  pose proof (outstanding_task n message i e s s' Hs Htask) as H.
  now rewrite He in H.
Qed.

Lemma other_message_leaves_request_pending_witness :
  outstanding 0 "query monitors"
    (after [Caller [SendQuery "monitors"; SendQuery "windows"];
            Environment (SocketOpen 0);
            Environment (SocketMessage 0 (reply_envelope "query windows" JNull))]).
Proof.
  refine (other_message_leaves_request_pending 0 "query monitors" 0
            (reply_envelope "query windows" JNull)
            two_queries_client _ (proj1 two_queries_outstanding) _ _);
    vm_compute; reflexivity.
Defined.

(** X3 (sendAndWaitReply, lines 86-96).  A request is settled once: after
    the promise of a request is settled and its listener unregistered, no
    call of the caller, microtask or event of the socket (not even another
    reply with the same text) changes the outcome or brings the listener
    back. *)
Theorem settled_request_stays_settled
        (n : nat) (o : Outcome) (ls : list Label) (s s' : Client) :
  replied n o s ->
  run s ls = Some s' ->
  promise s' ReplyM n = Some (Settled o)
  /\ reply_listeners n (_onMessageCallbacks s') = [].
Proof.
  intros Hs Hrun. destruct (replied_run n o ls s s' Hs Hrun) as (Hl & _ & Hp & _).
  split; assumption.
Qed.

Lemma settled_request_stays_settled_witness :
  promise (and_then
             (after [Caller [SendQuery "monitors"];
                     Environment (SocketOpen 0);
                     Environment (SocketMessage 0 (reply_envelope "query monitors" JNull))])
             [Env (SocketMessage 0
                     (error_envelope "query monitors" (JStr "late")))])
          ReplyM 0
  = Some (Settled (Fulfilled (VData (Some JNull)))).
Proof.
  refine (proj1 (settled_request_stays_settled 0 (Fulfilled (VData (Some JNull)))
                   [Env (SocketMessage 0 (error_envelope "query monitors" (JStr "late")))]
                   (after [Caller [SendQuery "monitors"];
                           Environment (SocketOpen 0);
                           Environment (SocketMessage 0
                                          (reply_envelope "query monitors" JNull))])
                   _ _ _)).
  - vm_compute. repeat split.
  - vm_compute. reflexivity.
Defined.





(* ================================================================== *)
(** * The handlers of the socket and the caller's callbacks *)
(* ================================================================== *)

Lemma forEach_log (A : Type) (invoke : A -> Client -> Completion) (out : A -> list Obs) :
  (forall cb s, exists s1, invoke cb s = Normal s1 /\ log s1 = log s ++ out cb) ->
  forall l s, exists s',
      forEach invoke l s = Normal s' /\ log s' = log s ++ flat_map out l.
Proof.
  intros Hinv. induction l as [|cb rest IH]; intros s; cbn [forEach flat_map].
  - exists s. split; [reflexivity | now rewrite app_nil_r].
  - destruct (Hinv cb s) as (s1 & -> & H1).
    destruct (IH s1) as (s' & -> & H'). exists s'. split; [reflexivity|].
    now rewrite H', H1, app_assoc.
Qed.

Lemma handler_log (A : Type) (invoke : A -> Client -> Completion) (out : A -> list Obs)
      (l : list A) (s : Client) :
  (forall cb s, exists s1, invoke cb s = Normal s1 /\ log s1 = log s ++ out cb) ->
  log (handled (forEach invoke l s)) = log s ++ flat_map out l.
Proof.
  intros Hinv. destruct (forEach_log A invoke out Hinv l s) as (s' & -> & H'). exact H'.
Qed.

Lemma flat_map_single (A B : Type) (f : A -> B) (l : list A) :
  flat_map (fun x => [f x]) l = map f l.
Proof. induction l as [|x xs IH]; cbn; [reflexivity | now rewrite IH]. Qed.

Lemma flat_map_map (A B C : Type) (f : B -> C) (g : A -> list B) (l : list A) :
  flat_map (fun x => map f (g x)) l = map f (flat_map g l).
Proof.
  induction l as [|x xs IH]; cbn; [reflexivity | now rewrite map_app, IH].
Qed.

(** X6 (_createSocket, lines 382-389; onConnect, onDisconnect, onError,
    lines 317-344).  An open, error or close event of the socket calls the
    callbacks registered for that event, each once per registration and in
    the order of registration, and it calls no other callback of the
    caller (the callbacks are taken to return, and not to call the
    client). *)
Theorem socket_event_calls_its_callbacks (ev : Event) (s s' : Client) :
  match ev with SocketMessage _ _ => False | _ => True end ->
  deliver ev s = Some s' ->
  log s' = log s ++ callbacks_called ev s.
Proof.
  intros Hev Hd. destruct ev as [k ok|i|i e|i|i]; cbn [deliver callbacks_called] in *;
    try contradiction.
  - destruct (existsb (Nat.eqb k) (importing s)); [|discriminate].
    injection Hd as <-. cbn. now rewrite app_nil_r.
  - destruct (ready s i) as [[]|]; try discriminate. injection Hd as <-.
    unfold onopen.
    rewrite (handler_log _ invoke_connect
               (fun cb => match cb with
                          | UserConnectCallback f => [ObsConnectCallback f]
                          | ConnectWaiter _ => []
                          end)).
    + cbn [log set_readyState set_sockets _onConnectCallbacks]. f_equal.
      induction (_onConnectCallbacks s) as [|[w|f] rest IH]; cbn; [reflexivity|exact IH|].
      now rewrite IH.
    + intros [w|f] s1; cbn [invoke_connect]; eexists; (split; [reflexivity|]).
      * rewrite log_settle_wait. now rewrite app_nil_r.
      * reflexivity.
  - assert (Hs' : exists s0, s' = onerror s0 /\ log s0 = log s
                             /\ _onErrorCallbacks s0 = _onErrorCallbacks s).
    { destruct (ready s i) as [[]|]; try discriminate; injection Hd as <-;
        eexists; repeat split. }
    destruct Hs' as (s0 & -> & Hlog & Hcbs). unfold onerror.
    rewrite (handler_log _ invoke_error (fun f => [ObsErrorCallback f])).
    + now rewrite flat_map_single, Hlog, Hcbs.
    + intros f s1. eexists. split; reflexivity.
  - assert (Hs' : exists s0, s' = onclose s0 /\ log s0 = log s
                             /\ _onDisconnectCallbacks s0 = _onDisconnectCallbacks s).
    { destruct (ready s i) as [[]|]; try discriminate; injection Hd as <-;
        eexists; repeat split. }
    destruct Hs' as (s0 & -> & Hlog & Hcbs). unfold onclose.
    rewrite (handler_log _ invoke_disconnect (fun f => [ObsDisconnectCallback f])).
    + now rewrite flat_map_single, Hlog, Hcbs.
    + intros f s1. eexists. split; reflexivity.
Qed.

Lemma socket_event_calls_its_callbacks_witness :
  log (and_then (after [Caller [OnError 4; Connect; OnError 9; OnConnect 5; OnError 4]])
                [Env (SocketError 0)])
  = [ObsSocketCreated 6123; ObsErrorCallback 4; ObsErrorCallback 9; ObsErrorCallback 4].
Proof.
  rewrite (socket_event_calls_its_callbacks (SocketError 0)
             (after [Caller [OnError 4; Connect; OnError 9; OnConnect 5; OnError 4]])
             (and_then (after [Caller [OnError 4; Connect; OnError 9; OnConnect 5; OnError 4]])
                       [Env (SocketError 0)])).
  - vm_compute. reflexivity.
  - exact I.
  - vm_compute. reflexivity.
Defined.

Lemma invoke_message_decodable (e : MessageEvent) (cb : MessageCallback) (s : Client) :
  undecodable e = false ->
  exists s1,
    invoke_message e cb s = Normal s1
    /\ message_callbacks_run (log s1)
       = message_callbacks_run (log s)
         ++ map (fun f => (f, e)) (user_message_callbacks [cb])
    /\ console_logged (log s1)
       = console_logged (log s)
         ++ (if is_subscription_listener cb then [e] else []).
Proof.
  intros He. destruct cb as [c message|c events callback|f];
    cbn [invoke_message is_subscription_listener user_message_callbacks flat_map map app].
  - unfold reply_listener.
    destruct e as [[]|]; try discriminate; eexists; (split; [reflexivity|]);
      repeat match goal with
             | |- context [if ?b then _ else _] => destruct b
             end;
      rewrite ?log_settle_reply; cbn; rewrite ?app_nil_r; split; reflexivity.
  - unfold subscription_listener.
    destruct e as [[]|]; try discriminate; eexists; (split; [reflexivity|]);
      repeat match goal with
             | |- context [if ?b then _ else _] => destruct b
             end;
      cbn [log emit set_log];
      unfold message_callbacks_run, console_logged;
      rewrite ?flat_map_app; cbn; rewrite ?app_nil_r; split; reflexivity.
  - eexists. split; [reflexivity|]. cbn [log emit set_log].
    unfold message_callbacks_run, console_logged.
    rewrite ?flat_map_app. cbn. rewrite ?app_nil_r. split; reflexivity.
Qed.

Lemma onmessage_decodable (e : MessageEvent) :
  undecodable e = false ->
  forall l s,
    exists s',
      forEach (invoke_message e) l s = Normal s'
      /\ message_callbacks_run (log s')
         = message_callbacks_run (log s) ++ map (fun f => (f, e)) (user_message_callbacks l)
      /\ console_logged (log s')
         = console_logged (log s)
           ++ repeat e (List.length (filter is_subscription_listener l)).
Proof.
  intros He. induction l as [|cb rest IH]; intros s.
  - exists s. cbn. rewrite !app_nil_r. repeat split.
  - cbn [forEach].
    destruct (invoke_message_decodable e cb s He) as (s1 & -> & Hm & Hc).
    destruct (IH s1) as (s' & -> & Hm' & Hc'). exists s'. split; [reflexivity|].
    rewrite Hm', Hm, Hc', Hc. unfold user_message_callbacks.
    cbn [flat_map filter]. rewrite !app_nil_r, map_app, <- !app_assoc.
    split; [reflexivity|]. f_equal.
    destruct (is_subscription_listener cb); reflexivity.
Qed.





(** ** Registering and unregistering *)

Lemma nat_same_spec (a b : nat) : Nat.eqb a b = true <-> a = b.
Proof. apply Nat.eqb_eq. Qed.

Lemma user_message_same_spec (f : nat) (l : list MessageCallback) :
  ~ In f (user_message_callbacks l) ->
  Registry.occurrences MessageCallback_same (UserMessageCallback f) l = 0.
Proof.
  intros H.
  apply (RegistryFacts.occurrences_absent MessageCallback_same MessageCallback_same_spec).
  intros Hin. apply H. unfold user_message_callbacks. apply in_flat_map.
  exists (UserMessageCallback f). split; [exact Hin | now left].
Qed.

Lemma user_connect_same_spec (f : nat) (l : list ConnectCallback) :
  ~ In f (user_connect_callbacks l) ->
  Registry.occurrences ConnectCallback_same (UserConnectCallback f) l = 0.
Proof.
  intros H.
  apply (RegistryFacts.occurrences_absent ConnectCallback_same ConnectCallback_same_spec).
  intros Hin. apply H. unfold user_connect_callbacks. apply in_flat_map.
  exists (UserConnectCallback f). split; [exact Hin | now left].
Qed.

(** X9 (onMessage, onConnect, onDisconnect, onError, lines 305-344).
    Registering a callback that is not registered and then calling the
    function the registration returned restores the client: the registry
    is what it was, and nothing else has changed. *)
Theorem register_then_unlisten_restores_client (f : nat) (s : Client) :
  ~ In f (user_message_callbacks (_onMessageCallbacks s)) ->
  ~ In f (user_connect_callbacks (_onConnectCallbacks s)) ->
  ~ In f (_onDisconnectCallbacks s) ->
  ~ In f (_onErrorCallbacks s) ->
  unlisten_message (UserMessageCallback f) (onMessage f s) = s
  /\ unlisten_connect (UserConnectCallback f) (onConnect f s) = s
  /\ unlisten_disconnect f (onDisconnect f s) = s
  /\ unlisten_error f (onError f s) = s.
Proof.
  intros Hm Hc Hd He. repeat split.
  - unfold unlisten_message, onMessage, register_message.
    cbn [_onMessageCallbacks set_onMessageCallbacks].
    rewrite (RegistryFacts.unlisten_push_fresh MessageCallback_same MessageCallback_same_spec)
      by now apply user_message_same_spec.
    destruct s; reflexivity.
  - unfold unlisten_connect, onConnect, register_connect.
    cbn [_onConnectCallbacks set_onConnectCallbacks].
    rewrite (RegistryFacts.unlisten_push_fresh ConnectCallback_same ConnectCallback_same_spec)
      by now apply user_connect_same_spec.
    destruct s; reflexivity.
  - unfold unlisten_disconnect, onDisconnect, register_disconnect.
    cbn [_onDisconnectCallbacks set_onDisconnectCallbacks].
    rewrite (RegistryFacts.unlisten_push_fresh Nat.eqb nat_same_spec)
      by now apply (RegistryFacts.occurrences_absent Nat.eqb nat_same_spec).
    destruct s; reflexivity.
  - unfold unlisten_error, onError, register_error.
    cbn [_onErrorCallbacks set_onErrorCallbacks].
    rewrite (RegistryFacts.unlisten_push_fresh Nat.eqb nat_same_spec)
      by now apply (RegistryFacts.occurrences_absent Nat.eqb nat_same_spec).
    destruct s; reflexivity.
Qed.

Lemma register_then_unlisten_restores_client_witness :
  unlisten_message (UserMessageCallback 3) (onMessage 3 subscribed_client) = subscribed_client
  /\ unlisten_connect (UserConnectCallback 3) (onConnect 3 subscribed_client) = subscribed_client
  /\ unlisten_disconnect 3 (onDisconnect 3 subscribed_client) = subscribed_client
  /\ unlisten_error 3 (onError 3 subscribed_client) = subscribed_client.
Proof.
  apply (register_then_unlisten_restores_client 3 subscribed_client);
    vm_compute; intros H; exact H.
Defined.

(* ================================================================== *)
(** * Commands and tasks *)
(* ================================================================== *)

Lemma append_nil_r (a : string) : (a ++ EmptyString)%string = a.
Proof. induction a as [|c a IH]; cbn; [reflexivity | now rewrite IH]. Qed.

Lemma append_assoc (a b c : string) : ((a ++ b) ++ c)%string = (a ++ (b ++ c))%string.
Proof. induction a as [|x a IH]; cbn; [reflexivity | now rewrite IH]. Qed.

Lemma add_param_append (side : string) (value : option string) (command : string) :
  add_param side value command
  = (command ++ add_param side value EmptyString)%string.
Proof.
  destruct value as [[|c v]|]; cbn [add_param]; try (now rewrite append_nil_r).
  reflexivity.
Qed.

(** X10 (adjustBorders, lines 145-156).  The parameters of [adjustBorders]
    are the sides that are given and not the empty string, as
    [ --<side> <value>] each, always in the order top, right, bottom,
    left; a side given as the empty string is left out like an absent one,
    and with no side left the parameters are empty (the command is then
    [adjust-borders] followed by one space). *)
Theorem makeParamsIfAny_lists_given_sides (options : Borders.Options) :
  makeParamsIfAny options
  = String.concat EmptyString
      (map (fun p => (" --" ++ fst p ++ " " ++ snd p)%string) (given_sides options))
  /\ (makeParamsIfAny options = EmptyString <-> given_sides options = []).
Proof.
  assert (Hchar : makeParamsIfAny options
                  = String.concat EmptyString
                      (map (fun p => (" --" ++ fst p ++ " " ++ snd p)%string)
                           (given_sides options))).
  { unfold makeParamsIfAny, given_sides. destruct options as [t r b l].
    cbn [Borders.top Borders.right Borders.bottom Borders.left flat_map snd fst].
    rewrite (add_param_append "left"), (add_param_append "bottom"),
      (add_param_append "right").
    destruct t as [[|c1 t]|], r as [[|c2 r]|], b as [[|c3 b]|], l as [[|c4 l]|];
      cbn [add_param app map String.concat fst snd];
      rewrite ?append_nil_r, ?append_assoc; cbn [append]; rewrite ?append_assoc;
      reflexivity. }
  split; [exact Hchar|]. rewrite Hchar. unfold given_sides.
  destruct options as [t r b l].
  cbn [Borders.top Borders.right Borders.bottom Borders.left flat_map snd fst].
  destruct t as [[|c1 t]|], r as [[|c2 r]|], b as [[|c3 b]|], l as [[|c4 l]|];
    cbn; split; intros H; try reflexivity; discriminate.
Qed.

(** X11 (the async functions of the client, lines 68-97, 191-225, 263-295,
    362-404).  No call and no event of the socket starts an endless chain
    of microtasks: the microtasks a task causes are run to the end within
    a bound computed from the suspended continuations, and when the task
    is over the microtask queue is empty. *)
Theorem task_leaves_no_microtask (t : Task) (s s' : Client) :
  perform t s = Some s' -> microtasks s' = [].
Proof.
  destruct t as [ops|ev]; cbn [perform]; unfold calls, task; intros H.
  - destruct (run s (map Call ops)) as [s1|]; [|discriminate].
    injection H as <-. apply drain_quiescent.
  - destruct (step s (Env ev)) as [s1|]; [|discriminate].
    injection H as <-. apply drain_quiescent.
Qed.

Lemma task_leaves_no_microtask_witness :
  microtasks (after [Caller [SubscribeMany ["a"] 7; RunCommand "close" None]]) = [].
Proof.
  apply (task_leaves_no_microtask
           (Caller [SubscribeMany ["a"] 7; RunCommand "close" None])
           (new_client None true)).
  vm_compute. reflexivity.
Defined.

(* ================================================================== *)
(** * The connection *)
(* ================================================================== *)

(** X12 (connect, lines 215-225; _createSocket, lines 362-392;
    closeConnection, lines 230-232).  A client constructs at most one
    socket in its life: whatever the caller calls ([connect], the send
    operations, [closeConnection]), in whatever order, and whatever the
    socket and the import of [ws] do, [new WebSocketApi] is run at most
    once. *)
Theorem at_most_one_socket
        (options : option N) (api : bool) (ls : list Label) (s : Client) :
  run (new_client options api) ls = Some s ->
  List.length (sockets s) <= 1.
Proof.
  intros Hrun.
  destruct (single_socket_run ls _ s (single_socket_new options api) Hrun) as [Hb _].
  unfold createSocket_calls in Hb. destruct (_createSocketPromise s); lia.
Qed.

Lemma at_most_one_socket_witness :
  List.length
    (sockets (and_then (new_client None true)
                [Call Connect; Call (SendQuery "monitors"); Tick; Tick; Tick;
                 Env (SocketOpen 0); Tick; Tick; Tick; Tick; Tick;
                 Call CloseConnection; Env (SocketClose 0);
                 Call Connect; Call (SendQuery "windows")])) <= 1.
Proof.
  apply (at_most_one_socket None true
           [Call Connect; Call (SendQuery "monitors"); Tick; Tick; Tick;
            Env (SocketOpen 0); Tick; Tick; Tick; Tick; Tick;
            Call CloseConnection; Env (SocketClose 0);
            Call Connect; Call (SendQuery "windows")]).
  vm_compute. reflexivity.
Defined.

(** X13 (constructor, line 61; DEFAULT_PORT, line 44; _createSocket, lines
    375-377).  Every socket the client constructs is for the port given in
    the options, whatever its value (also [0]), and for port 6123 when the
    options give none. *)
Theorem socket_uses_configured_port
        (options : option N) (api : bool) (ls : list Label) (s : Client) (ws : WebSocket) :
  run (new_client options api) ls = Some s ->
  In ws (sockets s) ->
  ws_port ws = match options with Some p => p | None => 6123%N end.
Proof.
  intros Hrun Hin.
  destruct (single_socket_run ls _ s (single_socket_new options api) Hrun) as [_ Hp].
  rewrite Forall_forall in Hp. rewrite (Hp ws Hin).
  assert (Hport : forall ls s0 s1, run s0 ls = Some s1 -> single_socket s0 ->
                                   configured_port s1 = configured_port s0).
  { clear. induction ls as [|lab ls IH]; intros s0 s1 Hrun Hs0; cbn [run] in Hrun.
    - now injection Hrun as <-.
    - destruct (step s0 lab) as [s2|] eqn:Hstep; [|discriminate].
      rewrite (IH s2 s1 Hrun (single_socket_step lab s0 s2 Hs0 Hstep)).
      unfold configured_port. f_equal.
      destruct lab as [op| |ev]; cbn [step] in Hstep.
      + now destruct (sockets_call op s0 s2 Hstep) as [-> _].
      + destruct (queue_tick s0 s2 Hstep) as (j & q & added & Hq & -> & _).
        destruct (is_create j) eqn:Hj.
        * destruct j as [k o|k a|k m o|k o]; try discriminate.
          cbn [run_job]. now rewrite port__createSocket_resume.
        * now destruct (run_job_no_socket j (set_microtasks q s0) Hj) as [-> _].
      + destruct (microtasks s0); [|discriminate].
        destruct ev as [k ok|i|i e|i|i]; cbn [deliver] in Hstep.
        * destruct (existsb (Nat.eqb k) (importing s0)); [|discriminate].
          now injection Hstep as <-.
        * destruct (ready s0 i) as [[]|]; try discriminate. injection Hstep as <-.
          now rewrite port_onopen.
        * destruct (ready s0 i) as [[]|]; try discriminate; injection Hstep as <-;
            now rewrite port_onmessage.
        * destruct (ready s0 i) as [[]|]; try discriminate; injection Hstep as <-;
            now rewrite port_onerror.
        * destruct (ready s0 i) as [[]|]; try discriminate; injection Hstep as <-;
            now rewrite port_onclose. }
  rewrite (Hport ls _ s Hrun (single_socket_new options api)). reflexivity.
Qed.

Lemma socket_uses_configured_port_witness :
  ws_port (mkWebSocket 0 OPEN ["query monitors"]) = 0%N.
Proof.
  apply (socket_uses_configured_port (Some 0%N) false
           [Call (SendQuery "monitors"); Env (ImportSettled 0 true); Tick; Tick;
            Env (SocketOpen 0); Tick; Tick; Tick]
           (and_then (new_client (Some 0%N) false)
              [Call (SendQuery "monitors"); Env (ImportSettled 0 true); Tick; Tick;
               Env (SocketOpen 0); Tick; Tick; Tick])).
  - vm_compute. reflexivity.
  - vm_compute. left. reflexivity.
Defined.

(** X14 (connect, lines 215-225; _waitForConnection, lines 394-397).  On a
    client whose socket is open, [connect()] is fulfilled within the task
    of the call: no socket is constructed, no listener is left in the
    registry of [onConnect], and nothing is called or logged. *)
Theorem connect_on_open_connection (i : nat) (s : Client) :
  _socket s = Some i -> ready s i = Some OPEN -> microtasks s = [] ->
  exists s',
    calls [Connect] s = Some s'
    /\ promise s' ConnectM (next_call ConnectM s) = Some (Settled (Fulfilled VUndefined))
    /\ sockets s' = sockets s
    /\ _onConnectCallbacks s' = _onConnectCallbacks s
    /\ log s' = log s.
Proof.
  intros Hs Hr Hq. unfold calls. cbn [map run step call]. cbn [option_map].
  eexists. split; [reflexivity|].
  rewrite (connect_open_eq i s Hs Hr).
  set (c := next_call ConnectM s). set (w := next_call WaitM s).
  set (s1 := await WaitM w _ _).
  assert (Hq1 : microtasks s1 = [JAwaited (KConnectOpened c) (Fulfilled (VSocket (Some i)))]).
  { unfold s1. observe. rewrite Hq. unfold w. rewrite waiting_fresh by lia. reflexivity. }
  rewrite (drain_job _ _ s1 Hq1). cbn [run_job resume pass].
  set (s2 := settle ConnectM c _ _).
  assert (Hq2 : microtasks s2 = []).
  { unfold s2, s1. observe. unfold c. rewrite waiting_fresh by lia. reflexivity. }
  rewrite (drain_done s2 Hq2). unfold s2, s1. observe.
  repeat split; reflexivity.
Qed.

Lemma connect_on_open_connection_witness :
  exists s',
    calls [Connect] subscribed_client = Some s'
    /\ promise s' ConnectM 1 = Some (Settled (Fulfilled VUndefined))
    /\ sockets s' = sockets subscribed_client
    /\ _onConnectCallbacks s' = _onConnectCallbacks subscribed_client
    /\ log s' = log subscribed_client.
Proof.
  apply (connect_on_open_connection 0 subscribed_client); vm_compute; reflexivity.
Defined.

(** X15 (connect, lines 216-221; _createSocket, lines 365-373).  A failed
    creation of the socket is not tried again: once the promise kept in
    [_createSocketPromise] is rejected (the import of [ws] failed), every
    later [connect()] is rejected with the same error within the task of
    the call; it starts no import and constructs no socket. *)
Theorem failed_creation_is_not_retried (k : nat) (r : Reason) (s : Client) :
  _socket s = None ->
  _createSocketPromise s = Some k ->
  promise s CreateSocketM k = Some (Settled (Rejected r)) ->
  microtasks s = [] ->
  exists s',
    calls [Connect] s = Some s'
    /\ promise s' ConnectM (next_call ConnectM s) = Some (Settled (Rejected r))
    /\ sockets s' = sockets s
    /\ importing s' = importing s
    /\ _createSocketPromise s' = Some k.
Proof.
  intros Hs Hk Hp Hq. unfold calls. cbn [map run step call]. cbn [option_map].
  eexists. split; [reflexivity|].
  assert (Hc : connect s
               = await CreateSocketM k (KConnectGotSocket (next_call ConnectM s))
                   (alloc ConnectM s)).
  { unfold connect. cbv zeta.
    change (_socket (alloc ConnectM s)) with (_socket s).
    change (_createSocketPromise (alloc ConnectM s)) with (_createSocketPromise s).
    now rewrite Hs, Hk. }
  rewrite Hc. set (c := next_call ConnectM s).
  set (s1 := await CreateSocketM k _ _).
  assert (Hq1 : microtasks s1 = [JAwaited (KConnectGotSocket c) (Rejected r)]).
  { unfold s1. observe. now rewrite Hq, Hp. }
  rewrite (drain_job _ _ s1 Hq1). cbn [run_job resume].
  set (s2 := settle ConnectM c _ _).
  assert (Hq2 : microtasks s2 = []).
  { unfold s2, s1. observe. unfold c. rewrite waiting_fresh by lia. reflexivity. }
  rewrite (drain_done s2 Hq2). unfold s2, s1. observe.
  repeat split; try reflexivity. exact Hk.
Qed.

Lemma failed_creation_is_not_retried_witness :
  exists s',
    calls [Connect]
          (after_without_api [Caller [Connect]; Environment (ImportSettled 0 false)])
    = Some s'
    /\ promise s' ConnectM 1 = Some (Settled (Rejected (ThrownError ws_missing)))
    /\ sockets s' = []
    /\ importing s' = []
    /\ _createSocketPromise s' = Some 0.
Proof.
  apply (failed_creation_is_not_retried 0 (ThrownError ws_missing)
           (after_without_api [Caller [Connect]; Environment (ImportSettled 0 false)]));
    vm_compute; reflexivity.
Defined.

(* ================================================================== *)
(** * The send operations on an open connection *)
(* ================================================================== *)

Lemma fresh_request_facts (s : Client) (h : Cont -> nat) :
  fresh_requests s ->
  reply_listeners (next_call ReplyM s) (_onMessageCallbacks s) = []
  /\ pending (resends (next_call ReplyM s)) s = 0.
Proof. intros H. destruct (H (next_call ReplyM s) (Nat.le_refl _)) as (Hl & Hz & _). now split. Qed.

(** X16 (sendAndWaitReply, lines 72-76; sendQuery, lines 101-103;
    runCommand, lines 191-208; subscribe and subscribeMany, lines 245-269).
    On a client whose socket is open, a send operation transmits its text
    within the task of the call: the text ([query <query>],
    [command <command>], [command "<command>" -c <id>],
    [subscribe -e <events joined by commas>]) is handed to [send] once,
    after the texts sent before; the request is then outstanding, its
    listener registered after the listeners that were there; and nothing is
    called or logged. *)
Theorem send_operation_transmits_its_text
        (options : option N) (api : bool) (ls : list Label) (s : Client)
        (i : nat) (ws : WebSocket) (op : Op) (message : string) :
  run (new_client options api) ls = Some s ->
  microtasks s = [] ->
  _socket s = Some i ->
  nth_error (sockets s) i = Some ws ->
  readyState ws = OPEN ->
  request_text op = Some message ->
  exists s',
    calls [op] s = Some s'
    /\ sockets s' = update_nth i (fun _ => transmit message ws) (sockets s)
    /\ outstanding (next_call ReplyM s) message s'
    /\ _onMessageCallbacks s'
       = _onMessageCallbacks s ++ [ReplyListener (next_call ReplyM s) message]
    /\ log s' = log s.
Proof.
  intros Hrun Hq Hs Hws Hopen Htext.
  pose proof (fresh_requests_run ls _ s (fresh_requests_new options api) Hrun) as Hfresh.
  destruct (fresh_request_facts s (resends (next_call ReplyM s)) Hfresh) as [Hl Hz].
  pose proof (ready_open s i ws Hws Hopen) as Hr.
  set (n := next_call ReplyM s) in *. set (c := next_call ConnectM s).
  assert (Hcore : forall s1,
             microtasks s1 = [JAwaited (KConnectOpened c) (Fulfilled (VSocket (Some i)))] ->
             promise s1 ConnectM c = Some Pending ->
             waiting s1 ConnectM c = [KSendConnected n message] ->
             promise s1 ReplyM n = Some Pending ->
             inner_promise s1 ReplyM n = Some Pending ->
             _socket s1 = Some i -> sockets s1 = sockets s ->
             _onMessageCallbacks s1 = _onMessageCallbacks s -> log s1 = log s ->
             pending (resends n) s1 <= 1 ->
             sockets (drain s1) = update_nth i (fun _ => transmit message ws) (sockets s)
             /\ outstanding n message (drain s1)
             /\ _onMessageCallbacks (drain s1)
                = _onMessageCallbacks s ++ [ReplyListener n message]
             /\ log (drain s1) = log s).
  { intros s1 Hq1 Hp Hw Hpr Hin Hs1 Hsock Hmsgs Hlog Hpend.
    rewrite <- Hsock in Hws. rewrite <- Hmsgs in Hl.
    destruct (sending_result n c i message _ ws s1 Hq1 Hp Hw Hs1 Hws Hopen Hpr Hin Hl Hpend)
      as (Hout & Hsk & Hlg & Hms & _).
    rewrite Hsk, Hlg, Hms, Hsock, Hmsgs, Hlog.
    split; [reflexivity|]. split; [exact Hout|]. split; reflexivity. }
  unfold calls. cbn [map run step].
  destruct op as [ | | |msg|query|command ctx|event callback|events callback
                  |sub|f|f|f|f|f|f|f|f]; cbn [request_text] in Htext; try discriminate;
    injection Htext as Htext; subst message; cbn [call option_map]; eexists;
    (split; [reflexivity|]).
  - destruct (sendAndWaitReply_open i msg s Hs Hr Hq) as (H1 & H2 & H3 & H4 & H5 & _).
    pose proof (pending_sendAndWaitReply (resends n) msg s) as Hb.
    cbn [resends] in Hb. fold n in Hb. rewrite Nat.eqb_refl in Hb.
    apply Hcore; try assumption; try lia;
      rewrite ?socket_sendAndWaitReply, ?sockets_sendAndWaitReply,
        ?messages_sendAndWaitReply, ?log_sendAndWaitReply; try reflexivity; assumption.
  - unfold sendQuery.
    destruct (sendAndWaitReply_open i ("query " ++ query) s Hs Hr Hq)
      as (H1 & H2 & H3 & H4 & H5 & _).
    pose proof (pending_sendAndWaitReply (resends n) ("query " ++ query) s) as Hb.
    cbn [resends] in Hb. fold n in Hb. rewrite Nat.eqb_refl in Hb.
    apply Hcore; try assumption; try lia;
      rewrite ?socket_sendAndWaitReply, ?sockets_sendAndWaitReply,
        ?messages_sendAndWaitReply, ?log_sendAndWaitReply; try reflexivity; assumption.
  - pose proof (pending_runCommand (resends n) command ctx s) as Hb.
    cbn [resends] in Hb. fold n in Hb. rewrite Nat.eqb_refl in Hb.
    pose proof (socket_runCommand command ctx s) as F1.
    pose proof (sockets_runCommand command ctx s) as F2.
    pose proof (messages_runCommand command ctx s) as F3.
    pose proof (log_runCommand command ctx s) as F4.
    unfold runCommand in *. cbv zeta in *.
    destruct (sendAndWaitReply_open i (command_text command ctx) (alloc CommandM s) Hs Hr Hq)
      as (H1 & H2 & H3 & H4 & H5 & _).
    change (next_call ConnectM (alloc CommandM s)) with c in *.
    change (next_call ReplyM (alloc CommandM s)) with n in *.
    apply Hcore; try assumption; try lia; observe; rewrite ?H4, ?app_nil_r;
      try reflexivity; assumption.
  - pose proof (pending_subscribeMany (resends n) [event] callback s) as Hb.
    cbn [resends] in Hb. fold n in Hb. rewrite Nat.eqb_refl in Hb.
    pose proof (socket_subscribeMany [event] callback s) as F1.
    pose proof (sockets_subscribeMany [event] callback s) as F2.
    pose proof (messages_subscribeMany [event] callback s) as F3.
    pose proof (log_subscribeMany [event] callback s) as F4.
    unfold subscribeMany in *. cbv zeta in *.
    destruct (sendAndWaitReply_open i (subscribe_text [event]) (alloc SubscribeM s) Hs Hr Hq)
      as (H1 & H2 & H3 & H4 & H5 & _).
    change (next_call ConnectM (alloc SubscribeM s)) with c in *.
    change (next_call ReplyM (alloc SubscribeM s)) with n in *.
    apply Hcore; try assumption; try lia; observe; rewrite ?H4, ?app_nil_r;
      try reflexivity; assumption.
  - pose proof (pending_subscribeMany (resends n) events callback s) as Hb.
    cbn [resends] in Hb. fold n in Hb. rewrite Nat.eqb_refl in Hb.
    pose proof (socket_subscribeMany events callback s) as F1.
    pose proof (sockets_subscribeMany events callback s) as F2.
    pose proof (messages_subscribeMany events callback s) as F3.
    pose proof (log_subscribeMany events callback s) as F4.
    unfold subscribeMany in *. cbv zeta in *.
    destruct (sendAndWaitReply_open i (subscribe_text events) (alloc SubscribeM s) Hs Hr Hq)
      as (H1 & H2 & H3 & H4 & H5 & _).
    change (next_call ConnectM (alloc SubscribeM s)) with c in *.
    change (next_call ReplyM (alloc SubscribeM s)) with n in *.
    apply Hcore; try assumption; try lia; observe; rewrite ?H4, ?app_nil_r;
      try reflexivity; assumption.
Qed.

Lemma send_operation_transmits_its_text_witness :
  exists s',
    calls [RunCommand "close" None] connected_client = Some s'
    /\ sockets s'
       = update_nth 0 (fun _ => transmit "command close" (mkWebSocket 6123 OPEN []))
                    (sockets connected_client)
    /\ outstanding (next_call ReplyM connected_client) "command close" s'
    /\ _onMessageCallbacks s'
       = _onMessageCallbacks connected_client
         ++ [ReplyListener (next_call ReplyM connected_client) "command close"]
    /\ log s' = log connected_client.
Proof.
  apply (send_operation_transmits_its_text None true
           [Call Connect; Tick; Tick; Env (SocketOpen 0); Tick; Tick]
           connected_client 0 (mkWebSocket 6123 OPEN []) (RunCommand "close" None)
           "command close"); vm_compute; reflexivity.
Defined.
(* ================================================================== *)
(** * What the async functions make of the reply *)
(* ================================================================== *)

Lemma reachable_fresh (options : option N) (api : bool) (ls : list Label) (s : Client) :
  run (new_client options api) ls = Some s ->
  reply_listeners (next_call ReplyM s) (_onMessageCallbacks s) = []
  /\ pending (resends (next_call ReplyM s)) s = 0
  /\ fresh_conts s
  /\ fresh_subscriptions s.
Proof.
  intros Hrun.
  pose proof (fresh_requests_run ls _ s (fresh_requests_new options api) Hrun) as Hfresh.
  destruct (Hfresh (next_call ReplyM s) (Nat.le_refl _)) as (Hl & Hz & _).
  split; [exact Hl|]. split; [exact Hz|]. split.
  - exact (fresh_conts_run ls _ s (fresh_conts_new options api) Hrun).
  - exact (fresh_subscriptions_run ls _ s (fresh_conts_new options api)
             (fresh_subscriptions_new options api) Hrun).
Qed.

Lemma frame_True (m : Method) (c : nat) (s0 : Client) (j : Job) (q : list Job) :
  True -> microtasks s0 = j :: q -> awaited (owned m c) j = 0 -> True.
Proof. intros; exact I. Qed.





Lemma unlistenFn_request (n : nat) (events : list string) (callback : nat) (d : Json)
      (s : Client) :
  d <> JNull ->
  unlistenFn n events callback (Some d) s
  = await ReplyM (next_call ReplyM s) (KUnlistenReplied (next_call UnlistenM s))
      (sendAndWaitReply ("unsubscribe " ++ template (prop d "subscriptionId"))
         (unlisten_message (SubscriptionListener n events callback) (alloc UnlistenM s))).
Proof. intros Hd. destruct d; try reflexivity. now contradiction Hd. Qed.


(* ================================================================== *)
(** * Connecting *)
(* ================================================================== *)

Lemma calls_connect (s s1 : Client) :
  calls [Connect] s = Some s1 -> s1 = drain (connect s).
Proof. unfold calls. cbn [map run step call option_map]. congruence. Qed.





(** X22 (closeConnection, lines 230-232; connect, lines 215-225;
    _waitForConnection, lines 394-404).  [closeConnection()] keeps the
    closed socket in [_socket]: a [connect()] called after it waits for an
    open event of that socket, which cannot come, so its promise stays
    pending for ever - whatever the caller and the socket do, no open event
    is delivered, and the promise is neither fulfilled nor rejected. *)
Theorem connect_after_close_stays_pending
        (options : option N) (api : bool) (ls : list Label) (s : Client)
        (i : nat) (r : ReadyState) (s1 : Client) (ls' : list Label) (s2 : Client) :
  run (new_client options api) ls = Some s ->
  microtasks s = [] ->
  _socket s = Some i ->
  ready s i = Some r ->
  calls [CloseConnection; Connect] s = Some s1 ->
  run s1 ls' = Some s2 ->
  existsb opens ls' = false
  /\ promise s2 ConnectM (next_call ConnectM s) = Some Pending.
Proof.
  intros Hrun Hq Hs Hr Hcall Hrun'.
  destruct (reachable_fresh options api ls s Hrun) as (_ & _ & Hfresh & _).
  pose proof (Hfresh ConnectM (next_call ConnectM s) eq_refl (Nat.le_refl _)) as Hz.
  pose proof (single_socket_run ls _ s (single_socket_new options api) Hrun) as Hsingle.
  assert (Hs1 : s1 = drain (connect (closeConnection s))).
  { unfold calls in Hcall. cbn [map run step call option_map] in Hcall. congruence. }
  set (sc := closeConnection s) in *.
  assert (Hsingle_c : single_socket sc)
    by (apply (single_socket_call CloseConnection s sc Hsingle); reflexivity).
  assert (Hsc : sc = set_sockets (update_nth i ws_close (sockets s)) s)
    by (unfold sc, closeConnection; now rewrite Hs).
  clearbody sc. subst sc.
  set (sc := set_sockets (update_nth i ws_close (sockets s)) s) in *.
  unfold ready in Hr. destruct (nth_error (sockets s) i) as [ws|] eqn:Hws; [|discriminate].
  assert (Hnth : nth_error (sockets sc) i = Some (ws_close ws)).
  { unfold sc. cbn [set_sockets sockets]. now rewrite nth_error_update_nth_eq, Hws. }
  assert (Hclosed : forall ws0, readyState (ws_close ws0) <> CONNECTING
                                /\ readyState (ws_close ws0) <> OPEN).
  { intros ws0. unfold ws_close. destruct (readyState ws0) eqn:E; cbn; split; congruence. }
  assert (Hnever : never_opens sc).
  { split.
    - intros Hnil. rewrite Hnil in Hnth. destruct i; discriminate.
    - unfold sc. cbn [set_sockets sockets].
      destruct Hsingle as [Hb _]. unfold createSocket_calls in Hb.
      destruct (sockets s) as [|ws0 [|ws1 l]] eqn:Hl.
      + destruct i; discriminate.
      + destruct i as [|i]; [|destruct i; discriminate].
        cbn [update_nth]. constructor; [apply Hclosed | constructor].
      + cbn [List.length] in Hb. destruct (_createSocketPromise s); lia. }
  assert (Hcon : connecting (next_call ConnectM s) (next_call WaitM s) (drain (connect sc))).
  { apply (connect_waits i sc).
    - exact Hs.
    - apply socket_is_open_not. intros i' Hi'.
      assert (H1 : _socket sc = Some i) by exact Hs.
      rewrite H1 in Hi'. injection Hi' as <-. unfold ready. rewrite Hnth. cbn [option_map].
      intros H. injection H as H. now apply (proj2 (Hclosed ws)).
    - exact Hq.
    - exact Hz. }
  destruct (never_opens_drain (connect sc)) as [Hnever1 Hsingle1].
  { apply (single_socket_call Connect sc (connect sc) Hsingle_c). reflexivity. }
  { destruct (never_opens_step (Call Connect) sc (connect sc) Hsingle_c Hnever eq_refl)
      as [H _]. exact H. }
  rewrite Hs1 in Hrun'.
  destruct (never_opens_run ls' _ s2 Hsingle1 Hnever1 Hrun') as (_ & _ & Hls).
  split; [exact Hls|].
  destruct (connecting_run _ _ ls' _ s2 Hcon Hrun' Hls) as [_ (_ & _ & _ & Hres)].
  exact Hres.
Qed.

Lemma connect_after_close_stays_pending_witness :
  existsb opens [Env (SocketClose 0); Call (OnConnect 3); Call Connect] = false
  /\ promise (and_then connected_client
                [Call CloseConnection; Call Connect;
                 Env (SocketClose 0); Call (OnConnect 3); Call Connect])
             ConnectM 1 = Some Pending.
Proof.
  apply (connect_after_close_stays_pending None true
           [Call Connect; Tick; Tick; Env (SocketOpen 0); Tick; Tick]
           connected_client 0 OPEN
           (and_then connected_client [Call CloseConnection; Call Connect])
           [Env (SocketClose 0); Call (OnConnect 3); Call Connect]
           (and_then connected_client
              [Call CloseConnection; Call Connect;
               Env (SocketClose 0); Call (OnConnect 3); Call Connect]));
    vm_compute; reflexivity.
Defined.
(* ================================================================== *)
(** * Without a global [WebSocket]: the import of [ws] *)
(* ================================================================== *)

(** X23 (connect, lines 215-225; _createSocket, lines 362-373).  In an
    environment without [globalThis.WebSocket], until the import of [ws]
    settles the client has no socket and every call of [connect] -
    explicit, or made by a send operation - is pending on the one creation
    of the socket; if the import fails, each of them is rejected, within
    the task of the failure, with the error
    [The dependency 'ws' is required ...]. *)
Theorem failed_import_rejects_every_connect
        (options : option N) (ls : list Label) (s : Client) (k : nat) (s' : Client)
        (c : nat) :
  run (new_client options false) ls = Some s ->
  existsb imports ls = false ->
  task (ImportSettled k false) s = Some s' ->
  c < next_call ConnectM s ->
  _socket s = None
  /\ promise s ConnectM c = Some Pending
  /\ promise s' ConnectM c = Some (Settled (Rejected (ThrownError ws_missing))).
Proof.
  intros Hrun Hls Htask Hc.
  pose proof (importing_ws_run options ls s Hrun Hls) as [Hs Hm].
  pose proof (single_socket_run ls _ s (single_socket_new options false) Hrun) as Hsingle.
  pose proof (task_import k false s s' Htask) as Hk.
  split; [exact Hs|].
  destruct (_createSocketPromise s) as [k'|]; [|lia].
  destruct Hm as (Hk' & _ & Hall).
  rewrite <- (importing_unique s k k' Hsingle Hk Hk') in Hall.
  split.
  - destruct (Hall c Hc) as (_ & _ & _ & Hres). exact Hres.
  - apply (import_failure_rejects c k s s'); try assumption. now apply Hall.
Qed.

Lemma failed_import_rejects_every_connect_witness :
  _socket (and_then (new_client None false)
             [Call Connect; Call (SendQuery "monitors"); Call (OnError 2)]) = None
  /\ promise (and_then (new_client None false)
                [Call Connect; Call (SendQuery "monitors"); Call (OnError 2)])
             ConnectM 1 = Some Pending
  /\ promise (and_then (new_client None false)
                [Call Connect; Call (SendQuery "monitors"); Call (OnError 2);
                 Env (ImportSettled 0 false); Tick; Tick; Tick; Tick])
             ConnectM 1
     = Some (Settled (Rejected (ThrownError ws_missing))).
Proof.
  apply (failed_import_rejects_every_connect None
           [Call Connect; Call (SendQuery "monitors"); Call (OnError 2)]
           (and_then (new_client None false)
              [Call Connect; Call (SendQuery "monitors"); Call (OnError 2)])
           0
           (and_then (new_client None false)
              [Call Connect; Call (SendQuery "monitors"); Call (OnError 2);
               Env (ImportSettled 0 false); Tick; Tick; Tick; Tick])
           1); vm_compute; try reflexivity; lia.
Defined.
(* ================================================================== *)
(** * A request made while the import of [ws] is awaited *)
(* ================================================================== *)

(** X24 (sendAndWaitReply, lines 68-97; connect, lines 215-225;
    _createSocket, lines 362-373; sendQuery, runCommand, subscribe and
    subscribeMany).  In an environment without [globalThis.WebSocket], a
    send operation made before the import of [ws] has settled is lost if the
    import fails: [await this.connect()] throws inside the executor of the
    request, whose promise nobody observes, so the failure is reported as
    an unhandled rejection and the promise [sendAndWaitReply] returned is
    never settled - whatever the caller and the environment do afterwards
    it stays pending, without a listener; and the operation that awaits it
    ([runCommand], [subscribe], [subscribeMany]) stays suspended, its own
    promise pending.  The caller is never told that the connection
    failed. *)
Theorem request_is_never_settled_when_the_import_fails
        (options : option N) (ls : list Label) (s : Client) (op : Op) (message : string)
        (ls1 : list Label) (s2 : Client) (k : nat) (s3 : Client)
        (ls3 : list Label) (s4 : Client) :
  run (new_client options false) ls = Some s ->
  existsb imports ls = false ->
  request_text op = Some message ->
  run s (Call op :: ls1) = Some s2 ->
  existsb imports ls1 = false ->
  task (ImportSettled k false) s2 = Some s3 ->
  run s3 ls3 = Some s4 ->
  In (ObsUnhandledRejection (ThrownError ws_missing)) (log s3)
  /\ promise s4 ReplyM (next_call ReplyM s) = Some Pending
  /\ reply_listeners (next_call ReplyM s) (_onMessageCallbacks s4) = []
  /\ match request_cont op s with
     | Some K => suspended K ReplyM (next_call ReplyM s) s4 /\ result_of K s4 = Some Pending
     | None => True
     end.
Proof.
  intros Hrun Hls Htext Hrun1 Hls1 Htask Hrun3.
  cbn [run] in Hrun1. destruct (step s (Call op)) as [s1|] eqn:Hstep; [|discriminate].
  set (n := next_call ReplyM s). set (c := next_call ConnectM s).
  pose proof (fresh_requests_run ls _ s (fresh_requests_new options false) Hrun) as Hreq.
  pose proof (fresh_conts_run ls _ s (fresh_conts_new options false) Hrun) as Hconts.
  pose proof (request_cont_owner op s) as Hk.
  destruct (request_queued op message s s1 Hreq Hconts Htext Hstep) as [Hq Hw].
  fold n c in Hq, Hw.
  assert (Hrun01 : run (new_client options false) (ls ++ [Call op]) = Some s1).
  { rewrite (run_app ls [Call op] _ s Hrun). cbn [run]. now rewrite Hstep. }
  assert (Hls01 : existsb imports (ls ++ [Call op]) = false)
    by (apply existsb_app_false; [exact Hls | reflexivity]).
  assert (Hc1 : c < next_call ConnectM s1).
  { destruct Hq as [_ (_ & Hp & _)]. apply promise_defined. congruence. }
  destruct (queued_importing_run options (request_cont op s) c n message Hk
              ls1 (ls ++ [Call op]) s1 s2 Hrun01 Hls01 Hc1 Hq Hw Hrun1 Hls1)
    as (Hq2 & Hw2 & Hc2).
  assert (Hrun02 : run (new_client options false) ((ls ++ [Call op]) ++ ls1) = Some s2)
    by (now rewrite (run_app (ls ++ [Call op]) ls1 _ s1 Hrun01)).
  assert (Hls02 : existsb imports ((ls ++ [Call op]) ++ ls1) = false)
    by (now apply existsb_app_false).
  pose proof (importing_ws_run options _ s2 Hrun02 Hls02) as [_ Hm].
  pose proof (single_socket_run _ _ s2 (single_socket_new options false) Hrun02) as Hsingle.
  pose proof (task_import k false s2 s3 Htask) as Hin.
  destruct (_createSocketPromise s2) as [k'|]; [|lia].
  destruct Hm as (Hk' & _ & Hall).
  rewrite <- (importing_unique s2 k k' Hsingle Hin Hk') in Hall.
  destruct (import_failure_abandons (request_cont op s) c n k message s2 s3 Hk
              (Hall c Hc2) Hq2 Hw2 Htask) as (Ha3 & Hlog & Hw3).
  destruct (abandoned_run (request_cont op s) n Hk ls3 s3 s4 Ha3 Hw3 Hrun3) as [Ha4 Hw4].
  destruct Ha4 as [(Hl4 & _ & Hp4 & _) _].
  split; [exact Hlog|]. split; [exact Hp4|]. split; [exact Hl4|].
  destruct (request_cont op s) as [K|]; [|exact I].
  cbn [caller_waits] in Hw4. split; [exact Hw4|]. now destruct Hw4 as (_ & _ & _ & Hr).
Qed.

Lemma request_is_never_settled_when_the_import_fails_witness :
  In (ObsUnhandledRejection (ThrownError ws_missing))
     (log (and_then (new_client None false)
             [Call (OnError 1); Call (RunCommand "close" None); Call Connect;
              Env (ImportSettled 0 false); Tick; Tick; Tick; Tick]))
  /\ promise (and_then (new_client None false)
                [Call (OnError 1); Call (RunCommand "close" None); Call Connect;
                 Env (ImportSettled 0 false); Tick; Tick; Tick; Tick;
                 Call (SendQuery "monitors"); Tick; Tick])
             ReplyM 0 = Some Pending
  /\ reply_listeners 0
       (_onMessageCallbacks
          (and_then (new_client None false)
             [Call (OnError 1); Call (RunCommand "close" None); Call Connect;
              Env (ImportSettled 0 false); Tick; Tick; Tick; Tick;
              Call (SendQuery "monitors"); Tick; Tick])) = []
  /\ suspended (KCommandReplied 0) ReplyM 0
       (and_then (new_client None false)
          [Call (OnError 1); Call (RunCommand "close" None); Call Connect;
           Env (ImportSettled 0 false); Tick; Tick; Tick; Tick;
           Call (SendQuery "monitors"); Tick; Tick])
  /\ result_of (KCommandReplied 0)
       (and_then (new_client None false)
          [Call (OnError 1); Call (RunCommand "close" None); Call Connect;
           Env (ImportSettled 0 false); Tick; Tick; Tick; Tick;
           Call (SendQuery "monitors"); Tick; Tick]) = Some Pending.
Proof.
  apply (request_is_never_settled_when_the_import_fails None
           [Call (OnError 1)]
           (and_then (new_client None false) [Call (OnError 1)])
           (RunCommand "close" None) "command close"
           [Call Connect]
           (and_then (new_client None false)
              [Call (OnError 1); Call (RunCommand "close" None); Call Connect])
           0
           (and_then (new_client None false)
              [Call (OnError 1); Call (RunCommand "close" None); Call Connect;
               Env (ImportSettled 0 false); Tick; Tick; Tick; Tick])
           [Call (SendQuery "monitors"); Tick; Tick]
           (and_then (new_client None false)
              [Call (OnError 1); Call (RunCommand "close" None); Call Connect;
               Env (ImportSettled 0 false); Tick; Tick; Tick; Tick;
               Call (SendQuery "monitors"); Tick; Tick]));
    vm_compute; reflexivity.
Defined.
(* ================================================================== *)
(** * The first request of a client: the connection is made for it *)
(* ================================================================== *)




